(** * A lock-coupled binary search tree database (db.c)

    Shallow embedding of the database of [src/db.c]: a binary search tree of
    heap-allocated nodes hanging off a statically allocated sentinel [head],
    traversed hand over hand under per-node reader/writer locks, together
    with the textual command interpreter.

    The heap is a finite map from addresses to nodes; every C function is a
    computation in a state-and-error monad over a [world] holding the heap,
    the log of lock operations, the outcome of the next allocations, the
    file system and the console. *)

From Stdlib Require Import ZArith Lia Ascii String OrderedTypeEx.
From stdpp Require Import gmap strings list fin_maps sorting.

Set Warnings "-clear-no-such-hyp,-level-tolerance".

Local Open Scope Z_scope.

(** ** C strings *)

(** A [string] stands for the bytes of a C string before its terminator. *)

Definition MAXLEN : nat := 256.

(** [strcmp] compares bytes as unsigned characters; only the sign of its
    result is specified. *)
Definition strcmp (s1 s2 : string) : Z :=
  match String.compare s1 s2 with
  | Lt => -1
  | Eq => 0
  | Gt => 1
  end.

(** [snprintf(buf, size, "%s", src)]: at most [size - 1] bytes of [src] and a
    terminator are written; with [size = 0] the buffer is left alone. *)
Definition snprintf (buf : string) (size : nat) (src : string) : string :=
  match size with
  | O => buf
  | S k => String.substring 0 k src
  end.

Definition isspace (c : ascii) : bool :=
  let n := N_of_ascii c in
  ((n =? 32) || ((9 <=? n) && (n <=? 13)))%N.

Fixpoint skip_space (s : string) : string :=
  match s with
  | EmptyString => EmptyString
  | String c r => if isspace c then skip_space r else s
  end.

(** The conversion [%<width>s]: the longest run of at most [width] bytes that
    are not white space, and the rest of the input. *)
Fixpoint scan_token (width : nat) (s : string) : string * string :=
  match width, s with
  | S w, String c r =>
      if isspace c then (EmptyString, s)
      else let '(t, rest) := scan_token w r in (String c t, rest)
  | _, _ => (EmptyString, s)
  end.

Definition scan_s (width : nat) (s : string) : option (string * string) :=
  match scan_token width (skip_space s) with
  | (EmptyString, _) => None
  | (t, rest) => Some (t, rest)
  end.

(** [sscanf(input, "%255s", name)]: the number of conversions, or [EOF],
    and the token stored. *)
Definition sscanf_s (input : string) : Z * string :=
  match scan_s 255 input with
  | None => (-1, EmptyString)
  | Some (t, _) => (1, t)
  end.

(** [sscanf(input, "%255s %255s", name, value)]. *)
Definition sscanf_s_s (input : string) : Z * string * string :=
  match scan_s 255 input with
  | None => (-1, EmptyString, EmptyString)
  | Some (t1, rest) =>
      match scan_s 255 rest with
      | None => (1, t1, EmptyString)
      | Some (t2, _) => (2, t1, t2)
      end
  end.

(** [fgets(buf, size, f)] reads at most [size - 1] bytes and stops after a
    newline; [room] is the number of bytes that still fit. *)
Fixpoint fgets (room : nat) (s : string) : string * string :=
  match room, s with
  | S k, String c r =>
      if Ascii.eqb c "010"%char then (String c EmptyString, r)
      else let '(l, rest) := fgets k r in (String c l, rest)
  | _, _ => (EmptyString, s)
  end.

(** The successive buffers a [while (fgets(ibuf, size, f) != 0)] loop sees. *)
Fixpoint fgets_all (fuel : nat) (size : nat) (s : string) : list string :=
  match fuel, s with
  | S f, String _ _ =>
      let '(l, rest) := fgets (size - 1) s in l :: fgets_all f size rest
  | _, _ => []
  end.

(** ** Nodes, the heap and the world *)

(** Addresses are positive numbers. *)

(** Modelled from the spec: [db.h], which declares [node_t], is not among the
    sources.  The fields are those [db.c] uses and the initialiser of [head]
    lists: the key, the value and the two children.  A null pointer is
    [None].  The lock of a node has no field of its own: what happens to it
    is recorded in the log of lock operations of the world. *)
Record node_t := mk_node {
  name : string;
  value : string;
  lchild : option positive;
  rchild : option positive
}.

Inductive lock_t := l_read | l_write.

Inductive lock_event :=
| Acquire (lt : lock_t) (a : positive)
| Release (a : positive).

(** What the next call of [node_constructor] will meet: each of its three
    allocations, each of its two copies and the initialisation of the lock
    can fail. *)
Inductive ctor_outcome :=
| CtorOk
| NodeMallocFails
| NameMallocFails
| ValueMallocFails
| NameCopyFails
| ValueCopyFails
| LockInitFails.

Record world := mk_world {
  heap : gmap positive node_t;
  locks : list lock_event;
  faults : list ctor_outcome;
  fs : gmap string string;
  unwritable : gset string;
  console : string
}.

(** The allocator: [malloc] returns an address that is not in use. *)
Class Allocator := {
  malloc_addr : gset positive -> positive;
  malloc_fresh : forall X : gset positive, malloc_addr X ∉ X
}.

#[export] Instance fresh_allocator : Allocator :=
  {| malloc_addr := fresh; malloc_fresh := is_fresh |}.

(** The sentinel [head] lives in the data region, at an address of its own. *)
Definition head : positive := 1%positive.

Definition head_node : node_t := mk_node "" "" None None.

Definition initial_world : world :=
  mk_world {[ head := head_node ]} [] [] ∅ ∅ "".

(** ** The monad: state, and failure on a wild pointer *)

Definition M (A : Type) : Type := world -> option (A * world).

Definition ret {A} (x : A) : M A := fun w => Some (x, w).

Definition bind {A B} (m : M A) (k : A -> M B) : M B :=
  fun w => match m w with
           | Some (x, w') => k x w'
           | None => None
           end.

Definition crash {A} : M A := fun _ => None.

Notation "'let*' x ':=' m 'in' k" := (bind m (fun x => k))
  (at level 10, x name, m at level 100, k at level 200).
Notation "m ';;;' k" := (bind m (fun _ => k))
  (at level 100, k at level 200, right associativity).

Definition with_heap (f : gmap positive node_t -> gmap positive node_t) (w : world) : world :=
  mk_world (f (heap w)) (locks w) (faults w) (fs w) (unwritable w) (console w).

Definition with_event (e : lock_event) (w : world) : world :=
  mk_world (heap w) (locks w ++ [e]) (faults w) (fs w) (unwritable w) (console w).

(** [p->field] *)
Definition load (a : positive) : M node_t :=
  fun w => match heap w !! a with
           | Some n => Some (n, w)
           | None => None
           end.

Definition store (a : positive) (n : node_t) : M unit :=
  fun w => match heap w !! a with
           | Some _ => Some (tt, with_heap (insert a n) w)
           | None => None
           end.

Definition get_name (a : positive) : M string := let* n := load a in ret (name n).
Definition get_value (a : positive) : M string := let* n := load a in ret (value n).
Definition get_lchild (a : positive) : M (option positive) := let* n := load a in ret (lchild n).
Definition get_rchild (a : positive) : M (option positive) := let* n := load a in ret (rchild n).

Definition set_name (a : positive) (s : string) : M unit :=
  let* n := load a in store a (mk_node s (value n) (lchild n) (rchild n)).
Definition set_value (a : positive) (s : string) : M unit :=
  let* n := load a in store a (mk_node (name n) s (lchild n) (rchild n)).
Definition set_lchild (a : positive) (p : option positive) : M unit :=
  let* n := load a in store a (mk_node (name n) (value n) p (rchild n)).
Definition set_rchild (a : positive) (p : option positive) : M unit :=
  let* n := load a in store a (mk_node (name n) (value n) (lchild n) p).

(** The macro [lock(lt, lk)] and [pthread_rwlock_unlock], on the lock of the
    node at [a]. *)
Definition lock (lt : lock_t) (a : positive) : M unit :=
  let* _ := load a in fun w => Some (tt, with_event (Acquire lt a) w).

Definition unlock (a : positive) : M unit :=
  let* _ := load a in fun w => Some (tt, with_event (Release a) w).

(** [malloc] of a node, with its contents. *)
Definition alloc_node `{Allocator} (n : node_t) : M positive :=
  fun w => let a := malloc_addr (dom (heap w)) in
           Some (a, with_heap (insert a n) w).

Definition free (a : positive) : M unit :=
  fun w => match heap w !! a with
           | Some _ => Some (tt, with_heap (delete a) w)
           | None => None
           end.

Definition next_outcome : M ctor_outcome :=
  fun w => match faults w with
           | [] => Some (CtorOk, w)
           | o :: rest =>
               Some (o, mk_world (heap w) (locks w) rest (fs w) (unwritable w) (console w))
           end.

(** A bound on the length of any descent through a heap without cycles. *)
Definition fuel_of : M nat := fun w => Some (S (size (heap w)), w).

(** ** The database operations *)

Section Operations.
Context `{Allocator}.

(** [node_constructor]: a key or a value longer than [MAXLEN] is refused
    before anything is allocated; every later failure releases what was
    allocated, so that the heap is as it was. *)
Definition node_constructor (arg_name arg_value : string)
    (arg_left arg_right : option positive) : M (option positive) :=
  let name_len := String.length arg_name in
  let val_len := String.length arg_value in
  if ((MAXLEN <? name_len) || (MAXLEN <? val_len))%nat then ret None
  else
    let* o := next_outcome in
    match o with
    | NodeMallocFails => ret None
    | NameMallocFails => ret None
    | ValueMallocFails => ret None
    | NameCopyFails => ret None
    | ValueCopyFails => ret None
    | LockInitFails => ret None
    | CtorOk =>
        let* new_node :=
          alloc_node (mk_node (snprintf "" MAXLEN arg_name)
                              (snprintf "" MAXLEN arg_value) arg_left arg_right) in
        ret (Some new_node)
    end.

Definition node_destructor (node : positive) : M unit := free node.

(** [search]: the lock of [parent] is held on entry.  The result is the
    target, locked, or null; the value left in [*parentpp] when [parentpp]
    is not null ([want_parent]) is the second component. *)
Fixpoint search (fuel : nat) (key : string) (parent : positive)
    (want_parent : bool) (lk : lock_t) : M (option positive * option positive) :=
  match fuel with
  | O => crash
  | S fuel' =>
      let* pname := get_name parent in
      let* next :=
        (if strcmp key pname <? 0 then get_lchild parent else get_rchild parent) in
      let finish (result : option positive) :=
        if want_parent then ret (result, Some parent)
        else unlock parent ;;; ret (result, None) in
      match next with
      | None => finish None
      | Some n =>
          lock lk n ;;;
          let* nname := get_name n in
          if strcmp key nname =? 0 then finish (Some n)
          else unlock parent ;;; search fuel' key n want_parent lk
      end
  end.

Definition db_query (key : string) (result : string) (len : nat) : M string :=
  let* fuel := fuel_of in
  lock l_read head ;;;
  let* r := search fuel key head false l_read in
  match fst r with
  | None => ret (snprintf result len "not found")
  | Some target =>
      let* v := get_value target in
      unlock target ;;;
      ret (snprintf result len v)
  end.

Definition db_add (key : string) (val : string) : M Z :=
  let* fuel := fuel_of in
  lock l_write head ;;;
  let* r := search fuel key head true l_write in
  match r with
  | (Some target, Some parent) =>
      unlock target ;;;
      unlock parent ;;;
      ret 0
  | (None, Some parent) =>
      let* newnode := node_constructor key val None None in
      let* pname := get_name parent in
      (if strcmp key pname <? 0 then set_lchild parent newnode
       else set_rchild parent newnode) ;;;
      unlock parent ;;;
      ret 1
  | (_, None) => crash
  end.

(** The pointer [pnext] of [db_remove] points into a node, at one of its two
    child fields. *)
Inductive child_field := in_lchild | in_rchild.

Definition store_child (pnext : positive * child_field) (p : option positive) : M unit :=
  match snd pnext with
  | in_lchild => set_lchild (fst pnext) p
  | in_rchild => set_rchild (fst pnext) p
  end.

(** The loop of [db_remove] that walks down the left children of the right
    subtree, hand over hand. *)
Fixpoint db_remove_leftmost (fuel : nat) (next : positive)
    (pnext : positive * child_field) : M (positive * (positive * child_field)) :=
  match fuel with
  | O => crash
  | S fuel' =>
      let* l := get_lchild next in
      match l with
      | None => ret (next, pnext)
      | Some nextl =>
          lock l_write nextl ;;;
          let pnext := (next, in_lchild) in
          unlock next ;;;
          db_remove_leftmost fuel' nextl pnext
      end
  end.

Definition db_remove (key : string) : M Z :=
  let* fuel := fuel_of in
  lock l_write head ;;;
  let* r := search fuel key head true l_write in
  match r with
  | (None, Some parent) =>
      unlock parent ;;;
      ret 0
  | (Some dnode, Some parent) =>
      let* dr := get_rchild dnode in
      let* dl := get_lchild dnode in
      match dr, dl with
      | None, _ =>
          let* dname := get_name dnode in
          let* pname := get_name parent in
          (if strcmp dname pname <? 0 then set_lchild parent dl
           else set_rchild parent dl) ;;;
          unlock dnode ;;;
          node_destructor dnode ;;;
          unlock parent ;;;
          ret 1
      | Some _, None =>
          let* dname := get_name dnode in
          let* pname := get_name parent in
          (if strcmp dname pname <? 0 then set_lchild parent dr
           else set_rchild parent dr) ;;;
          unlock dnode ;;;
          node_destructor dnode ;;;
          unlock parent ;;;
          ret 1
      | Some next, Some _ =>
          unlock parent ;;;
          lock l_write next ;;;
          let* found := db_remove_leftmost fuel next (dnode, in_rchild) in
          let next := fst found in
          let pnext := snd found in
          let* nname := get_name next in
          let* dname := get_name dnode in
          set_name dnode (snprintf dname MAXLEN nname) ;;;
          let* nvalue := get_value next in
          let* dvalue := get_value dnode in
          set_value dnode (snprintf dvalue MAXLEN nvalue) ;;;
          let* nr := get_rchild next in
          store_child pnext nr ;;;
          unlock dnode ;;;
          unlock next ;;;
          node_destructor next ;;;
          ret 1
      end
  | (_, None) => crash
  end.

(** *** Printing *)

Inductive stream := to_console | to_file (path : string).

Definition fprintf (out : stream) (s : string) : M unit :=
  fun w =>
    match out with
    | to_console =>
        Some (tt, mk_world (heap w) (locks w) (faults w) (fs w) (unwritable w)
                           (console w +:+ s))
    | to_file path =>
        match fs w !! path with
        | Some old =>
            Some (tt, mk_world (heap w) (locks w) (faults w)
                               (<[path := old +:+ s]> (fs w)) (unwritable w) (console w))
        | None => None
        end
    end.

Fixpoint print_spaces (lvl : nat) (out : stream) : M unit :=
  match lvl with
  | O => ret tt
  | S l => fprintf out " " ;;; print_spaces l out
  end.

Definition newline : string := String "010"%char EmptyString.

(** [db_print_recurs]: the lock of [node], when there is one, is held on
    entry and released on exit. *)
Fixpoint db_print_recurs (fuel : nat) (node : option positive) (lvl : nat)
    (out : stream) : M unit :=
  match fuel with
  | O => crash
  | S fuel' =>
      print_spaces lvl out ;;;
      match node with
      | None => fprintf out ("(null)" +:+ newline)
      | Some a =>
          (if decide (a = head) then fprintf out ("(root)" +:+ newline)
           else
             let* n := get_name a in
             let* v := get_value a in
             fprintf out (n +:+ " " +:+ v +:+ newline)) ;;;
          let* l := get_lchild a in
          match l with Some la => lock l_read la | None => ret tt end ;;;
          db_print_recurs fuel' l (S lvl) out ;;;
          let* r := get_rchild a in
          match r with Some ra => lock l_read ra | None => ret tt end ;;;
          db_print_recurs fuel' r (S lvl) out ;;;
          unlock a
      end
  end.

(** [fopen(filename, "w+")]: the file is created or truncated, unless it
    cannot be opened for writing. *)
Definition fopen_w (path : string) : M (option stream) :=
  fun w =>
    if decide (path ∈ unwritable w) then Some (None, w)
    else Some (Some (to_file path),
               mk_world (heap w) (locks w) (faults w) (<[path := ""]> (fs w))
                        (unwritable w) (console w)).

Definition db_print (filename : option string) : M Z :=
  let* fuel := fuel_of in
  match filename with
  | None =>
      lock l_read head ;;;
      db_print_recurs fuel (Some head) 0 to_console ;;;
      ret 0
  | Some filename =>
      let filename := skip_space filename in
      match filename with
      | EmptyString =>
          lock l_read head ;;;
          db_print_recurs fuel (Some head) 0 to_console ;;;
          ret 0
      | _ =>
          let* out := fopen_w filename in
          match out with
          | None => ret (-1)
          | Some out =>
              lock l_read head ;;;
              db_print_recurs fuel (Some head) 0 out ;;;
              ret 0
          end
      end
  end.

(** *** Cleaning up *)

Fixpoint db_cleanup_recurs (fuel : nat) (node : option positive) : M unit :=
  match fuel with
  | O => crash
  | S fuel' =>
      match node with
      | None => ret tt
      | Some a =>
          let* l := get_lchild a in
          db_cleanup_recurs fuel' l ;;;
          let* r := get_rchild a in
          db_cleanup_recurs fuel' r ;;;
          node_destructor a
      end
  end.

Definition db_cleanup : M unit :=
  let* fuel := fuel_of in
  let* l := get_lchild head in
  db_cleanup_recurs fuel l ;;;
  let* r := get_rchild head in
  db_cleanup_recurs fuel r.

(** *** The command interpreter *)

Definition fopen_r (path : string) : M (option string) :=
  fun w => Some (fs w !! path, w).

Definition ill_formed : string := "ill-formed command".

(** The loop [while (fgets(ibuf, sizeof(ibuf), finput) != 0)] over the
    buffers read: [interp] runs a command and gives the response buffer. *)
Definition each_line (interp : string -> string -> M string)
    : list string -> string -> M string :=
  fix each (lines : list string) (response : string) : M string :=
    match lines with
    | [] => ret response
    | ibuf :: more => let* response := interp ibuf response in each more response
    end.

(** [interpret_command]: [fuel] bounds the nesting of command files. *)
Fixpoint interpret_command (fuel : nat) (command response : string) (len : nat)
    : M string :=
  match fuel with
  | O => crash
  | S fuel' =>
      if (String.length command <=? 1)%nat then ret (snprintf response len ill_formed)
      else
        match command with
        | EmptyString => ret (snprintf response len ill_formed)
        | String c rest =>
            if Ascii.eqb c "q" then
              let '(sscanf_ret, key) := sscanf_s rest in
              if sscanf_ret <? 1 then ret (snprintf response len ill_formed)
              else
                let* response := db_query key response len in
                if (String.length response =? 0)%nat
                then ret (snprintf response len "not found")
                else ret response
            else if Ascii.eqb c "a" then
              let '(sscanf_ret, key, val) := sscanf_s_s rest in
              if sscanf_ret <? 2 then ret (snprintf response len ill_formed)
              else
                let* added := db_add key val in
                if added =? 0 then ret (snprintf response len "already in database")
                else ret (snprintf response len "added")
            else if Ascii.eqb c "d" then
              let '(sscanf_ret, key) := sscanf_s rest in
              if sscanf_ret <? 1 then ret (snprintf response len ill_formed)
              else
                let* removed := db_remove key in
                if removed =? 0 then ret (snprintf response len "not in database")
                else ret (snprintf response len "removed")
            else if Ascii.eqb c "f" then
              let '(sscanf_ret, path) := sscanf_s rest in
              if sscanf_ret <? 1 then ret (snprintf response len ill_formed)
              else
                let* finput := fopen_r path in
                match finput with
                | None => ret (snprintf response len "bad file name")
                | Some content =>
                    let* response :=
                      each_line (fun ibuf response =>
                                   interpret_command fuel' ibuf response len)
                        (fgets_all (String.length content) MAXLEN content) response in
                    ret (snprintf response len "file processed")
                end
            else ret (snprintf response len ill_formed)
        end
  end.

End Operations.

(** ** The tree a heap holds *)

(** The abstract view of a heap: the binary tree of the nodes reached from an
    address, each with its address, key and value. *)
Inductive tree :=
| Leaf
| Node (a : positive) (k v : string) (l r : tree).

Definition root (t : tree) : option positive :=
  match t with
  | Leaf => None
  | Node a _ _ _ _ => Some a
  end.

Fixpoint addrs (t : tree) : list positive :=
  match t with
  | Leaf => []
  | Node a _ _ l r => a :: addrs l ++ addrs r
  end.

(** The keys, in order. *)
Fixpoint keys (t : tree) : list string :=
  match t with
  | Leaf => []
  | Node _ k _ l r => keys l ++ k :: keys r
  end.

Fixpoint height (t : tree) : nat :=
  match t with
  | Leaf => O
  | Node _ _ _ l r => S (Nat.max (height l) (height r))
  end.

(** [tree_at h t]: the heap [h] holds every node of [t], linked as in [t]. *)
Fixpoint tree_at (h : gmap positive node_t) (t : tree) : Prop :=
  match t with
  | Leaf => True
  | Node a k v l r =>
      h !! a = Some (mk_node k v (root l) (root r)) /\ tree_at h l /\ tree_at h r
  end.

(** The heap is exactly the tree [t]: no node is shared and none is lost. *)
Definition represents (h : gmap positive node_t) (t : tree) : Prop :=
  tree_at h t /\ NoDup (addrs t) /\ dom h = list_to_set (addrs t).

(** The invariant of the database: the heap is a tree under the sentinel,
    whose key and value are empty. *)
Definition db_tree (w : world) (l r : tree) : Prop :=
  represents (heap w) (Node head "" "" l r).

Definition db_inv (w : world) : Prop := exists l r, db_tree w l r.

(** The ordering invariant of a search tree. *)
Fixpoint ordered (t : tree) : Prop :=
  match t with
  | Leaf => True
  | Node _ k _ l r =>
      Forall (fun x => strcmp x k < 0) (keys l) /\
      Forall (fun x => strcmp k x < 0) (keys r) /\
      ordered l /\ ordered r
  end.


(** Every key stored is shorter than [MAXLEN]. *)
Definition keys_short (w : world) : Prop :=
  forall a n, heap w !! a = Some n -> (String.length (name n) < MAXLEN)%nat.

(** [finds h key p a]: the descent of [search] for [key], from the node at
    [p], whose lock is held, ends on the node at [a], whose key is [key]. *)
Inductive finds (h : gmap positive node_t) (key : string) : positive -> positive -> Prop :=
| finds_child p pn n nn :
    h !! p = Some pn ->
    (if strcmp key (name pn) <? 0 then lchild pn else rchild pn) = Some n ->
    h !! n = Some nn ->
    strcmp key (name nn) = 0 ->
    finds h key p n
| finds_below p pn n nn a :
    h !! p = Some pn ->
    (if strcmp key (name pn) <? 0 then lchild pn else rchild pn) = Some n ->
    h !! n = Some nn ->
    strcmp key (name nn) <> 0 ->
    finds h key n a ->
    finds h key p a.

(** The key [key] is in the database, with the value [v]. *)
Definition stored (w : world) (key v : string) : Prop :=
  exists a n, finds (heap w) key head a /\ heap w !! a = Some n /\ value n = v.

Definition absent (w : world) (key : string) : Prop :=
  forall a, ~ finds (heap w) key head a.

(** *** What the operations do, on trees *)

Definition add_events (evs : list lock_event) (w : world) : world :=
  mk_world (heap w) (locks w ++ evs) (faults w) (fs w) (unwritable w) (console w).

(** The descent of [search] from the root of [t]: the target, the parent
    left in [*parentpp], and the lock operations. *)
Fixpoint tsearch (key : string) (want_parent : bool) (lk : lock_t) (t : tree)
    : option positive * positive * list lock_event :=
  match t with
  | Leaf => (None, head, [])
  | Node a k _ l r =>
      let next := if strcmp key k <? 0 then l else r in
      let finish := if want_parent then [] else [Release a] in
      match next with
      | Leaf => (None, a, finish)
      | Node n nk _ _ _ =>
          if strcmp key nk =? 0 then (Some n, a, Acquire lk n :: finish)
          else
            let '(res, p, evs) := tsearch key want_parent lk next in
            (res, p, Acquire lk n :: Release a :: evs)
      end
  end.

(** The child the descent for [key] takes at the root of [t], and [t] with
    that child replaced. *)
Definition child_of (key : string) (t : tree) : tree :=
  match t with
  | Leaf => Leaf
  | Node _ k _ l r => if strcmp key k <? 0 then l else r
  end.

Definition set_child (key : string) (t c : tree) : tree :=
  match t with
  | Leaf => Leaf
  | Node a k v l r => if strcmp key k <? 0 then Node a k v c r else Node a k v l c
  end.

(** Where the descent for [key] ends: the subtree of the last parent, whose
    child on the side of [key] is missing or holds [key]. *)
Fixpoint tfocus (key : string) (t : tree) : tree :=
  match t with
  | Leaf => Leaf
  | Node a k v l r =>
      let next := if strcmp key k <? 0 then l else r in
      match next with
      | Leaf => t
      | Node _ nk _ _ _ => if strcmp key nk =? 0 then t else tfocus key next
      end
  end.

(** The tree with the subtree where the descent ends rebuilt by [f]. *)
Fixpoint tupdate (key : string) (f : tree -> tree) (t : tree) : tree :=
  match t with
  | Leaf => Leaf
  | Node a k v l r =>
      let next := if strcmp key k <? 0 then l else r in
      match next with
      | Leaf => f t
      | Node _ nk _ _ _ =>
          if strcmp key nk =? 0 then f t
          else if strcmp key k <? 0 then Node a k v (tupdate key f l) r
               else Node a k v l (tupdate key f r)
      end
  end.

(** Insertion as [db_add] links it: [new] is hung where the descent for
    [key] finds no child; a tree that holds [key] is left as it is. *)
Definition tinsert (key : string) (new : tree) (t : tree) : tree :=
  tupdate key (fun s => match child_of key s with
                        | Leaf => set_child key s new
                        | Node _ _ _ _ _ => s
                        end) t.

(** The node [node_constructor] builds at [a]. *)
Definition new_node (a : positive) (key val : string) : tree :=
  Node a (snprintf "" MAXLEN key) (snprintf "" MAXLEN val) Leaf Leaf.

(** The node at an address of a tree. *)
Fixpoint tnode (t : tree) (x : positive) : option tree :=
  match t with
  | Leaf => None
  | Node a _ _ l r =>
      if decide (x = a) then Some t
      else match tnode l x with
           | Some s => Some s
           | None => tnode r x
           end
  end.

(** [node_constructor] will build its node: the key and the value are not
    longer than [MAXLEN] and nothing fails. *)
Definition constructible (w : world) (key val : string) : Prop :=
  (String.length key <= MAXLEN)%nat /\ (String.length val <= MAXLEN)%nat /\
  hd CtorOk (faults w) = CtorOk.

#[export] Instance ctor_outcome_eq_dec : EqDecision ctor_outcome.
Proof. solve_decision. Defined.

#[export] Instance constructible_dec w key val : Decision (constructible w key val).
Proof. unfold constructible. apply _. Defined.

Definition pop_fault (w : world) : world :=
  mk_world (heap w) (locks w) (tl (faults w)) (fs w) (unwritable w) (console w).

(** The node [pn] with the child field on the side of [key] set to [c]. *)
Definition link_child (key : string) (pn : node_t) (c : option positive) : node_t :=
  if strcmp key (name pn) <? 0 then mk_node (name pn) (value pn) c (rchild pn)
  else mk_node (name pn) (value pn) (lchild pn) c.

(** What a lookup of [key] finds in a tree: the node below the last parent. *)
Definition tfound (key : string) (t : tree) : tree := child_of key (tfocus key t).

Definition tvalue (t : tree) : string :=
  match t with
  | Leaf => "not found"
  | Node _ _ v _ _ => v
  end.

(** A database that holds the key [a] with the value [1]. *)
Definition world_a1 : world :=
  mk_world (<[2%positive := mk_node "a" "1" None None]>
              {[ head := mk_node "" "" None (Some 2%positive) ]}) [] [] ∅ ∅ "".

(** *** Removal, on trees *)

(** The leftmost node of a tree, where the loop of [db_remove] stops. *)
Fixpoint tmin (t : tree) : tree :=
  match t with
  | Leaf => Leaf
  | Node _ _ _ l _ =>
      match l with
      | Leaf => t
      | Node _ _ _ _ _ => tmin l
      end
  end.

(** The tree without its leftmost node, whose right subtree takes its place. *)
Fixpoint tdelmin (t : tree) : tree :=
  match t with
  | Leaf => Leaf
  | Node a k v l r =>
      match l with
      | Leaf => r
      | Node _ _ _ _ _ => Node a k v (tdelmin l) r
      end
  end.

(** The field [pnext] points at when the loop stops, and the lock operations
    of the loop. *)
Fixpoint tmin_edge (t : tree) (pnext : positive * child_field) : positive * child_field :=
  match t with
  | Leaf => pnext
  | Node a _ _ l _ =>
      match l with
      | Leaf => pnext
      | Node _ _ _ _ _ => tmin_edge l (a, in_lchild)
      end
  end.

Fixpoint tmin_events (t : tree) : list lock_event :=
  match t with
  | Leaf => []
  | Node a _ _ l _ =>
      match l with
      | Leaf => []
      | Node n _ _ _ _ => Acquire l_write n :: Release a :: tmin_events l
      end
  end.

Definition tkey (t : tree) : string :=
  match t with
  | Leaf => ""
  | Node _ k _ _ _ => k
  end.

(** What [db_remove] leaves in the place of the node it found. *)
Definition tremove_node (d : tree) : tree :=
  match d with
  | Leaf => Leaf
  | Node a k v l r =>
      match r, l with
      | Leaf, _ => l
      | Node _ _ _ _ _, Leaf => r
      | Node _ _ _ _ _, Node _ _ _ _ _ =>
          Node a (snprintf k MAXLEN (tkey (tmin r))) (snprintf v MAXLEN (tvalue (tmin r)))
               l (tdelmin r)
      end
  end.

(** The node [db_remove] destroys. *)
Definition tfreed (d : tree) : option positive :=
  match d with
  | Leaf => None
  | Node a _ _ l r =>
      match r, l with
      | Node _ _ _ _ _, Node _ _ _ _ _ => root (tmin r)
      | _, _ => Some a
      end
  end.

(** Removal as [db_remove] does it: below the last parent of the descent,
    on the side where the key of the node found falls. *)
Definition tremove (key : string) (t : tree) : tree :=
  tupdate key (fun s => match child_of key s with
                        | Leaf => s
                        | Node _ dk _ _ _ as d => set_child dk s (tremove_node d)
                        end) t.

(** The lock operations of [db_remove] once the node is found. *)
Definition tremove_events (p : positive) (d : tree) : list lock_event :=
  match d with
  | Leaf => [Release p]
  | Node a _ _ l r =>
      match r, l with
      | Node n _ _ _ _, Node _ _ _ _ _ =>
          Release p :: Acquire l_write n :: tmin_events r
            ++ [Release a; Release (default head (root (tmin r)))]
      | _, _ => [Release a; Release p]
      end
  end.

Definition field (f : child_field) (n : node_t) : option positive :=
  match f with
  | in_lchild => lchild n
  | in_rchild => rchild n
  end.

Definition set_field (f : child_field) (n : node_t) (c : option positive) : node_t :=
  match f with
  | in_lchild => mk_node (name n) (value n) c (rchild n)
  | in_rchild => mk_node (name n) (value n) (lchild n) c
  end.

(** Every key of the tree is shorter than [MAXLEN]. *)
Definition keys_bounded (t : tree) : Prop :=
  Forall (fun k => (String.length k < MAXLEN)%nat) (keys t).

(** The invariant of the ordered map: the heap is a search tree under the
    sentinel, and no key is longer than a node can hold. *)
Definition db_ordered (w : world) : Prop :=
  exists l r, db_tree w l r /\ ordered (Node head "" "" l r) /\
              keys_bounded (Node head "" "" l r).

(** The sentinel is in the heap, with its empty key and value. *)
Definition sentinel_intact (w : world) : Prop :=
  exists lc rc, heap w !! head = Some (mk_node "" "" lc rc).


(** *** A scenario: seven keys, each with itself as value *)

Fixpoint insert_all `{Allocator} (ks : list string) : M unit :=
  match ks with
  | [] => ret tt
  | k :: rest => db_add k k ;;; insert_all rest
  end.

Definition seven_keys : list string := ["d"; "b"; "a"; "c"; "f"; "e"; "g"].

(** Insert the seven keys, remove [d], look [d] and [e] up, and dump. *)
Definition two_children_scenario `{Allocator} : M (Z * string * string) :=
  insert_all seven_keys ;;;
  let* removed := db_remove "d" in
  let* found_d := db_query "d" "" 512 in
  let* found_e := db_query "e" "" 512 in
  db_print None ;;;
  ret (removed, found_d, found_e).

(** *** Printing, on trees *)

Fixpoint spaces (lvl : nat) : string :=
  match lvl with
  | O => ""
  | S l => " " +:+ spaces l
  end.

(** What [db_print_recurs] writes for a tree, at an indentation. *)
Fixpoint tprint (lvl : nat) (t : tree) : string :=
  match t with
  | Leaf => spaces lvl +:+ "(null)" +:+ newline
  | Node a k v l r =>
      spaces lvl
        +:+ (if decide (a = head) then "(root)" +:+ newline
             else k +:+ " " +:+ v +:+ newline)
        +:+ tprint (S lvl) l +:+ tprint (S lvl) r
  end.

(** The lock operations of [db_print_recurs] on a tree whose root is locked. *)
Fixpoint tprint_events (t : tree) : list lock_event :=
  match t with
  | Leaf => []
  | Node a _ _ l r =>
      match root l with Some la => [Acquire l_read la] | None => [] end
        ++ tprint_events l
        ++ match root r with Some ra => [Acquire l_read ra] | None => [] end
        ++ tprint_events r
        ++ [Release a]
  end.

(** What has been written to a stream, and the world with more written. *)
Definition written (out : stream) (w : world) : option string :=
  match out with
  | to_console => Some (console w)
  | to_file path => fs w !! path
  end.

Definition write (out : stream) (s : string) (w : world) : world :=
  match out with
  | to_console =>
      mk_world (heap w) (locks w) (faults w) (fs w) (unwritable w) (console w +:+ s)
  | to_file path =>
      mk_world (heap w) (locks w) (faults w)
               (<[path := default "" (fs w !! path) +:+ s]> (fs w)) (unwritable w) (console w)
  end.

(** The stream [db_print] writes to. *)
Definition print_target (filename : option string) : stream :=
  match filename with
  | None => to_console
  | Some filename =>
      match skip_space filename with
      | EmptyString => to_console
      | path => to_file path
      end
  end.

(** The lines of a dump: the indentation and what the line shows. *)
Inductive line :=
| null_line
| root_line
| node_line (k v : string).

Definition render (ln : nat * line) : string :=
  spaces (fst ln)
    +:+ match snd ln with
        | null_line => "(null)" +:+ newline
        | root_line => "(root)" +:+ newline
        | node_line k v => k +:+ " " +:+ v +:+ newline
        end.

Fixpoint render_all (lns : list (nat * line)) : string :=
  match lns with
  | [] => ""
  | ln :: rest => render ln +:+ render_all rest
  end.

(** The lines of the dump of a tree, in preorder. *)
Fixpoint tlines (lvl : nat) (t : tree) : list (nat * line) :=
  match t with
  | Leaf => [(lvl, null_line)]
  | Node a k v l r =>
      (lvl, if decide (a = head) then root_line else node_line k v)
        :: tlines (S lvl) l ++ tlines (S lvl) r
  end.





Definition strictly_increasing (ks : list string) : Prop :=
  StronglySorted (fun a b => strcmp a b < 0) ks.


(** The heap without the nodes at the addresses of a list. *)
Definition drop_all (l : list positive) (h : gmap positive node_t) : gmap positive node_t :=
  foldr delete h l.

(** *** The discipline of the locks *)

(** The locks a thread holds, most recent first, as a log is replayed. *)
Fixpoint release (a : positive) (held : list positive) : list positive :=
  match held with
  | [] => []
  | x :: rest => if decide (x = a) then rest else x :: release a rest
  end.

Fixpoint replay (held : list positive) (evs : list lock_event) : list positive :=
  match evs with
  | [] => held
  | Acquire _ a :: rest => replay (a :: held) rest
  | Release a :: rest => replay (release a held) rest
  end.

(** The largest number of locks held at once. *)
Fixpoint peak (held : list positive) (evs : list lock_event) : nat :=
  match evs with
  | [] => length held
  | Acquire _ a :: rest => Nat.max (length held) (peak (a :: held) rest)
  | Release a :: rest => Nat.max (length held) (peak (release a held) rest)
  end.

Definition is_child (h : gmap positive node_t) (p a : positive) : bool :=
  match h !! p with
  | Some n => bool_decide (lchild n = Some a \/ rchild n = Some a)
  | None => false
  end.

(** Lock coupling over the heap [h]: a lock is taken only when it is not
    held and, unless it is the first, while the lock of the parent of its
    node is held; a lock is released only when it is held. *)
Fixpoint coupled (h : gmap positive node_t) (held : list positive)
    (evs : list lock_event) : bool :=
  match evs with
  | [] => true
  | Acquire _ a :: rest =>
      bool_decide (a ∉ held)
        && (match held with [] => true | _ => existsb (fun p => is_child h p a) held end)
        && coupled h (a :: held) rest
  | Release a :: rest => bool_decide (a ∈ held) && coupled h (release a held) rest
  end.

(** The descent for [key'] takes the turns of the descent for [key] in [t]
    and stops nowhere the descent for [key] goes on. *)
Fixpoint same_path (key key' : string) (t : tree) : Prop :=
  match t with
  | Leaf => True
  | Node _ k _ l r =>
      (strcmp key' k <? 0) = (strcmp key k <? 0) /\
      let next := if strcmp key k <? 0 then l else r in
      match next with
      | Leaf => True
      | Node _ nk _ _ _ =>
          if strcmp key nk =? 0 then True
          else strcmp key' nk <> 0 /\ same_path key key' next
      end
  end.

(** The tree of the scenario once [d] is removed: the node that held [d]
    holds the key and the value of [e]. *)
Definition after_removal : tree :=
  Node 2 "e" "e"
    (Node 3 "b" "b" (Node 4 "a" "a" Leaf Leaf) (Node 5 "c" "c" Leaf Leaf))
    (Node 6 "f" "f" Leaf (Node 8 "g" "g" Leaf Leaf)).

(** A key of [n] bytes. *)
Fixpoint long_key (n : nat) : string :=
  match n with
  | O => ""
  | S k => String "k" (long_key k)
  end.

(** The world in which the next allocation of a node fails. *)
Definition world_out_of_memory : world :=
  mk_world {[ head := head_node ]} [] [NodeMallocFails] ∅ ∅ "".

(** The states a program reaches: from an empty database, by the public
    operations. *)
Inductive reachable `{Allocator} : world -> Prop :=
| reach_initial fl f u c :
    reachable (mk_world {[ head := head_node ]} [] fl f u c)
| reach_query w key buf len res w' :
    reachable w -> db_query key buf len w = Some (res, w') -> reachable w'
| reach_add w key val added w' :
    reachable w -> db_add key val w = Some (added, w') -> reachable w'
| reach_remove w key removed w' :
    reachable w -> db_remove key w = Some (removed, w') -> reachable w'
| reach_print w filename printed w' :
    reachable w -> db_print filename w = Some (printed, w') -> reachable w'.

(** The database once [a] is added with the value [1] to the empty one. *)
Definition world_after_add : world :=
  match db_add "a" "1" initial_world with
  | Some (_, w) => w
  | None => initial_world
  end.

(** The database of the scenario, with its seven keys. *)
Definition world_seven : world :=
  match insert_all seven_keys initial_world with
  | Some (_, w) => w
  | None => initial_world
  end.

(** *** The commands *)

Fixpoint has_space (s : string) : bool :=
  match s with
  | EmptyString => false
  | String c r => isspace c || has_space r
  end.

(** The values of the database are tokens: none holds white space. *)
Definition values_are_tokens (w : world) : Prop :=
  forall a n, heap w !! a = Some n -> has_space (value n) = false.

(** What a command line asks for, as the specification reads it: the first
    byte selects the operation and the tokens of the remainder are its
    arguments; this is compared with [interpret_command] below. *)
Inductive request :=
| Query (key : string)
| Add (key val : string)
| Delete (key : string)
| File (path : string)
| IllFormed.

Definition one_token (rest : string) (op : string -> request) : request :=
  match scan_s 255 rest with
  | Some (t, _) => op t
  | None => IllFormed
  end.

Definition two_tokens (rest : string) (op : string -> string -> request) : request :=
  match scan_s 255 rest with
  | Some (t1, rest1) =>
      match scan_s 255 rest1 with
      | Some (t2, _) => op t1 t2
      | None => IllFormed
      end
  | None => IllFormed
  end.

Definition request_of (command : string) : request :=
  match command with
  | EmptyString => IllFormed
  | String _ EmptyString => IllFormed
  | String c rest =>
      if Ascii.eqb c "q" then one_token rest Query
      else if Ascii.eqb c "a" then two_tokens rest Add
      else if Ascii.eqb c "d" then one_token rest Delete
      else if Ascii.eqb c "f" then one_token rest File
      else IllFormed
  end.

(** The three ways a command line is ill formed, as the specification lists
    them: the line has at most one byte, its first byte is none of [q], [a],
    [d] and [f], or the tokens the operation needs cannot be read. *)
Definition command_byte (c : ascii) : bool :=
  Ascii.eqb c "q" || Ascii.eqb c "a" || Ascii.eqb c "d" || Ascii.eqb c "f".

Definition tokens_needed (c : ascii) : Z := if Ascii.eqb c "a" then 2 else 1.

Definition tokens_read (c : ascii) (rest : string) : Z :=
  if Ascii.eqb c "a" then fst (fst (sscanf_s_s rest)) else fst (sscanf_s rest).

Definition malformed (command : string) : bool :=
  match command with
  | EmptyString => true
  | String c rest =>
      (String.length command <=? 1)%nat
      || negb (command_byte c)
      || (tokens_read c rest <? tokens_needed c)
  end.

(** A command file that names no command file. *)
Definition flat (lines : list string) : Prop :=
  Forall (fun ibuf => match request_of ibuf with File _ => False | _ => True end) lines.

(** What [interpret_command] does for a request. *)
Definition serve `{Allocator} (fuel : nat) (rq : request) (response : string) (len : nat)
    : M string :=
  match rq with
  | Query key =>
      let* response := db_query key response len in
      if (String.length response =? 0)%nat then ret (snprintf response len "not found")
      else ret response
  | Add key val =>
      let* added := db_add key val in
      if added =? 0 then ret (snprintf response len "already in database")
      else ret (snprintf response len "added")
  | Delete key =>
      let* removed := db_remove key in
      if removed =? 0 then ret (snprintf response len "not in database")
      else ret (snprintf response len "removed")
  | File path =>
      let* finput := fopen_r path in
      match finput with
      | None => ret (snprintf response len "bad file name")
      | Some content =>
          let* response :=
            each_line (fun ibuf response => interpret_command fuel ibuf response len)
              (fgets_all (String.length content) MAXLEN content) response in
          ret (snprintf response len "file processed")
      end
  | IllFormed => ret (snprintf response len ill_formed)
  end.

(** Every value of a tree is a token. *)
Fixpoint tokens (t : tree) : Prop :=
  match t with
  | Leaf => True
  | Node _ _ v l r => has_space v = false /\ tokens l /\ tokens r
  end.

(** *** The database as a sorted list of entries *)

(** The keys and values of a tree, read in order. *)
Fixpoint items (t : tree) : list (string * string) :=
  match t with
  | Leaf => []
  | Node _ k v l r => items l ++ (k, v) :: items r
  end.

(** The tree a heap holds below an address, read off the heap. *)
Fixpoint tree_of (fuel : nat) (h : gmap positive node_t) (a : option positive) : tree :=
  match fuel, a with
  | S fuel', Some x =>
      match h !! x with
      | Some n => Node x (name n) (value n) (tree_of fuel' h (lchild n))
                       (tree_of fuel' h (rchild n))
      | None => Leaf
      end
  | _, _ => Leaf
  end.

(** The entries of the database: those of the nodes below the sentinel. *)
Definition entries (w : world) : list (string * string) :=
  match tree_of (S (size (heap w))) (heap w) (Some head) with
  | Node _ _ _ l r => items l ++ items r
  | Leaf => []
  end.

(** The first value a list of entries gives a key. *)
Fixpoint assoc (key : string) (l : list (string * string)) : option string :=
  match l with
  | [] => None
  | (k, v) :: rest => if String.eqb key k then Some v else assoc key rest
  end.

(** The entry put at its place in a sorted list. *)
Fixpoint insert_entry (key val : string) (l : list (string * string))
    : list (string * string) :=
  match l with
  | [] => [(key, val)]
  | (k, v) :: rest =>
      if strcmp key k <? 0 then (key, val) :: l else (k, v) :: insert_entry key val rest
  end.

(** Every value stored is shorter than [MAXLEN]. *)
Definition values_short (w : world) : Prop :=
  forall a n, heap w !! a = Some n -> (String.length (value n) < MAXLEN)%nat.

(** The keys and the values of a tree are shorter than [MAXLEN]. *)
Definition short_entries (t : tree) : Prop :=
  Forall (fun p => (String.length p.1 < MAXLEN)%nat /\ (String.length p.2 < MAXLEN)%nat)
         (items t).

(** The lock operations of [db_print_recurs] on a child: its lock is taken,
    when there is a child, and the child is printed. *)
Definition tprint_child (c : tree) : list lock_event :=
  match root c with Some x => [Acquire l_read x] | None => [] end ++ tprint_events c.

(** Every lock a log takes is taken in the mode [lt]. *)
Definition takes_only (lt : lock_t) (evs : list lock_event) : Prop :=
  Forall (fun e => match e with Acquire lt' _ => lt' = lt | Release _ => True end) evs.

(** A token as [sscanf] reads it whole: not empty, without white space, of
    255 bytes at most. *)
Definition token (s : string) : Prop :=
  s <> "" /\ has_space s = false /\ (String.length s <= 255)%nat.

(** ** The list of client threads (server.c) *)

Module Server.

Definition STOPPED : Z := 1.
Definition CONTINUE : Z := 0.

(** [client_t]: the thread, the stream of its connection, and its place in
    the list of clients.  A null pointer is [None]. *)
Record client_t := mk_client {
  thread : positive;
  cxstr : positive;
  prev : option positive;
  next : option positive
}.

Inductive mutex_t := server_mutex | thread_list_mutex | go_mutex.

(** What the server does that is seen from outside its variables: the
    operations on its mutexes and condition variables, the cancellation of
    a thread, and [comm_shutdown] on a stream.  These calls are taken to
    succeed; their failure ends the process in [handle_error_en]. *)
Inductive event :=
| MutexLock (m : mutex_t)
| MutexUnlock (m : mutex_t)
| Cancel (t : positive)
| CommShutdown (stream : positive)
| CondSignal
| CondBroadcast.

(** The global variables of the server, the allocated [client_t], and the
    log of events.  [num_client_threads] is an [int]; its overflow, which C
    leaves undefined, is out of reach of any list that fits in memory. *)
Record state := mk_state {
  clients : gmap positive client_t;
  thread_list_head : option positive;
  num_client_threads : Z;
  server_status : Z;
  stopped : Z;
  trace : list event
}.

Definition M (A : Type) : Type := state -> option (A * state).

Definition ret {A} (x : A) : M A := fun s => Some (x, s).

Definition bind {A B} (m : M A) (k : A -> M B) : M B :=
  fun s => match m s with
           | Some (x, s') => k x s'
           | None => None
           end.

Definition crash {A} : M A := fun _ => None.

Notation "'let!' x ':=' m 'in' k" := (bind m (fun x => k))
  (at level 10, x name, m at level 100, k at level 200).
Notation "m ';;!' k" := (bind m (fun _ => k))
  (at level 100, k at level 200, right associativity).

Definition emit (e : event) : M unit :=
  fun s => Some (tt, mk_state (clients s) (thread_list_head s) (num_client_threads s)
                              (server_status s) (stopped s) (trace s ++ [e])).

(** [p->field]: a null or freed pointer faults. *)
Definition load (p : option positive) : M client_t :=
  fun s => match p with
           | Some a => match clients s !! a with
                       | Some c => Some (c, s)
                       | None => None
                       end
           | None => None
           end.

Definition store (p : option positive) (c : client_t) : M unit :=
  fun s => match p with
           | Some a =>
               match clients s !! a with
               | Some _ =>
                   Some (tt, mk_state (<[a := c]> (clients s)) (thread_list_head s)
                                      (num_client_threads s) (server_status s) (stopped s)
                                      (trace s))
               | None => None
               end
           | None => None
           end.

Definition get_next (p : option positive) : M (option positive) :=
  let! c := load p in ret (next c).
Definition get_prev (p : option positive) : M (option positive) :=
  let! c := load p in ret (prev c).
Definition get_thread (p : option positive) : M positive :=
  let! c := load p in ret (thread c).
Definition get_cxstr (p : option positive) : M positive :=
  let! c := load p in ret (cxstr c).

Definition set_next (p q : option positive) : M unit :=
  let! c := load p in store p (mk_client (thread c) (cxstr c) (prev c) q).
Definition set_prev (p q : option positive) : M unit :=
  let! c := load p in store p (mk_client (thread c) (cxstr c) q (next c)).

Definition get_head : M (option positive) := fun s => Some (thread_list_head s, s).

Definition set_head (p : option positive) : M unit :=
  fun s => Some (tt, mk_state (clients s) p (num_client_threads s) (server_status s)
                              (stopped s) (trace s)).

Definition get_num : M Z := fun s => Some (num_client_threads s, s).

Definition set_num (n : Z) : M unit :=
  fun s => Some (tt, mk_state (clients s) (thread_list_head s) n (server_status s)
                              (stopped s) (trace s)).

Definition get_status : M Z := fun s => Some (server_status s, s).

Definition set_stopped (v : Z) : M unit :=
  fun s => Some (tt, mk_state (clients s) (thread_list_head s) (num_client_threads s)
                              (server_status s) v (trace s)).

Definition free (p : option positive) : M unit :=
  fun s => match p with
           | Some a =>
               match clients s !! a with
               | Some _ =>
                   Some (tt, mk_state (delete a (clients s)) (thread_list_head s)
                                      (num_client_threads s) (server_status s) (stopped s)
                                      (trace s))
               | None => None
               end
           | None => None
           end.

(** [client_control_stop] and [client_control_release]. *)
Definition client_control_stop : M unit :=
  emit (MutexLock go_mutex) ;;!
  set_stopped STOPPED ;;!
  emit (MutexUnlock go_mutex).

Definition client_control_release : M unit :=
  emit (MutexLock go_mutex) ;;!
  set_stopped CONTINUE ;;!
  emit CondBroadcast ;;!
  emit (MutexUnlock go_mutex).

(** [client_destructor]. *)
Definition client_destructor (client : option positive) : M unit :=
  let! stream := get_cxstr client in
  emit (CommShutdown stream) ;;!
  free client.

(** The start of [run_client]: the test of [server_status] and, when the
    server still accepts clients, the block under the two mutexes, where
    the client is added at the end of the list and counted.  The result
    tells whether it was. *)
Definition run_client_register (client : option positive) : M bool :=
  let! status := get_status in
  if negb (status =? STOPPED) then
    emit (MutexLock server_mutex) ;;!
    emit (MutexLock thread_list_mutex) ;;!
    let! hd := get_head in
    match hd with
    | None =>
        set_head client ;;!
        let! hd := get_head in
        set_next hd hd ;;!
        let! hd := get_head in
        set_prev hd hd
    | Some _ =>
        let! hd := get_head in
        set_next client hd ;;!
        let! hd := get_head in
        let! hp := get_prev hd in
        set_prev client hp ;;!
        let! hd := get_head in
        let! hn := get_next hd in
        (if bool_decide (hn = hd) then
           let! hd := get_head in
           set_next hd client
         else
           let! hd := get_head in
           let! hp := get_prev hd in
           set_next hp client) ;;!
        let! hd := get_head in
        set_prev hd client
    end ;;!
    emit (MutexUnlock thread_list_mutex) ;;!
    let! num := get_num in
    set_num (num + 1) ;;!
    emit (MutexUnlock server_mutex) ;;!
    ret true
  else ret false.

(** The loop [while(temp != thread_list_head)] of [delete_all]. *)
Fixpoint delete_all_loop (fuel : nat) (temp : option positive) : M unit :=
  match fuel with
  | O => crash
  | S fuel' =>
      let! hd := get_head in
      if bool_decide (temp <> hd) then
        let to_cancel := temp in
        let! temp := get_next temp in
        let! t := get_thread to_cancel in
        emit (Cancel t) ;;!
        delete_all_loop fuel' temp
      else ret tt
  end.

(** [delete_all]: [fuel] bounds the turns of its loop. *)
Definition delete_all (fuel : nat) : M unit :=
  emit (MutexLock thread_list_mutex) ;;!
  let! hd := get_head in
  match hd with
  | None => emit (MutexUnlock thread_list_mutex)
  | Some _ =>
      let! hd := get_head in
      let! temp := get_next hd in
      delete_all_loop fuel temp ;;!
      let! hd := get_head in
      let! t := get_thread hd in
      emit (Cancel t) ;;!
      emit (MutexUnlock thread_list_mutex)
  end.

(** The loop [while(curr != client)] of [thread_cleanup]. *)
Fixpoint thread_cleanup_find (fuel : nat) (client curr prev : option positive)
    : M (option positive * option positive) :=
  match fuel with
  | O => crash
  | S fuel' =>
      if bool_decide (curr <> client) then
        let prev := curr in
        let! curr := get_next curr in
        thread_cleanup_find fuel' client curr prev
      else ret (curr, prev)
  end.

(** [thread_cleanup]: [fuel] bounds the turns of its loop. *)
Definition thread_cleanup (fuel : nat) (client : option positive) : M unit :=
  emit (MutexLock server_mutex) ;;!
  emit (MutexLock thread_list_mutex) ;;!
  let! num := get_num in
  (if negb (num =? 0) then
     let! hd := get_head in
     let! found := thread_cleanup_find fuel client hd None in
     let curr := fst found in
     let prev := snd found in
     let! cn := get_next curr in
     let! hd := get_head in
     (if bool_decide (cn = hd) && bool_decide (prev = None) then
        set_head None
      else if bool_decide (curr = hd) then
        let! prev := get_prev hd in
        let! hn := get_next hd in
        set_head hn ;;!
        let! hd := get_head in
        set_next prev hd ;;!
        let! hd := get_head in
        set_prev hd prev
      else if bool_decide (cn = hd) then
        set_next prev hd ;;!
        let! hd := get_head in
        set_prev hd prev
      else
        let! cp := get_prev curr in
        let! cn := get_next curr in
        set_next cp cn ;;!
        let! cn := get_next curr in
        let! cp := get_prev curr in
        set_prev cn cp) ;;!
     client_destructor curr ;;!
     let! num := get_num in
     set_num (num - 1) ;;!
     let! num := get_num in
     if num =? 0 then emit CondSignal else ret tt
   else ret tt) ;;!
  emit (MutexUnlock thread_list_mutex) ;;!
  emit (MutexUnlock server_mutex).

(** *** The list the pointers make *)

(** [dseg h pv cs nx]: the clients [cs] are linked in this order, the one
    before the first being [pv] and the one after the last [nx]. *)
Fixpoint dseg (h : gmap positive client_t) (pv : positive) (cs : list positive)
    (nx : positive) : Prop :=
  match cs with
  | [] => True
  | c :: rest =>
      exists n, h !! c = Some n /\ prev n = Some pv /\ next n = Some (List.hd nx rest) /\
                dseg h c rest nx
  end.

(** The circular list: the last client is before the first and the first
    after the last. *)
Definition ring (h : gmap positive client_t) (cs : list positive) : Prop :=
  match cs with
  | [] => True
  | c :: rest => dseg h (List.last rest c) cs c
  end.

(** The clients [cs] are registered, in this order from the head. *)
Definition registered (s : state) (cs : list positive) : Prop :=
  thread_list_head s = cs !! 0%nat /\ NoDup cs /\ ring (clients s) cs /\
  num_client_threads s = Z.of_nat (length cs).

(** The threads of the clients of a list. *)
Definition threads (h : gmap positive client_t) (cs : list positive) : list positive :=
  omap (fun c => thread <$> h !! c) cs.

(** The state with other clients, and with more events. *)
Definition with_clients (h : gmap positive client_t) (s : state) : state :=
  mk_state h (thread_list_head s) (num_client_threads s) (server_status s) (stopped s)
           (trace s).

Definition add_trace (evs : list event) (s : state) : state :=
  mk_state (clients s) (thread_list_head s) (num_client_threads s) (server_status s)
           (stopped s) (trace s ++ evs).

Definition upd_next (c : client_t) (q : option positive) : client_t :=
  mk_client (thread c) (cxstr c) (prev c) q.

Definition upd_prev (c : client_t) (q : option positive) : client_t :=
  mk_client (thread c) (cxstr c) q (next c).

End Server.

(** Two clients in the list, and a third that [client_constructor] has
    allocated and that is not in it yet. *)
Definition server_two_clients : Server.state :=
  Server.mk_state
    {[ 1%positive := Server.mk_client 11 21 (Some 2%positive) (Some 2%positive);
       2%positive := Server.mk_client 12 22 (Some 1%positive) (Some 1%positive);
       3%positive := Server.mk_client 13 23 None None ]}
    (Some 1%positive) 2 Server.CONTINUE Server.CONTINUE [].

(** The clients [order] run [thread_cleanup] one after the other: it runs
    under [server_mutex], so that no two clients are in it together. *)
Fixpoint thread_cleanup_each (fuel : nat) (order : list positive) : Server.M unit :=
  match order with
  | [] => Server.ret tt
  | c :: rest =>
      Server.bind (Server.thread_cleanup fuel (Some c))
                  (fun _ => thread_cleanup_each fuel rest)
  end.

(** The events on a mutex. *)
Definition on_mutex (e : Server.event) : bool :=
  match e with
  | Server.MutexLock _ | Server.MutexUnlock _ => true
  | _ => false
  end.

(** The tree of the scenario, with its seven keys. *)
Definition tree_seven : tree :=
  Node 2 "d" "d"
    (Node 3 "b" "b" (Node 4 "a" "a" Leaf Leaf) (Node 5 "c" "c" Leaf Leaf))
    (Node 6 "f" "f" (Node 7 "e" "e" Leaf Leaf) (Node 8 "g" "g" Leaf Leaf)).

(** Hand-over-hand locking over the heap [h], with the locks [held]: a lock
    is taken only when it is not held and while the lock of the parent of
    its node is held, and a lock is released only when it is held.  No lock
    is taken when none is held. *)
Fixpoint chained (h : gmap positive node_t) (held : list positive)
    (evs : list lock_event) : bool :=
  match evs with
  | [] => true
  | Acquire _ a :: rest =>
      bool_decide (a ∉ held)
        && existsb (fun p => is_child h p a) held
        && chained h (a :: held) rest
  | Release a :: rest => bool_decide (a ∈ held) && chained h (release a held) rest
  end.

(** The log of an operation that goes down the tree hand over hand: the
    first lock it takes is that of the sentinel, and every other lock is
    taken while the lock of the parent is held. *)
Definition hand_over_hand (h : gmap positive node_t) (evs : list lock_event) : bool :=
  match evs with
  | Acquire _ a :: rest => bool_decide (a = head) && chained h [a] rest
  | _ => false
  end.

(** The locks a descent holds at once, at most: that of the sentinel alone
    when the sentinel has no right child, and two otherwise. *)
Definition descent_locks (w : world) : nat :=
  match heap w !! head with
  | Some hn => match rchild hn with Some _ => 2 | None => 1 end
  | None => 0
  end.

(** *** Command lines and command files, as they are written *)

(** White space only. *)
Fixpoint blank (s : string) : bool :=
  match s with
  | EmptyString => true
  | String c r => isspace c && blank r
  end.

(** Where a token ends: at the end of the input, or before white space. *)
Definition token_end (rest : string) : Prop :=
  match rest with
  | EmptyString => True
  | String c _ => isspace c = true
  end.

(** No byte of the text is a newline. *)
Fixpoint no_newline (s : string) : bool :=
  match s with
  | EmptyString => true
  | String c r => negb (Ascii.eqb c "010"%char) && no_newline r
  end.

(** A text: lines, each ended by a newline. *)
Fixpoint text (ls : list string) : string :=
  match ls with
  | [] => ""
  | l :: rest => l +:+ newline +:+ text rest
  end.

(** The requests of a list served one after the other, each with the
    response buffer the one before left: what a command file asks for, to be
    compared with what [interpret_command] does of its lines. *)
Fixpoint serve_all `{Allocator} (fuel : nat) (rqs : list request) (response : string)
    (len : nat) : M string :=
  match rqs with
  | [] => ret response
  | rq :: more =>
      let* response := serve fuel rq response len in
      serve_all fuel more response len
  end.

(** The database that holds [a], and a file of two commands. *)
Definition world_batch : world :=
  mk_world (heap world_a1) [] [] {[ "cmds" := text ["a b 2"; "q b"] ]} ∅ "".

(** *** A dump, read back *)

(** The program writes its dumps and never reads them.  The reader below
    follows the format [db_print_recurs] writes: one line for each node and
    for each missing child, indented by one blank for each level, that holds
    [(root)], [(null)], or a key, a blank and a value. *)












(** ** Strings and their order *)

Lemma strcmp_refl s : strcmp s s = 0.
Proof.
  unfold strcmp.
  pose proof (proj2 (String_as_OT.cmp_eq s s) eq_refl) as E.
  unfold String_as_OT.cmp in E. now rewrite E.
Qed.

Lemma strcmp_eq s1 s2 : strcmp s1 s2 = 0 <-> s1 = s2.
Proof.
  split; [|intros ->; apply strcmp_refl].
  unfold strcmp. destruct (String.compare s1 s2) eqn:E; try discriminate.
  intros _. now apply String_as_OT.cmp_eq.
Qed.

Lemma strcmp_lt_iff s1 s2 : strcmp s1 s2 < 0 <-> String.compare s1 s2 = Lt.
Proof. unfold strcmp. destruct (String.compare s1 s2); split; (lia || discriminate || auto). Qed.

Lemma strcmp_antisym s1 s2 : strcmp s1 s2 = - strcmp s2 s1.
Proof.
  unfold strcmp. rewrite String.compare_antisym.
  destruct (String.compare s2 s1); reflexivity.
Qed.

Lemma strcmp_trans s1 s2 s3 : strcmp s1 s2 < 0 -> strcmp s2 s3 < 0 -> strcmp s1 s3 < 0.
Proof.
  rewrite !strcmp_lt_iff. intros H1 H2.
  apply String_as_OT.cmp_lt in H1, H2. apply String_as_OT.cmp_lt.
  eapply String_as_OT.lt_trans; eauto.
Qed.

Lemma strcmp_empty_l s : strcmp "" s < 0 <-> s <> "".
Proof.
  destruct s; simpl.
  - split; [intros H; exfalso; revert H; unfold strcmp; simpl; lia | congruence].
  - split; [congruence | intros _; unfold strcmp; simpl; lia].
Qed.

Lemma strcmp_empty_r s : (strcmp s "" <? 0) = false.
Proof. destruct s; reflexivity. Qed.

(** ** The monad and the heap *)

Lemma add_events_nil w : add_events [] w = w.
Proof. destruct w. unfold add_events. simpl. now rewrite app_nil_r. Qed.

Lemma add_events_app e1 e2 w : add_events e2 (add_events e1 w) = add_events (e1 ++ e2) w.
Proof. unfold add_events. simpl. now rewrite app_assoc. Qed.

Lemma with_event_add e w : with_event e w = add_events [e] w.
Proof. reflexivity. Qed.

Lemma load_at w a n : heap w !! a = Some n -> load a w = Some (n, w).
Proof. unfold load. now intros ->. Qed.

Lemma lock_at lk w a n :
  heap w !! a = Some n -> lock lk a w = Some (tt, add_events [Acquire lk a] w).
Proof. unfold lock, bind, load. now intros ->. Qed.

Lemma unlock_at w a n :
  heap w !! a = Some n -> unlock a w = Some (tt, add_events [Release a] w).
Proof. unfold unlock, bind, load. now intros ->. Qed.

Lemma get_name_at w a n : heap w !! a = Some n -> get_name a w = Some (name n, w).
Proof. unfold get_name, bind, load, ret. now intros ->. Qed.

Lemma get_value_at w a n : heap w !! a = Some n -> get_value a w = Some (value n, w).
Proof. unfold get_value, bind, load, ret. now intros ->. Qed.

Lemma get_lchild_at w a n : heap w !! a = Some n -> get_lchild a w = Some (lchild n, w).
Proof. unfold get_lchild, bind, load, ret. now intros ->. Qed.

Lemma get_rchild_at w a n : heap w !! a = Some n -> get_rchild a w = Some (rchild n, w).
Proof. unfold get_rchild, bind, load, ret. now intros ->. Qed.

Lemma bind_some {A B} (m : M A) (k : A -> M B) w x w' :
  m w = Some (x, w') -> bind m k w = k x w'.
Proof. unfold bind. now intros ->. Qed.

(** ** Trees in the heap *)

Lemma tree_at_root h t a : tree_at h t -> root t = Some a -> is_Some (h !! a).
Proof. destruct t; simpl; [discriminate|]. intros [Ha _] [= ->]. eauto. Qed.

Lemma tree_at_ext h h' t :
  (forall a, a ∈ addrs t -> h' !! a = h !! a) -> tree_at h t -> tree_at h' t.
Proof.
  induction t as [|a k v l IHl r IHr]; simpl; auto.
  intros Hsame (Ha & Hl & Hr). split; [|split].
  - rewrite Hsame; auto. left.
  - apply IHl; auto. intros x Hx. apply Hsame. right. apply elem_of_app. auto.
  - apply IHr; auto. intros x Hx. apply Hsame. right. apply elem_of_app. auto.
Qed.

(** The descent of [search] in the heap is the descent in the tree. *)
Lemma search_tree `{Allocator} key want_parent lk t :
  forall fuel w a res p evs,
    tree_at (heap w) t ->
    (height t <= fuel)%nat ->
    root t = Some a ->
    tsearch key want_parent lk t = (res, p, evs) ->
    search fuel key a want_parent lk w =
      Some ((res, if want_parent then Some p else None), add_events evs w).
Proof.
  induction t as [|a k v l IHl r IHr]; intros fuel w a' res p evs Ht Hfuel Hroot Hts;
    [discriminate|].
  simpl in Hroot. injection Hroot as <-.
  destruct fuel as [|fuel]; [simpl in Hfuel; lia|].
  simpl in Ht. destruct Ht as (Ha & Hl & Hr).
  simpl in Hfuel.
  cbn [search].
  rewrite (bind_some _ _ _ _ _ (get_name_at _ _ _ Ha)). cbn [name].
  assert (Hnext : forall (b : bool),
    (if b then get_lchild a else get_rchild a) w = Some (root (if b then l else r), w)).
  { intros []; [rewrite (get_lchild_at _ _ _ Ha) | rewrite (get_rchild_at _ _ _ Ha)]; reflexivity. }
  rewrite (bind_some _ _ _ _ _ (Hnext _)).
  cbn [tsearch] in Hts.
  set (next := if strcmp key k <? 0 then l else r) in *.
  assert (IH : forall fuel w a res p evs, tree_at (heap w) next ->
      (height next <= fuel)%nat -> root next = Some a ->
      tsearch key want_parent lk next = (res, p, evs) ->
      search fuel key a want_parent lk w =
        Some ((res, if want_parent then Some p else None), add_events evs w)).
  { subst next. destruct (strcmp key k <? 0); auto. }
  assert (Hn : tree_at (heap w) next) by (subst next; destruct (strcmp key k <? 0); auto).
  assert (Hh : (height next <= fuel)%nat) by (subst next; destruct (strcmp key k <? 0); lia).
  clearbody next. clear IHl IHr Hnext Hl Hr Hfuel.
  destruct next as [|n nk nv nl nr].
  - simpl. destruct want_parent; injection Hts as <- <- <-.
    + unfold ret. now rewrite add_events_nil.
    + rewrite (bind_some _ _ _ _ _ (unlock_at _ _ _ Ha)). reflexivity.
  - cbn [root]. pose proof Hn as Hn'. simpl in Hn'. destruct Hn' as (Hna & _).
    rewrite (bind_some _ _ _ _ _ (lock_at lk _ _ _ Hna)).
    assert (Hna' : heap (add_events [Acquire lk n] w) !! n
                   = Some (mk_node nk nv (root nl) (root nr))) by exact Hna.
    rewrite (bind_some _ _ _ _ _ (get_name_at _ _ _ Hna')). cbn [name].
    assert (Ha' : heap (add_events [Acquire lk n] w) !! a
                  = Some (mk_node k v (root l) (root r))) by exact Ha.
    destruct (strcmp key nk =? 0).
    + destruct want_parent; injection Hts as <- <- <-.
      * reflexivity.
      * rewrite (bind_some _ _ _ _ _ (unlock_at _ _ _ Ha')).
        unfold ret. now rewrite add_events_app.
    + rewrite (bind_some _ _ _ _ _ (unlock_at _ _ _ Ha')).
      rewrite add_events_app.
      destruct (tsearch key want_parent lk (Node n nk nv nl nr)) as [[res' p'] evs'] eqn:E.
      injection Hts as <- <- <-.
      rewrite (IH fuel (add_events ([Acquire lk n] ++ [Release a]) w) n res' p' evs' Hn Hh eq_refl eq_refl).
      now rewrite add_events_app.
Qed.

Arguments strcmp : simpl never.
Arguments snprintf : simpl never.

Lemma tnode_root t x s : tnode t x = Some s -> root s = Some x.
Proof.
  induction t as [|a k v l IHl r IHr]; simpl; [discriminate|].
  destruct (decide (x = a)) as [->|].
  - now intros [= <-].
  - destruct (tnode l x); [intros [= <-]; auto | auto].
Qed.

Lemma tnode_in t x : x ∈ addrs t -> is_Some (tnode t x).
Proof.
  induction t as [|a k v l IHl r IHr]; simpl; [intros Hx; inversion Hx|].
  intros Hx. destruct (decide (x = a)); [eauto|].
  apply elem_of_cons in Hx as [?|Hx]; [contradiction|].
  apply elem_of_app in Hx as [Hx|Hx].
  - destruct (IHl Hx) as [s ->]. eauto.
  - destruct (tnode l x); eauto.
Qed.

Lemma tnode_at h t x s : tree_at h t -> tnode t x = Some s -> tree_at h s.
Proof.
  induction t as [|a k v l IHl r IHr]; simpl; [discriminate|].
  intros (Ha & Hl & Hr). destruct (decide (x = a)).
  - intros [= <-]. simpl. auto.
  - destruct (tnode l x) eqn:E; [intros [= <-]; auto | auto].
Qed.

Lemma tnode_addrs t x s : tnode t x = Some s -> forall y, y ∈ addrs s -> y ∈ addrs t.
Proof.
  induction t as [|a k v l IHl r IHr]; simpl; [discriminate|].
  destruct (decide (x = a)).
  - now intros [= <-].
  - intros Hs y Hy. right. apply elem_of_app.
    destruct (tnode l x) eqn:E; [injection Hs as <-; left; eauto | right; eauto].
Qed.

Lemma tree_at_lookup h t x :
  tree_at h t -> x ∈ addrs t ->
  exists k v l r, tnode t x = Some (Node x k v l r) /\
                  h !! x = Some (mk_node k v (root l) (root r)).
Proof.
  intros Ht Hx. destruct (tnode_in _ _ Hx) as [s Hs].
  pose proof (tnode_root _ _ _ Hs) as Hr.
  pose proof (tnode_at _ _ _ _ Ht Hs) as Hat.
  destruct s as [|a k v l r]; [discriminate|]. injection Hr as ->.
  exists k, v, l, r. split; auto. now destruct Hat.
Qed.

(** *** The size of a tree bounds its height *)

Lemma height_le_addrs t : (height t <= length (addrs t))%nat.
Proof.
  induction t as [|a k v l IHl r IHr]; simpl; [lia|].
  rewrite length_app. lia.
Qed.

Lemma represents_height h t : represents h t -> (height t <= size h)%nat.
Proof.
  intros (_ & Hnd & Hdom).
  pose proof (height_le_addrs t).
  rewrite <- size_dom, Hdom, size_list_to_set; auto.
Qed.

(** *** The descent in a tree *)

(** Induction along the descent of [search] for [key]. *)
Lemma descent_ind (key : string) (P : tree -> Prop) :
  (forall t, t <> Leaf -> child_of key t = Leaf -> P t) ->
  (forall t n nk nv nl nr, t <> Leaf ->
     child_of key t = Node n nk nv nl nr -> strcmp key nk = 0 -> P t) ->
  (forall t n nk nv nl nr, t <> Leaf ->
     child_of key t = Node n nk nv nl nr -> strcmp key nk <> 0 ->
     P (Node n nk nv nl nr) -> P t) ->
  forall t, t <> Leaf -> P t.
Proof.
  intros Hnone Hfound Hstep.
  induction t as [|a k v l IHl r IHr]; intros Hne; [congruence|].
  destruct (child_of key (Node a k v l r)) as [|n nk nv nl nr] eqn:E.
  - now apply Hnone.
  - destruct (Z.eq_dec (strcmp key nk) 0) as [Heq|Hneq].
    + eapply Hfound; eauto.
    + eapply Hstep; eauto.
      simpl in E. destruct (strcmp key k <? 0); subst; [apply IHl | apply IHr]; congruence.
Qed.

Lemma child_of_addrs key t x : x ∈ addrs (child_of key t) -> x ∈ addrs t.
Proof.
  destruct t as [|a k v l r]; simpl; auto.
  intros Hx. right. apply elem_of_app. destruct (strcmp key k <? 0); auto.
Qed.

Lemma tsearch_none key wp lk a k v l r :
  child_of key (Node a k v l r) = Leaf ->
  tsearch key wp lk (Node a k v l r) = (None, a, if wp then [] else [Release a]).
Proof. intros Hc. simpl in Hc. cbn [tsearch]. now rewrite Hc. Qed.

Lemma tsearch_found key wp lk a k v l r n nk nv nl nr :
  child_of key (Node a k v l r) = Node n nk nv nl nr -> strcmp key nk = 0 ->
  tsearch key wp lk (Node a k v l r) =
    (Some n, a, Acquire lk n :: if wp then [] else [Release a]).
Proof. intros Hc Hk. simpl in Hc. cbn [tsearch]. rewrite Hc, Hk. reflexivity. Qed.

Lemma tsearch_step key wp lk a k v l r n nk nv nl nr :
  child_of key (Node a k v l r) = Node n nk nv nl nr -> strcmp key nk <> 0 ->
  tsearch key wp lk (Node a k v l r) =
    let '(res, p, evs) := tsearch key wp lk (Node n nk nv nl nr) in
    (res, p, Acquire lk n :: Release a :: evs).
Proof.
  intros Hc Hk. simpl in Hc. cbn [tsearch]. rewrite Hc.
  apply Z.eqb_neq in Hk. rewrite Hk. reflexivity.
Qed.

Lemma tfocus_none key t : child_of key t = Leaf -> tfocus key t = t.
Proof. destruct t as [|a k v l r]; auto. simpl. now intros ->. Qed.

Lemma tfocus_found key t n nk nv nl nr :
  child_of key t = Node n nk nv nl nr -> strcmp key nk = 0 -> tfocus key t = t.
Proof. destruct t as [|a k v l r]; auto. simpl. intros -> ->. reflexivity. Qed.

Lemma tfocus_step key t n nk nv nl nr :
  child_of key t = Node n nk nv nl nr -> strcmp key nk <> 0 ->
  tfocus key t = tfocus key (Node n nk nv nl nr).
Proof.
  destruct t as [|a k v l r]; [discriminate|]. simpl. intros -> Hk.
  apply Z.eqb_neq in Hk. now rewrite Hk.
Qed.

Lemma tupdate_none key f t : t <> Leaf -> child_of key t = Leaf -> tupdate key f t = f t.
Proof. destruct t as [|a k v l r]; [congruence|]. simpl. now intros _ ->. Qed.

Lemma tupdate_found key f t n nk nv nl nr :
  child_of key t = Node n nk nv nl nr -> strcmp key nk = 0 -> tupdate key f t = f t.
Proof. destruct t as [|a k v l r]; [discriminate|]. simpl. intros -> ->. reflexivity. Qed.

Lemma tupdate_step key f t n nk nv nl nr :
  child_of key t = Node n nk nv nl nr -> strcmp key nk <> 0 ->
  tupdate key f t = set_child key t (tupdate key f (Node n nk nv nl nr)).
Proof.
  destruct t as [|a k v l r]; [discriminate|]. cbn [child_of tupdate set_child]. intros Hc Hk.
  apply Z.eqb_neq in Hk. rewrite Hc, Hk.
  destruct (strcmp key k <? 0); subst; reflexivity.
Qed.

(** The descent ends at a node of the tree, and [search] leaves its address
    in [*parentpp]. *)
Lemma tfocus_spec key wp lk t :
  t <> Leaf ->
  exists p pk pv pl pr,
    tfocus key t = Node p pk pv pl pr /\
    fst (fst (tsearch key wp lk t)) = root (child_of key (tfocus key t)) /\
    snd (fst (tsearch key wp lk t)) = p /\
    match child_of key (tfocus key t) with
    | Leaf => True
    | Node _ nk _ _ _ => strcmp key nk = 0
    end.
Proof.
  intros Hne. pattern t. apply (descent_ind key); auto; clear t Hne.
  - intros t Hne Hc. destruct t as [|a k v l r]; [congruence|].
    rewrite (tfocus_none _ _ Hc), (tsearch_none _ _ _ _ _ _ _ _ Hc), Hc.
    exists a, k, v, l, r. auto.
  - intros t n nk nv nl nr Hne Hc Hk. destruct t as [|a k v l r]; [congruence|].
    rewrite (tfocus_found _ _ _ _ _ _ _ Hc Hk), (tsearch_found _ _ _ _ _ _ _ _ _ _ _ _ _ Hc Hk), Hc.
    exists a, k, v, l, r. auto.
  - intros t n nk nv nl nr Hne Hc Hk (p & pk & pv & pl & pr & Hf & Hres & Hp & Hm).
    destruct t as [|a k v l r]; [congruence|].
    rewrite (tfocus_step _ _ _ _ _ _ _ Hc Hk), (tsearch_step _ _ _ _ _ _ _ _ _ _ _ _ _ Hc Hk).
    destruct (tsearch key wp lk (Node n nk nv nl nr)) as [[res' p'] evs'].
    exists p, pk, pv, pl, pr. auto.
Qed.

Lemma tfocus_tnode key t p :
  root (tfocus key t) = Some p -> NoDup (addrs t) -> tnode t p = Some (tfocus key t).
Proof.
  destruct t as [|a0 k0 v0 l0 r0]; [discriminate|].
  assert (Hne : Node a0 k0 v0 l0 r0 <> Leaf) by congruence.
  revert Hne. generalize (Node a0 k0 v0 l0 r0) as t. clear.
  intros t Hne. pattern t. apply (descent_ind key); auto; clear t Hne.
  - intros t Hne Hc. rewrite (tfocus_none _ _ Hc).
    destruct t as [|a k v l r]; [congruence|]. intros [= ->] _. simpl.
    destruct (decide (p = p)); congruence.
  - intros t n nk nv nl nr Hne Hc Hk. rewrite (tfocus_found _ _ _ _ _ _ _ Hc Hk).
    destruct t as [|a k v l r]; [congruence|]. intros [= ->] _. simpl.
    destruct (decide (p = p)); congruence.
  - intros t n nk nv nl nr Hne Hc Hk IH. rewrite (tfocus_step _ _ _ _ _ _ _ Hc Hk).
    intros Hp Hnd. destruct t as [|a k v l r]; [congruence|].
    simpl in Hc. simpl in Hnd. apply NoDup_cons in Hnd as [Ha Hnd].
    apply NoDup_app in Hnd as (Hl & Hlr & Hr).
    assert (Hin : p ∈ addrs (Node n nk nv nl nr)).
    { pose proof (IH Hp) as IH'.
      destruct (strcmp key k <? 0); subst.
      - eapply tnode_addrs; [apply IH'; auto|].
        destruct (tfocus key (Node n nk nv nl nr)); [discriminate|].
        injection Hp as ->. left.
      - eapply tnode_addrs; [apply IH'; auto|].
        destruct (tfocus key (Node n nk nv nl nr)); [discriminate|].
        injection Hp as ->. left. }
    cbn [tnode]. destruct (decide (p = a)) as [->|Hpa].
    { exfalso. apply Ha. apply elem_of_app. destruct (strcmp key k <? 0); subst; auto. }
    destruct (strcmp key k <? 0); subst.
    + rewrite (IH Hp Hl). reflexivity.
    + destruct (tnode l p) eqn:E.
      * exfalso. eapply Hlr; eauto.
        pose proof (tnode_root _ _ _ E). eapply tnode_addrs; eauto.
        destruct t; [discriminate|]. simpl in *. injection H as ->. left.
      * now apply IH.
Qed.

Lemma tfocus_addrs key t x : x ∈ addrs (tfocus key t) -> x ∈ addrs t.
Proof.
  destruct t as [|a0 k0 v0 l0 r0]; [auto|].
  assert (Hne : Node a0 k0 v0 l0 r0 <> Leaf) by congruence.
  revert Hne. generalize (Node a0 k0 v0 l0 r0) as t. clear a0 k0 v0 l0 r0.
  intros t Hne. pattern t. apply (descent_ind key); auto; clear t Hne.
  - intros t _ Hc. now rewrite (tfocus_none _ _ Hc).
  - intros t n nk nv nl nr _ Hc Hk. now rewrite (tfocus_found _ _ _ _ _ _ _ Hc Hk).
  - intros t n nk nv nl nr _ Hc Hk IH. rewrite (tfocus_step _ _ _ _ _ _ _ Hc Hk).
    intros Hx. apply (child_of_addrs key). rewrite Hc. auto.
Qed.

Lemma tfocus_not_leaf key t : t <> Leaf -> tfocus key t <> Leaf.
Proof.
  intros Hne. destruct (tfocus_spec key true l_read t Hne) as (p & pk & pv & pl & pr & -> & _).
  congruence.
Qed.

Lemma tupdate_root key f t :
  t <> Leaf -> root (f (tfocus key t)) = root (tfocus key t) ->
  root (tupdate key f t) = root t.
Proof.
  intros Hne. pattern t. apply (descent_ind key); auto; clear t Hne.
  - intros t Hne Hc. now rewrite (tfocus_none _ _ Hc), (tupdate_none _ _ _ Hne Hc).
  - intros t n nk nv nl nr Hne Hc Hk.
    now rewrite (tfocus_found _ _ _ _ _ _ _ Hc Hk), (tupdate_found _ _ _ _ _ _ _ _ Hc Hk).
  - intros t n nk nv nl nr Hne Hc Hk IH.
    rewrite (tfocus_step _ _ _ _ _ _ _ Hc Hk), (tupdate_step _ _ _ _ _ _ _ _ Hc Hk).
    intros _. destruct t as [|a k v l r]; [congruence|]. simpl.
    now destruct (strcmp key k <? 0).
Qed.

(** A change of the heap inside the subtree where the descent ends rebuilds
    the tree there and nowhere else. *)
Lemma tupdate_at key f h h' t :
  t <> Leaf -> tree_at h t -> NoDup (addrs t) ->
  tree_at h' (f (tfocus key t)) ->
  root (f (tfocus key t)) = root (tfocus key t) ->
  (forall x, x ∈ addrs t -> x ∉ addrs (tfocus key t) -> h' !! x = h !! x) ->
  tree_at h' (tupdate key f t).
Proof.
  intros Hne. pattern t. apply (descent_ind key); auto; clear t Hne.
  - intros t Hne Hc. now rewrite (tfocus_none _ _ Hc), (tupdate_none _ _ _ Hne Hc).
  - intros t n nk nv nl nr Hne Hc Hk.
    now rewrite (tfocus_found _ _ _ _ _ _ _ Hc Hk), (tupdate_found _ _ _ _ _ _ _ _ Hc Hk).
  - intros t n nk nv nl nr Hne Hc Hk IH.
    rewrite (tfocus_step _ _ _ _ _ _ _ Hc Hk), (tupdate_step _ _ _ _ _ _ _ _ Hc Hk).
    intros Ht Hnd Hf Hroot Hsame.
    assert (Hur : root (tupdate key f (Node n nk nv nl nr)) = Some n).
    { rewrite tupdate_root; auto; congruence. }
    destruct t as [|a k v l r]; [congruence|].
    simpl in Ht. destruct Ht as (Ha & Hl & Hr).
    simpl in Hnd. apply NoDup_cons in Hnd as [Hna Hnd].
    apply NoDup_app in Hnd as (Hndl & Hlr & Hndr).
    simpl in Hc. cbn [set_child].
    assert (Hfa : forall x, x ∈ addrs (tfocus key (Node n nk nv nl nr)) ->
                            x ∈ addrs (Node n nk nv nl nr)) by apply tfocus_addrs.
    destruct (strcmp key k <? 0); subst.
    + cbn [tree_at]. split; [|split].
      * rewrite Hsame, Ha, Hur; [reflexivity|left|].
        intros Hin. apply Hna, elem_of_app. left. auto.
      * apply IH; auto. intros x Hx Hnx. apply Hsame; auto.
        right. apply elem_of_app. auto.
      * eapply tree_at_ext; [|exact Hr]. intros x Hx. apply Hsame.
        -- right. apply elem_of_app. auto.
        -- intros Hin. eapply Hlr; eauto.
    + cbn [tree_at]. split; [|split].
      * rewrite Hsame, Ha, Hur; [reflexivity|left|].
        intros Hin. apply Hna, elem_of_app. right. auto.
      * eapply tree_at_ext; [|exact Hl]. intros x Hx. apply Hsame.
        -- right. apply elem_of_app. auto.
        -- intros Hin. eapply Hlr; eauto.
      * apply IH; auto. intros x Hx Hnx. apply Hsame; auto.
        right. apply elem_of_app. auto.
Qed.

(** The addresses of the rebuilt tree: those the rebuilding adds, [ins], and
    those it drops, [del]. *)
Lemma tupdate_addrs key f t ins del :
  t <> Leaf ->
  addrs (f (tfocus key t)) ++ del ≡ₚ ins ++ addrs (tfocus key t) ->
  addrs (tupdate key f t) ++ del ≡ₚ ins ++ addrs t.
Proof.
  intros Hne. pattern t. apply (descent_ind key); auto; clear t Hne.
  - intros t Hne Hc. now rewrite (tfocus_none _ _ Hc), (tupdate_none _ _ _ Hne Hc).
  - intros t n nk nv nl nr Hne Hc Hk.
    now rewrite (tfocus_found _ _ _ _ _ _ _ Hc Hk), (tupdate_found _ _ _ _ _ _ _ _ Hc Hk).
  - intros t n nk nv nl nr Hne Hc Hk IH.
    rewrite (tfocus_step _ _ _ _ _ _ _ Hc Hk), (tupdate_step _ _ _ _ _ _ _ _ Hc Hk).
    intros Hp. specialize (IH Hp).
    destruct t as [|a k v l r]; [congruence|].
    simpl in Hc. cbn [set_child].
    remember (Node n nk nv nl nr) as c eqn:Ec.
    remember (tupdate key f c) as u eqn:Eu. clear Ec Eu Hp.
    destruct (strcmp key k <? 0); subst; cbn [addrs].
    + transitivity (a :: (addrs u ++ del) ++ addrs r).
      { simpl. constructor. rewrite <- !app_assoc. apply Permutation_app_head.
        apply Permutation_app_comm. }
      rewrite IH, <- app_assoc. apply Permutation_middle.
    + transitivity (a :: addrs l ++ (addrs u ++ del)).
      { simpl. constructor. now rewrite <- !app_assoc. }
      rewrite IH.
      transitivity (a :: ins ++ addrs l ++ addrs c).
      { constructor. rewrite !app_assoc. apply Permutation_app_tail.
        apply Permutation_app_comm. }
      apply Permutation_middle.
Qed.

Lemma tnode_NoDup t x s : tnode t x = Some s -> NoDup (addrs t) -> NoDup (addrs s).
Proof.
  induction t as [|a k v l IHl r IHr]; simpl; [discriminate|].
  destruct (decide (x = a)).
  - now intros [= <-].
  - intros Hs Hnd. apply NoDup_cons in Hnd as [_ Hnd].
    apply NoDup_app in Hnd as (Hl & _ & Hr).
    destruct (tnode l x) eqn:E; [injection Hs as <-; auto | auto].
Qed.

Lemma tfocus_at key h t : NoDup (addrs t) -> tree_at h t -> tree_at h (tfocus key t).
Proof.
  intros Hnd Ht. destruct t as [|a k v l r]; [exact I|].
  destruct (tfocus_spec key true l_read (Node a k v l r)) as (p & pk & pv & pl & pr & Hf & _);
    [congruence|].
  eapply tnode_at; eauto. apply tfocus_tnode; auto. now rewrite Hf.
Qed.

Lemma tfocus_NoDup key t : NoDup (addrs t) -> NoDup (addrs (tfocus key t)).
Proof.
  intros Hnd. destruct t as [|a k v l r]; [constructor|].
  destruct (tfocus_spec key true l_read (Node a k v l r)) as (p & pk & pv & pl & pr & Hf & _);
    [congruence|].
  eapply tnode_NoDup; eauto. apply tfocus_tnode; auto. now rewrite Hf.
Qed.

(** *** Stores *)

Lemma store_at w a n0 n :
  heap w !! a = Some n0 -> store a n w = Some (tt, with_heap (insert a n) w).
Proof. unfold store. now intros ->. Qed.

Lemma set_lchild_at w a n p :
  heap w !! a = Some n ->
  set_lchild a p w =
    Some (tt, with_heap (insert a (mk_node (name n) (value n) p (rchild n))) w).
Proof. intros Hn. unfold set_lchild, bind, load, store. rewrite Hn. simpl. now rewrite Hn. Qed.

Lemma set_rchild_at w a n p :
  heap w !! a = Some n ->
  set_rchild a p w =
    Some (tt, with_heap (insert a (mk_node (name n) (value n) (lchild n) p)) w).
Proof. intros Hn. unfold set_rchild, bind, load, store. rewrite Hn. simpl. now rewrite Hn. Qed.

Lemma set_name_at w a n s :
  heap w !! a = Some n ->
  set_name a s w =
    Some (tt, with_heap (insert a (mk_node s (value n) (lchild n) (rchild n))) w).
Proof. intros Hn. unfold set_name, bind, load, store. rewrite Hn. simpl. now rewrite Hn. Qed.

Lemma set_value_at w a n s :
  heap w !! a = Some n ->
  set_value a s w =
    Some (tt, with_heap (insert a (mk_node (name n) s (lchild n) (rchild n))) w).
Proof. intros Hn. unfold set_value, bind, load, store. rewrite Hn. simpl. now rewrite Hn. Qed.

Lemma free_at w a n : heap w !! a = Some n -> free a w = Some (tt, with_heap (delete a) w).
Proof. unfold free. now intros ->. Qed.

Lemma next_outcome_eq w : next_outcome w = Some (hd CtorOk (faults w), pop_fault w).
Proof. destruct w as [h lk [|o fl] f u c]; reflexivity. Qed.

(** [node_constructor] builds its node at a fresh address, or fails and
    leaves the heap as it was. *)
Lemma node_constructor_ok `{Allocator} w key val al ar :
  constructible w key val ->
  node_constructor key val al ar w =
    Some (Some (malloc_addr (dom (heap w))),
          with_heap (insert (malloc_addr (dom (heap w)))
                            (mk_node (snprintf "" MAXLEN key) (snprintf "" MAXLEN val) al ar))
                    (pop_fault w)).
Proof.
  intros (Hk & Hv & Ho). unfold node_constructor.
  apply Nat.ltb_ge in Hk, Hv. rewrite Hk, Hv. cbn [orb].
  rewrite (bind_some _ _ _ _ _ (next_outcome_eq w)), Ho.
  reflexivity.
Qed.

Lemma node_constructor_fails `{Allocator} w key val al ar :
  ~ constructible w key val ->
  node_constructor key val al ar w = Some (None, w) \/
  node_constructor key val al ar w = Some (None, pop_fault w).
Proof.
  intros Hn. unfold node_constructor.
  destruct (MAXLEN <? String.length key)%nat eqn:Ek; [now left|].
  destruct (MAXLEN <? String.length val)%nat eqn:Ev; [now left|].
  cbn [orb]. right.
  rewrite (bind_some _ _ _ _ _ (next_outcome_eq w)).
  destruct (hd CtorOk (faults w)) eqn:Eo; try reflexivity.
  exfalso. apply Hn. apply Nat.ltb_ge in Ek, Ev. now repeat split.
Qed.

(** *** Insertion in the heap *)

Lemma tinsert_at h t key new k' v' p pn :
  t <> Leaf -> tree_at h t -> NoDup (addrs t) -> h !! new = None ->
  child_of key (tfocus key t) = Leaf ->
  root (tfocus key t) = Some p -> h !! p = Some pn ->
  tree_at (<[p := link_child key pn (Some new)]> (<[new := mk_node k' v' None None]> h))
          (tinsert key (Node new k' v' Leaf Leaf) t).
Proof.
  intros Hne Ht Hnd Hnew Hc Hp Hpn. unfold tinsert.
  pose proof (tfocus_at key _ _ Hnd Ht) as Hfat.
  pose proof (tfocus_NoDup key _ Hnd) as Hfnd.
  pose proof (tfocus_addrs key t) as Hsub.
  assert (Hfresh : forall x, x ∈ addrs t -> x <> new).
  { intros x Hx ->. destruct (tree_at_lookup _ _ _ Ht Hx) as (? & ? & ? & ? & _ & Hl). congruence. }
  destruct (tfocus key t) as [|a k v l r] eqn:Hf; [discriminate|].
  simpl in Hp. injection Hp as ->. simpl in Hc.
  destruct Hfat as (Ha & Hl & Hr). rewrite Ha in Hpn. injection Hpn as <-.
  simpl in Hfnd. apply NoDup_cons in Hfnd as [Hna Hfnd].
  assert (Hpnew : p <> new) by (apply Hfresh, Hsub; left).
  eapply tupdate_at; eauto; rewrite Hf.
  - cbn [child_of]. rewrite Hc.
    unfold link_child, set_child. cbn [name value lchild rchild].
    destruct (strcmp key k <? 0); subst; cbn [tree_at root].
    + split; [apply lookup_insert_eq|]. split; [split; auto|].
      * rewrite lookup_insert_ne, lookup_insert_eq; auto.
      * eapply tree_at_ext; [|exact Hr]. intros x Hx.
        rewrite !lookup_insert_ne; auto.
        -- intros <-. apply (Hfresh new); auto.
           apply Hsub. right. apply elem_of_app. auto.
        -- intros <-. apply Hna. apply elem_of_app. auto.
    + split; [apply lookup_insert_eq|]. split; [|split; auto].
      * eapply tree_at_ext; [|exact Hl]. intros x Hx.
        rewrite !lookup_insert_ne; auto.
        -- intros <-. apply (Hfresh new); auto.
           apply Hsub. right. apply elem_of_app. auto.
        -- intros <-. apply Hna. apply elem_of_app. auto.
      * rewrite lookup_insert_ne, lookup_insert_eq; auto.
  - cbn [child_of]. rewrite Hc. simpl. now destruct (strcmp key k <? 0).
  - intros x Hx Hnx. rewrite !lookup_insert_ne; auto.
    + intros <-. now apply (Hfresh new).
    + intros <-. apply Hnx. left.
Qed.

Lemma fuel_of_eq w : fuel_of w = Some (S (size (heap w)), w).
Proof. reflexivity. Qed.

Lemma link_child_same key pn :
  (if strcmp key (name pn) <? 0 then lchild pn else rchild pn) = None ->
  link_child key pn None = pn.
Proof.
  unfold link_child. destruct pn as [k v l r]. simpl.
  destruct (strcmp key k <? 0); now intros ->.
Qed.

Lemma set_link_child w key p pn c :
  heap w !! p = Some pn ->
  (if strcmp key (name pn) <? 0 then set_lchild p c else set_rchild p c) w =
    Some (tt, with_heap (insert p (link_child key pn c)) w).
Proof.
  intros Hp. unfold link_child. destruct (strcmp key (name pn) <? 0).
  - now apply set_lchild_at.
  - now apply set_rchild_at.
Qed.

(** The descent of an operation from [head], in a database. *)
Lemma descent_run `{Allocator} key wp lk w l r :
  db_tree w l r ->
  let t := Node head "" "" l r in
  exists p pk pv pl pr,
    tfocus key t = Node p pk pv pl pr /\
    heap w !! p = Some (mk_node pk pv (root pl) (root pr)) /\
    tree_at (heap w) (child_of key (tfocus key t)) /\
    match child_of key (tfocus key t) with
    | Leaf => True
    | Node _ nk _ _ _ => strcmp key nk = 0
    end /\
    search (S (size (heap w))) key head wp lk (add_events [Acquire lk head] w) =
      Some ((root (child_of key (tfocus key t)), if wp then Some p else None),
            add_events (Acquire lk head :: snd (tsearch key wp lk t)) w).
Proof.
  intros (Ht & Hnd & Hdom) t.
  assert (Hne : t <> Leaf) by (subst t; congruence).
  destruct (tfocus_spec key wp lk t Hne) as (p & pk & pv & pl & pr & Hf & Hres & Hp & Hm).
  pose proof (tfocus_at key _ _ Hnd Ht) as Hfat. fold t in Hfat.
  exists p, pk, pv, pl, pr. split; [auto|].
  rewrite Hf in Hfat. destruct Hfat as (Hpa & Hpl & Hpr).
  split; [auto|]. split.
  { rewrite Hf. simpl. destruct (strcmp key pk <? 0); auto. }
  split; [auto|].
  destruct (tsearch key wp lk t) as [[res p'] evs] eqn:Ets.
  cbn [fst snd] in Hres, Hp |- *. subst res p'.
  pose proof (represents_height (heap w) t (conj Ht (conj Hnd Hdom))) as Hh.
  rewrite (search_tree key wp lk t (S (size (heap w))) (add_events [Acquire lk head] w)
             head _ p evs Ht (Nat.le_trans _ _ _ Hh (Nat.le_succ_diag_r _)) eq_refl Ets).
  now rewrite add_events_app.
Qed.

(** [db_add], run on a database. *)
Lemma db_add_run `{Allocator} key val w l r :
  db_tree w l r ->
  let t := Node head "" "" l r in
  let new := malloc_addr (dom (heap w)) in
  exists p pn,
    root (tfocus key t) = Some p /\ heap w !! p = Some pn /\
    (if strcmp key (name pn) <? 0 then lchild pn else rchild pn)
      = root (child_of key (tfocus key t)) /\
    exists w', match root (child_of key (tfocus key t)) with
    | Some target =>
        db_add key val w = Some (0, w') /\ heap w' = heap w /\
        locks w' = locks w ++ Acquire l_write head :: snd (tsearch key true l_write t)
                           ++ [Release target; Release p]
    | None =>
        db_add key val w = Some (1, w') /\
        heap w' =
          (if decide (constructible w key val)
           then <[p := link_child key pn (Some new)]>
                  (<[new := mk_node (snprintf "" MAXLEN key) (snprintf "" MAXLEN val)
                                    None None]> (heap w))
           else heap w) /\
        locks w' = locks w ++ Acquire l_write head :: snd (tsearch key true l_write t)
                           ++ [Release p]
    end.
Proof.
  intros Hdb t new.
  destruct (descent_run key true l_write w l r Hdb)
    as (p & pk & pv & pl & pr & Hf & Hp & Hc & Hm & Hs).
  fold t in Hf, Hc, Hm, Hs.
  assert (Hhead : heap w !! head = Some (mk_node "" "" (root l) (root r))).
  { destruct Hdb as (Ht & _). now destruct Ht. }
  set (evs := snd (tsearch key true l_write t)) in *.
  exists p, (mk_node pk pv (root pl) (root pr)).
  assert (Hside : (if strcmp key pk <? 0 then root pl else root pr)
                  = root (child_of key (tfocus key t))).
  { rewrite Hf. simpl. now destruct (strcmp key pk <? 0). }
  split; [now rewrite Hf|]. split; [exact Hp|]. split; [exact Hside|].
  unfold db_add.
  rewrite (bind_some _ _ _ _ _ (fuel_of_eq w)).
  rewrite (bind_some _ _ _ _ _ (lock_at l_write _ _ _ Hhead)).
  rewrite (bind_some _ _ _ _ _ Hs).
  destruct (child_of key (tfocus key t)) as [|target tk tv tl tr] eqn:Ec; cbn [root].
  - (* no node holds the key *)
    destruct (decide (constructible w key val)) as [Hok|Hno].
    + assert (Hok' : constructible (add_events (Acquire l_write head :: evs) w) key val)
        by exact Hok.
      rewrite (bind_some _ _ _ _ _ (node_constructor_ok _ key val None None Hok')).
      cbn [heap add_events with_heap pop_fault].
      fold new.
      assert (Hnew : heap w !! new = None).
      { apply not_elem_of_dom. apply malloc_fresh. }
      assert (Hpn : p <> new) by congruence.
      match goal with |- context [bind (get_name p) _ ?w1] =>
        assert (Hp1 : heap w1 !! p = Some (mk_node pk pv (root pl) (root pr)))
      end.
      { cbn [heap with_heap]. rewrite lookup_insert_ne; auto. }
      rewrite (bind_some _ _ _ _ _ (get_name_at _ _ _ Hp1)).
      rewrite (bind_some _ _ _ _ _ (set_link_child _ key _ _ (Some new) Hp1)).
      match goal with |- context [bind (unlock p) _ ?w1] =>
        assert (Hp2 : heap w1 !! p
                      = Some (link_child key (mk_node pk pv (root pl) (root pr)) (Some new)))
      end.
      { cbn [heap with_heap]. apply lookup_insert_eq. }
      rewrite (bind_some _ _ _ _ _ (unlock_at _ _ _ Hp2)).
      eexists. split; [reflexivity|]. split; [reflexivity|].
      cbn [locks add_events with_heap pop_fault]. now rewrite <- app_assoc.
    + assert (Hno' : ~ constructible (add_events (Acquire l_write head :: evs) w) key val)
        by exact Hno.
      assert (Hsame : link_child key (mk_node pk pv (root pl) (root pr)) None
                      = mk_node pk pv (root pl) (root pr)).
      { apply link_child_same. cbn [name lchild rchild]. now rewrite Hside. }
      destruct (node_constructor_fails _ key val None None Hno') as [Hnc|Hnc];
        rewrite (bind_some _ _ _ _ _ Hnc).
      * set (w1 := add_events (Acquire l_write head :: evs) w) in *.
        assert (Hp1 : heap w1 !! p = Some (mk_node pk pv (root pl) (root pr))) by exact Hp.
        rewrite (bind_some _ _ _ _ _ (get_name_at _ _ _ Hp1)).
        rewrite (bind_some _ _ _ _ _ (set_link_child _ key _ _ None Hp1)).
        rewrite Hsame.
        assert (Hp2 : heap (with_heap (insert p (mk_node pk pv (root pl) (root pr))) w1) !! p
                      = Some (mk_node pk pv (root pl) (root pr))).
        { cbn [heap with_heap]. apply lookup_insert_eq. }
        rewrite (bind_some _ _ _ _ _ (unlock_at _ _ _ Hp2)).
        eexists. split; [reflexivity|]. split.
        -- cbn [heap add_events with_heap]. subst w1. cbn [heap add_events].
           now apply insert_id.
        -- cbn [locks add_events with_heap]. subst w1. cbn [locks add_events].
           now rewrite <- app_assoc.
      * set (w1 := pop_fault (add_events (Acquire l_write head :: evs) w)) in *.
        assert (Hp1 : heap w1 !! p = Some (mk_node pk pv (root pl) (root pr))) by exact Hp.
        rewrite (bind_some _ _ _ _ _ (get_name_at _ _ _ Hp1)).
        rewrite (bind_some _ _ _ _ _ (set_link_child _ key _ _ None Hp1)).
        rewrite Hsame.
        assert (Hp2 : heap (with_heap (insert p (mk_node pk pv (root pl) (root pr))) w1) !! p
                      = Some (mk_node pk pv (root pl) (root pr))).
        { cbn [heap with_heap]. apply lookup_insert_eq. }
        rewrite (bind_some _ _ _ _ _ (unlock_at _ _ _ Hp2)).
        eexists. split; [reflexivity|]. split.
        -- cbn [heap add_events with_heap]. subst w1. cbn [heap add_events pop_fault].
           now apply insert_id.
        -- cbn [locks add_events with_heap]. subst w1. cbn [locks add_events pop_fault].
           now rewrite <- app_assoc.
  - (* the key is there *)
    simpl in Hc. destruct Hc as (Htg & _).
    set (w1 := add_events (Acquire l_write head :: evs) w) in *.
    assert (Ht1 : heap w1 !! target = Some (mk_node tk tv (root tl) (root tr))) by exact Htg.
    rewrite (bind_some _ _ _ _ _ (unlock_at _ _ _ Ht1)).
    assert (Hp1 : heap (add_events [Release target] w1) !! p
                  = Some (mk_node pk pv (root pl) (root pr))) by exact Hp.
    rewrite (bind_some _ _ _ _ _ (unlock_at _ _ _ Hp1)).
    eexists. split; [reflexivity|]. split; [reflexivity|].
    subst w1. cbn [locks add_events]. now rewrite <- !app_assoc.
Qed.

(** [db_query], run on a database. *)
Lemma db_query_run `{Allocator} key buf len w l r :
  db_tree w l r ->
  let t := Node head "" "" l r in
  exists w',
    db_query key buf len w = Some (snprintf buf len (tvalue (tfound key t)), w') /\
    heap w' = heap w /\
    locks w' = locks w ++ Acquire l_read head :: snd (tsearch key false l_read t)
                       ++ match root (tfound key t) with
                          | Some target => [Release target]
                          | None => []
                          end.
Proof.
  intros Hdb t.
  destruct (descent_run key false l_read w l r Hdb)
    as (p & pk & pv & pl & pr & Hf & Hp & Hc & Hm & Hs).
  fold t in Hf, Hc, Hm, Hs.
  assert (Hhead : heap w !! head = Some (mk_node "" "" (root l) (root r))).
  { destruct Hdb as (Ht & _). now destruct Ht. }
  set (evs := snd (tsearch key false l_read t)) in *.
  unfold db_query, tfound.
  rewrite (bind_some _ _ _ _ _ (fuel_of_eq w)).
  rewrite (bind_some _ _ _ _ _ (lock_at l_read _ _ _ Hhead)).
  rewrite (bind_some _ _ _ _ _ Hs). cbn [fst].
  destruct (child_of key (tfocus key t)) as [|target tk tv tl tr] eqn:Ec; cbn [root tvalue].
  - eexists. split; [reflexivity|]. split; [reflexivity|].
    cbn [locks add_events]. now rewrite app_nil_r.
  - simpl in Hc. destruct Hc as (Htg & _).
    set (w1 := add_events (Acquire l_read head :: evs) w) in *.
    assert (Ht1 : heap w1 !! target = Some (mk_node tk tv (root tl) (root tr))) by exact Htg.
    rewrite (bind_some _ _ _ _ _ (get_value_at _ _ _ Ht1)).
    rewrite (bind_some _ _ _ _ _ (unlock_at _ _ _ Ht1)).
    eexists. split; [reflexivity|]. split; [reflexivity|].
    subst w1. cbn [locks add_events]. now rewrite <- !app_assoc.
Qed.

(** *** Insertion in a tree *)

Lemma set_child_leaf_addrs key s c :
  child_of key s = Leaf -> s <> Leaf -> addrs (set_child key s c) ≡ₚ addrs c ++ addrs s.
Proof.
  destruct s as [|a k v l r]; [congruence|]. simpl. intros Hc _.
  destruct (strcmp key k <? 0); subst; simpl.
  - apply Permutation_middle.
  - rewrite app_nil_r. rewrite (Permutation_app_comm (addrs c)). reflexivity.
Qed.

Lemma tinsert_node key new a k v l r :
  exists l' r', tinsert key new (Node a k v l r) = Node a k v l' r'.
Proof.
  unfold tinsert. cbn [tupdate child_of set_child].
  destruct (strcmp key k <? 0).
  - destruct l as [|n nk nv nl nr]; [eauto|].
    destruct (strcmp key nk =? 0); eauto.
  - destruct r as [|n nk nv nl nr]; [eauto|].
    destruct (strcmp key nk =? 0); eauto.
Qed.

Lemma tinsert_found key new t :
  t <> Leaf -> tfound key t <> Leaf -> tinsert key new t = t.
Proof.
  unfold tfound, tinsert. intros Hne. pattern t. apply (descent_ind key); auto; clear t Hne.
  - intros t Hne Hc. rewrite (tfocus_none _ _ Hc). congruence.
  - intros t n nk nv nl nr Hne Hc Hk. rewrite (tupdate_found _ _ _ _ _ _ _ _ Hc Hk), Hc. auto.
  - intros t n nk nv nl nr Hne Hc Hk IH.
    rewrite (tfocus_step _ _ _ _ _ _ _ Hc Hk), (tupdate_step _ _ _ _ _ _ _ _ Hc Hk).
    intros Hf. rewrite (IH Hf). destruct t as [|a k v l r]; [congruence|].
    simpl in *. destruct (strcmp key k <? 0); congruence.
Qed.

Lemma tinsert_addrs key new t :
  t <> Leaf -> tfound key t = Leaf -> addrs (tinsert key new t) ≡ₚ addrs new ++ addrs t.
Proof.
  intros Hne Hc. unfold tinsert.
  rewrite <- (app_nil_r (addrs (tupdate key _ t))).
  apply tupdate_addrs; auto. unfold tfound in Hc. rewrite Hc, app_nil_r.
  apply set_child_leaf_addrs; auto. now apply tfocus_not_leaf.
Qed.

Lemma child_of_keys key t x : x ∈ keys (child_of key t) -> x ∈ keys t.
Proof.
  destruct t as [|a k v l r]; simpl; auto.
  intros Hx. apply elem_of_app. destruct (strcmp key k <? 0); auto.
  right. now right.
Qed.

Lemma child_of_key_in key t n nk nv nl nr :
  child_of key t = Node n nk nv nl nr -> nk ∈ keys t.
Proof.
  intros Hc. apply (child_of_keys key). rewrite Hc. simpl.
  apply elem_of_app. right. left.
Qed.

Lemma tfound_unfold key t :
  tfound key t =
    match child_of key t with
    | Leaf => Leaf
    | Node n nk nv nl nr =>
        if strcmp key nk =? 0 then Node n nk nv nl nr else tfound key (Node n nk nv nl nr)
    end.
Proof.
  unfold tfound. destruct t as [|a k v l r]; [reflexivity|].
  destruct (child_of key (Node a k v l r)) as [|n nk nv nl nr] eqn:Hc.
  - now rewrite (tfocus_none _ _ Hc).
  - destruct (Z.eq_dec (strcmp key nk) 0) as [Hk|Hk].
    + rewrite (tfocus_found _ _ _ _ _ _ _ Hc Hk), Hk. exact Hc.
    + rewrite (tfocus_step _ _ _ _ _ _ _ Hc Hk). apply Z.eqb_neq in Hk. now rewrite Hk.
Qed.

Lemma child_of_set_child key key' a k v l r c :
  (strcmp key' k <? 0) = (strcmp key k <? 0) ->
  child_of key' (set_child key (Node a k v l r) c) = c.
Proof. intros Hlt. simpl. destruct (strcmp key k <? 0); simpl; now rewrite Hlt. Qed.

Lemma same_path_refl key t : same_path key key t.
Proof.
  induction t as [|a k v l IHl r IHr]; [exact I|]. cbn [same_path]. split; [reflexivity|].
  destruct (strcmp key k <? 0).
  - destruct l as [|n nk nv nl nr]; [exact I|].
    destruct (strcmp key nk =? 0) eqn:E; [exact I|]. split; [now apply Z.eqb_neq|exact IHl].
  - destruct r as [|n nk nv nl nr]; [exact I|].
    destruct (strcmp key nk =? 0) eqn:E; [exact I|]. split; [now apply Z.eqb_neq|exact IHr].
Qed.

Lemma same_path_step key key' t n nk nv nl nr :
  same_path key key' t -> child_of key t = Node n nk nv nl nr -> strcmp key nk <> 0 ->
  strcmp key' nk <> 0 /\ same_path key key' (Node n nk nv nl nr).
Proof.
  destruct t as [|a k v l r]; [discriminate|]. cbn [same_path child_of].
  intros (_ & Hs) Hc Hk. rewrite Hc in Hs. apply Z.eqb_neq in Hk. now rewrite Hk in Hs.
Qed.

Lemma same_path_turn key key' t : same_path key key' t -> child_of key' t = child_of key t.
Proof. destruct t as [|a k v l r]; [reflexivity|]. cbn [same_path child_of]. now intros (-> & _). Qed.

(** After an insertion, the descent for a key that takes the same turns as
    [key] in the tree ends on the new node, or below it. *)
Lemma tfound_tinsert key key' n nk nv t :
  t <> Leaf -> tfound key t = Leaf -> same_path key key' t ->
  tfound key' (tinsert key (Node n nk nv Leaf Leaf) t) =
    if strcmp key' nk =? 0 then Node n nk nv Leaf Leaf else Leaf.
Proof.
  intros Hne. pattern t. apply (descent_ind key); auto; clear t Hne.
  - intros t Hne Hc _ Hsame. unfold tinsert. rewrite (tupdate_none _ _ _ Hne Hc), Hc.
    destruct t as [|a k v l r]; [congruence|]. destruct Hsame as (Htop & _).
    rewrite tfound_unfold, (child_of_set_child _ _ _ _ _ _ _ _ Htop).
    destruct (strcmp key' nk =? 0); [reflexivity|].
    rewrite tfound_unfold. simpl. now destruct (strcmp key' nk <? 0).
  - intros t m mk mv ml mr Hne Hc Hk. unfold tfound.
    rewrite (tfocus_found _ _ _ _ _ _ _ Hc Hk), Hc. discriminate.
  - intros t m mk mv ml mr Hne Hc Hk IH.
    unfold tfound at 1. rewrite (tfocus_step _ _ _ _ _ _ _ Hc Hk).
    fold (tfound key (Node m mk mv ml mr)).
    unfold tinsert at 1. rewrite (tupdate_step _ _ _ _ _ _ _ _ Hc Hk).
    fold (tinsert key (Node n nk nv Leaf Leaf) (Node m mk mv ml mr)).
    intros Hf Hsame.
    destruct (same_path_step _ _ _ _ _ _ _ _ Hsame Hc Hk) as (Hneq & Hsame').
    assert (IH' := IH Hf Hsame'). clear IH.
    destruct (tinsert_node key (Node n nk nv Leaf Leaf) m mk mv ml mr) as (ml' & mr' & Hu).
    destruct t as [|a k v l r]; [congruence|]. destruct Hsame as (Htop & _).
    rewrite tfound_unfold, (child_of_set_child _ _ _ _ _ _ _ _ Htop).
    rewrite Hu. apply Z.eqb_neq in Hneq. rewrite Hneq. rewrite <- Hu.
    exact IH'.
Qed.

Lemma substring_all s n : (String.length s <= n)%nat -> String.substring 0 n s = s.
Proof.
  revert n. induction s as [|c s IH]; intros [|n]; simpl; auto; try lia.
  intros Hn. f_equal. apply IH. lia.
Qed.


Lemma snprintf_short buf size s :
  (String.length s < size)%nat -> snprintf buf size s = s.
Proof.
  unfold snprintf. destruct size; [lia|]. intros Hs. apply substring_all. lia.
Qed.


Lemma represents_fresh `{Allocator} h t : represents h t -> malloc_addr (dom h) ∉ addrs t.
Proof.
  intros (_ & _ & Hdom) Hin. apply (malloc_fresh (dom h)). rewrite Hdom at 2.
  now apply elem_of_list_to_set.
Qed.

(** [db_add] on a database: the tree afterwards. *)
Lemma db_add_tree `{Allocator} key val w l r :
  db_tree w l r ->
  let t := Node head "" "" l r in
  let new := malloc_addr (dom (heap w)) in
  exists ret w' l' r',
    db_add key val w = Some (ret, w') /\ db_tree w' l' r' /\
    ((tfound key t <> Leaf /\ ret = 0 /\ heap w' = heap w /\ l' = l /\ r' = r) \/
     (tfound key t = Leaf /\ ret = 1 /\
      ((constructible w key val /\
        Node head "" "" l' r' = tinsert key (new_node new key val) t) \/
       (~ constructible w key val /\ heap w' = heap w /\ l' = l /\ r' = r)))).
Proof.
  intros Hdb t new.
  destruct (db_add_run key val w l r Hdb) as (p & pn & Hp & Hpn & Hside & w' & Hrun).
  fold t new in Hp, Hside, Hrun. fold (tfound key t) in Hside, Hrun.
  destruct (tfound key t) as [|tg tk tv tl tr] eqn:Hfound; cbn [root] in Hrun.
  - destruct Hrun as (Hadd & Hheap & _).
    destruct (decide (constructible w key val)) as [Hok|Hno].
    + destruct (tinsert_node key (new_node new key val) head "" "" l r) as (l' & r' & Hins).
      exists 1, w', l', r'. split; [auto|]. split.
      * destruct Hdb as (Ht & Hnd & Hdom). unfold db_tree. rewrite Hheap, <- Hins.
        fold t in Ht, Hnd, Hdom |- *.
        assert (Hne : t <> Leaf) by (subst t; congruence).
        assert (Hnew : heap w !! new = None) by (apply not_elem_of_dom, malloc_fresh).
        assert (Hperm : addrs (tinsert key (new_node new key val) t) ≡ₚ new :: addrs t).
        { apply (tinsert_addrs key (new_node new key val) t Hne Hfound). }
        split; [|split].
        -- exact (tinsert_at (heap w) t key new _ _ p pn Hne Ht Hnd Hnew Hfound Hp Hpn).
        -- rewrite Hperm. apply NoDup_cons. split; auto.
           apply (represents_fresh (heap w) t). exact (conj Ht (conj Hnd Hdom)).
        -- rewrite !dom_insert_L, Hdom, Hperm. simpl.
           assert (Hpin : p ∈ (list_to_set (addrs t) : gset positive))
             by (rewrite <- Hdom; apply elem_of_dom; eauto).
           clear - Hpin. set_solver.
      * right. split; [auto|]. split; [auto|]. left. auto.
    + exists 1, w', l, r. split; [auto|]. split.
      * unfold db_tree. now rewrite Hheap.
      * right. split; [auto|]. split; [auto|]. right. auto.
  - destruct Hrun as (Hadd & Hheap & _).
    exists 0, w', l, r. split; [auto|]. split.
    + unfold db_tree. now rewrite Hheap.
    + left. repeat split; auto.
Qed.

(** *** The descent, told on the heap *)

Lemma finds_tfound h key t a n :
  tree_at h t -> root t = Some a ->
  (finds h key a n <-> root (tfound key t) = Some n).
Proof.
  intros Ht Hr. split.
  - intros Hf. revert t Ht Hr. induction Hf as [p pn c cn Hp Hside Hc Hk|p pn c cn a Hp Hside Hc Hk Hf IH];
      intros t Ht Hr.
    + destruct t as [|a k v l r]; [discriminate|]. injection Hr as ->.
      destruct Ht as (Ha & Hl & Hr). rewrite Hp in Ha. injection Ha as ->.
      rewrite tfound_unfold. simpl in Hside |- *.
      destruct (strcmp key k <? 0).
      * destruct l as [|c' ck cv cl cr]; [discriminate|]. injection Hside as <-.
        destruct Hl as (Hc' & _). rewrite Hc in Hc'. injection Hc' as ->.
        simpl in Hk. now rewrite Hk.
      * destruct r as [|c' ck cv cl cr]; [discriminate|]. injection Hside as <-.
        destruct Hr as (Hc' & _). rewrite Hc in Hc'. injection Hc' as ->.
        simpl in Hk. now rewrite Hk.
    + destruct t as [|a' k v l r]; [discriminate|]. injection Hr as ->.
      destruct Ht as (Ha & Hl & Hr). rewrite Hp in Ha. injection Ha as ->.
      rewrite tfound_unfold. simpl in Hside |- *.
      apply Z.eqb_neq in Hk.
      destruct (strcmp key k <? 0).
      * destruct l as [|c' ck cv cl cr]; [discriminate|]. injection Hside as <-.
        pose proof Hl as (Hc' & _). rewrite Hc in Hc'. injection Hc' as ->.
        simpl in Hk. rewrite Hk. now apply IH.
      * destruct r as [|c' ck cv cl cr]; [discriminate|]. injection Hside as <-.
        pose proof Hr as (Hc' & _). rewrite Hc in Hc'. injection Hc' as ->.
        simpl in Hk. rewrite Hk. now apply IH.
  - assert (Hne : t <> Leaf) by (destruct t; [discriminate|congruence]).
    revert a Ht Hr. pattern t. apply (descent_ind key); auto; clear t Hne.
    + intros t _ Hc a _ _. rewrite tfound_unfold, Hc. discriminate.
    + intros t c ck cv cl cr _ Hc Hk a Ht Hr. rewrite tfound_unfold, Hc, Hk.
      intros [= <-]. destruct t as [|a' k v l r]; [discriminate|]. injection Hr as ->.
      destruct Ht as (Ha & Hl & Hr). simpl in Hc.
      assert (Hct : tree_at h (Node c ck cv cl cr))
        by (destruct (strcmp key k <? 0); subst; auto).
      destruct Hct as (Hcn & _).
      eapply (finds_child h key a _ c _ Ha); [|exact Hcn|exact Hk].
      simpl. destruct (strcmp key k <? 0); subst; reflexivity.
    + intros t c ck cv cl cr _ Hc Hk IH a Ht Hr. rewrite tfound_unfold, Hc.
      pose proof Hk as Hk'. apply Z.eqb_neq in Hk'. rewrite Hk'. intros Hn.
      destruct t as [|a' k v l r]; [discriminate|]. injection Hr as ->.
      destruct Ht as (Ha & Hl & Hr). simpl in Hc.
      assert (Hct : tree_at h (Node c ck cv cl cr))
        by (destruct (strcmp key k <? 0); subst; auto).
      pose proof Hct as (Hcn & _).
      eapply (finds_below h key a _ c _ n Ha); [|exact Hcn|exact Hk|].
      * simpl. destruct (strcmp key k <? 0); subst; reflexivity.
      * apply IH; auto.
Qed.

Lemma absent_tfound w key l r :
  db_tree w l r -> (absent w key <-> tfound key (Node head "" "" l r) = Leaf).
Proof.
  intros (Ht & _). unfold absent. split.
  - intros Hab. destruct (tfound key (Node head "" "" l r)) as [|n nk nv nl nr] eqn:E; auto.
    exfalso. apply (Hab n). apply (finds_tfound _ _ _ _ _ Ht eq_refl). now rewrite E.
  - intros Hf a Ha. apply (finds_tfound _ _ _ _ _ Ht eq_refl) in Ha. now rewrite Hf in Ha.
Qed.

Lemma tfound_at key h t : NoDup (addrs t) -> tree_at h t -> tree_at h (tfound key t).
Proof.
  intros Hnd Ht. pose proof (tfocus_at key h t Hnd Ht) as Hf. unfold tfound.
  destruct (tfocus key t) as [|a k v l r]; [exact I|].
  destruct Hf as (_ & Hl & Hr). simpl. now destruct (strcmp key k <? 0).
Qed.

Lemma stored_tfound w key v l r :
  db_tree w l r ->
  (stored w key v <->
   tfound key (Node head "" "" l r) <> Leaf /\ tvalue (tfound key (Node head "" "" l r)) = v).
Proof.
  intros (Ht & Hnd & _). unfold stored.
  pose proof (tfound_at key _ _ Hnd Ht) as Hfa. split.
  - intros (a & n & Hf & Ha & Hv).
    apply (finds_tfound _ _ _ _ _ Ht eq_refl) in Hf.
    destruct (tfound key (Node head "" "" l r)) as [|c ck cv cl cr]; [discriminate|].
    injection Hf as ->. destruct Hfa as (Hc & _). rewrite Ha in Hc. injection Hc as ->.
    simpl in *. split; congruence.
  - intros (Hne & Hv).
    destruct (tfound key (Node head "" "" l r)) as [|c ck cv cl cr] eqn:E; [congruence|].
    destruct Hfa as (Hc & _). exists c, (mk_node ck cv (root cl) (root cr)).
    split; [|split; auto].
    apply (finds_tfound _ _ _ _ _ Ht eq_refl). now rewrite E.
Qed.

(** *** Removal in the heap *)

Lemma store_child_at w q qn c :
  heap w !! q.1 = Some qn ->
  store_child q c w = Some (tt, with_heap (insert q.1 (set_field q.2 qn c)) w).
Proof.
  intros Hq. unfold store_child, set_field. destruct q as [qa []]; simpl in *.
  - now apply set_lchild_at.
  - now apply set_rchild_at.
Qed.

Lemma set_field_same f n : set_field f n (field f n) = n.
Proof. destruct f, n; reflexivity. Qed.

Lemma tmin_not_leaf t : t <> Leaf -> tmin t <> Leaf.
Proof.
  induction t as [|a k v l IHl r _]; [congruence|]. intros _. simpl.
  destruct l; [congruence|]. apply IHl. congruence.
Qed.

Lemma tmin_left t a k v l r : tmin t = Node a k v l r -> l = Leaf.
Proof.
  induction t as [|a' k' v' l' IHl r' _]; [discriminate|]. simpl.
  destruct l'; [now intros [= _ _ _ <- _]|]. apply IHl.
Qed.

Lemma tmin_in t x : root (tmin t) = Some x -> x ∈ addrs t.
Proof.
  induction t as [|a k v l IHl r _]; [discriminate|]. simpl.
  destruct l as [|n nk nv nl nr].
  - intros [= ->]. left.
  - intros Hx. right. apply elem_of_app. left. auto.
Qed.

Lemma tdelmin_addrs t x :
  root (tmin t) = Some x -> addrs t ≡ₚ x :: addrs (tdelmin t).
Proof.
  induction t as [|a k v l IHl r _]; [discriminate|]. simpl.
  destruct l as [|n nk nv nl nr].
  - now intros [= ->].
  - intros Hx. rewrite (IHl Hx). cbn [addrs app]. apply perm_swap.
Qed.

(** The loop of [db_remove] in the heap is the walk down the left spine. *)
Lemma leftmost_run `{Allocator} t :
  forall fuel w a pnext,
    tree_at (heap w) t -> root t = Some a -> (height t <= fuel)%nat ->
    db_remove_leftmost fuel a pnext w =
      Some ((default head (root (tmin t)), tmin_edge t pnext), add_events (tmin_events t) w).
Proof.
  induction t as [|a k v l IHl r _]; intros fuel w a' pnext Ht Hr Hfuel; [discriminate|].
  injection Hr as <-. destruct fuel as [|fuel]; [simpl in Hfuel; lia|].
  destruct Ht as (Ha & Hl & Hr). cbn [db_remove_leftmost].
  rewrite (bind_some _ _ _ _ _ (get_lchild_at _ _ _ Ha)). cbn [lchild].
  destruct l as [|n nk nv nl nr].
  - cbn [root tmin tmin_edge tmin_events default]. unfold ret. now rewrite add_events_nil.
  - cbn [root]. pose proof Hl as (Hn & _).
    rewrite (bind_some _ _ _ _ _ (lock_at l_write _ _ _ Hn)).
    assert (Ha' : heap (add_events [Acquire l_write n] w) !! a
                  = Some (mk_node k v (Some n) (root r))) by exact Ha.
    rewrite (bind_some _ _ _ _ _ (unlock_at _ _ _ Ha')).
    rewrite add_events_app.
    rewrite (IHl fuel _ n (a, in_lchild)); auto.
    + rewrite add_events_app. reflexivity.
    + simpl in Hfuel |- *. lia.
Qed.

(** Unlinking the leftmost node of the tree that hangs from the field [fld]
    of the node at [pa]. *)
Lemma tdelmin_at t :
  forall h pa fld pn,
    t <> Leaf -> tree_at h t -> NoDup (addrs t) -> pa ∉ addrs t ->
    h !! pa = Some pn -> field fld pn = root t ->
    exists s sk sv sr qn,
      tmin t = Node s sk sv Leaf sr /\
      h !! s = Some (mk_node sk sv None (root sr)) /\
      h !! (tmin_edge t (pa, fld)).1 = Some qn /\
      let h' := delete s (<[(tmin_edge t (pa, fld)).1 :=
                              set_field (tmin_edge t (pa, fld)).2 qn (root sr)]> h) in
      tree_at h' (tdelmin t) /\
      h' !! pa = Some (set_field fld pn (root (tdelmin t))) /\
      (forall x, x ∉ addrs t -> x <> pa -> h' !! x = h !! x).
Proof.
  induction t as [|a k v l IHl r _]; intros h pa fld pn Hne Ht Hnd Hpa Hpn Hfld; [congruence|].
  destruct Ht as (Ha & Hl & Hr).
  simpl in Hnd. apply NoDup_cons in Hnd as [Hna Hnd].
  apply NoDup_app in Hnd as (Hndl & Hlr & Hndr).
  assert (Hpa_a : pa <> a) by (intros ->; apply Hpa; left).
  destruct l as [|n nk nv nl nr].
  - exists a, k, v, r, pn. cbn [tmin tmin_edge tdelmin fst snd].
    split; [reflexivity|]. split; [exact Ha|]. split; [exact Hpn|].
    split; [|split].
    + eapply tree_at_ext; [|exact Hr]. intros x Hx.
      rewrite lookup_delete_ne, lookup_insert_ne; auto.
      * intros <-. apply Hpa. right. exact Hx.
      * intros <-. apply Hna. exact Hx.
    + rewrite lookup_delete_ne, lookup_insert_eq; auto.
    + intros x Hx Hxpa. rewrite lookup_delete_ne, lookup_insert_ne; auto.
      intros <-. apply Hx. left.
  - assert (Hal : a ∉ addrs (Node n nk nv nl nr)).
    { intros Hin. apply Hna. apply elem_of_app. auto. }
    destruct (IHl h a in_lchild (mk_node k v (Some n) (root r)))
      as (s & sk & sv & sr & qn & Hmin & Hs & Hq & Hat & Hpa' & Hframe); auto; try congruence.
    exists s, sk, sv, sr, qn.
    change (tmin (Node a k v (Node n nk nv nl nr) r)) with (tmin (Node n nk nv nl nr)).
    change (tmin_edge (Node a k v (Node n nk nv nl nr) r) (pa, fld))
      with (tmin_edge (Node n nk nv nl nr) (a, in_lchild)).
    change (tdelmin (Node a k v (Node n nk nv nl nr) r))
      with (Node a k v (tdelmin (Node n nk nv nl nr)) r).
    split; [exact Hmin|]. split; [exact Hs|]. split; [exact Hq|].
    cbv zeta in Hat, Hpa', Hframe |- *.
    set (h' := delete s _) in *.
    assert (Hpal : pa ∉ addrs (Node n nk nv nl nr)).
    { intros Hin. apply Hpa. right. apply elem_of_app. auto. }
    split; [|split].
    + cbn [tree_at]. split; [|split].
      * rewrite Hpa'. reflexivity.
      * exact Hat.
      * eapply tree_at_ext; [|exact Hr]. intros x Hx. apply Hframe.
        -- intros Hin. eapply Hlr; eauto.
        -- intros ->. apply Hna. apply elem_of_app. auto.
    + rewrite Hframe; auto. rewrite Hpn. f_equal.
      simpl in Hfld. cbn [root]. rewrite <- Hfld. symmetry. apply set_field_same.
    + intros x Hx Hxpa. apply Hframe.
      * intros Hin. apply Hx. right. apply elem_of_app. auto.
      * intros ->. apply Hx. left.
Qed.

Lemma tremove_node_addrs d g :
  tfreed d = Some g -> addrs d ≡ₚ g :: addrs (tremove_node d).
Proof.
  destruct d as [|a k v l r]; [discriminate|]. simpl.
  destruct r as [|rn rk rv rl rr].
  - intros [= <-]. now rewrite app_nil_r.
  - destruct l as [|ln lk lv ll lr].
    + intros [= <-]. reflexivity.
    + intros Hg. cbn [addrs].
      rewrite (tdelmin_addrs (Node rn rk rv rl rr) g Hg).
      rewrite <- Permutation_middle. apply perm_swap.
Qed.

Lemma tfreed_some d : d <> Leaf -> is_Some (tfreed d).
Proof.
  destruct d as [|a k v l r]; [congruence|]. intros _. simpl.
  destruct r as [|rn rk rv rl rr]; [eauto|]. destruct l as [|ln lk lv ll lr]; [eauto|].
  destruct (tmin (Node rn rk rv rl rr)) eqn:E; [|simpl; eauto].
  exfalso. revert E. apply tmin_not_leaf. congruence.
Qed.

Lemma tremove_node_form key a k v l r :
  exists l' r', tremove key (Node a k v l r) = Node a k v l' r'.
Proof.
  unfold tremove. cbn [tupdate child_of].
  destruct (strcmp key k <? 0) eqn:E.
  - destruct l as [|n nk nv nl nr]; [eauto|].
    destruct (strcmp key nk =? 0); [|eauto].
    cbn [set_child]. destruct (strcmp nk k <? 0); eauto.
  - destruct r as [|n nk nv nl nr]; [eauto|].
    destruct (strcmp key nk =? 0); [|eauto].
    cbn [set_child]. destruct (strcmp nk k <? 0); eauto.
Qed.

Lemma tremove_absent key t : t <> Leaf -> tfound key t = Leaf -> tremove key t = t.
Proof.
  unfold tfound, tremove. intros Hne. pattern t. apply (descent_ind key); auto; clear t Hne.
  - intros t Hne Hc _. now rewrite (tupdate_none _ _ _ Hne Hc), Hc.
  - intros t n nk nv nl nr Hne Hc Hk. rewrite (tfocus_found _ _ _ _ _ _ _ Hc Hk), Hc. discriminate.
  - intros t n nk nv nl nr Hne Hc Hk IH.
    rewrite (tfocus_step _ _ _ _ _ _ _ Hc Hk), (tupdate_step _ _ _ _ _ _ _ _ Hc Hk).
    intros Hf. rewrite (IH Hf). destruct t as [|a k v l r]; [congruence|].
    simpl in *. destruct (strcmp key k <? 0); congruence.
Qed.

(** The tree at the last parent once the heap has lost the node found. *)
Lemma focus_remove_at key h h' p pk pv pl pr a dk dv dl dr :
  let s := Node p pk pv pl pr in
  let d := Node a dk dv dl dr in
  child_of key s = d -> strcmp key dk = 0 ->
  tree_at h s -> NoDup (addrs s) ->
  tree_at h' (tremove_node d) ->
  h' !! p = Some (link_child dk (mk_node pk pv (root pl) (root pr)) (root (tremove_node d))) ->
  (forall x, x ∉ addrs d -> x <> p -> h' !! x = h !! x) ->
  tree_at h' (set_child dk s (tremove_node d)).
Proof.
  intros s d Hc Hk (Hp & Hl & Hr) Hnd Hat Hp' Hframe.
  apply strcmp_eq in Hk. subst dk.
  simpl in Hnd. apply NoDup_cons in Hnd as [Hnp Hnd].
  apply NoDup_app in Hnd as (Hndl & Hlr & Hndr).
  unfold link_child in Hp'. cbn [name value lchild rchild] in Hp'.
  simpl in Hc. subst s. cbn [set_child].
  destruct (strcmp key pk <? 0); cbn [tree_at]; (split; [exact Hp'|]).
  - split; [exact Hat|]. eapply tree_at_ext; [|exact Hr]. intros x Hx. apply Hframe.
    + rewrite <- Hc. intros Hin. eapply Hlr; eauto.
    + intros ->. apply Hnp. apply elem_of_app. auto.
  - split; [|exact Hat]. eapply tree_at_ext; [|exact Hl]. intros x Hx. apply Hframe.
    + rewrite <- Hc. intros Hin. eapply Hlr; eauto.
    + intros ->. apply Hnp. apply elem_of_app. auto.
Qed.

(** The heap after a removal represents the tree after the removal. *)
Lemma tremove_represents key h h' t p pk pv pl pr a dk dv dl dr g :
  let d := Node a dk dv dl dr in
  t <> Leaf -> represents h t ->
  tfocus key t = Node p pk pv pl pr ->
  tfound key t = d -> strcmp key dk = 0 ->
  tfreed d = Some g ->
  tree_at h' (tremove_node d) ->
  h' !! p = Some (link_child dk (mk_node pk pv (root pl) (root pr)) (root (tremove_node d))) ->
  (forall x, x ∉ addrs d -> x <> p -> h' !! x = h !! x) ->
  dom h' = dom h ∖ {[g]} ->
  represents h' (tremove key t).
Proof.
  intros d Hne (Ht & Hnd & Hdom) Hf Hfound Hk Hg Hat Hp' Hframe Hdom'.
  unfold tfound in Hfound.
  pose proof (tfocus_at key _ _ Hnd Ht) as Hfat.
  pose proof (tfocus_NoDup key _ Hnd) as Hfnd.
  rewrite Hf in Hfat, Hfnd, Hfound.
  assert (Hperm : addrs (tremove key t) ++ [g] ≡ₚ [] ++ addrs t).
  { unfold tremove. apply tupdate_addrs; auto. rewrite Hf, Hfound. subst d.
    cbn [app]. pose proof (tremove_node_addrs _ g Hg) as Hd.
    clear - Hfound Hd Hk. apply strcmp_eq in Hk. subst dk.
    remember (tremove_node (Node a key dv dl dr)) as X eqn:EX. clear EX.
    simpl in Hfound. cbn [set_child].
    destruct (strcmp key pk <? 0); cbn [addrs]; rewrite Hfound, Hd.
    - simpl. constructor. now rewrite Permutation_app_comm.
    - simpl. constructor. rewrite <- app_assoc. apply Permutation_app_head.
      now rewrite Permutation_app_comm. }
  cbn [app] in Hperm.
  assert (Hnd' : NoDup (addrs (tremove key t) ++ [g])) by now rewrite Hperm.
  apply NoDup_app in Hnd' as (Hnd1 & Hdisj & _).
  split; [|split; [exact Hnd1|]].
  - unfold tremove. eapply tupdate_at; eauto; rewrite Hf, ?Hfound; unfold d.
    + exact (focus_remove_at key h h' p pk pv pl pr a dk dv dl dr
               Hfound Hk Hfat Hfnd Hat Hp' Hframe).
    + cbn [set_child]. now destruct (strcmp dk pk <? 0).
    + intros x Hx Hnx. apply Hframe.
      * intros Hin. apply Hnx. apply (child_of_addrs key). now rewrite Hfound.
      * intros ->. apply Hnx. left.
  - rewrite Hdom', Hdom. apply set_eq. intros x.
    rewrite elem_of_difference, !elem_of_list_to_set, elem_of_singleton.
    rewrite <- Hperm. rewrite elem_of_app, list_elem_of_singleton.
    split.
    + intros [[Hx|Hx] Hxg]; [auto|contradiction].
    + intros Hx. split; [auto|]. intros ->. apply (Hdisj g Hx). left.
Qed.

Lemma tmin_at h t :
  t <> Leaf -> tree_at h t ->
  exists s sk sv sr,
    tmin t = Node s sk sv Leaf sr /\ h !! s = Some (mk_node sk sv None (root sr)) /\
    s ∈ addrs t.
Proof.
  induction t as [|a k v l IHl r _]; [congruence|]. intros _ (Ha & Hl & Hr).
  destruct l as [|n nk nv nl nr].
  - exists a, k, v, r. repeat split; auto. left.
  - destruct IHl as (s & sk & sv & sr & Hmin & Hs & Hin); auto; try congruence.
    exists s, sk, sv, sr. repeat split; auto. right. apply elem_of_app. auto.
Qed.

Lemma child_of_height key t : t <> Leaf -> (height (child_of key t) < height t)%nat.
Proof.
  destruct t as [|a k v l r]; [congruence|]. intros _. simpl.
  destruct (strcmp key k <? 0); lia.
Qed.

Lemma tfocus_height key t : (height (tfocus key t) <= height t)%nat.
Proof.
  destruct t as [|a0 k0 v0 l0 r0]; [auto|].
  assert (Hne : Node a0 k0 v0 l0 r0 <> Leaf) by congruence.
  revert Hne. generalize (Node a0 k0 v0 l0 r0) as t. clear.
  intros t Hne. pattern t. apply (descent_ind key); auto; clear t Hne.
  - intros t _ Hc. rewrite (tfocus_none _ _ Hc). lia.
  - intros t n nk nv nl nr _ Hc Hk. rewrite (tfocus_found _ _ _ _ _ _ _ Hc Hk). lia.
  - intros t n nk nv nl nr Hne Hc Hk IH. rewrite (tfocus_step _ _ _ _ _ _ _ Hc Hk).
    pose proof (child_of_height key t Hne) as Hh. rewrite Hc in Hh. lia.
Qed.

(** Running one step of a computation whose outcome is known. *)
Ltac heap_lookup :=
  cbn [heap with_heap add_events pop_fault];
  repeat first [ rewrite lookup_insert_eq
               | rewrite lookup_insert_ne by congruence
               | rewrite lookup_delete_ne by congruence ];
  first [eassumption | reflexivity].

Ltac mstep lem := erewrite bind_some; [|eapply lem; heap_lookup].

(** [db_remove], run on a database. *)
Lemma db_remove_run `{Allocator} key w l r :
  db_tree w l r ->
  let t := Node head "" "" l r in
  exists p,
    root (tfocus key t) = Some p /\ exists w',
    db_remove key w = Some (match tfound key t with Leaf => 0 | _ => 1 end, w') /\
    represents (heap w') (tremove key t) /\
    locks w' = locks w ++ Acquire l_write head :: snd (tsearch key true l_write t)
                       ++ tremove_events p (tfound key t) /\
    dom (heap w') = dom (heap w) ∖ match tfreed (tfound key t) with
                                   | Some g => {[g]}
                                   | None => ∅
                                   end.
Proof.
  intros Hdb t.
  destruct (descent_run key true l_write w l r Hdb)
    as (p & pk & pv & pl & pr & Hf & Hp & Hc & Hm & Hs).
  fold t in Hf, Hc, Hm, Hs. fold (tfound key t) in Hc, Hm, Hs.
  assert (Hhead : heap w !! head = Some (mk_node "" "" (root l) (root r))).
  { destruct Hdb as (Ht & _). now destruct Ht. }
  assert (Hne : t <> Leaf) by (subst t; congruence).
  pose proof Hdb as (Ht & Hnd & Hdom). fold t in Ht, Hnd, Hdom.
  set (evs := snd (tsearch key true l_write t)) in *.
  assert (Hfound : child_of key (Node p pk pv pl pr) = tfound key t).
  { unfold tfound. now rewrite Hf. }
  pose proof (tfocus_NoDup key _ Hnd) as Hfnd. rewrite Hf in Hfnd.
  pose proof (tfocus_height key t) as Hfh. rewrite Hf in Hfh.
  pose proof (represents_height _ _ Hdb) as Hth. fold t in Hth.
  exists p.
  split; [now rewrite Hf|].
  unfold db_remove.
  rewrite (bind_some _ _ _ _ _ (fuel_of_eq w)).
  rewrite (bind_some _ _ _ _ _ (lock_at l_write _ _ _ Hhead)).
  rewrite (bind_some _ _ _ _ _ Hs).
  destruct (tfound key t) as [|a dk dv dl dr] eqn:Ed; cbn [root tfreed tremove_events].
  - (* not found *)
    mstep unlock_at. eexists.
    split; [reflexivity|].
    split; [rewrite tremove_absent; auto|].
    split; [cbn [locks add_events]; now rewrite <- app_assoc|].
    cbn [heap add_events]. set_solver.
  - (* found *)
    destruct Hc as (Ha & Hdl & Hdr).
    assert (Hap : a <> p).
    { intros ->. apply NoDup_cons in Hfnd as [Hnp _]. apply Hnp.
      apply elem_of_app. simpl in Hfound.
      destruct (strcmp key pk <? 0); subst; [left|right]; left. }
    assert (Hdnd : NoDup (addrs (Node a dk dv dl dr))).
    { simpl in Hfound. apply NoDup_cons in Hfnd as [_ Hfnd].
      apply NoDup_app in Hfnd as (? & _ & ?).
      destruct (strcmp key pk <? 0); subst; auto. }
    assert (Hdh : (height (Node a dk dv dl dr) < height t)%nat).
    { rewrite <- Hfound.
      pose proof (child_of_height key (Node p pk pv pl pr) ltac:(congruence)). lia. }
    mstep get_rchild_at. mstep get_lchild_at. cbn [lchild rchild].
    assert (Hcase12 : forall c,
      tremove_node (Node a dk dv dl dr) = c -> (c = dl \/ c = dr) ->
      tfreed (Node a dk dv dl dr) = Some a ->
      represents
        (delete a (<[p := link_child dk (mk_node pk pv (root pl) (root pr)) (root c)]> (heap w)))
        (tremove key t) /\
      dom (delete a (<[p := link_child dk (mk_node pk pv (root pl) (root pr)) (root c)]>
                       (heap w)))
        = dom (heap w) ∖ {[a]}).
    { intros c Hceq Hcc Hfr.
      assert (Hcat : tree_at (heap w) c) by (destruct Hcc as [->| ->]; assumption).
      assert (Hcin : forall x, x ∈ addrs c -> x ∈ addrs dl ++ addrs dr)
        by (intros x Hx; apply elem_of_app; destruct Hcc as [->| ->]; auto).
      assert (Hd' : dom (delete a (<[p := link_child dk (mk_node pk pv (root pl) (root pr))
                                            (root c)]> (heap w))) = dom (heap w) ∖ {[a]}).
      { rewrite dom_delete_L, dom_insert_L.
        assert (Hpin : p ∈ dom (heap w)) by (apply elem_of_dom; eauto).
        clear - Hpin. set_solver. }
      split; [|exact Hd'].
      eapply (tremove_represents key (heap w) _ t p pk pv pl pr a dk dv dl dr a); eauto.
      - rewrite Hceq. simpl in Hdnd. apply NoDup_cons in Hdnd as [Hna Hdnd'].
        eapply tree_at_ext; [|exact Hcat]. intros x Hx.
        pose proof (Hcin x Hx) as Hxd.
        rewrite lookup_delete_ne, lookup_insert_ne; auto.
        + intros <-. apply NoDup_cons in Hfnd as [Hnp _]. apply Hnp.
          simpl in Hfound. apply elem_of_app.
          destruct (strcmp key pk <? 0); subst; [left|right]; right; exact Hxd.
        + intros <-. contradiction.
      - rewrite Hceq, lookup_delete_ne, lookup_insert_eq; auto.
      - intros x Hx Hxp. rewrite lookup_delete_ne, lookup_insert_ne; auto.
        intros <-. apply Hx. left. }
    destruct dr as [|rn rk rv rl rr]; cbn [root].
    + (* no right child *)
      mstep get_name_at. mstep get_name_at. cbn [name].
      erewrite bind_some;
        [|apply (set_link_child _ dk p (mk_node pk pv (root pl) (root pr))); heap_lookup].
      mstep unlock_at. mstep free_at. mstep unlock_at.
      destruct (Hcase12 dl) as [Hrep Hd]; auto.
      eexists. split; [reflexivity|]. split; [exact Hrep|]. split; [|exact Hd].
      cbn [locks add_events with_heap]. now rewrite <- !app_assoc.
    + destruct dl as [|ln lk lv ll lr]; cbn [root].
      * (* no left child *)
        mstep get_name_at. mstep get_name_at. cbn [name].
        erewrite bind_some;
        [|apply (set_link_child _ dk p (mk_node pk pv (root pl) (root pr))); heap_lookup].
      mstep unlock_at. mstep free_at. mstep unlock_at.
        destruct (Hcase12 (Node rn rk rv rl rr)) as [Hrep Hd]; auto.
        eexists. split; [reflexivity|]. split; [exact Hrep|]. split; [|exact Hd].
        cbn [locks add_events with_heap]. now rewrite <- !app_assoc.
      * (* two children *)
        set (dl := Node ln lk lv ll lr) in *. set (dr := Node rn rk rv rl rr) in *.
        assert (Hdrne : dr <> Leaf) by (subst dr; congruence).
        destruct (tmin_at (heap w) dr Hdrne Hdr) as (s & sk & sv & sr & Hmin & Hs0 & Hsin).
        pose proof Hdnd as Hdnd'. change (NoDup (a :: addrs dl ++ addrs dr)) in Hdnd'.
        apply NoDup_cons in Hdnd' as [Hna Hdnd'].
        apply NoDup_app in Hdnd' as (Hndl & Hlr & Hndr).
        assert (Hadr : a ∉ addrs dr) by (intros Hin; apply Hna, elem_of_app; auto).
        assert (Hsa : s <> a) by (intros ->; contradiction).
        assert (Hpd : p ∉ addrs (Node a dk dv dl dr)).
        { apply NoDup_cons in Hfnd as [Hnp _]. intros Hin. apply Hnp.
          simpl in Hfound. apply elem_of_app.
          destruct (strcmp key pk <? 0); subst pl || subst pr; auto. }
        assert (Hpdr : p ∉ addrs dr).
        { intros Hin. apply Hpd. right. apply elem_of_app. auto. }
        pose proof Hdr as (Hrn & _).
        assert (Hdrh : (height dr <= S (size (heap w)))%nat).
        { change (height (Node a dk dv dl dr))
            with (S (Nat.max (height dl) (height dr))) in Hdh. lia. }
        mstep unlock_at. mstep lock_at.
        erewrite bind_some;
          [|apply (leftmost_run dr (S (size (heap w))) _ rn (a, in_rchild));
            [exact Hdr | reflexivity | exact Hdrh]].
        rewrite Hmin. cbn [fst snd root default from_option id].
        mstep get_name_at. mstep get_name_at. cbn [name].
        mstep set_name_at. cbn [name value lchild rchild].
        mstep get_value_at. mstep get_value_at. cbn [name value lchild rchild].
        mstep set_value_at. cbn [name value lchild rchild].
        mstep get_rchild_at. cbn [rchild].
        set (B := mk_node (snprintf dk MAXLEN sk) (snprintf dv MAXLEN sv) (root dl) (root dr)).
        set (h2 := <[a := B]> (<[a := mk_node (snprintf dk MAXLEN sk) dv (root dl) (root dr)]>
                                 (heap w))).
        assert (Hh2 : forall x, x <> a -> h2 !! x = heap w !! x).
        { intros x Hx. subst h2. now rewrite !lookup_insert_ne by congruence. }
        assert (Hdr2 : tree_at h2 dr).
        { eapply tree_at_ext; [|exact Hdr]. intros x Hx. apply Hh2. congruence. }
        assert (Ha2 : h2 !! a = Some B) by (subst h2; apply lookup_insert_eq).
        destruct (tdelmin_at dr h2 a in_rchild B Hdrne Hdr2 Hndr Hadr Ha2 eq_refl)
          as (s' & sk' & sv' & sr' & qn & Hmin' & Hs2 & Hq & Hat & Hpa' & Hframe).
        rewrite Hmin in Hmin'. injection Hmin' as <- <- <- <-.
        set (q := tmin_edge dr (a, in_rchild)) in *.
        cbv zeta in Hat, Hpa', Hframe.
        set (h3 := <[q.1 := set_field q.2 qn (root sr)]> h2) in *.
        erewrite bind_some; [|apply (store_child_at _ q qn); exact Hq].
        assert (Ha3 : h3 !! a = Some (set_field in_rchild B (root (tdelmin dr)))).
        { rewrite <- Hpa'. now rewrite lookup_delete_ne. }
        erewrite bind_some; [|eapply unlock_at; exact Ha3].
        assert (Hs3 : is_Some (h3 !! s)).
        { subst h3. apply lookup_insert_is_Some'. right. rewrite Hh2; eauto. }
        destruct Hs3 as [sn3 Hs3].
        erewrite bind_some; [|eapply unlock_at; exact Hs3].
        erewrite bind_some; [|eapply free_at; exact Hs3].
        eexists. split; [reflexivity|]. cbn [heap locks with_heap add_events].
        fold h2 h3.
        assert (Hd' : dom (delete s h3) = dom (heap w) ∖ {[s]}).
        { subst h3 h2. rewrite dom_delete_L, !dom_insert_L.
          assert (Hain : a ∈ dom (heap w)) by (apply elem_of_dom; eauto).
          assert (Hqin : q.1 ∈ dom (<[a:=B]> (<[a:=mk_node (snprintf dk MAXLEN sk) dv
                                                   (root dl) (root dr)]> (heap w))))
            by (apply elem_of_dom; eauto).
          rewrite !dom_insert_L in Hqin. clear - Hain Hqin. clearbody q.
          destruct q as [q1 q2]. cbn [fst] in *. set_solver. }
        split; [|split; [|exact Hd']].
        -- eapply (tremove_represents key (heap w) _ t p pk pv pl pr a dk dv dl dr s); eauto.
           ++ change (tfreed (Node a dk dv dl dr)) with (root (tmin dr)). now rewrite Hmin.
           ++ change (tremove_node (Node a dk dv dl dr))
                with (Node a (snprintf dk MAXLEN (tkey (tmin dr)))
                           (snprintf dv MAXLEN (tvalue (tmin dr))) dl (tdelmin dr)).
              rewrite Hmin. cbn [tkey tvalue tree_at]. split; [exact Hpa'|]. split; [|exact Hat].
              eapply tree_at_ext; [|exact Hdl]. intros x Hx.
              assert (Hxa : x <> a) by (intros ->; apply Hna, elem_of_app; auto).
              rewrite Hframe, Hh2; auto.
           ++ rewrite Hframe, Hh2; try congruence.
              rewrite Hp. f_equal. apply strcmp_eq in Hm. subst dk.
              unfold link_child. cbn [name value lchild rchild root].
              simpl in Hfound. destruct (strcmp key pk <? 0); rewrite Hfound; reflexivity.
           ++ intros x Hx Hxp.
              assert (Hxa : x <> a) by (intros ->; apply Hx; left).
              rewrite Hframe, Hh2; auto. intros Hin. apply Hx. right. apply elem_of_app. auto.
        -- rewrite <- !app_assoc. reflexivity.
Qed.

(** *** The order of the keys *)

Lemma strcmp_ge_lt a b : (strcmp a b <? 0) = false -> strcmp a b <> 0 -> strcmp b a < 0.
Proof. intros Hlt Hne. apply Z.ltb_ge in Hlt. rewrite strcmp_antisym. lia. Qed.

Lemma strcmp_lt_ne a b : strcmp a b < 0 -> strcmp b a <> 0.
Proof. rewrite (strcmp_antisym b a). lia. Qed.

Lemma keys_set_child key t c x :
  x ∈ keys (set_child key t c) -> x ∈ keys c \/ x ∈ keys t.
Proof.
  destruct t as [|a k v l r]; [auto|]. cbn [set_child].
  destruct (strcmp key k <? 0); cbn [keys]; rewrite !elem_of_app, !elem_of_cons; tauto.
Qed.

Lemma tinsert_keys key new t x :
  t <> Leaf -> x ∈ keys (tinsert key new t) -> x ∈ keys t \/ x ∈ keys new.
Proof.
  unfold tinsert. intros Hne. pattern t. apply (descent_ind key); auto; clear t Hne.
  - intros t Hne Hc. rewrite (tupdate_none _ _ _ Hne Hc), Hc.
    intros Hx. apply keys_set_child in Hx. tauto.
  - intros t n nk nv nl nr Hne Hc Hk. rewrite (tupdate_found _ _ _ _ _ _ _ _ Hc Hk), Hc. auto.
  - intros t n nk nv nl nr Hne Hc Hk IH. rewrite (tupdate_step _ _ _ _ _ _ _ _ Hc Hk).
    intros Hx. apply keys_set_child in Hx as [Hx|Hx]; [|auto].
    destruct (IH Hx) as [Hx'|Hx']; [|auto]. left.
    apply (child_of_keys key). now rewrite Hc.
Qed.

(** Insertion of a key that is not there keeps the order, provided the key
    differs from the key at the root, which the descent never compares for
    equality. *)
Lemma tinsert_ordered key n nv t :
  t <> Leaf -> ordered t -> tfound key t = Leaf -> strcmp key (tkey t) <> 0 ->
  ordered (tinsert key (Node n key nv Leaf Leaf) t).
Proof.
  intros Hne. pattern t. apply (descent_ind key); auto; clear t Hne.
  - intros t Hne Hc Hord _ Htop. unfold tinsert. rewrite (tupdate_none _ _ _ Hne Hc), Hc.
    destruct t as [|a k v l r]; [congruence|]. simpl in Hc, Htop. cbn [set_child].
    destruct Hord as (Hl & Hr & Hol & Hor).
    destruct (strcmp key k <? 0) eqn:E; subst; cbn [ordered keys app].
    + apply Z.ltb_lt in E. repeat split; auto.
    + pose proof (strcmp_ge_lt _ _ E Htop). repeat split; auto.
  - intros t m mk mv ml mr Hne Hc Hk _. unfold tfound.
    rewrite (tfocus_found _ _ _ _ _ _ _ Hc Hk), Hc. discriminate.
  - intros t m mk mv ml mr Hne Hc Hk IH Hord Hf Htop.
    unfold tfound in Hf. rewrite (tfocus_step _ _ _ _ _ _ _ Hc Hk) in Hf.
    unfold tinsert. rewrite (tupdate_step _ _ _ _ _ _ _ _ Hc Hk).
    fold (tinsert key (Node n key nv Leaf Leaf) (Node m mk mv ml mr)).
    destruct t as [|a k v l r]; [congruence|]. simpl in Hc, Htop. cbn [set_child].
    destruct Hord as (Hl & Hr & Hol & Hor).
    assert (Hin : forall x, x ∈ keys (tinsert key (Node n key nv Leaf Leaf) (Node m mk mv ml mr))
                            -> x ∈ keys (Node m mk mv ml mr) \/ x = key).
    { intros x Hx. apply tinsert_keys in Hx as [Hx|Hx]; [auto| |congruence].
      simpl in Hx. apply list_elem_of_singleton in Hx. auto. }
    destruct (strcmp key k <? 0) eqn:E; subst; cbn [ordered].
    + apply Z.ltb_lt in E. split; [|split; [|split]]; auto.
      apply Forall_forall. intros x Hx. destruct (Hin x Hx) as [Hx'| ->]; auto.
      rewrite Forall_forall in Hl. auto.
    + pose proof (strcmp_ge_lt _ _ E Htop). split; [|split; [|split]]; auto.
      apply Forall_forall. intros x Hx. destruct (Hin x Hx) as [Hx'| ->]; auto.
      rewrite Forall_forall in Hr. auto.
Qed.

Lemma keys_tdelmin t : t <> Leaf -> keys t = tkey (tmin t) :: keys (tdelmin t).
Proof.
  induction t as [|a k v l IHl r _]; [congruence|]. intros _. cbn [tmin tdelmin].
  destruct l as [|n nk nv nl nr]; [reflexivity|].
  cbn [keys] in *. rewrite IHl by congruence. reflexivity.
Qed.

Lemma tdelmin_ordered t : ordered t -> ordered (tdelmin t).
Proof.
  induction t as [|a k v l IHl r _]; [auto|]. intros (Hl & Hr & Hol & Hor). cbn [tdelmin].
  destruct l as [|n nk nv nl nr]; [auto|].
  cbn [ordered]. split; [|split; [|split]]; auto.
  rewrite (keys_tdelmin (Node n nk nv nl nr)) in Hl by congruence.
  now apply Forall_cons in Hl as [_ Hl].
Qed.

Lemma tmin_least t : ordered t -> Forall (fun x => strcmp (tkey (tmin t)) x < 0) (keys (tdelmin t)).
Proof.
  induction t as [|a k v l IHl r _]; [constructor|]. intros (Hl & Hr & Hol & Hor).
  cbn [tmin tdelmin]. destruct l as [|n nk nv nl nr]; [exact Hr|].
  cbn [keys]. rewrite (keys_tdelmin (Node n nk nv nl nr)) in Hl by congruence.
  apply Forall_cons in Hl as [Hmin Hl].
  apply Forall_app. split; [auto|]. constructor; [auto|].
  eapply Forall_impl; [exact Hr|]. intros x Hx. simpl in Hx. eapply strcmp_trans; eauto.
Qed.

Lemma tremove_node_keys d x :
  keys_bounded d -> x ∈ keys (tremove_node d) -> x ∈ keys d.
Proof.
  destruct d as [|a k v l r]; [auto|]. intros Hb. cbn [tremove_node keys].
  destruct r as [|rn rk rv rl rr].
  - intros Hx. apply elem_of_app. auto.
  - destruct l as [|ln lk lv ll lr].
    + intros Hx. right. exact Hx.
    + set (dl := Node ln lk lv ll lr) in *. set (dr := Node rn rk rv rl rr) in *.
      assert (Hdr : dr <> Leaf) by (subst dr; congruence).
      cbn [keys]. rewrite (keys_tdelmin dr Hdr).
      assert (Hshort : (String.length (tkey (tmin dr)) < MAXLEN)%nat).
      { unfold keys_bounded in Hb. cbn [keys] in Hb. rewrite (keys_tdelmin dr Hdr) in Hb.
        apply Forall_app in Hb as [_ Hb]. apply Forall_cons in Hb as [_ Hb].
        now apply Forall_cons in Hb as [Hb _]. }
      rewrite (snprintf_short _ _ _ Hshort).
      rewrite !elem_of_app, !elem_of_cons. tauto.
Qed.

Lemma tremove_node_ordered d : keys_bounded d -> ordered d -> ordered (tremove_node d).
Proof.
  destruct d as [|a k v l r]; [auto|]. intros Hb (Hl & Hr & Hol & Hor). cbn [tremove_node].
  destruct r as [|rn rk rv rl rr]; [auto|].
  destruct l as [|ln lk lv ll lr]; [auto|].
  set (dl := Node ln lk lv ll lr) in *. set (dr := Node rn rk rv rl rr) in *.
  assert (Hdr : dr <> Leaf) by (subst dr; congruence).
  assert (Hshort : (String.length (tkey (tmin dr)) < MAXLEN)%nat).
  { unfold keys_bounded in Hb. cbn [keys] in Hb. rewrite (keys_tdelmin dr Hdr) in Hb.
    apply Forall_app in Hb as [_ Hb]. apply Forall_cons in Hb as [_ Hb].
    now apply Forall_cons in Hb as [Hb _]. }
  rewrite (snprintf_short _ _ _ Hshort). cbn [ordered].
  pose proof Hr as Hr'. rewrite (keys_tdelmin dr Hdr) in Hr'.
  apply Forall_cons in Hr' as [Hmin _].
  split; [|split; [|split]]; auto.
  - eapply Forall_impl; [exact Hl|]. intros x Hx. simpl in Hx. eapply strcmp_trans; eauto.
  - now apply tmin_least.
  - now apply tdelmin_ordered.
Qed.

Lemma keys_bounded_child key t : keys_bounded t -> keys_bounded (child_of key t).
Proof.
  unfold keys_bounded. rewrite !Forall_forall. intros Hb x Hx.
  apply Hb. now apply (child_of_keys key).
Qed.

Lemma ordered_child key t : ordered t -> ordered (child_of key t).
Proof.
  destruct t as [|a k v l r]; [auto|]. intros (_ & _ & Hl & Hr). simpl.
  now destruct (strcmp key k <? 0).
Qed.

Lemma tremove_keys key t x :
  t <> Leaf -> keys_bounded t -> x ∈ keys (tremove key t) -> x ∈ keys t.
Proof.
  unfold tremove. intros Hne. pattern t. apply (descent_ind key); auto; clear t Hne.
  - intros t Hne Hc _. now rewrite (tupdate_none _ _ _ Hne Hc), Hc.
  - intros t n nk nv nl nr Hne Hc Hk Hb. rewrite (tupdate_found _ _ _ _ _ _ _ _ Hc Hk), Hc.
    pose proof (keys_bounded_child key t Hb) as Hbc. rewrite Hc in Hbc.
    intros Hx. apply keys_set_child in Hx as [Hx|Hx]; [|auto].
    apply (tremove_node_keys _ x Hbc) in Hx.
    apply (child_of_keys key). now rewrite Hc.
  - intros t n nk nv nl nr Hne Hc Hk IH Hb. rewrite (tupdate_step _ _ _ _ _ _ _ _ Hc Hk).
    pose proof (keys_bounded_child key t Hb) as Hbc. rewrite Hc in Hbc.
    intros Hx. apply keys_set_child in Hx as [Hx|Hx]; [|auto].
    apply (child_of_keys key). rewrite Hc. auto.
Qed.

Lemma tremove_ordered key t :
  t <> Leaf -> keys_bounded t -> ordered t -> ordered (tremove key t).
Proof.
  intros Hne. pattern t. apply (descent_ind key); auto; clear t Hne.
  - intros t Hne Hc _ Hord. unfold tremove. now rewrite (tupdate_none _ _ _ Hne Hc), Hc.
  - intros t n nk nv nl nr Hne Hc Hk Hb Hord. unfold tremove.
    rewrite (tupdate_found _ _ _ _ _ _ _ _ Hc Hk), Hc.
    apply strcmp_eq in Hk. subst nk.
    pose proof (keys_bounded_child key t Hb) as Hbc. rewrite Hc in Hbc.
    pose proof (ordered_child key t Hord) as Hoc. rewrite Hc in Hoc.
    pose proof (tremove_node_ordered _ Hbc Hoc) as Hox.
    pose proof (tremove_node_keys (Node n key nv nl nr)) as Hsub.
    destruct t as [|a k v l r]; [congruence|]. simpl in Hc. cbn [set_child].
    destruct Hord as (Hl & Hr & Hol & Hor).
    destruct (strcmp key k <? 0); subst; cbn [ordered]; (split; [|split; [|split]]); auto.
    + apply Forall_forall. intros x Hx. rewrite Forall_forall in Hl. auto.
    + apply Forall_forall. intros x Hx. rewrite Forall_forall in Hr. auto.
  - intros t n nk nv nl nr Hne Hc Hk IH Hb Hord. unfold tremove.
    rewrite (tupdate_step _ _ _ _ _ _ _ _ Hc Hk).
    fold (tremove key (Node n nk nv nl nr)).
    pose proof (keys_bounded_child key t Hb) as Hbc. rewrite Hc in Hbc.
    pose proof (ordered_child key t Hord) as Hoc. rewrite Hc in Hoc.
    specialize (IH Hbc Hoc).
    assert (Hsub : forall x, x ∈ keys (tremove key (Node n nk nv nl nr)) ->
                             x ∈ keys (Node n nk nv nl nr)).
    { intros x. apply tremove_keys; auto; congruence. }
    destruct t as [|a k v l r]; [congruence|]. simpl in Hc. cbn [set_child].
    destruct Hord as (Hl & Hr & Hol & Hor).
    destruct (strcmp key k <? 0); subst; cbn [ordered]; (split; [|split; [|split]]); auto.
    + apply Forall_forall. intros x Hx. rewrite Forall_forall in Hl. auto.
    + apply Forall_forall. intros x Hx. rewrite Forall_forall in Hr. auto.
Qed.

(** *** Printing *)

Lemma append_cons c s1 s2 : String c s1 +:+ s2 = String c (s1 +:+ s2).
Proof. reflexivity. Qed.

Lemma append_assoc s1 s2 s3 : (s1 +:+ s2) +:+ s3 = s1 +:+ s2 +:+ s3.
Proof. induction s1 as [|c s1 IH]; [reflexivity|]. now rewrite !append_cons, IH. Qed.

Lemma append_nil_r s : s +:+ "" = s.
Proof. induction s as [|c s IH]; [reflexivity|]. now rewrite append_cons, IH. Qed.

Lemma fprintf_write out s w :
  is_Some (written out w) -> fprintf out s w = Some (tt, write out s w).
Proof.
  destruct out as [|path]; simpl; [reflexivity|].
  intros [old Hold]. unfold fprintf. now rewrite Hold.
Qed.

Lemma written_write out s w old :
  written out w = Some old -> written out (write out s w) = Some (old +:+ s).
Proof.
  destruct out as [|path]; simpl.
  - now intros [= ->].
  - intros ->. now rewrite lookup_insert_eq.
Qed.

Lemma write_write out s1 s2 w :
  is_Some (written out w) -> write out s2 (write out s1 w) = write out (s1 +:+ s2) w.
Proof.
  destruct out as [|path]; unfold write; simpl.
  - intros _. now rewrite append_assoc.
  - intros [old Hold]. rewrite lookup_insert_eq, insert_insert_eq, Hold. simpl.
    now rewrite append_assoc.
Qed.

Lemma write_nil out w : is_Some (written out w) -> write out "" w = w.
Proof.
  destruct w as [h lk fl f u c]. destruct out as [|path]; unfold write; simpl.
  - intros _. now rewrite append_nil_r.
  - intros [old Hold]. rewrite Hold. simpl. rewrite append_nil_r. now rewrite insert_id.
Qed.

Lemma write_add_events out s evs w :
  write out s (add_events evs w) = add_events evs (write out s w).
Proof. destruct out; reflexivity. Qed.

Lemma written_add_events out evs w : written out (add_events evs w) = written out w.
Proof. destruct out; reflexivity. Qed.

Lemma heap_write out s w : heap (write out s w) = heap w.
Proof. destruct out; reflexivity. Qed.

Lemma locks_write out s w : locks (write out s w) = locks w.
Proof. destruct out; reflexivity. Qed.

Lemma print_spaces_run lvl out w :
  is_Some (written out w) -> print_spaces lvl out w = Some (tt, write out (spaces lvl) w).
Proof.
  revert w. induction lvl as [|lvl IH]; intros w Hw; cbn [print_spaces spaces].
  - unfold ret. now rewrite write_nil.
  - rewrite (bind_some _ _ _ _ _ (fprintf_write out " " w Hw)).
    destruct Hw as [old Hold].
    rewrite IH by (erewrite written_write; eauto).
    rewrite write_write; eauto.
Qed.

(** [db_print_recurs] writes the tree in preorder, each subtree one level
    deeper, and releases every lock it takes. *)
Lemma db_print_recurs_run `{Allocator} t :
  forall fuel lvl out w,
    tree_at (heap w) t -> is_Some (written out w) -> (height t < fuel)%nat ->
    db_print_recurs fuel (root t) lvl out w =
      Some (tt, add_events (tprint_events t) (write out (tprint lvl t) w)).
Proof.
  induction t as [|a k v l IHl r IHr]; intros fuel lvl out w Ht Hw Hfuel;
    (destruct fuel as [|fuel]; [simpl in Hfuel; lia|]); cbn [db_print_recurs root].
  - rewrite (bind_some _ _ _ _ _ (print_spaces_run lvl out w Hw)).
    destruct Hw as [old Hold].
    rewrite fprintf_write by (erewrite written_write; eauto).
    rewrite write_write by eauto. cbn [tprint tprint_events].
    now rewrite add_events_nil.
  - destruct Ht as (Ha & Hl & Hr). simpl in Hfuel.
    rewrite (bind_some _ _ _ _ _ (print_spaces_run lvl out w Hw)).
    destruct Hw as [old Hold].
    set (line := if decide (a = head) then "(root)" +:+ newline
                 else k +:+ " " +:+ v +:+ newline).
    set (w1 := write out (spaces lvl +:+ line) w).
    assert (Hline : (if decide (a = head) then fprintf out ("(root)" +:+ newline)
                   else let* n := get_name a in let* v0 := get_value a in
                        fprintf out (n +:+ " " +:+ v0 +:+ newline))
                    (write out (spaces lvl) w) = Some (tt, w1)).
    { subst w1 line. destruct (decide (a = head)).
      - rewrite fprintf_write by (erewrite written_write; eauto).
        now rewrite write_write by eauto.
      - erewrite bind_some; [|eapply get_name_at; rewrite heap_write; exact Ha].
        erewrite bind_some; [|eapply get_value_at; rewrite heap_write; exact Ha].
        cbn [name value].
        rewrite fprintf_write by (erewrite written_write; eauto).
        now rewrite write_write by eauto. }
    rewrite (bind_some _ _ _ _ _ Hline).
    assert (Hw1 : written out w1 = Some (old +:+ spaces lvl +:+ line))
      by (subst w1; now apply written_write).
    assert (Hh1 : heap w1 = heap w) by (subst w1; apply heap_write).
    erewrite bind_some; [|eapply get_lchild_at; rewrite Hh1; exact Ha]. cbn [lchild].
    set (el := match root l with Some la => [Acquire l_read la] | None => [] end).
    assert (Hlockl : match root l with Some la => lock l_read la | None => ret tt end w1
                     = Some (tt, add_events el w1)).
    { subst el. destruct l as [|la lk lv ll lr]; cbn [root].
      - unfold ret. now rewrite add_events_nil.
      - destruct Hl as (Hla & _). eapply lock_at. rewrite Hh1. exact Hla. }
    rewrite (bind_some _ _ _ _ _ Hlockl).
    erewrite bind_some;
      [|apply (IHl fuel (S lvl) out (add_events el w1));
        [now rewrite <- Hh1 in Hl | rewrite written_add_events, Hw1; eauto | lia]].
    set (w2 := add_events (tprint_events l) (write out (tprint (S lvl) l) (add_events el w1))).
    assert (Hh2 : heap w2 = heap w).
    { subst w2. cbn [heap add_events]. now rewrite heap_write. }
    assert (Hw2 : is_Some (written out w2)).
    { subst w2. rewrite written_add_events.
      erewrite written_write; [eauto|]. rewrite written_add_events. exact Hw1. }
    erewrite bind_some; [|eapply get_rchild_at; rewrite Hh2; exact Ha]. cbn [rchild].
    set (er := match root r with Some ra => [Acquire l_read ra] | None => [] end).
    assert (Hlockr : match root r with Some ra => lock l_read ra | None => ret tt end w2
                     = Some (tt, add_events er w2)).
    { subst er. destruct r as [|ra rk rv rl rr]; cbn [root].
      - unfold ret. now rewrite add_events_nil.
      - destruct Hr as (Hra & _). eapply lock_at. rewrite Hh2. exact Hra. }
    rewrite (bind_some _ _ _ _ _ Hlockr).
    erewrite bind_some;
      [|apply (IHr fuel (S lvl) out (add_events er w2));
        [now rewrite <- Hh2 in Hr | now rewrite written_add_events | lia]].
    erewrite unlock_at;
      [|cbn [heap add_events]; rewrite heap_write; cbn [heap add_events];
        rewrite Hh2; exact Ha].
    f_equal. f_equal. subst w2 w1.
    rewrite !write_add_events, !add_events_app.
    rewrite !write_write by (try (erewrite written_write; eauto); eauto).
    cbn [tprint tprint_events]. fold line el er.
    rewrite !append_assoc. reflexivity.
Qed.



(** [db_print], run on a database. *)
Lemma db_print_run `{Allocator} filename w l r :
  db_tree w l r ->
  let t := Node head "" "" l r in
  let out := print_target filename in
  match out with
  | to_file path =>
      if decide (path ∈ unwritable w) then db_print filename w = Some (-1, w)
      else exists w', db_print filename w = Some (0, w') /\ heap w' = heap w /\
                      written out w' = Some (tprint 0 t) /\
                      locks w' = locks w ++ Acquire l_read head :: tprint_events t
  | to_console =>
      exists w', db_print filename w = Some (0, w') /\ heap w' = heap w /\
                 written out w' = Some (console w +:+ tprint 0 t) /\
                 locks w' = locks w ++ Acquire l_read head :: tprint_events t
  end.
Proof.
  intros Hdb t out.
  pose proof Hdb as (Ht & Hnd & Hdom). fold t in Ht, Hnd, Hdom.
  assert (Hhead : heap w !! head = Some (mk_node "" "" (root l) (root r))) by now destruct Ht.
  pose proof (represents_height _ _ Hdb) as Hth. fold t in Hth.
  assert (Hconsole : exists w',
    (lock l_read head ;;; db_print_recurs (S (size (heap w))) (Some head) 0 to_console ;;; ret 0) w
      = Some (0, w') /\ heap w' = heap w /\
    written to_console w' = Some (console w +:+ tprint 0 t) /\
    locks w' = locks w ++ Acquire l_read head :: tprint_events t).
  { rewrite (bind_some _ _ _ _ _ (lock_at l_read _ _ _ Hhead)).
    erewrite bind_some;
      [|apply (db_print_recurs_run t (S (size (heap w))) 0 to_console);
        [exact Ht | simpl; eauto | lia]].
    eexists. split; [reflexivity|]. split; [reflexivity|]. split; [reflexivity|].
    cbn [locks add_events write]. now rewrite <- app_assoc. }
  unfold db_print. rewrite (bind_some _ _ _ _ _ (fuel_of_eq w)).
  subst out. unfold print_target.
  destruct filename as [filename|]; [|exact Hconsole].
  destruct (skip_space filename) as [|c path] eqn:Ef; [exact Hconsole|].
  unfold fopen_w.
  destruct (decide (String c path ∈ unwritable w)) as [Hu|Hu].
  - unfold bind. now rewrite decide_True by exact Hu.
  - unfold bind at 1. rewrite decide_False by exact Hu.
    set (w1 := mk_world _ _ _ _ _ _).
    assert (Hh1 : heap w1 = heap w) by reflexivity.
    assert (Hw1 : written (to_file (String c path)) w1 = Some "").
    { subst w1. cbn [written fs]. apply lookup_insert_eq. }
    erewrite bind_some; [|eapply lock_at; rewrite Hh1; exact Hhead].
    erewrite bind_some;
      [|apply (db_print_recurs_run t (S (size (heap w))) 0 (to_file (String c path)));
        [exact Ht | rewrite written_add_events, Hw1; eauto | lia]].
    eexists. split; [reflexivity|]. split; [reflexivity|]. split.
    + rewrite written_add_events.
      erewrite written_write by (rewrite written_add_events; exact Hw1). reflexivity.
    + cbn [locks add_events]. rewrite locks_write. cbn [locks add_events].
      now rewrite <- app_assoc.
Qed.

(** *** Cleaning up *)

Lemma lookup_drop_all l h x :
  drop_all l h !! x = if decide (x ∈ l) then None else h !! x.
Proof.
  induction l as [|a l IH]; simpl.
  - destruct (decide (x ∈ [])) as [Hin|]; [inversion Hin|reflexivity].
  - destruct (decide (x = a)) as [->|Hne].
    + rewrite lookup_delete_eq. rewrite decide_True; [reflexivity|left].
    + rewrite lookup_delete_ne by congruence. rewrite IH.
      destruct (decide (x ∈ l)).
      * rewrite decide_True; [reflexivity|now right].
      * rewrite decide_False; [reflexivity|]. intros Hin.
        apply elem_of_cons in Hin as [?|?]; contradiction.
Qed.

Lemma with_heap_with_heap f g w : with_heap f (with_heap g w) = with_heap (fun h => f (g h)) w.
Proof. reflexivity. Qed.

Lemma with_heap_ext f g w : f (heap w) = g (heap w) -> with_heap f w = with_heap g w.
Proof. unfold with_heap. now intros ->. Qed.

(** [db_cleanup_recurs] frees the nodes of the tree, and nothing else. *)
Lemma db_cleanup_recurs_run `{Allocator} t :
  forall fuel w,
    tree_at (heap w) t -> NoDup (addrs t) -> (height t < fuel)%nat ->
    db_cleanup_recurs fuel (root t) w = Some (tt, with_heap (drop_all (addrs t)) w).
Proof.
  induction t as [|a k v l IHl r IHr]; intros fuel w Ht Hnd Hfuel;
    (destruct fuel as [|fuel]; [simpl in Hfuel; lia|]); cbn [db_cleanup_recurs root].
  - unfold ret. now destruct w.
  - destruct Ht as (Ha & Hl & Hr). simpl in Hfuel, Hnd.
    apply NoDup_cons in Hnd as [Hna Hnd]. apply NoDup_app in Hnd as (Hndl & Hlr & Hndr).
    rewrite (bind_some _ _ _ _ _ (get_lchild_at _ _ _ Ha)). cbn [lchild].
    rewrite (bind_some _ _ _ _ _ (IHl fuel w Hl Hndl ltac:(lia))).
    assert (Ha1 : heap (with_heap (drop_all (addrs l)) w) !! a
                  = Some (mk_node k v (root l) (root r))).
    { cbn [heap with_heap]. rewrite lookup_drop_all, decide_False; auto.
      intros Hin. apply Hna, elem_of_app. auto. }
    rewrite (bind_some _ _ _ _ _ (get_rchild_at _ _ _ Ha1)). cbn [rchild].
    assert (Hr1 : tree_at (heap (with_heap (drop_all (addrs l)) w)) r).
    { eapply tree_at_ext; [|exact Hr]. intros x Hx. cbn [heap with_heap].
      rewrite lookup_drop_all, decide_False; auto. intros Hin. eapply Hlr; eauto. }
    rewrite (bind_some _ _ _ _ _ (IHr fuel _ Hr1 Hndr ltac:(lia))).
    unfold node_destructor. erewrite free_at.
    + rewrite !with_heap_with_heap. f_equal. f_equal. apply with_heap_ext.
      apply map_eq. intros x. cbn [addrs].
      rewrite lookup_delete, !lookup_drop_all.
      destruct (decide (a = x)) as [->|Hne].
      * rewrite decide_True; [reflexivity|left].
      * destruct (decide (x ∈ a :: addrs l ++ addrs r)) as [Hin|Hin].
        -- apply elem_of_cons in Hin as [?|Hin]; [congruence|]. apply elem_of_app in Hin.
           destruct (decide (x ∈ addrs r)); [reflexivity|].
           destruct (decide (x ∈ addrs l)); [reflexivity|]. tauto.
        -- rewrite !decide_False; [reflexivity| |];
             intros Hx; apply Hin; right; apply elem_of_app; auto.
    + cbn [heap with_heap]. rewrite !lookup_drop_all, !decide_False; eauto.
      * intros Hin. apply Hna, elem_of_app. auto.
      * intros Hin. apply Hna, elem_of_app. auto.
Qed.

(** [db_cleanup], run on a database: only the sentinel is left. *)
Lemma db_cleanup_run `{Allocator} w l r :
  db_tree w l r ->
  exists w', db_cleanup w = Some (tt, w') /\
             dom (heap w') = {[ head ]} /\
             heap w' !! head = heap w !! head.
Proof.
  intros Hdb. pose proof Hdb as (Ht & Hnd & Hdom).
  pose proof (represents_height _ _ Hdb) as Hth.
  destruct Ht as (Ha & Hl & Hr). simpl in Hth, Hnd.
  apply NoDup_cons in Hnd as [Hna Hnd]. apply NoDup_app in Hnd as (Hndl & Hlr & Hndr).
  unfold db_cleanup. rewrite (bind_some _ _ _ _ _ (fuel_of_eq w)).
  rewrite (bind_some _ _ _ _ _ (get_lchild_at _ _ _ Ha)). cbn [lchild].
  rewrite (bind_some _ _ _ _ _
             (db_cleanup_recurs_run l (S (size (heap w))) w Hl Hndl ltac:(lia))).
  assert (Ha1 : heap (with_heap (drop_all (addrs l)) w) !! head
                = Some (mk_node "" "" (root l) (root r))).
  { cbn [heap with_heap]. rewrite lookup_drop_all, decide_False; auto.
    intros Hin. apply Hna, elem_of_app. auto. }
  rewrite (bind_some _ _ _ _ _ (get_rchild_at _ _ _ Ha1)). cbn [rchild].
  assert (Hr1 : tree_at (heap (with_heap (drop_all (addrs l)) w)) r).
  { eapply tree_at_ext; [|exact Hr]. intros x Hx. cbn [heap with_heap].
    rewrite lookup_drop_all, decide_False; auto. intros Hin. eapply Hlr; eauto. }
  rewrite (db_cleanup_recurs_run r (S (size (heap w))) _ Hr1 Hndr ltac:(lia)).
  eexists. split; [reflexivity|]. cbn [heap with_heap]. split.
  - apply set_eq. intros x. rewrite elem_of_dom, elem_of_singleton.
    rewrite !lookup_drop_all.
    destruct (decide (x ∈ addrs r)) as [Hxr|Hxr].
    + split; [intros [? ?]; discriminate|]. intros ->. exfalso. apply Hna, elem_of_app. auto.
    + destruct (decide (x ∈ addrs l)) as [Hxl|Hxl].
      * split; [intros [? ?]; discriminate|]. intros ->. exfalso. apply Hna, elem_of_app. auto.
      * rewrite <- elem_of_dom, Hdom, elem_of_list_to_set. cbn [addrs].
        rewrite elem_of_cons, elem_of_app. tauto.
  - rewrite !lookup_drop_all, !decide_False; auto.
    + intros Hin. apply Hna, elem_of_app. auto.
    + intros Hin. apply Hna, elem_of_app. auto.
Qed.

(** *** The discipline of the locks *)

Lemma replay_app held e1 e2 : replay held (e1 ++ e2) = replay (replay held e1) e2.
Proof.
  revert held. induction e1 as [|[lt a|a] e1 IH]; intros held; simpl; auto.
Qed.

Lemma peak_app held e1 e2 :
  peak held (e1 ++ e2) = Nat.max (peak held e1) (peak (replay held e1) e2).
Proof.
  revert held. induction e1 as [|[lt a|a] e1 IH]; intros held; simpl.
  - destruct e2 as [|[lt a|a] e2]; simpl; lia.
  - rewrite IH. lia.
  - rewrite IH. lia.
Qed.

Lemma coupled_app h held e1 e2 :
  coupled h held (e1 ++ e2) = coupled h held e1 && coupled h (replay held e1) e2.
Proof.
  revert held. induction e1 as [|[lt a|a] e1 IH]; intros held; simpl; auto.
  - rewrite IH. now rewrite !andb_assoc.
  - rewrite IH. now rewrite !andb_assoc.
Qed.

Lemma peak_ge held evs : (length held <= peak held evs)%nat.
Proof. destruct evs as [|[lt a|a] evs]; simpl; lia. Qed.

Lemma release_head a held : release a (a :: held) = held.
Proof. simpl. now rewrite decide_True. Qed.

Lemma release_second a b held : a <> b -> release a (b :: a :: held) = b :: held.
Proof. intros Hne. simpl. rewrite decide_False by congruence. now rewrite decide_True. Qed.

Lemma is_child_left h p k v l r a : h !! p = Some (mk_node k v l r) -> l = Some a -> is_child h p a = true.
Proof. intros Hp ->. unfold is_child. rewrite Hp. apply bool_decide_eq_true. simpl. auto. Qed.

Lemma is_child_right h p k v l r a : h !! p = Some (mk_node k v l r) -> r = Some a -> is_child h p a = true.
Proof. intros Hp ->. unfold is_child. rewrite Hp. apply bool_decide_eq_true. simpl. auto. Qed.

Lemma is_child_of key h t n :
  tree_at h t -> root (child_of key t) = Some n ->
  forall a, root t = Some a -> is_child h a n = true.
Proof.
  destruct t as [|a k v l r]; [discriminate|]. intros (Ha & _) Hn a' [= <-].
  simpl in Hn. destruct (strcmp key k <? 0).
  - eapply is_child_left; eauto.
  - eapply is_child_right; eauto.
Qed.

(** The descent of [search] couples the locks: with the lock of the root of
    the tree and the locks [E] held, it never holds more than two locks
    besides [E], and it ends with the lock of the target, if there is one,
    and the lock of the parent, if it is wanted. *)
Lemma tsearch_coupled key wp lk h E t :
  t <> Leaf -> tree_at h t -> NoDup (addrs t) ->
  (forall x, x ∈ E -> x ∉ addrs t) ->
  forall a, root t = Some a ->
  let '(res, p, evs) := tsearch key wp lk t in
  coupled h (a :: E) evs = true /\
  (peak (a :: E) evs <= 2 + length E)%nat /\
  replay (a :: E) evs =
    match res with Some n => [n] | None => [] end ++ (if wp then [p] else []) ++ E.
Proof.
  intros Hne. revert E. pattern t. apply (descent_ind key); auto; clear t Hne.
  - intros t Hne Hc E Ht Hnd HE a Hr. destruct t as [|a' k v l r]; [congruence|].
    injection Hr as ->. rewrite (tsearch_none _ _ _ _ _ _ _ _ Hc).
    destruct wp; simpl; rewrite ?decide_True by reflexivity; simpl.
    + repeat split; auto; lia.
    + rewrite bool_decide_eq_true_2 by left. repeat split; auto; lia.
  - intros t n nk nv nl nr Hne Hc Hk E Ht Hnd HE a Hr.
    pose proof (is_child_of key h t n Ht ltac:(now rewrite Hc) a Hr) as Hch.
    destruct t as [|a' k v l r]; [congruence|]. injection Hr as ->.
    rewrite (tsearch_found _ _ _ _ _ _ _ _ _ _ _ _ _ Hc Hk).
    assert (Hna : n <> a).
    { intros ->. simpl in Hnd. apply NoDup_cons in Hnd as [Hna _]. apply Hna.
      assert (Hin : a ∈ addrs (child_of key (Node a k v l r))) by (rewrite Hc; left).
      simpl in Hin. apply elem_of_app. destruct (strcmp key k <? 0); auto. }
    assert (HnE : n ∉ a :: E).
    { intros Hin. apply elem_of_cons in Hin as [?|Hin]; [congruence|].
      apply (HE n Hin). apply (child_of_addrs key). rewrite Hc. left. }
    destruct wp; cbn [coupled peak replay app length];
      rewrite (bool_decide_eq_true_2 _ HnE); cbn [existsb]; rewrite Hch; cbn [orb andb].
    + repeat split; auto; lia.
    + rewrite bool_decide_eq_true_2 by (right; left).
      rewrite release_second by congruence. cbn [length]. repeat split; auto; lia.
  - intros t n nk nv nl nr Hne Hc Hk IH E Ht Hnd HE a Hr.
    pose proof (is_child_of key h t n Ht ltac:(now rewrite Hc) a Hr) as Hch.
    destruct t as [|a' k v l r]; [congruence|]. injection Hr as ->.
    rewrite (tsearch_step _ _ _ _ _ _ _ _ _ _ _ _ _ Hc Hk).
    assert (Hcin : forall x, x ∈ addrs (Node n nk nv nl nr) -> x ∈ addrs l ++ addrs r).
    { intros x Hx. simpl in Hc. apply elem_of_app. destruct (strcmp key k <? 0); subst; auto. }
    pose proof Hnd as Hnd'. simpl in Hnd'. apply NoDup_cons in Hnd' as [Hna' Hnd'].
    assert (Hna : n <> a) by (intros ->; apply Hna', Hcin; left).
    assert (HnE : n ∉ a :: E).
    { intros Hin. apply elem_of_cons in Hin as [?|Hin]; [congruence|].
      apply (HE n Hin). right. apply Hcin. left. }
    assert (Htc : tree_at h (Node n nk nv nl nr)).
    { destruct Ht as (_ & Hl & Hr). simpl in Hc. destruct (strcmp key k <? 0); subst; auto. }
    assert (Hndc : NoDup (addrs (Node n nk nv nl nr))).
    { apply NoDup_app in Hnd' as (? & _ & ?). simpl in Hc.
      destruct (strcmp key k <? 0); subst; auto. }
    assert (HEc : forall x, x ∈ E -> x ∉ addrs (Node n nk nv nl nr)).
    { intros x Hx Hin. apply (HE x Hx). right. apply Hcin. exact Hin. }
    specialize (IH E Htc Hndc HEc n eq_refl).
    destruct (tsearch key wp lk (Node n nk nv nl nr)) as [[res p] evs].
    destruct IH as (IH1 & IH2 & IH3).
    cbn [coupled peak replay].
    rewrite (bool_decide_eq_true_2 _ HnE). cbn [existsb]. rewrite Hch. cbn [orb andb].
    rewrite bool_decide_eq_true_2 by (right; left).
    rewrite release_second by congruence. cbn [length] in *.
    repeat split; auto; lia.
Qed.

(** The walk down the left spine couples the locks too, under the lock of
    the node to remove, which makes three. *)
Lemma tmin_coupled h t d :
  t <> Leaf -> tree_at h t -> NoDup (addrs t) -> d ∉ addrs t ->
  forall a, root t = Some a ->
  coupled h [a; d] (tmin_events t) = true /\
  (peak [a; d] (tmin_events t) <= 3)%nat /\
  replay [a; d] (tmin_events t) = [default head (root (tmin t)); d].
Proof.
  induction t as [|a k v l IHl r _]; [congruence|].
  intros _ (Ha & Hl & Hr) Hnd Hd a' [= <-].
  simpl in Hnd. apply NoDup_cons in Hnd as [Hna Hnd]. apply NoDup_app in Hnd as (Hndl & _ & _).
  destruct l as [|n nk nv nl nr].
  - simpl. repeat split; auto.
  - assert (Hn_a : n <> a) by (intros ->; apply Hna, elem_of_app; left; left).
    assert (Hn_d : n <> d) by (intros ->; apply Hd; right; apply elem_of_app; left; left).
    assert (Ha_d : a <> d) by (intros ->; apply Hd; left).
    assert (HnE : n ∉ [a; d]).
    { intros Hin. apply elem_of_cons in Hin as [?|Hin]; [congruence|].
      apply list_elem_of_singleton in Hin. congruence. }
    assert (Hdl : d ∉ addrs (Node n nk nv nl nr)).
    { intros Hin. apply Hd. right. apply elem_of_app. auto. }
    destruct (IHl ltac:(congruence) Hl Hndl Hdl n eq_refl) as (IH1 & IH2 & IH3).
    change (tmin_events (Node a k v (Node n nk nv nl nr) r))
      with (Acquire l_write n :: Release a :: tmin_events (Node n nk nv nl nr)).
    change (tmin (Node a k v (Node n nk nv nl nr) r)) with (tmin (Node n nk nv nl nr)).
    cbn [coupled peak replay].
    rewrite (bool_decide_eq_true_2 _ HnE). cbn [existsb].
    rewrite (is_child_left _ _ _ _ _ _ n Ha eq_refl). cbn [orb andb].
    rewrite bool_decide_eq_true_2 by (right; left).
    rewrite release_second by congruence. cbn [length].
    repeat split; auto; lia.
Qed.

Lemma coupled_first h lk a evs :
  coupled h [a] evs = true -> coupled h [] (Acquire lk a :: evs) = true.
Proof.
  intros Hc. cbn [coupled]. rewrite bool_decide_eq_true_2 by (intros Hin; inversion Hin).
  exact Hc.
Qed.

(** The lock operations of a lookup. *)
Lemma db_query_coupled key h l r :
  let t := Node head "" "" l r in
  tree_at h t -> NoDup (addrs t) ->
  let evs := Acquire l_read head :: snd (tsearch key false l_read t)
               ++ match root (tfound key t) with
                  | Some target => [Release target]
                  | None => []
                  end in
  coupled h [] evs = true /\ (peak [] evs <= 2)%nat /\ replay [] evs = [].
Proof.
  intros t Ht Hnd evs.
  assert (Hne : t <> Leaf) by (subst t; congruence).
  pose proof (tsearch_coupled key false l_read h [] t Hne Ht Hnd
                ltac:(intros x Hx; inversion Hx) head eq_refl) as Hs.
  destruct (tfocus_spec key false l_read t Hne) as (p & pk & pv & pl & pr & _ & Hres & _).
  fold (tfound key t) in Hres.
  destruct (tsearch key false l_read t) as [[res p'] sevs]. simpl in Hres. subst res.
  destruct Hs as (Hs1 & Hs2 & Hs3). subst evs. cbn [snd].
  split; [|split].
  - apply coupled_first. rewrite coupled_app, Hs1, Hs3. cbn [andb].
    destruct (root (tfound key t)); [|reflexivity].
    simpl. rewrite bool_decide_eq_true_2 by left. reflexivity.
  - cbn [peak length]. rewrite peak_app, Hs3. cbn [length] in Hs2.
    destruct (root (tfound key t)); simpl; repeat (rewrite decide_True by reflexivity; simpl); simpl; lia.
  - cbn [replay]. rewrite replay_app, Hs3.
    destruct (root (tfound key t)); simpl; repeat (rewrite decide_True by reflexivity; simpl); reflexivity.
Qed.

(** The lock operations of an insertion. *)
Lemma db_add_coupled key h l r p :
  let t := Node head "" "" l r in
  tree_at h t -> NoDup (addrs t) -> root (tfocus key t) = Some p ->
  let evs := Acquire l_write head :: snd (tsearch key true l_write t)
               ++ match root (tfound key t) with
                  | Some target => [Release target; Release p]
                  | None => [Release p]
                  end in
  coupled h [] evs = true /\ (peak [] evs <= 2)%nat /\ replay [] evs = [].
Proof.
  intros t Ht Hnd Hp evs.
  assert (Hne : t <> Leaf) by (subst t; congruence).
  pose proof (tsearch_coupled key true l_write h [] t Hne Ht Hnd
                ltac:(intros x Hx; inversion Hx) head eq_refl) as Hs.
  destruct (tfocus_spec key true l_write t Hne) as (p' & pk & pv & pl & pr & Hf & Hres & Hp' & _).
  fold (tfound key t) in Hres. rewrite Hf in Hp. injection Hp as ->.
  destruct (tsearch key true l_write t) as [[res p''] sevs]. simpl in Hres, Hp'. subst res p''.
  destruct Hs as (Hs1 & Hs2 & Hs3). subst evs. cbn [snd].
  split; [|split].
  - apply coupled_first. rewrite coupled_app, Hs1, Hs3. cbn [andb].
    destruct (root (tfound key t)); simpl;
      repeat (rewrite decide_True by reflexivity; simpl); simpl;
      rewrite ?bool_decide_eq_true_2 by left; reflexivity.
  - cbn [peak length]. rewrite peak_app, Hs3. cbn [length] in Hs2.
    destruct (root (tfound key t)); simpl; repeat (rewrite decide_True by reflexivity; simpl); simpl; lia.
  - cbn [replay]. rewrite replay_app, Hs3.
    destruct (root (tfound key t)); simpl; repeat (rewrite decide_True by reflexivity; simpl); reflexivity.
Qed.

(** The lock operations of a removal: three locks are held at once when the
    node has two children and its right child has a left child. *)
Lemma db_remove_coupled key h l r p :
  let t := Node head "" "" l r in
  tree_at h t -> NoDup (addrs t) -> root (tfocus key t) = Some p ->
  let evs := Acquire l_write head :: snd (tsearch key true l_write t)
               ++ tremove_events p (tfound key t) in
  coupled h [] evs = true /\ (peak [] evs <= 3)%nat /\ replay [] evs = [].
Proof.
  intros t Ht Hnd Hp evs.
  assert (Hne : t <> Leaf) by (subst t; congruence).
  pose proof (tsearch_coupled key true l_write h [] t Hne Ht Hnd
                ltac:(intros x Hx; inversion Hx) head eq_refl) as Hs.
  destruct (tfocus_spec key true l_write t Hne) as (p' & pk & pv & pl & pr & Hf & Hres & Hp' & _).
  fold (tfound key t) in Hres. rewrite Hf in Hp. injection Hp as ->.
  pose proof (tfound_at key h t Hnd Ht) as Hfa.
  pose proof (tfocus_NoDup key t Hnd) as Hfnd. rewrite Hf in Hfnd.
  assert (Hfound : child_of key (Node p pk pv pl pr) = tfound key t)
    by (unfold tfound; now rewrite Hf).
  destruct (tsearch key true l_write t) as [[res p''] sevs]. simpl in Hres, Hp'. subst res p''.
  destruct Hs as (Hs1 & Hs2 & Hs3). cbn [app length] in Hs2, Hs3.
  assert (Hgoal : coupled h (replay [head] sevs) (tremove_events p (tfound key t)) = true /\
                  (peak (replay [head] sevs) (tremove_events p (tfound key t)) <= 3)%nat /\
                  replay (replay [head] sevs) (tremove_events p (tfound key t)) = []).
  { rewrite Hs3. destruct (tfound key t) as [|a dk dv dl dr] eqn:Ed; cbn [root app].
    - simpl. rewrite bool_decide_eq_true_2 by left. rewrite decide_True by reflexivity.
      simpl. repeat split; auto.
    - assert (Hap : a <> p).
      { intros ->. apply NoDup_cons in Hfnd as [Hnp _]. apply Hnp.
        apply elem_of_app. simpl in Hfound.
        destruct (strcmp key pk <? 0); subst; [left|right]; left. }
      assert (Hdnd : NoDup (addrs (Node a dk dv dl dr))).
      { simpl in Hfound. apply NoDup_cons in Hfnd as [_ Hfnd].
        apply NoDup_app in Hfnd as (? & _ & ?).
        destruct (strcmp key pk <? 0); subst; auto. }
      destruct Hfa as (Ha & Hdl & Hdr).
      assert (Hsingle : coupled h [a; p] [Release a; Release p] = true /\
                        (peak [a; p] [Release a; Release p] <= 3)%nat /\
                        replay [a; p] [Release a; Release p] = []).
      { simpl. rewrite !decide_True by reflexivity. simpl.
        rewrite !bool_decide_eq_true_2 by left. rewrite !decide_True by reflexivity.
        simpl. repeat split; auto. }
      destruct dr as [|rn rk rv rl rr]; [exact Hsingle|].
      destruct dl as [|ln lk lv ll lr]; [exact Hsingle|].
      set (dl := Node ln lk lv ll lr) in *. set (dr := Node rn rk rv rl rr) in *.
      change (tremove_events p (Node a dk dv dl dr))
        with (Release p :: Acquire l_write rn :: tmin_events dr
                ++ [Release a; Release (default head (root (tmin dr)))]).
      change (NoDup (a :: addrs dl ++ addrs dr)) in Hdnd.
      apply NoDup_cons in Hdnd as [Hna Hdnd]. apply NoDup_app in Hdnd as (_ & _ & Hndr).
      assert (Hadr : a ∉ addrs dr) by (intros Hin; apply Hna, elem_of_app; auto).
      assert (Hdrne : dr <> Leaf) by (subst dr; congruence).
      destruct (tmin_coupled h dr a Hdrne Hdr Hndr Hadr rn eq_refl) as (Hm1 & Hm2 & Hm3).
      destruct (tmin_at h dr Hdrne Hdr) as (s & sk & sv & sr & Hmin & _ & Hsin).
      rewrite Hmin in Hm3 |- *. cbn [root default from_option id] in Hm3 |- *.
      assert (Hsa : s <> a) by (intros ->; contradiction).
      assert (Hrna : rn <> a) by (intros ->; apply Hadr; left).
      cbn [coupled peak replay].
      rewrite bool_decide_eq_true_2 by (right; left).
      rewrite release_second by congruence.
      rewrite bool_decide_eq_true_2
        by (intros Hin; apply list_elem_of_singleton in Hin; congruence).
      cbn [existsb]. rewrite (is_child_right _ _ _ _ _ _ rn Ha eq_refl). cbn [orb andb].
      rewrite coupled_app, peak_app, replay_app, Hm1, Hm3. cbn [andb coupled peak replay].
      rewrite bool_decide_eq_true_2 by (right; left).
      rewrite release_second by congruence.
      rewrite bool_decide_eq_true_2 by left. rewrite release_head.
      cbn [length]. repeat split; auto; lia. }
  destruct Hgoal as (Hg1 & Hg2 & Hg3). subst evs. cbn [snd].
  split; [|split].
  - apply coupled_first. now rewrite coupled_app, Hs1, Hg1.
  - cbn [peak length]. rewrite peak_app. lia.
  - cbn [replay]. now rewrite replay_app.
Qed.

(** *** Keys cut by [node_constructor] *)





Lemma length_append s1 s2 : String.length (s1 +:+ s2) = (String.length s1 + String.length s2)%nat.
Proof.
  induction s1 as [|c s1 IH]; [reflexivity|]. rewrite append_cons. simpl. now rewrite IH.
Qed.



(** *** The invariants, on the heap and on the tree *)

Lemma tree_at_keys h t k :
  tree_at h t -> k ∈ keys t -> exists a n, h !! a = Some n /\ name n = k.
Proof.
  induction t as [|a k' v l IHl r IHr]; [intros _ Hk; inversion Hk|].
  intros (Ha & Hl & Hr) Hk. cbn [keys] in Hk.
  apply elem_of_app in Hk as [Hk|Hk]; [auto|].
  apply elem_of_cons in Hk as [->|Hk]; [eauto|auto].
Qed.

Lemma tree_at_names h t a n :
  tree_at h t -> a ∈ addrs t -> h !! a = Some n -> name n ∈ keys t.
Proof.
  induction t as [|a' k v l IHl r IHr]; [intros _ Hin; inversion Hin|].
  intros (Ha & Hl & Hr) Hin Hn. cbn [addrs keys] in *.
  apply elem_of_app. apply elem_of_cons in Hin as [->|Hin].
  - rewrite Ha in Hn. injection Hn as <-. right. left.
  - apply elem_of_app in Hin as [Hin|Hin]; [left; auto|right; right; auto].
Qed.

Lemma keys_short_bounded w l r :
  db_tree w l r -> (keys_short w <-> keys_bounded (Node head "" "" l r)).
Proof.
  intros (Ht & Hnd & Hdom). unfold keys_short, keys_bounded. rewrite Forall_forall. split.
  - intros Hs k Hk. destruct (tree_at_keys _ _ _ Ht Hk) as (a & n & Ha & <-). eauto.
  - intros Hb a n Ha. apply Hb. eapply tree_at_names; eauto.
    apply (elem_of_list_to_set (C := gset positive)). rewrite <- Hdom.
    apply elem_of_dom. eauto.
Qed.

Lemma db_tree_initial fl f u c l :
  db_tree (mk_world {[ head := head_node ]} l fl f u c) Leaf Leaf.
Proof.
  split; [|split].
  - simpl. split; [apply lookup_singleton_eq|auto].
  - simpl. apply NoDup_singleton.
  - simpl. rewrite dom_singleton_L. set_solver.
Qed.



Lemma keys_bounded_tinsert key new t :
  t <> Leaf -> keys_bounded t -> keys_bounded new -> keys_bounded (tinsert key new t).
Proof.
  unfold keys_bounded. rewrite !Forall_forall. intros Hne Hb Hn x Hx.
  apply tinsert_keys in Hx as [Hx|Hx]; auto.
Qed.


(** [db_remove] on a database: the tree afterwards. *)
Lemma db_remove_tree `{Allocator} key w l r :
  db_tree w l r ->
  exists w' l' r',
    db_remove key w = Some (match tfound key (Node head "" "" l r) with
                            | Leaf => 0
                            | _ => 1
                            end, w') /\
    db_tree w' l' r' /\ Node head "" "" l' r' = tremove key (Node head "" "" l r).
Proof.
  intros Hdb. destruct (db_remove_run key w l r Hdb) as (p & _ & w' & Hrun & Hrep & _).
  destruct (tremove_node_form key head "" "" l r) as (l' & r' & Hform).
  exists w', l', r'. split; [exact Hrun|]. split; [|now rewrite Hform].
  unfold db_tree. now rewrite <- Hform.
Qed.

(** *** The states reached *)

Lemma db_inv_heap w w' : heap w' = heap w -> db_inv w -> db_inv w'.
Proof. intros Hh (l & r & Hdb). exists l, r. unfold db_tree in *. now rewrite Hh. Qed.

Lemma db_query_inv `{Allocator} key buf len w res w' :
  db_inv w -> db_query key buf len w = Some (res, w') -> db_inv w'.
Proof.
  intros Hinv Hrun. destruct Hinv as (l & r & Hdb).
  destruct (db_query_run key buf len w l r Hdb) as (w1 & Hq & Hh & _).
  rewrite Hq in Hrun. injection Hrun as _ <-.
  apply (db_inv_heap w); [exact Hh|now exists l, r].
Qed.

Lemma db_add_inv `{Allocator} key val w added w' :
  db_inv w -> db_add key val w = Some (added, w') -> db_inv w'.
Proof.
  intros (l & r & Hdb) Hrun.
  destruct (db_add_tree key val w l r Hdb) as (ret & w1 & l' & r' & Hadd & Hdb1 & _).
  rewrite Hadd in Hrun. injection Hrun as _ <-. now exists l', r'.
Qed.

Lemma db_remove_inv `{Allocator} key w removed w' :
  db_inv w -> db_remove key w = Some (removed, w') -> db_inv w'.
Proof.
  intros (l & r & Hdb) Hrun.
  destruct (db_remove_tree key w l r Hdb) as (w1 & l' & r' & Hrm & Hdb1 & _).
  rewrite Hrm in Hrun. injection Hrun as _ <-. now exists l', r'.
Qed.

Lemma db_print_heap `{Allocator} filename w printed w' :
  db_inv w -> db_print filename w = Some (printed, w') -> heap w' = heap w.
Proof.
  intros (l & r & Hdb) Hrun.
  pose proof (db_print_run filename w l r Hdb) as Hp. cbv zeta in Hp.
  destruct (print_target filename) as [|path].
  - destruct Hp as (w1 & Hq & Hh & _). rewrite Hq in Hrun. now injection Hrun as _ <-.
  - destruct (decide (path ∈ unwritable w)).
    + rewrite Hp in Hrun. now injection Hrun as _ <-.
    + destruct Hp as (w1 & Hq & Hh & _). rewrite Hq in Hrun. now injection Hrun as _ <-.
Qed.

Lemma reachable_inv `{Allocator} w : reachable w -> db_inv w.
Proof.
  induction 1 as [fl f u c|w key buf len res w' _ IH Hrun|w key val added w' _ IH Hrun
                 |w key removed w' _ IH Hrun|w filename printed w' _ IH Hrun].
  - exists Leaf, Leaf. apply db_tree_initial.
  - exact (db_query_inv _ _ _ _ _ _ IH Hrun).
  - exact (db_add_inv _ _ _ _ _ IH Hrun).
  - exact (db_remove_inv _ _ _ _ IH Hrun).
  - exact (db_inv_heap _ _ (db_print_heap _ _ _ _ IH Hrun) IH).
Qed.

(** *** The ordered map through the operations *)



Lemma db_add_ordered `{Allocator} key val w :
  db_ordered w -> key <> "" -> (String.length key < MAXLEN)%nat ->
  exists added w', db_add key val w = Some (added, w') /\ db_ordered w'.
Proof.
  intros (l & r & Hdb & Ho & Hb) Hne Hlen.
  destruct (db_add_tree key val w l r Hdb) as (ret & w' & l' & r' & Hadd & Hdb' & Hcase).
  exists ret, w'. split; [exact Hadd|]. exists l', r'. split; [exact Hdb'|].
  destruct Hcase as [(_ & _ & _ & -> & ->)|(Hf & _ & [(_ & ->)|(_ & _ & -> & ->)])]; auto.
  unfold new_node. rewrite (snprintf_short "" MAXLEN key Hlen). split.
  - apply tinsert_ordered; auto; try discriminate.
    simpl. now rewrite strcmp_eq.
  - apply keys_bounded_tinsert; auto; try discriminate.
    unfold keys_bounded. simpl. auto.
Qed.




(** In a search tree the keys, read in order, increase strictly. *)
Lemma ordered_sorted t : ordered t -> strictly_increasing (keys t).
Proof.
  unfold strictly_increasing.
  induction t as [|a k v l IHl r IHr]; [constructor|].
  intros (Hl & Hr & Hol & Hor). cbn [keys].
  apply StronglySorted_app_2; [|auto|constructor; auto].
  intros x y Hx Hy. rewrite Forall_forall in Hl, Hr.
  apply elem_of_cons in Hy as [->|Hy]; [auto|].
  apply (strcmp_trans x k y); auto.
Qed.

Lemma strictly_increasing_NoDup ks : strictly_increasing ks -> NoDup ks.
Proof.
  induction 1 as [|x ks Hs IH Hx]; constructor; [|exact IH].
  intros Hin. rewrite Forall_forall in Hx. specialize (Hx x Hin).
  rewrite strcmp_refl in Hx. lia.
Qed.

(** The tokens [sscanf] stores. *)
Lemma scan_token_length width s :
  (String.length (fst (scan_token width s)) <= width)%nat.
Proof.
  revert s. induction width as [|width IH]; intros [|c r]; simpl; try lia.
  destruct (isspace c); simpl; [lia|].
  specialize (IH r). destruct (scan_token width r). simpl in *. lia.
Qed.

Lemma scan_s_token width s t rest :
  scan_s width s = Some (t, rest) -> t <> "" /\ (String.length t <= width)%nat.
Proof.
  unfold scan_s. pose proof (scan_token_length width (skip_space s)) as Hlen.
  destruct (scan_token width (skip_space s)) as [[|c t'] rest']; [discriminate|].
  intros [= <- <-]. split; [discriminate|exact Hlen].
Qed.

Lemma bind_inv {A B} (m : M A) (k : A -> M B) w y w' :
  bind m k w = Some (y, w') -> exists x w1, m w = Some (x, w1) /\ k x w1 = Some (y, w').
Proof. unfold bind. destruct (m w) as [[x w1]|]; [eauto|discriminate]. Qed.

Lemma sscanf_s_token input n t :
  sscanf_s input = (n, t) -> n <? 1 = false -> t <> "" /\ (String.length t < MAXLEN)%nat.
Proof.
  unfold sscanf_s. destruct (scan_s 255 input) as [[t' rest]|] eqn:E.
  - intros [= <- <-] _. apply scan_s_token in E. unfold MAXLEN. split; [tauto|lia].
  - intros [= <- <-]. discriminate.
Qed.



(** *** The dump, read back *)





Lemma db_tree_head_fresh w l r : db_tree w l r -> head ∉ addrs l /\ head ∉ addrs r.
Proof.
  intros (_ & Hnd & _). cbn [addrs] in Hnd. apply NoDup_cons in Hnd as [Hin _].
  now apply not_elem_of_app in Hin.
Qed.

Lemma ordered_below_head l r :
  ordered (Node head "" "" l r) -> strictly_increasing (keys l ++ keys r).
Proof.
  intros Ho. apply ordered_sorted in Ho. unfold strictly_increasing in *. cbn [keys] in Ho.
  apply StronglySorted_app in Ho as (Hlr & Hl & Hr).
  apply StronglySorted_app_2; [|exact Hl|now inversion Hr].
  intros x y Hx Hy. apply Hlr; [exact Hx|now right].
Qed.

(** *** The sentinel *)

Lemma tfound_in_child key t x : x ∈ addrs (tfound key t) -> x ∈ addrs (child_of key t).
Proof.
  induction t as [|a k v l IHl r IHr]; [auto|].
  rewrite tfound_unfold. cbn [child_of].
  destruct (strcmp key k <? 0).
  - destruct l as [|n nk nv nl nr]; [auto|].
    destruct (strcmp key nk =? 0); [auto|].
    intros Hx. exact (child_of_addrs key _ x (IHl Hx)).
  - destruct r as [|n nk nv nl nr]; [auto|].
    destruct (strcmp key nk =? 0); [auto|].
    intros Hx. exact (child_of_addrs key _ x (IHr Hx)).
Qed.

Lemma tfound_not_head key w l r :
  db_tree w l r -> root (tfound key (Node head "" "" l r)) <> Some head.
Proof.
  intros Hdb Hroot. destruct (db_tree_head_fresh w l r Hdb) as [Hl Hr].
  assert (Hin : head ∈ addrs (tfound key (Node head "" "" l r))).
  { destruct (tfound key (Node head "" "" l r)); [discriminate|].
    injection Hroot as ->. left. }
  apply tfound_in_child in Hin. unfold child_of in Hin.
  destruct (strcmp key "" <? 0); contradiction.
Qed.

Lemma db_inv_sentinel w : db_inv w -> sentinel_intact w.
Proof. intros (l & r & (Ha & _) & _). now exists (root l), (root r). Qed.

(** *** The locks of the operations *)

Lemma descent_peak key wp lk h l r :
  let t := Node head "" "" l r in
  tree_at h t -> NoDup (addrs t) ->
  (peak [] (Acquire lk head :: snd (tsearch key wp lk t)) <= 2)%nat.
Proof.
  intros t Ht Hnd.
  assert (Hne : t <> Leaf) by (subst t; congruence).
  pose proof (tsearch_coupled key wp lk h [] t Hne Ht Hnd
                ltac:(intros x Hx; inversion Hx) head eq_refl) as Hs.
  destruct (tsearch key wp lk t) as [[res p] sevs]. destruct Hs as (_ & Hs & _).
  cbn [snd peak length] in *. lia.
Qed.

Lemma db_query_locks `{Allocator} key buf len w :
  db_inv w ->
  exists res w' evs,
    db_query key buf len w = Some (res, w') /\ locks w' = locks w ++ evs /\
    coupled (heap w) [] evs = true /\ replay [] evs = [] /\ (peak [] evs <= 2)%nat.
Proof.
  intros (l & r & Hdb). destruct (db_query_run key buf len w l r Hdb) as (w' & Hq & _ & Hl).
  destruct Hdb as (Ht & Hnd & _).
  destruct (db_query_coupled key (heap w) l r Ht Hnd) as (Hc & Hp & Hr).
  eexists _, w', _. split; [exact Hq|]. split; [exact Hl|]. auto.
Qed.

Lemma db_add_locks `{Allocator} key val w :
  db_inv w ->
  exists added w' evs,
    db_add key val w = Some (added, w') /\ locks w' = locks w ++ evs /\
    coupled (heap w) [] evs = true /\ replay [] evs = [] /\ (peak [] evs <= 2)%nat.
Proof.
  intros (l & r & Hdb).
  destruct (db_add_run key val w l r Hdb) as (p & pn & Hp & _ & _ & w' & Hrun).
  destruct Hdb as (Ht & Hnd & _).
  destruct (db_add_coupled key (heap w) l r p Ht Hnd Hp) as (Hc & Hpk & Hr).
  unfold tfound in *.
  destruct (root (child_of key (tfocus key (Node head "" "" l r)))) as [target|].
  - destruct Hrun as (Hrun & _ & Hl). eexists _, w', _. split; [exact Hrun|]. split; [exact Hl|]. auto.
  - destruct Hrun as (Hrun & _ & Hl). eexists _, w', _. split; [exact Hrun|]. split; [exact Hl|]. auto.
Qed.

Lemma db_remove_locks `{Allocator} key w :
  db_inv w ->
  exists removed w' descent rest target parent,
    db_remove key w = Some (removed, w') /\
    locks w' = locks w ++ descent ++ rest /\
    search (S (size (heap w))) key head true l_write (add_events [Acquire l_write head] w)
      = Some ((target, parent), add_events descent w) /\
    coupled (heap w) [] (descent ++ rest) = true /\
    replay [] (descent ++ rest) = [] /\
    (peak [] descent <= 2)%nat /\ (peak [] (descent ++ rest) <= 3)%nat.
Proof.
  intros (l & r & Hdb).
  destruct (db_remove_run key w l r Hdb) as (p & Hp & w' & Hrun & _ & Hl & _).
  destruct (descent_run key true l_write w l r Hdb)
    as (p' & pk & pv & pl & pr & _ & _ & _ & _ & Hs).
  destruct Hdb as (Ht & Hnd & _).
  destruct (db_remove_coupled key (heap w) l r p Ht Hnd Hp) as (Hc & Hpk & Hr).
  pose proof (descent_peak key true l_write (heap w) l r Ht Hnd) as Hd.
  eexists _, w', (Acquire l_write head :: snd (tsearch key true l_write (Node head "" "" l r))),
    (tremove_events p (tfound key (Node head "" "" l r))), _, _.
  split; [exact Hrun|]. split; [exact Hl|]. split; [exact Hs|]. auto.
Qed.

Lemma insert_all_reachable `{Allocator} ks :
  forall w u w', reachable w -> insert_all ks w = Some (u, w') -> reachable w'.
Proof.
  induction ks as [|k ks IH]; intros w u w' Hreach Hrun.
  - now injection Hrun as _ <-.
  - cbn [insert_all] in Hrun. apply bind_inv in Hrun as (added & w1 & Hadd & Hrun).
    apply (IH w1 u w'); [|exact Hrun]. exact (reach_add _ _ _ _ _ Hreach Hadd).
Qed.

(** *** A key of [MAXLEN] bytes *)




(** *** The command interpreter *)

(** [interpret_command] reads the request off the first byte and the tokens
    of the remainder, and serves it. *)
Lemma interpret_command_serve `{Allocator} fuel command response len :
  interpret_command (S fuel) command response len =
    serve fuel (request_of command) response len.
Proof.
  cbn [interpret_command]. destruct command as [|c rest]; [reflexivity|].
  destruct rest as [|c' rest]; [reflexivity|].
  change (String.length (String c (String c' rest)) <=? 1)%nat with false.
  cbn [request_of]. cbv iota beta.
  unfold sscanf_s, sscanf_s_s, one_token, two_tokens.
  destruct (Ascii.eqb c "q").
  { destruct (scan_s 255 (String c' rest)) as [[t r]|]; reflexivity. }
  destruct (Ascii.eqb c "a").
  { destruct (scan_s 255 (String c' rest)) as [[t r]|]; [|reflexivity].
    destruct (scan_s 255 r) as [[t' r']|]; reflexivity. }
  destruct (Ascii.eqb c "d").
  { destruct (scan_s 255 (String c' rest)) as [[t r]|]; reflexivity. }
  destruct (Ascii.eqb c "f"); [|reflexivity].
  destruct (scan_s 255 (String c' rest)) as [[t r]|]; reflexivity.
Qed.

Lemma malformed_request command :
  malformed command = match request_of command with IllFormed => true | _ => false end.
Proof.
  destruct command as [|c [|c' rest]]; [reflexivity|reflexivity|].
  unfold malformed, command_byte, tokens_read, tokens_needed.
  change (String.length (String c (String c' rest)) <=? 1)%nat with false.
  cbn [request_of orb]. unfold sscanf_s, sscanf_s_s, one_token, two_tokens.
  destruct (Ascii.eqb c "q") eqn:Eq.
  { apply Ascii.eqb_eq in Eq as ->. cbn [Ascii.eqb Bool.eqb orb negb].
    destruct (scan_s 255 (String c' rest)) as [[t r]|]; reflexivity. }
  destruct (Ascii.eqb c "a") eqn:Ea.
  { cbn [orb negb]. destruct (scan_s 255 (String c' rest)) as [[t r]|]; [|reflexivity].
    destruct (scan_s 255 r) as [[t' r']|]; reflexivity. }
  destruct (Ascii.eqb c "d") eqn:Ed.
  { cbn [orb negb]. destruct (scan_s 255 (String c' rest)) as [[t r]|]; reflexivity. }
  destruct (Ascii.eqb c "f") eqn:Ef; [|reflexivity].
  cbn [orb negb]. destruct (scan_s 255 (String c' rest)) as [[t r]|]; reflexivity.
Qed.

Lemma has_space_substring n s : has_space s = false -> has_space (String.substring 0 n s) = false.
Proof.
  revert n. induction s as [|c s IH]; intros [|n]; try reflexivity.
  cbn [has_space String.substring]. intros Hs. apply orb_false_iff in Hs as [Hc Hs].
  rewrite Hc. cbn [orb]. apply IH, Hs.
Qed.

Lemma has_space_snprintf buf len s :
  (0 < len)%nat -> has_space s = false -> has_space (snprintf buf len s) = false.
Proof. destruct len; [lia|]. intros _. apply has_space_substring. Qed.

(** With room for it, [snprintf] writes the first byte of its text. *)
Lemma snprintf_first buf len c s :
  (1 < len)%nat -> exists r, snprintf buf len (String c s) = String c r.
Proof. destruct len as [|[|len]]; [lia|lia|]. intros _. unfold snprintf. simpl. eauto. Qed.

Lemma snprintf_not_ill_formed buf len c s :
  (1 < len)%nat -> c <> "i"%char -> snprintf buf len (String c s) <> ill_formed.
Proof.
  intros Hlen Hc. destruct (snprintf_first buf len c s Hlen) as (r & ->).
  unfold ill_formed. congruence.
Qed.

Lemma snprintf_ill_formed buf len :
  (String.length ill_formed < len)%nat -> snprintf buf len ill_formed = ill_formed.
Proof. apply snprintf_short. Qed.

(** A lookup never answers that the command is ill formed. *)
Lemma db_query_reply `{Allocator} key response len w res w' :
  db_inv w -> values_are_tokens w -> (String.length ill_formed < len)%nat ->
  db_query key response len w = Some (res, w') ->
  (if (String.length res =? 0)%nat then snprintf res len "not found" else res) <> ill_formed.
Proof.
  intros (l & r & Hdb) Htok Hlen Hrun. simpl in Hlen.
  destruct (db_query_run key response len w l r Hdb) as (w1 & Hq & _).
  rewrite Hq in Hrun. injection Hrun as <- <-.
  destruct (String.length _ =? 0)%nat; [apply snprintf_not_ill_formed; [lia|discriminate]|].
  destruct Hdb as (Ht & Hnd & _).
  pose proof (tfound_at key _ _ Hnd Ht) as Hf.
  destruct (tfound key (Node head "" "" l r)) as [|a k v fl fr].
  - apply snprintf_not_ill_formed; [lia|discriminate].
  - destruct Hf as (Ha & _). apply Htok in Ha. simpl in Ha.
    intros E. apply (has_space_snprintf response len v) in Ha; [|lia].
    cbn [tvalue] in E. rewrite E in Ha. discriminate.
Qed.

(** A request that names no file is served, and the database stays one. *)
Lemma serve_total `{Allocator} fuel rq response len w :
  db_inv w -> match rq with File _ => False | _ => True end ->
  exists reply w', serve fuel rq response len w = Some (reply, w') /\ db_inv w'.
Proof.
  intros Hinv Hrq. pose proof Hinv as (l & r & Hdb).
  destruct rq as [key|key val|key|path|]; [| | |contradiction|]; unfold serve.
  - destruct (db_query_run key response len w l r Hdb) as (w' & Hq & Hh & _).
    rewrite (bind_some _ _ _ _ _ Hq).
    assert (db_inv w') by (apply (db_inv_heap w); assumption).
    destruct (String.length _ =? 0)%nat; eauto.
  - destruct (db_add_tree key val w l r Hdb) as (ret & w' & l' & r' & Hadd & Hdb' & _).
    rewrite (bind_some _ _ _ _ _ Hadd).
    assert (db_inv w') by (now exists l', r').
    destruct (ret =? 0); eauto.
  - destruct (db_remove_tree key w l r Hdb) as (w' & l' & r' & Hrm & Hdb' & _).
    rewrite (bind_some _ _ _ _ _ Hrm).
    assert (db_inv w') by (now exists l', r').
    destruct (_ =? 0); eauto.
  - eauto.
Qed.

(** The commands of a flat file all run. *)
Lemma each_line_flat `{Allocator} fuel len lines :
  flat lines ->
  forall response w, db_inv w ->
    exists reply w',
      each_line (fun ibuf response => interpret_command (S fuel) ibuf response len)
                lines response w = Some (reply, w') /\ db_inv w'.
Proof.
  induction 1 as [|ibuf more Hrq _ IH]; intros response w Hinv.
  - exists response, w. split; [reflexivity|exact Hinv].
  - destruct (serve_total fuel (request_of ibuf) response len w Hinv Hrq)
      as (reply & w1 & Hserve & Hinv1).
    rewrite <- interpret_command_serve in Hserve.
    cbn [each_line]. rewrite (bind_some _ _ _ _ _ Hserve). apply IH, Hinv1.
Qed.

(** *** Values that are tokens *)

Lemma tokens_child key t : tokens t -> tokens (child_of key t).
Proof.
  destruct t as [|a k v l r]; [auto|]. intros (_ & Hl & Hr). simpl.
  now destruct (strcmp key k <? 0).
Qed.

Lemma tokens_set_child key t c : tokens t -> tokens c -> tokens (set_child key t c).
Proof.
  destruct t as [|a k v l r]; [auto|]. intros (Hv & Hl & Hr) Hc. simpl.
  destruct (strcmp key k <? 0); simpl; auto.
Qed.

Lemma tokens_tupdate key f t :
  (forall s, tokens s -> tokens (f s)) -> tokens t -> tokens (tupdate key f t).
Proof.
  intros Hf. induction t as [|a k v l IHl r IHr]; [auto|].
  intros Ht. pose proof Ht as (Hv & Hl & Hr). cbn [tupdate].
  destruct (strcmp key k <? 0).
  - destruct l as [|n nk nv nl nr]; [auto|].
    destruct (strcmp key nk =? 0); [auto|]. cbn [tokens]. auto.
  - destruct r as [|n nk nv nl nr]; [auto|].
    destruct (strcmp key nk =? 0); [auto|]. cbn [tokens]. auto.
Qed.

Lemma tokens_tmin t : t <> Leaf -> tokens t -> has_space (tvalue (tmin t)) = false.
Proof.
  induction t as [|a k v l IHl r _]; [congruence|].
  intros _ (Hv & Hl & _). destruct l as [|n nk nv nl nr]; [exact Hv|].
  apply IHl; [discriminate|exact Hl].
Qed.

Lemma tokens_tdelmin t : tokens t -> tokens (tdelmin t).
Proof.
  induction t as [|a k v l IHl r _]; [auto|].
  intros (Hv & Hl & Hr). destruct l as [|n nk nv nl nr]; [exact Hr|].
  change (tokens (Node a k v (tdelmin (Node n nk nv nl nr)) r)). cbn [tokens]. auto.
Qed.

Lemma tokens_tremove_node d : tokens d -> tokens (tremove_node d).
Proof.
  destruct d as [|a k v l r]; [auto|]. intros (Hv & Hl & Hr). unfold tremove_node.
  destruct r as [|n nk nv nl nr]; [exact Hl|].
  destruct l as [|m mk mv ml mr]; [exact Hr|].
  cbn [tokens]. split; [|split; [exact Hl|now apply tokens_tdelmin]].
  apply has_space_snprintf; [unfold MAXLEN; lia|].
  apply tokens_tmin; [discriminate|exact Hr].
Qed.

Lemma tokens_tremove key t : tokens t -> tokens (tremove key t).
Proof.
  apply tokens_tupdate. intros s Hs.
  pose proof (tokens_child key s Hs) as Hc.
  destruct (child_of key s) as [|n dk dv dl dr]; [exact Hs|].
  apply tokens_set_child; [exact Hs|]. apply tokens_tremove_node, Hc.
Qed.

Lemma tokens_tinsert key new t : tokens t -> tokens new -> tokens (tinsert key new t).
Proof.
  intros Ht Hn. apply tokens_tupdate; [|exact Ht]. intros s Hs.
  destruct (child_of key s); [|exact Hs]. now apply tokens_set_child.
Qed.

Lemma tree_at_tokens h t :
  tree_at h t ->
  (tokens t <-> forall a n, a ∈ addrs t -> h !! a = Some n -> has_space (value n) = false).
Proof.
  induction t as [|a k v l IHl r IHr]; intros Ht.
  - split; [intros _ a n Hin; inversion Hin|auto].
  - destruct Ht as (Ha & Hl & Hr). cbn [tokens addrs]. rewrite (IHl Hl), (IHr Hr). split.
    + intros (Hv & Htl & Htr) x n Hin Hn.
      apply elem_of_cons in Hin as [->|Hin].
      * rewrite Ha in Hn. now injection Hn as <-.
      * apply elem_of_app in Hin as [Hin|Hin]; eauto.
    + intros Hall. split; [|split].
      * apply (Hall a _ ltac:(left) Ha).
      * intros x n Hin. apply Hall. right. apply elem_of_app. auto.
      * intros x n Hin. apply Hall. right. apply elem_of_app. auto.
Qed.

Lemma represents_tokens w l r :
  db_tree w l r -> (values_are_tokens w <-> tokens (Node head "" "" l r)).
Proof.
  intros (Ht & Hnd & Hdom). rewrite (tree_at_tokens _ _ Ht). unfold values_are_tokens. split.
  - intros Hv a n _ Hn. eauto.
  - intros Hv a n Hn. apply (Hv a n); [|exact Hn].
    apply (elem_of_list_to_set (C := gset positive)). rewrite <- Hdom.
    apply elem_of_dom. eauto.
Qed.

Lemma scan_token_no_space width s : has_space (fst (scan_token width s)) = false.
Proof.
  revert s. induction width as [|width IH]; intros [|c r]; try reflexivity.
  cbn [scan_token]. destruct (isspace c) eqn:Ec; [reflexivity|].
  specialize (IH r). destruct (scan_token width r) as [t rest]. simpl in *.
  now rewrite Ec.
Qed.

Lemma scan_s_no_space width s t rest : scan_s width s = Some (t, rest) -> has_space t = false.
Proof.
  unfold scan_s. pose proof (scan_token_no_space width (skip_space s)) as Hs.
  destruct (scan_token width (skip_space s)) as [[|c t'] rest']; [discriminate|].
  intros [= <- <-]. exact Hs.
Qed.

(** A request that names no file, served in a database whose values are
    tokens, leaves such a database. *)
Lemma serve_tokens `{Allocator} fuel rq response len w reply w' :
  db_inv w -> values_are_tokens w ->
  match rq with
  | File _ => False
  | Add _ val => has_space val = false
  | _ => True
  end ->
  serve fuel rq response len w = Some (reply, w') ->
  db_inv w' /\ values_are_tokens w'.
Proof.
  intros (l & r & Hdb) Htok Hrq Hrun.
  apply (represents_tokens w l r Hdb) in Htok.
  destruct rq as [key|key val|key|path|]; [| | |contradiction|]; unfold serve in Hrun.
  - apply bind_inv in Hrun as (res & w1 & Hq & Hrun).
    destruct (db_query_run key response len w l r Hdb) as (w2 & Hq' & Hh & _).
    rewrite Hq' in Hq. injection Hq as _ ->.
    assert (Hdb1 : db_tree w1 l r) by (unfold db_tree in *; now rewrite Hh).
    assert (w' = w1) as -> by (destruct (String.length res =? 0)%nat; now injection Hrun).
    split; [now exists l, r|]. now apply (represents_tokens w1 l r Hdb1).
  - apply bind_inv in Hrun as (added & w1 & Hadd & Hrun).
    destruct (db_add_tree key val w l r Hdb) as (ret & w2 & l' & r' & Hadd' & Hdb1 & Hcase).
    rewrite Hadd' in Hadd. injection Hadd as _ ->.
    assert (w' = w1) as -> by (destruct (added =? 0); now injection Hrun).
    split; [now exists l', r'|]. apply (represents_tokens w1 l' r' Hdb1).
    destruct Hcase as [(_ & _ & _ & -> & ->)|(_ & _ & [(_ & ->)|(_ & _ & -> & ->)])]; auto.
    apply tokens_tinsert; [exact Htok|]. unfold new_node. cbn [tokens].
    split; [|auto]. apply has_space_snprintf; [unfold MAXLEN; lia|exact Hrq].
  - apply bind_inv in Hrun as (removed & w1 & Hrm & Hrun).
    destruct (db_remove_tree key w l r Hdb) as (w2 & l' & r' & Hrm' & Hdb1 & Htree).
    rewrite Hrm' in Hrm. injection Hrm as _ ->.
    assert (w' = w1) as -> by (destruct (removed =? 0); now injection Hrun).
    split; [now exists l', r'|]. apply (represents_tokens w1 l' r' Hdb1).
    rewrite Htree. now apply tokens_tremove.
  - injection Hrun as _ <-. split; [now exists l, r|].
    now apply (represents_tokens w l r Hdb).
Qed.

Lemma request_of_token command :
  match request_of command with
  | Add _ val => has_space val = false
  | _ => True
  end.
Proof.
  destruct command as [|c [|c' rest]]; [exact I|exact I|]. cbn [request_of].
  unfold one_token, two_tokens.
  destruct (Ascii.eqb c "q"); [now destruct (scan_s 255 _) as [[? ?]|]|].
  destruct (Ascii.eqb c "a").
  { destruct (scan_s 255 (String c' rest)) as [[t1 r1]|]; [|exact I].
    destruct (scan_s 255 r1) as [[t2 r2]|] eqn:E; [|exact I].
    exact (scan_s_no_space _ _ _ _ E). }
  destruct (Ascii.eqb c "d"); [now destruct (scan_s 255 _) as [[? ?]|]|].
  destruct (Ascii.eqb c "f"); [now destruct (scan_s 255 _) as [[? ?]|]|exact I].
Qed.

(** Every command leaves a database whose values are tokens. *)
Lemma interpret_command_tokens `{Allocator} fuel :
  forall command response len w reply w',
    db_inv w -> values_are_tokens w ->
    interpret_command fuel command response len w = Some (reply, w') ->
    db_inv w' /\ values_are_tokens w'.
Proof.
  induction fuel as [|fuel IH]; intros command response len w reply w' Hinv Htok Hrun;
    [discriminate|].
  rewrite interpret_command_serve in Hrun.
  pose proof (request_of_token command) as Hval.
  destruct (request_of command) as [key|key val|key|path|] eqn:Hrq;
    try (apply (serve_tokens fuel _ response len w reply w' Hinv Htok) in Hrun;
         [exact Hrun|exact Hval || exact I]).
  unfold serve in Hrun. apply bind_inv in Hrun as (finput & w1 & Hopen & Hrun).
  injection Hopen as <- <-.
  destruct (fs w !! path) as [content|]; [|now injection Hrun as _ <-].
  apply bind_inv in Hrun as (res & w1 & Heach & Hrun). injection Hrun as _ <-.
  revert response w Hinv Htok Heach.
  induction (fgets_all (String.length content) MAXLEN content) as [|ibuf more IHm];
    intros response w Hinv Htok Heach.
  - now injection Heach as _ <-.
  - cbn [each_line] in Heach. apply bind_inv in Heach as (res1 & w2 & Hone & Heach).
    destruct (IH _ _ _ _ _ _ Hinv Htok Hone) as (Hinv2 & Htok2).
    exact (IHm res1 w2 Hinv2 Htok2 Heach).
Qed.

(** *** The keys of the states reached *)






(** ** The database as a sorted list of entries *)

Lemma items_keys t : (items t).*1 = keys t.
Proof.
  induction t as [|a k v l IHl r IHr]; [reflexivity|].
  cbn [items keys]. now rewrite fmap_app, fmap_cons, IHl, IHr.
Qed.

Lemma tree_of_at h t :
  tree_at h t -> forall fuel, (height t <= fuel)%nat -> tree_of fuel h (root t) = t.
Proof.
  induction t as [|a k v l IHl r IHr]; intros Ht fuel Hfuel.
  - destruct fuel; reflexivity.
  - destruct Ht as (Ha & Hl & Hr). destruct fuel as [|fuel]; [simpl in Hfuel; lia|].
    cbn [root tree_of]. rewrite Ha. cbn [name value lchild rchild].
    cbn [height] in Hfuel. rewrite (IHl Hl), (IHr Hr) by lia. reflexivity.
Qed.

Lemma entries_tree w l r : db_tree w l r -> entries w = items l ++ items r.
Proof.
  intros Hdb. unfold entries.
  change (Some head) with (root (Node head "" "" l r)).
  rewrite (tree_of_at (heap w) (Node head "" "" l r)); [reflexivity|apply Hdb|].
  pose proof (represents_height _ _ Hdb). lia.
Qed.

Lemma items_tdelmin t :
  t <> Leaf -> items t = (tkey (tmin t), tvalue (tmin t)) :: items (tdelmin t).
Proof.
  induction t as [|a k v l IHl r _]; [congruence|]. intros _.
  destruct l as [|n nk nv nl nr]; [reflexivity|].
  change (tmin (Node a k v (Node n nk nv nl nr) r)) with (tmin (Node n nk nv nl nr)).
  change (tdelmin (Node a k v (Node n nk nv nl nr) r))
    with (Node a k v (tdelmin (Node n nk nv nl nr)) r).
  cbn [items] in *. rewrite IHl by discriminate. reflexivity.
Qed.

Lemma short_entries_node a k v l r :
  short_entries (Node a k v l r) <->
  short_entries l /\ ((String.length k < MAXLEN)%nat /\ (String.length v < MAXLEN)%nat) /\
  short_entries r.
Proof. unfold short_entries. cbn [items]. now rewrite Forall_app, Forall_cons. Qed.

(** The node [db_remove] leaves holds the entries of the two subtrees. *)
Lemma items_tremove_node a k v l r :
  short_entries r -> items (tremove_node (Node a k v l r)) = items l ++ items r.
Proof.
  intros Hs. unfold tremove_node.
  destruct r as [|n nk nv nl nr]; [now rewrite app_nil_r|].
  destruct l as [|m mk mv ml mr]; [reflexivity|].
  rewrite (items_tdelmin (Node n nk nv nl nr)) by discriminate.
  unfold short_entries in Hs.
  rewrite (items_tdelmin (Node n nk nv nl nr)) in Hs by discriminate.
  apply Forall_cons in Hs as ((Hk & Hv) & _). simpl in Hk, Hv.
  cbn [items]. now rewrite (snprintf_short _ _ _ Hk), (snprintf_short _ _ _ Hv).
Qed.

Lemma short_entries_child key t : short_entries t -> short_entries (child_of key t).
Proof.
  destruct t as [|a k v l r]; [auto|]. rewrite short_entries_node. intros (Hl & _ & Hr).
  simpl. now destruct (strcmp key k <? 0).
Qed.

Lemma items_set_child key a k v l r c :
  items (set_child key (Node a k v l r) c) =
    if strcmp key k <? 0 then items c ++ (k, v) :: items r else items l ++ (k, v) :: items c.
Proof. simpl. now destruct (strcmp key k <? 0). Qed.

Lemma items_child key a k v l r :
  items (Node a k v l r) =
    if strcmp key k <? 0 then items (child_of key (Node a k v l r)) ++ (k, v) :: items r
    else items l ++ (k, v) :: items (child_of key (Node a k v l r)).
Proof. simpl. now destruct (strcmp key k <? 0). Qed.

(** [db_remove] takes one entry out of the list: that of the node found. *)
Lemma items_tremove key t :
  t <> Leaf -> short_entries t ->
  match tfound key t with
  | Leaf => tremove key t = t
  | Node _ dk dv _ _ =>
      strcmp key dk = 0 /\
      exists pre post,
        items t = pre ++ (dk, dv) :: post /\ items (tremove key t) = pre ++ post
  end.
Proof.
  intros Hne. pattern t. apply (descent_ind key); auto; clear t Hne.
  - intros t Hne Hc _. unfold tfound. rewrite (tfocus_none _ _ Hc), Hc.
    apply tremove_absent; [exact Hne|]. unfold tfound. now rewrite (tfocus_none _ _ Hc).
  - intros t n nk nv nl nr Hne Hc Hk Hs. unfold tfound, tremove.
    rewrite (tfocus_found _ _ _ _ _ _ _ Hc Hk), (tupdate_found _ _ _ _ _ _ _ _ Hc Hk), Hc.
    split; [exact Hk|].
    pose proof (short_entries_child key t Hs) as Hsc. rewrite Hc in Hsc.
    apply short_entries_node in Hsc as (_ & _ & Hsr).
    destruct t as [|a k v l r]; [congruence|].
    assert (Hside : (strcmp nk k <? 0) = (strcmp key k <? 0)).
    { apply strcmp_eq in Hk. now subst nk. }
    rewrite items_set_child, (items_child key a k v l r), Hc, Hside.
    rewrite (items_tremove_node n nk nv nl nr Hsr). cbn [items].
    destruct (strcmp key k <? 0).
    + exists (items nl), (items nr ++ (k, v) :: items r).
      now rewrite <- !app_assoc.
    + exists (items l ++ (k, v) :: items nl), (items nr).
      now rewrite <- !app_assoc.
  - intros t n nk nv nl nr Hne Hc Hk IH Hs. unfold tfound, tremove in *.
    rewrite (tfocus_step _ _ _ _ _ _ _ Hc Hk), (tupdate_step _ _ _ _ _ _ _ _ Hc Hk).
    pose proof (short_entries_child key t Hs) as Hsc. rewrite Hc in Hsc.
    specialize (IH Hsc).
    destruct (child_of key (tfocus key (Node n nk nv nl nr))) as [|d dk dv dl dr].
    + rewrite IH. destruct t as [|a k v l r]; [congruence|].
      simpl in Hc |- *. destruct (strcmp key k <? 0); now subst.
    + destruct IH as (Hdk & pre & post & Hitems & Hitems').
      split; [exact Hdk|].
      destruct t as [|a k v l r]; [congruence|].
      rewrite items_set_child, (items_child key a k v l r), Hc.
      destruct (strcmp key k <? 0).
      * exists pre, (post ++ (k, v) :: items r). rewrite Hitems, Hitems'.
        now rewrite <- !app_assoc.
      * exists (items l ++ (k, v) :: pre), post. rewrite Hitems, Hitems'.
        now rewrite <- !app_assoc.
Qed.

Lemma filter_all {A} (P : A -> Prop) `{forall x, Decision (P x)} (l : list A) :
  Forall P l -> filter P l = l.
Proof.
  induction 1 as [|x l Hx _ IH]; [reflexivity|].
  now rewrite filter_cons_True, IH.
Qed.

Lemma filter_key_out (key v : string) (pre post : list (string * string)) :
  NoDup (pre ++ (key, v) :: post).*1 ->
  filter (fun p => p.1 <> key) (pre ++ (key, v) :: post) = pre ++ post.
Proof.
  rewrite fmap_app, fmap_cons. intros Hnd.
  apply NoDup_app in Hnd as (_ & Hpre & Hnd). apply NoDup_cons in Hnd as (Hpost & _).
  rewrite filter_app, filter_cons_False by (simpl; tauto).
  rewrite !filter_all; [reflexivity| |].
  - apply Forall_forall. intros [k v'] Hin Hk. simpl in Hk. subst k. apply Hpost.
    apply (list_elem_of_fmap_2 fst _ (key, v') Hin).
  - apply Forall_forall. intros [k v'] Hin Hk. simpl in Hk. subst k.
    apply (Hpre key); [|left]. apply (list_elem_of_fmap_2 fst _ (key, v') Hin).
Qed.

Lemma assoc_elem key v l : NoDup l.*1 -> (key, v) ∈ l -> assoc key l = Some v.
Proof.
  induction l as [|[k v'] l IH]; [intros _ Hin; inversion Hin|].
  rewrite fmap_cons. intros Hnd Hin. apply NoDup_cons in Hnd as (Hk & Hnd).
  cbn [assoc]. apply elem_of_cons in Hin as [[= <- <-]|Hin].
  - now rewrite String.eqb_refl.
  - destruct (String.eqb key k) eqn:E; [|auto].
    apply String.eqb_eq in E as <-. exfalso. apply Hk.
    apply (list_elem_of_fmap_2 fst _ (key, v) Hin).
Qed.

Lemma assoc_none key l : key ∉ l.*1 -> assoc key l = None.
Proof.
  induction l as [|[k v] l IH]; [reflexivity|].
  rewrite fmap_cons. intros Hin. apply not_elem_of_cons in Hin as (Hk & Hin).
  cbn [assoc]. simpl in Hk. apply String.eqb_neq in Hk. rewrite Hk. auto.
Qed.

Lemma assoc_in key v l : assoc key l = Some v -> (key, v) ∈ l.
Proof.
  induction l as [|[k v'] l IH]; [discriminate|]. cbn [assoc].
  destruct (String.eqb key k) eqn:E.
  - apply String.eqb_eq in E as <-. intros [= <-]. left.
  - intros Hl. right. auto.
Qed.

Lemma insert_entry_sorted key val pre post :
  Forall (fun p => strcmp p.1 key < 0) pre ->
  Forall (fun p => strcmp key p.1 < 0) post ->
  insert_entry key val (pre ++ post) = pre ++ (key, val) :: post.
Proof.
  intros Hpre Hpost. induction Hpre as [|[k v] pre Hk _ IH].
  - destruct Hpost as [|[k v] post Hk _]; [reflexivity|].
    simpl in *. now rewrite (proj2 (Z.ltb_lt _ _) Hk).
  - simpl in *. rewrite (strcmp_antisym key k).
    replace (- strcmp k key <? 0) with false by (symmetry; apply Z.ltb_ge; lia).
    now rewrite IH.
Qed.

Lemma ordered_NoDup t : ordered t -> NoDup (keys t).
Proof. intros Ho. apply strictly_increasing_NoDup, ordered_sorted, Ho. Qed.

Lemma ordered_side x a k v l r :
  ordered (Node a k v l r) -> x ∈ keys l ++ keys r ->
  x ∈ keys (child_of x (Node a k v l r)).
Proof.
  intros (Hlt & Hgt & _) Hin. rewrite Forall_forall in Hlt, Hgt. cbn [child_of].
  apply elem_of_app in Hin as [Hin|Hin].
  - rewrite (proj2 (Z.ltb_lt _ _) (Hlt x Hin)). exact Hin.
  - specialize (Hgt x Hin). rewrite (strcmp_antisym x k).
    replace (- strcmp k x <? 0) with false by (symmetry; apply Z.ltb_ge; lia).
    exact Hin.
Qed.

Lemma items_child_in key t p : p ∈ items (child_of key t) -> p ∈ items t.
Proof.
  destruct t as [|a k v l r]; [auto|]. cbn [child_of items]. intros Hin.
  apply elem_of_app. destruct (strcmp key k <? 0); [now left|right; now right].
Qed.

Lemma tfound_child_items key t :
  ordered t ->
  match tfound key t with
  | Leaf => key ∉ keys (child_of key t)
  | Node _ nk nv _ _ => nk = key /\ (key, nv) ∈ items (child_of key t)
  end.
Proof.
  induction t as [|a k v l IHl r IHr]; [intros _ Hin; inversion Hin|].
  intros Ho. pose proof (ordered_child key _ Ho) as Hoc.
  assert (IH : child_of key (Node a k v l r) <> Leaf ->
               match tfound key (child_of key (Node a k v l r)) with
               | Leaf => key ∉ keys (child_of key (child_of key (Node a k v l r)))
               | Node _ nk nv _ _ =>
                   nk = key /\ (key, nv) ∈ items (child_of key (child_of key (Node a k v l r)))
               end).
  { intros _. cbn [child_of] in *.
    destruct (strcmp key k <? 0); [exact (IHl Hoc)|exact (IHr Hoc)]. }
  rewrite tfound_unfold.
  destruct (child_of key (Node a k v l r)) as [|n nk nv nl nr] eqn:Hc;
    [intros Hin; inversion Hin|].
  destruct (strcmp key nk =? 0) eqn:Ek.
  - apply Z.eqb_eq, strcmp_eq in Ek as <-. split; [reflexivity|].
    cbn [items]. apply elem_of_app. right. left.
  - apply Z.eqb_neq in Ek. specialize (IH ltac:(discriminate)).
    destruct (tfound key (Node n nk nv nl nr)) as [|d dk dv dl dr].
    + intros Hin. apply IH. apply (ordered_side key n nk nv nl nr Hoc).
      cbn [keys] in Hin. apply elem_of_app in Hin as [Hin|Hin]; [apply elem_of_app; now left|].
      apply elem_of_cons in Hin as [->|Hin]; [|apply elem_of_app; now right].
      exfalso. apply Ek, strcmp_refl.
    + destruct IH as (-> & Hin). split; [reflexivity|].
      exact (items_child_in key _ _ Hin).
Qed.

(** In a search tree the descent finds a key exactly when the tree below
    the root holds it. *)
Lemma tfound_items key a k v l r :
  ordered (Node a k v l r) ->
  match tfound key (Node a k v l r) with
  | Leaf => key ∉ keys l ++ keys r
  | Node _ nk nv _ _ => nk = key /\ (key, nv) ∈ items l ++ items r
  end.
Proof.
  intros Ho. pose proof (tfound_child_items key _ Ho) as Hf.
  destruct (tfound key (Node a k v l r)) as [|d dk dv dl dr].
  - intros Hin. apply Hf. now apply ordered_side.
  - destruct Hf as (-> & Hin). split; [reflexivity|].
    cbn [child_of] in Hin. apply elem_of_app. destruct (strcmp key k <? 0); auto.
Qed.

Lemma ordered_below_NoDup a k v l r :
  ordered (Node a k v l r) -> NoDup (items l ++ items r).*1.
Proof.
  intros Ho. apply ordered_NoDup in Ho. cbn [keys] in Ho.
  rewrite fmap_app, !items_keys.
  apply NoDup_app in Ho as (Hl & Hlr & Hr). apply NoDup_cons in Hr as (_ & Hr).
  apply NoDup_app. split; [exact Hl|]. split; [|exact Hr].
  intros x Hx Hxr. apply (Hlr x Hx). now right.
Qed.

(** The descent in a search tree is the lookup in its list of entries. *)
Lemma tfound_assoc key a k v l r :
  ordered (Node a k v l r) ->
  assoc key (items l ++ items r) =
    match tfound key (Node a k v l r) with
    | Leaf => None
    | Node _ _ nv _ _ => Some nv
    end.
Proof.
  intros Ho. pose proof (tfound_items key a k v l r Ho) as Hf.
  destruct (tfound key (Node a k v l r)) as [|d dk dv dl dr].
  - apply assoc_none. now rewrite fmap_app, !items_keys.
  - destruct Hf as (_ & Hin). apply assoc_elem; [|exact Hin].
    exact (ordered_below_NoDup a k v l r Ho).
Qed.

(** Nothing is to the left of a node whose key is empty. *)
Lemma ordered_empty_left a v l r : ordered (Node a "" v l r) -> l = Leaf.
Proof.
  intros (Hlt & _). destruct l as [|n nk nv nl nr]; [reflexivity|]. exfalso.
  rewrite Forall_forall in Hlt. specialize (Hlt nk).
  pose proof (strcmp_empty_r nk) as He. apply Z.ltb_ge in He.
  cbn [keys] in Hlt. specialize (Hlt ltac:(apply elem_of_app; right; left)). lia.
Qed.

(** [db_add] puts one entry into the list: that of the new node. *)
Lemma items_tinsert key n nk nv t :
  t <> Leaf -> tfound key t = Leaf ->
  exists pre post,
    items t = pre ++ post /\
    items (tinsert key (Node n nk nv Leaf Leaf) t) = pre ++ (nk, nv) :: post.
Proof.
  intros Hne. pattern t. apply (descent_ind key); auto; clear t Hne.
  - intros t Hne Hc _. unfold tinsert. rewrite (tupdate_none _ _ _ Hne Hc), Hc.
    destruct t as [|a k v l r]; [congruence|].
    rewrite items_set_child, (items_child key a k v l r), Hc. cbn [items].
    destruct (strcmp key k <? 0).
    + exists [], ((k, v) :: items r). split; reflexivity.
    + exists (items l ++ [(k, v)]), []. rewrite app_nil_r, <- app_assoc. split; reflexivity.
  - intros t n' nk' nv' nl nr Hne Hc Hk Hf. exfalso. unfold tfound in Hf.
    rewrite (tfocus_found _ _ _ _ _ _ _ Hc Hk), Hc in Hf. discriminate.
  - intros t n' nk' nv' nl nr Hne Hc Hk IH Hf. unfold tfound, tinsert in *.
    rewrite (tfocus_step _ _ _ _ _ _ _ Hc Hk) in Hf.
    rewrite (tupdate_step _ _ _ _ _ _ _ _ Hc Hk).
    destruct (IH Hf) as (pre & post & Hitems & Hitems').
    destruct t as [|a k v l r]; [congruence|].
    rewrite items_set_child, (items_child key a k v l r), Hc.
    destruct (strcmp key k <? 0).
    + exists pre, (post ++ (k, v) :: items r). rewrite Hitems, Hitems'.
      now rewrite <- !app_assoc.
    + exists (items l ++ (k, v) :: pre), post. rewrite Hitems, Hitems'.
      now rewrite <- !app_assoc.
Qed.

Lemma tree_at_items h t p :
  tree_at h t -> p ∈ items t ->
  exists a n, a ∈ addrs t /\ h !! a = Some n /\ (name n, value n) = p.
Proof.
  induction t as [|a k v l IHl r IHr]; [intros _ Hin; inversion Hin|].
  intros (Ha & Hl & Hr) Hin. cbn [items addrs] in *.
  apply elem_of_app in Hin as [Hin|Hin].
  - destruct (IHl Hl Hin) as (x & n & Hx & Hn & Hp). exists x, n.
    split; [right; apply elem_of_app; now left|auto].
  - apply elem_of_cons in Hin as [->|Hin].
    + exists a, (mk_node k v (root l) (root r)). split; [left|auto].
    + destruct (IHr Hr Hin) as (x & n & Hx & Hn & Hp). exists x, n.
      split; [right; apply elem_of_app; now right|auto].
Qed.

Lemma tree_at_item h t a n :
  tree_at h t -> a ∈ addrs t -> h !! a = Some n -> (name n, value n) ∈ items t.
Proof.
  induction t as [|a' k v l IHl r IHr]; [intros _ Hin; inversion Hin|].
  intros (Ha & Hl & Hr) Hin Hn. cbn [items addrs] in *. apply elem_of_app.
  apply elem_of_cons in Hin as [->|Hin].
  - rewrite Ha in Hn. injection Hn as <-. right. left.
  - apply elem_of_app in Hin as [Hin|Hin]; [left; auto|right; right; auto].
Qed.

Lemma short_entries_heap w l r :
  db_tree w l r ->
  (short_entries (Node head "" "" l r) <-> keys_short w /\ values_short w).
Proof.
  intros (Ht & Hnd & Hdom). unfold short_entries, keys_short, values_short.
  rewrite Forall_forall. split.
  - intros Hs. split; intros a n Hn;
      (assert (Hin : a ∈ addrs (Node head "" "" l r))
        by (apply (elem_of_list_to_set (C := gset positive)); rewrite <- Hdom;
            apply elem_of_dom; eauto));
      apply (Hs _ (tree_at_item _ _ _ _ Ht Hin Hn)).
  - intros (Hk & Hv) p Hp. destruct (tree_at_items _ _ _ Ht Hp) as (a & n & _ & Hn & <-).
    simpl. eauto.
Qed.

Lemma sorted_around (key val : string) (pre post : list (string * string)) :
  strictly_increasing (pre ++ (key, val) :: post).*1 ->
  Forall (fun p => strcmp p.1 key < 0) pre /\ Forall (fun p => strcmp key p.1 < 0) post.
Proof.
  unfold strictly_increasing. rewrite fmap_app, fmap_cons. intros Hs.
  apply StronglySorted_app in Hs as (Hpre & _ & Hs). inversion Hs as [|? ? _ Hpost]; subst.
  split.
  - apply Forall_forall. intros p Hp. apply Hpre; [|left].
    exact (list_elem_of_fmap_2 fst _ p Hp).
  - apply Forall_fmap in Hpost. exact Hpost.
Qed.

(** *** What the operations do to the list of entries *)

Lemma db_query_assoc `{Allocator} key buf len w :
  db_ordered w ->
  exists w',
    db_query key buf len w =
      Some (snprintf buf len (default "not found" (assoc key (entries w))), w') /\
    heap w' = heap w.
Proof.
  intros (l & r & Hdb & Ho & _).
  destruct (db_query_run key buf len w l r Hdb) as (w' & Hq & Hh & _).
  exists w'. split; [|exact Hh]. rewrite Hq, (entries_tree w l r Hdb).
  rewrite (tfound_assoc key head "" "" l r Ho).
  now destruct (tfound key (Node head "" "" l r)).
Qed.

Lemma db_add_entries `{Allocator} key val w :
  db_ordered w ->
  key <> "" -> (String.length key < MAXLEN)%nat -> (String.length val < MAXLEN)%nat ->
  hd CtorOk (faults w) = CtorOk ->
  exists added w',
    db_add key val w = Some (added, w') /\ db_ordered w' /\
    match assoc key (entries w) with
    | Some _ => added = 0 /\ entries w' = entries w
    | None => added = 1 /\ entries w' = insert_entry key val (entries w)
    end.
Proof.
  intros Hord Hne Hk Hv Hok. pose proof Hord as (l & r & Hdb & Ho & Hb).
  destruct (db_add_tree key val w l r Hdb) as (ret & w' & l' & r' & Hadd & Hdb' & Hcase).
  destruct (db_add_ordered key val w Hord Hne Hk) as (ret' & w'' & Hadd' & Hord').
  rewrite Hadd in Hadd'. injection Hadd' as <- <-.
  exists ret, w'. split; [exact Hadd|]. split; [exact Hord'|].
  rewrite (entries_tree w l r Hdb), (entries_tree w' l' r' Hdb').
  rewrite (tfound_assoc key head "" "" l r Ho).
  destruct Hcase as [(Hf & -> & _ & -> & ->)|(Hf & -> & [(_ & Htree)|(Hno & _)])].
  - destruct (tfound key (Node head "" "" l r)); [congruence|auto].
  - rewrite Hf. split; [reflexivity|].
    assert (Ho' : ordered (Node head "" "" l' r')).
    { rewrite Htree. unfold new_node. rewrite (snprintf_short "" MAXLEN key Hk).
      apply tinsert_ordered; auto; try discriminate. simpl. now rewrite strcmp_eq. }
    unfold new_node in Htree.
    rewrite (snprintf_short "" MAXLEN key Hk), (snprintf_short "" MAXLEN val Hv) in Htree.
    destruct (items_tinsert key (malloc_addr (dom (heap w))) key val (Node head "" "" l r)
                ltac:(discriminate) Hf) as (pre & post & Hit & Hit').
    rewrite <- Htree in Hit'.
    pose proof (ordered_sorted _ Ho') as Hs. rewrite <- items_keys, Hit' in Hs.
    apply sorted_around in Hs as (Hpre & Hpost).
    pose proof (insert_entry_sorted key val pre post Hpre Hpost) as Hins.
    rewrite <- Hit, <- Hit' in Hins.
    rewrite (ordered_empty_left _ _ _ _ Ho), (ordered_empty_left _ _ _ _ Ho') in *.
    cbn [items app insert_entry] in Hins |- *.
    rewrite strcmp_empty_r in Hins. now injection Hins as <-.
  - exfalso. apply Hno. unfold constructible. repeat split; [lia|lia|exact Hok].
Qed.

Lemma db_remove_entries `{Allocator} key w :
  db_ordered w -> values_short w ->
  exists removed w',
    db_remove key w = Some (removed, w') /\ db_ordered w' /\ values_short w' /\
    entries w' = filter (fun p => p.1 <> key) (entries w) /\
    removed = match assoc key (entries w) with Some _ => 1 | None => 0 end.
Proof.
  intros Hord Hvs. pose proof Hord as (l & r & Hdb & Ho & Hb).
  assert (Hshort : short_entries (Node head "" "" l r)).
  { apply (short_entries_heap w l r Hdb). split; [|exact Hvs].
    now apply (keys_short_bounded w l r Hdb). }
  destruct (db_remove_tree key w l r Hdb) as (w' & l' & r' & Hrm & Hdb' & Htree).
  assert (Ho' : ordered (Node head "" "" l' r')).
  { rewrite Htree. apply tremove_ordered; auto; discriminate. }
  pose proof (items_tremove key (Node head "" "" l r) ltac:(discriminate) Hshort) as Hit.
  pose proof (tfound_items key head "" "" l r Ho) as Hin.
  assert (Hkeep : short_entries (Node head "" "" l' r') -> db_ordered w' /\ values_short w').
  { intros Hs. apply (short_entries_heap w' l' r' Hdb') in Hs as (Hks' & Hvs').
    split; [|exact Hvs']. exists l', r'. split; [exact Hdb'|]. split; [exact Ho'|].
    now apply (keys_short_bounded w' l' r' Hdb'). }
  eexists _, w'. split; [exact Hrm|].
  rewrite (entries_tree w l r Hdb), (entries_tree w' l' r' Hdb').
  rewrite (tfound_assoc key head "" "" l r Ho).
  destruct (tfound key (Node head "" "" l r)) as [|d dk dv dl dr].
  - rewrite Hit in Htree. injection Htree as -> ->.
    destruct (Hkeep Hshort) as (Hord' & Hvs').
    split; [exact Hord'|]. split; [exact Hvs'|]. split; [|reflexivity].
    rewrite filter_all; [reflexivity|]. apply Forall_forall. intros [k v] Hp Hk.
    simpl in Hk. subst k. apply Hin. rewrite <- !items_keys, <- fmap_app.
    exact (list_elem_of_fmap_2 fst _ (key, v) Hp).
  - destruct Hit as (_ & pre & post & Hitems & Hitems'). destruct Hin as (-> & Hin).
    rewrite <- Htree in Hitems'.
    assert (Hshort' : short_entries (Node head "" "" l' r')).
    { unfold short_entries in *. rewrite Hitems'. rewrite Hitems in Hshort.
      apply Forall_app in Hshort as (Hpre & Hpost). apply Forall_cons in Hpost as (_ & Hpost).
      apply Forall_app. auto. }
    destruct (Hkeep Hshort') as (Hord' & Hvs').
    split; [exact Hord'|]. split; [exact Hvs'|]. split; [|reflexivity].
    pose proof (ordered_NoDup _ Ho) as Hnd. rewrite <- items_keys, Hitems in Hnd.
    pose proof (filter_key_out key dv pre post Hnd) as Hfil.
    rewrite <- Hitems, <- Hitems' in Hfil.
    assert (Hkey : key <> "").
    { destruct Ho as (Hlt & Hgt & _). rewrite Forall_forall in Hgt.
      apply strcmp_empty_l. apply Hgt.
      apply elem_of_app in Hin as [Hin|Hin].
      - exfalso. rewrite Forall_forall in Hlt.
        pose proof (strcmp_empty_r key) as He. apply Z.ltb_ge in He.
        specialize (Hlt key). rewrite <- items_keys in Hlt.
        specialize (Hlt (list_elem_of_fmap_2 fst _ (key, dv) Hin)). lia.
      - rewrite <- items_keys. exact (list_elem_of_fmap_2 fst _ (key, dv) Hin). }
    rewrite (ordered_empty_left _ _ _ _ Ho), (ordered_empty_left _ _ _ _ Ho') in *.
    cbn [items app] in Hfil |- *.
    rewrite filter_cons_True in Hfil by (simpl; congruence).
    now injection Hfil as <-.
Qed.

Lemma assoc_insert_entry k key val l :
  assoc key l = None ->
  assoc k (insert_entry key val l) = if String.eqb k key then Some val else assoc k l.
Proof.
  induction l as [|[k' v'] l IH]; intros Hnone.
  - reflexivity.
  - cbn [assoc insert_entry] in *.
    destruct (String.eqb key k') eqn:Ek'; [discriminate|].
    destruct (strcmp key k' <? 0).
    + reflexivity.
    + cbn [assoc]. rewrite (IH Hnone).
      destruct (String.eqb k k') eqn:Ek; [|reflexivity].
      apply String.eqb_eq in Ek as ->. rewrite String.eqb_sym in Ek'. now rewrite Ek'.
Qed.

Lemma assoc_filter k key l :
  assoc k (filter (fun p : string * string => p.1 <> key) l) =
    if String.eqb k key then None else assoc k l.
Proof.
  induction l as [|[k' v'] l IH].
  - now destruct (String.eqb k key).
  - rewrite filter_cons. destruct (decide ((k', v').1 <> key)) as [Hne|He]; cbn [assoc].
    + rewrite IH. destruct (String.eqb k key) eqn:Ek; [|reflexivity].
      apply String.eqb_eq in Ek as ->. simpl in Hne.
      apply not_eq_sym, String.eqb_neq in Hne. now rewrite Hne.
    + rewrite IH. simpl in He. apply dec_stable in He as ->.
      now destruct (String.eqb k key).
Qed.

Lemma db_ordered_sorted w : db_ordered w -> strictly_increasing (entries w).*1.
Proof.
  intros (l & r & Hdb & Ho & _). rewrite (entries_tree w l r Hdb), fmap_app, !items_keys.
  now apply ordered_below_head.
Qed.

(** *** An insertion undone *)

Lemma set_child_child key t : set_child key t (child_of key t) = t.
Proof. destruct t as [|a k v l r]; [reflexivity|]. simpl. now destruct (strcmp key k <? 0). Qed.

Lemma set_child_twice key t c c' : set_child key (set_child key t c) c' = set_child key t c'.
Proof.
  destruct t as [|a k v l r]; [reflexivity|]. simpl.
  destruct (strcmp key k <? 0) eqn:E; simpl; now rewrite E.
Qed.

Lemma child_of_set key t c : t <> Leaf -> child_of key (set_child key t c) = c.
Proof.
  destruct t as [|a k v l r]; [congruence|]. intros _. simpl.
  destruct (strcmp key k <? 0) eqn:E; simpl; now rewrite E.
Qed.

Lemma set_child_not_leaf key t c : t <> Leaf -> set_child key t c <> Leaf.
Proof. destruct t as [|a k v l r]; [congruence|]. simpl. now destruct (strcmp key k <? 0). Qed.

(** Removing the key just inserted gives the tree back. *)
Lemma tremove_tinsert key n nv t :
  t <> Leaf -> tfound key t = Leaf ->
  tremove key (tinsert key (Node n key nv Leaf Leaf) t) = t.
Proof.
  intros Hne. pattern t. apply (descent_ind key); auto; clear t Hne.
  - intros t Hne Hc _. unfold tinsert. rewrite (tupdate_none _ _ _ Hne Hc), Hc.
    unfold tremove.
    rewrite (tupdate_found key _ (set_child key t (Node n key nv Leaf Leaf)) n key nv Leaf Leaf)
      by (rewrite ?child_of_set; auto using strcmp_refl).
    rewrite child_of_set by exact Hne. cbn [tremove_node].
    rewrite set_child_twice. rewrite <- Hc. apply set_child_child.
  - intros t n' nk' nv' nl nr Hne Hc Hk Hf. exfalso. unfold tfound in Hf.
    rewrite (tfocus_found _ _ _ _ _ _ _ Hc Hk), Hc in Hf. discriminate.
  - intros t n' nk' nv' nl nr Hne Hc Hk IH Hf. unfold tfound in Hf.
    rewrite (tfocus_step _ _ _ _ _ _ _ Hc Hk) in Hf. specialize (IH Hf).
    unfold tinsert in *. rewrite (tupdate_step _ _ _ _ _ _ _ _ Hc Hk).
    destruct (tinsert_node key (Node n key nv Leaf Leaf) n' nk' nv' nl nr) as (l' & r' & Hform).
    unfold tinsert in Hform. rewrite Hform in *.
    unfold tremove in *.
    rewrite (tupdate_step key _ (set_child key t (Node n' nk' nv' l' r')) n' nk' nv' l' r')
      by (rewrite ?child_of_set; auto).
    rewrite IH, set_child_twice. rewrite <- Hc. apply set_child_child.
Qed.

(** A tree is held by one heap only. *)
Lemma represents_unique h h' t : represents h t -> represents h' t -> h = h'.
Proof.
  intros (Ht & Hnd & Hdom) (Ht' & _ & Hdom'). apply map_eq. intros a.
  destruct (decide (a ∈ addrs t)) as [Hin|Hout].
  - destruct (tree_at_lookup h t a Ht Hin) as (k & v & l & r & Hn & ->).
    destruct (tree_at_lookup h' t a Ht' Hin) as (k' & v' & l' & r' & Hn' & ->).
    rewrite Hn in Hn'. now injection Hn' as <- <- <- <-.
  - assert (Ha : a ∉ dom h) by (rewrite Hdom; set_solver).
    assert (Ha' : a ∉ dom h') by (rewrite Hdom'; set_solver).
    apply not_elem_of_dom in Ha, Ha'. now rewrite Ha, Ha'.
Qed.

(** *** The locks of the dump *)

Lemma tprint_events_node a k v l r :
  tprint_events (Node a k v l r) = tprint_child l ++ tprint_child r ++ [Release a].
Proof. unfold tprint_child. cbn [tprint_events]. now rewrite <- !app_assoc. Qed.

(** [db_print_recurs] holds the locks of the whole path to the node it
    prints: as many as the tree is high. *)
Lemma tprint_coupled h t :
  forall E a,
    tree_at h t -> NoDup (addrs t) -> (forall x, x ∈ E -> x ∉ addrs t) ->
    root t = Some a ->
    coupled h (a :: E) (tprint_events t) = true /\
    replay (a :: E) (tprint_events t) = E /\
    peak (a :: E) (tprint_events t) = (length E + height t)%nat.
Proof.
  induction t as [|a k v l IHl r IHr]; intros E a' Ht Hnd HE Hroot; [discriminate|].
  injection Hroot as <-. destruct Ht as (Ha & Hl & Hr).
  cbn [addrs] in Hnd, HE. apply NoDup_cons in Hnd as (Hal & Hnd).
  apply NoDup_app in Hnd as (Hndl & Hlr & Hndr).
  assert (Hchild : forall c,
            tree_at h c -> NoDup (addrs c) ->
            (forall x, x ∈ addrs c -> x ∈ addrs l ++ addrs r) ->
            (forall x, root c = Some x -> is_child h a x = true) ->
            (forall E0 x, tree_at h c -> NoDup (addrs c) ->
               (forall y, y ∈ E0 -> y ∉ addrs c) -> root c = Some x ->
               coupled h (x :: E0) (tprint_events c) = true /\
               replay (x :: E0) (tprint_events c) = E0 /\
               peak (x :: E0) (tprint_events c) = (length E0 + height c)%nat) ->
            coupled h (a :: E) (tprint_child c) = true /\
            replay (a :: E) (tprint_child c) = a :: E /\
            peak (a :: E) (tprint_child c) = (length (a :: E) + height c)%nat).
  { intros c Hc Hndc Hsub Hch IH. unfold tprint_child.
    destruct c as [|x ck cv cl cr]; [simpl; repeat split; lia|].
    cbn [root app].
    assert (Hx : x ∈ addrs l ++ addrs r) by (apply Hsub; left).
    assert (HxE : x ∉ a :: E).
    { intros Hin. apply elem_of_cons in Hin as [->|Hin]; [contradiction|].
      apply (HE x Hin). now right. }
    destruct (IH (a :: E) x Hc Hndc) as (IH1 & IH2 & IH3); [|reflexivity|].
    { intros y Hy Hyc. apply Hsub in Hyc.
      apply elem_of_cons in Hy as [->|Hy]; [contradiction|]. apply (HE y Hy). now right. }
    cbn [coupled replay peak existsb].
    rewrite (bool_decide_eq_true_2 _ HxE), (Hch x eq_refl), IH1, IH2, IH3.
    cbn [orb andb length height] in *. repeat split; lia. }
  destruct (Hchild l Hl Hndl) as (Hl1 & Hl2 & Hl3); [set_solver| |exact IHl|].
  { intros x Hx. exact (is_child_left _ _ _ _ _ _ x Ha Hx). }
  destruct (Hchild r Hr Hndr) as (Hr1 & Hr2 & Hr3); [set_solver| |exact IHr|].
  { intros x Hx. exact (is_child_right _ _ _ _ _ _ x Ha Hx). }
  rewrite tprint_events_node.
  rewrite !coupled_app, !replay_app, !peak_app, Hl1, Hl2, Hl3, Hr1, Hr2, Hr3.
  cbn [coupled replay peak andb length height].
  rewrite bool_decide_eq_true_2 by left. rewrite release_head.
  repeat split; lia.
Qed.

(** *** After the cleanup *)

(** A descent from a sentinel whose right child is freed meets the freed
    node at its first step. *)
Lemma search_freed `{Allocator} fuel key want_parent lk w lc a :
  heap w !! head = Some (mk_node "" "" lc (Some a)) -> heap w !! a = None ->
  search (S fuel) key head want_parent lk w = None.
Proof.
  intros Hh Ha. cbn [search].
  rewrite (bind_some _ _ _ _ _ (get_name_at _ _ _ Hh)). cbn [name].
  rewrite strcmp_empty_r.
  rewrite (bind_some _ _ _ _ _ (get_rchild_at _ _ _ Hh)). cbn [rchild].
  unfold bind at 1. unfold lock, bind, load. now rewrite Ha.
Qed.

(** *** The mode of the locks *)

Lemma takes_only_app lt e1 e2 : takes_only lt (e1 ++ e2) <-> takes_only lt e1 /\ takes_only lt e2.
Proof. apply Forall_app. Qed.

Lemma tsearch_takes_only key wp lk t : takes_only lk (snd (tsearch key wp lk t)).
Proof.
  unfold takes_only. induction t as [|a k v l IHl r IHr]; [constructor|].
  cbn [tsearch]. destruct (strcmp key k <? 0).
  - destruct l as [|n nk nv nl nr]; [destruct wp; repeat constructor|].
    destruct (strcmp key nk =? 0); [destruct wp; repeat constructor|].
    destruct (tsearch key wp lk (Node n nk nv nl nr)) as [[res p] evs].
    cbn [snd] in *. repeat constructor. exact IHl.
  - destruct r as [|n nk nv nl nr]; [destruct wp; repeat constructor|].
    destruct (strcmp key nk =? 0); [destruct wp; repeat constructor|].
    destruct (tsearch key wp lk (Node n nk nv nl nr)) as [[res p] evs].
    cbn [snd] in *. repeat constructor. exact IHr.
Qed.

Lemma tmin_takes_only t : takes_only l_write (tmin_events t).
Proof.
  unfold takes_only. induction t as [|a k v l IHl r _]; [constructor|].
  destruct l as [|n nk nv nl nr]; [constructor|].
  change (tmin_events (Node a k v (Node n nk nv nl nr) r))
    with (Acquire l_write n :: Release a :: tmin_events (Node n nk nv nl nr)).
  repeat constructor. exact IHl.
Qed.

Lemma tremove_takes_only p d : takes_only l_write (tremove_events p d).
Proof.
  destruct d as [|a k v l r]; [repeat constructor|]. unfold tremove_events.
  destruct r as [|n nk nv nl nr]; [repeat constructor|].
  destruct l as [|m mk mv ml mr]; [repeat constructor|].
  apply Forall_cons. split; [exact I|]. apply Forall_cons. split; [reflexivity|].
  apply takes_only_app. split; [apply tmin_takes_only|repeat constructor].
Qed.

Lemma tprint_takes_only t : takes_only l_read (tprint_events t).
Proof.
  induction t as [|a k v l IHl r IHr]; [constructor|].
  rewrite tprint_events_node. unfold tprint_child.
  rewrite !takes_only_app. repeat split; auto.
  - destruct (root l); repeat constructor.
  - destruct (root r); repeat constructor.
  - repeat constructor.
Qed.

(** *** Commands written out and read back *)

Lemma scan_token_append width tok rest :
  has_space tok = false -> (String.length tok <= width)%nat ->
  match rest with EmptyString => True | String c _ => isspace c = true end ->
  scan_token width (tok +:+ rest) = (tok, rest).
Proof.
  revert width. induction tok as [|c tok IH]; intros width Hs Hlen Hrest.
  - change ("" +:+ rest) with rest. destruct width, rest; try reflexivity.
    cbn [scan_token]. now rewrite Hrest.
  - cbn [has_space] in Hs. apply orb_false_iff in Hs as (Hc & Hs).
    destruct width as [|width]; [simpl in Hlen; lia|].
    rewrite append_cons. cbn [scan_token]. rewrite Hc.
    rewrite (IH width Hs); [reflexivity|simpl in Hlen; lia|exact Hrest].
Qed.

Lemma scan_s_token_append tok rest :
  token tok ->
  match rest with EmptyString => True | String c _ => isspace c = true end ->
  scan_s 255 (String " " (tok +:+ rest)) = Some (tok, rest).
Proof.
  intros (Hne & Hs & Hlen) Hrest. unfold scan_s.
  change (skip_space (String " " (tok +:+ rest))) with (skip_space (tok +:+ rest)).
  destruct tok as [|c tok]; [congruence|].
  pose proof Hs as Hs'. cbn [has_space] in Hs'. apply orb_false_iff in Hs' as (Hc & _).
  rewrite append_cons. cbn [skip_space]. rewrite Hc. rewrite <- append_cons.
  rewrite (scan_token_append 255 (String c tok) rest Hs Hlen Hrest). reflexivity.
Qed.

Lemma request_of_add k v :
  token k -> token v -> request_of ("a " +:+ k +:+ " " +:+ v) = Add k v.
Proof.
  intros Hk Hv.
  change ("a " +:+ k +:+ " " +:+ v) with (String "a" (String " " (k +:+ String " " v))).
  cbn [request_of Ascii.eqb Bool.eqb]. cbn. unfold two_tokens.
  rewrite (scan_s_token_append k (String " " v) Hk eq_refl).
  rewrite <- (append_nil_r v) at 1.
  now rewrite (scan_s_token_append v "" Hv I).
Qed.

Lemma request_of_query k : token k -> request_of ("q " +:+ k) = Query k.
Proof.
  intros Hk. change ("q " +:+ k) with (String "q" (String " " k)).
  cbn. unfold one_token. rewrite <- (append_nil_r k) at 1.
  now rewrite (scan_s_token_append k "" Hk I).
Qed.

Lemma request_of_delete k : token k -> request_of ("d " +:+ k) = Delete k.
Proof.
  intros Hk. change ("d " +:+ k) with (String "d" (String " " k)).
  cbn. unfold one_token. rewrite <- (append_nil_r k) at 1.
  now rewrite (scan_s_token_append k "" Hk I).
Qed.

(** ** The list of client threads *)

Lemma server_bind_some {A B} (m : Server.M A) (k : A -> Server.M B) s x s' :
  m s = Some (x, s') -> Server.bind m k s = k x s'.
Proof. unfold Server.bind. now intros ->. Qed.

Lemma server_bind_none {A B} (m : Server.M A) (k : A -> Server.M B) s :
  m s = None -> Server.bind m k s = None.
Proof. unfold Server.bind. now intros ->. Qed.

Lemma server_load_at s a c :
  Server.clients s !! a = Some c -> Server.load (Some a) s = Some (c, s).
Proof. unfold Server.load. now intros ->. Qed.

Lemma server_get_next_at s a c :
  Server.clients s !! a = Some c -> Server.get_next (Some a) s = Some (Server.next c, s).
Proof. intros Hc. unfold Server.get_next. now rewrite (server_bind_some _ _ _ _ _ (server_load_at _ _ _ Hc)). Qed.

Lemma server_get_prev_at s a c :
  Server.clients s !! a = Some c -> Server.get_prev (Some a) s = Some (Server.prev c, s).
Proof. intros Hc. unfold Server.get_prev. now rewrite (server_bind_some _ _ _ _ _ (server_load_at _ _ _ Hc)). Qed.

Lemma server_get_thread_at s a c :
  Server.clients s !! a = Some c -> Server.get_thread (Some a) s = Some (Server.thread c, s).
Proof. intros Hc. unfold Server.get_thread. now rewrite (server_bind_some _ _ _ _ _ (server_load_at _ _ _ Hc)). Qed.

Lemma server_get_cxstr_at s a c :
  Server.clients s !! a = Some c -> Server.get_cxstr (Some a) s = Some (Server.cxstr c, s).
Proof. intros Hc. unfold Server.get_cxstr. now rewrite (server_bind_some _ _ _ _ _ (server_load_at _ _ _ Hc)). Qed.

Lemma server_set_next_at s a c q :
  Server.clients s !! a = Some c ->
  Server.set_next (Some a) q s =
    Some (tt, Server.with_clients (<[a := Server.upd_next c q]> (Server.clients s)) s).
Proof.
  intros Hc. unfold Server.set_next.
  rewrite (server_bind_some _ _ _ _ _ (server_load_at _ _ _ Hc)).
  unfold Server.store. now rewrite Hc.
Qed.

Lemma server_set_prev_at s a c q :
  Server.clients s !! a = Some c ->
  Server.set_prev (Some a) q s =
    Some (tt, Server.with_clients (<[a := Server.upd_prev c q]> (Server.clients s)) s).
Proof.
  intros Hc. unfold Server.set_prev.
  rewrite (server_bind_some _ _ _ _ _ (server_load_at _ _ _ Hc)).
  unfold Server.store. now rewrite Hc.
Qed.

Lemma server_free_at s a c :
  Server.clients s !! a = Some c ->
  Server.free (Some a) s = Some (tt, Server.with_clients (delete a (Server.clients s)) s).
Proof. intros Hc. unfold Server.free. now rewrite Hc. Qed.

(** *** Segments *)

Lemma dseg_frame h h' pv cs nx :
  (forall c, c ∈ cs -> h' !! c = h !! c) -> Server.dseg h pv cs nx -> Server.dseg h' pv cs nx.
Proof.
  revert pv. induction cs as [|c cs IH]; intros pv Hsame; [auto|].
  intros (n & Hn & Hp & Hnx & Hrest). exists n. rewrite Hsame by left.
  repeat split; auto. apply IH; [|exact Hrest]. intros x Hx. apply Hsame. now right.
Qed.

Lemma hd_app_hd (nx : positive) l1 l2 : List.hd nx (l1 ++ l2) = List.hd (List.hd nx l2) l1.
Proof. now destruct l1. Qed.

Lemma last_cons (c d : positive) l : List.last (c :: l) d = List.last l c.
Proof.
  revert c d. induction l as [|x l IH]; intros c d; [reflexivity|].
  change (List.last (c :: x :: l) d) with (List.last (x :: l) d).
  now rewrite (IH x d), (IH x c).
Qed.

Lemma dseg_app h pv l1 l2 nx :
  Server.dseg h pv (l1 ++ l2) nx <->
  Server.dseg h pv l1 (List.hd nx l2) /\ Server.dseg h (List.last l1 pv) l2 nx.
Proof.
  revert pv. induction l1 as [|c l1 IH]; intros pv.
  - simpl. tauto.
  - cbn [app Server.dseg]. rewrite last_cons, hd_app_hd. split.
    + intros (n & Hn & Hp & Hnx & Hrest). apply IH in Hrest as (H1 & H2).
      split; [exists n|]; auto.
    + intros ((n & Hn & Hp & Hnx & H1) & H2). exists n. repeat split; auto.
      apply IH. auto.
Qed.

Lemma dseg_in h pv cs nx c : Server.dseg h pv cs nx -> c ∈ cs -> is_Some (h !! c).
Proof.
  revert pv. induction cs as [|x cs IH]; intros pv Hd Hin; [inversion Hin|].
  destruct Hd as (n & Hn & _ & _ & Hrest).
  apply elem_of_cons in Hin as [->|Hin]; [eauto|eapply IH; eauto].
Qed.

(** The pointer before the first client of a segment, set. *)
Lemma dseg_set_prev h pv pv' c cs nx n :
  c ∉ cs -> h !! c = Some n -> Server.dseg h pv (c :: cs) nx ->
  Server.dseg (<[c := Server.upd_prev n (Some pv')]> h) pv' (c :: cs) nx.
Proof.
  intros Hc Hn (n' & Hn' & Hp & Hnx & Hrest). rewrite Hn in Hn'. injection Hn' as <-.
  exists (Server.upd_prev n (Some pv')). rewrite lookup_insert_eq.
  repeat split; auto. apply (dseg_frame h); [|exact Hrest].
  intros x Hx. apply lookup_insert_ne. intros ->. contradiction.
Qed.

(** The pointer after the last client of a segment, set. *)
Lemma dseg_set_next h pv cs c nx nx' n :
  c ∉ cs -> h !! c = Some n -> Server.dseg h pv (cs ++ [c]) nx ->
  Server.dseg (<[c := Server.upd_next n (Some nx')]> h) pv (cs ++ [c]) nx'.
Proof.
  intros Hc Hn Hd. apply dseg_app in Hd as (H1 & (n' & Hn' & Hp & _ & _)).
  rewrite Hn in Hn'. injection Hn' as <-. apply dseg_app. cbn [List.hd] in *. split.
  - apply (dseg_frame h); [|exact H1].
    intros x Hx. apply lookup_insert_ne. intros ->. contradiction.
  - exists (Server.upd_next n (Some nx')). rewrite lookup_insert_eq. repeat split; auto.
Qed.

Lemma list_last_snoc (l : list positive) c d : List.last (l ++ [c]) d = c.
Proof. apply List.last_last. Qed.

Lemma list_split_last (c : positive) l :
  exists init, c :: l = init ++ [List.last l c].
Proof.
  revert c. induction l as [|x l IH]; intros c; [now exists []|].
  destruct (IH x) as (init & Hinit). exists (c :: init).
  change (List.last (x :: l) c) with (List.last (x :: l) c).
  rewrite last_cons. cbn [app]. now rewrite <- Hinit.
Qed.

Ltac sproj :=
  unfold Server.with_clients in *;
  cbn [Server.clients Server.thread_list_head Server.num_client_threads
       Server.server_status Server.stopped Server.trace Server.with_clients] in *.

Lemma server_bind_assoc {A B C} (m : Server.M A) (k1 : A -> Server.M B)
    (k2 : B -> Server.M C) s :
  Server.bind (Server.bind m k1) k2 s = Server.bind m (fun x => Server.bind (k1 x) k2) s.
Proof. unfold Server.bind. destruct (m s) as [[x s']|]; reflexivity. Qed.

Ltac sstep :=
  match goal with
  | |- context [Server.bind (Server.bind ?m ?k1) ?k2 ?s] =>
      rewrite (server_bind_assoc m k1 k2 s)
  | |- context [Server.bind ?m ?k ?s] =>
      first [ rewrite (server_bind_some m k s _ _ eq_refl)
            | erewrite (server_bind_some m k s);
              [|first [ eapply server_set_next_at | eapply server_set_prev_at
                      | eapply server_get_next_at | eapply server_get_prev_at
                      | eapply server_get_thread_at | eapply server_get_cxstr_at
                      | eapply server_free_at ];
                sproj;
                repeat first [ rewrite lookup_insert_eq
                             | rewrite lookup_insert_ne by congruence ];
                first [eassumption | reflexivity] ] ];
      cbv beta; sproj
  end.

Lemma run_client_register_stopped client s :
  Server.server_status s = Server.STOPPED ->
  Server.run_client_register client s = Some (false, s).
Proof.
  intros Hs. unfold Server.run_client_register. sstep. now rewrite Hs.
Qed.

(** The ring with one more client at its end. *)
Lemma ring_snoc h c0 rest client n nl n0 :
  NoDup (c0 :: rest) -> client ∉ c0 :: rest -> Server.ring h (c0 :: rest) ->
  h !! List.last rest c0 = Some nl ->
  (<[List.last rest c0 := Server.upd_next nl (Some client)]>
     (<[client := Server.upd_prev (Server.upd_next n (Some c0)) (Some (List.last rest c0))]>
        (<[client := Server.upd_next n (Some c0)]> h))) !! c0 = Some n0 ->
  Server.ring
    (<[c0 := Server.upd_prev n0 (Some client)]>
       (<[List.last rest c0 := Server.upd_next nl (Some client)]>
          (<[client := Server.upd_prev (Server.upd_next n (Some c0))
                         (Some (List.last rest c0))]>
             (<[client := Server.upd_next n (Some c0)]> h))))
    ((c0 :: rest) ++ [client]).
Proof.
  intros Hnd Hout Hring Hl H0. set (lst := List.last rest c0) in *.
  set (h2 := <[client := _]> (<[client := _]> h)) in *.
  assert (Hlc : lst <> client).
  { intros E. apply Hout. rewrite <- E. destruct (list_split_last c0 rest) as (init & ->).
    apply elem_of_app. right. left. }
  assert (Hc0 : c0 <> client) by (intros ->; apply Hout; left).
  unfold Server.ring in *. cbn [app]. rewrite list_last_snoc.
  change (c0 :: rest ++ [client]) with ((c0 :: rest) ++ [client]).
  apply (proj2 (dseg_app _ client (c0 :: rest) [client] c0)). cbn [List.hd]. split.
  - apply NoDup_cons in Hnd as (Hc0r & Hndr).
    apply (dseg_set_prev _ lst client c0 rest client n0 Hc0r H0).
    destruct (list_split_last c0 rest) as (init & Hinit). fold lst in Hinit.
    assert (Hli : lst ∉ init).
    { intros Hin. assert (Hnd' : NoDup (c0 :: rest)) by (constructor; auto).
      rewrite Hinit in Hnd'. apply NoDup_app in Hnd' as (_ & Hd & _).
      apply (Hd lst Hin). left. }
    rewrite Hinit. apply (dseg_set_next h2 lst init lst c0 client nl Hli).
    + unfold h2. now rewrite !lookup_insert_ne by congruence.
    + rewrite <- Hinit. apply (dseg_frame h); [|exact Hring].
      intros x Hx. unfold h2. rewrite !lookup_insert_ne; [reflexivity| |];
        intros ->; contradiction.
  - rewrite last_cons. fold lst. eexists. split.
    + rewrite !lookup_insert_ne by congruence. unfold h2. apply lookup_insert_eq.
    + cbn. auto.
Qed.

Lemma thread_insert_upd_next (h : gmap positive Server.client_t) k m x a :
  h !! k = Some m ->
  Server.thread <$> (<[k := Server.upd_next m x]> h) !! a = Server.thread <$> h !! a.
Proof.
  intros Hk. destruct (decide (a = k)) as [->|Hak].
  - now rewrite lookup_insert_eq, Hk.
  - now rewrite lookup_insert_ne by congruence.
Qed.

Lemma thread_insert_upd_prev (h : gmap positive Server.client_t) k m x a :
  h !! k = Some m ->
  Server.thread <$> (<[k := Server.upd_prev m x]> h) !! a = Server.thread <$> h !! a.
Proof.
  intros Hk. destruct (decide (a = k)) as [->|Hak].
  - now rewrite lookup_insert_eq, Hk.
  - now rewrite lookup_insert_ne by congruence.
Qed.

Lemma cxstr_insert_upd_next (h : gmap positive Server.client_t) k m x a :
  h !! k = Some m ->
  Server.cxstr <$> (<[k := Server.upd_next m x]> h) !! a = Server.cxstr <$> h !! a.
Proof.
  intros Hk. destruct (decide (a = k)) as [->|Hak].
  - now rewrite lookup_insert_eq, Hk.
  - now rewrite lookup_insert_ne by congruence.
Qed.

Lemma cxstr_insert_upd_prev (h : gmap positive Server.client_t) k m x a :
  h !! k = Some m ->
  Server.cxstr <$> (<[k := Server.upd_prev m x]> h) !! a = Server.cxstr <$> h !! a.
Proof.
  intros Hk. destruct (decide (a = k)) as [->|Hak].
  - now rewrite lookup_insert_eq, Hk.
  - now rewrite lookup_insert_ne by congruence.
Qed.

Ltac lookup_at :=
  repeat first [ rewrite lookup_insert_eq | rewrite lookup_insert_ne by congruence ];
  first [ reflexivity | eassumption ].

Ltac fields :=
  repeat first [ rewrite thread_insert_upd_next by lookup_at
               | rewrite thread_insert_upd_prev by lookup_at
               | rewrite cxstr_insert_upd_next by lookup_at
               | rewrite cxstr_insert_upd_prev by lookup_at ];
  reflexivity.

Lemma run_client_register_run s cs client n :
  Server.registered s cs -> Server.server_status s <> Server.STOPPED ->
  Server.clients s !! client = Some n -> client ∉ cs ->
  exists s',
    Server.run_client_register (Some client) s = Some (true, s') /\
    Server.registered s' (cs ++ [client]) /\
    (forall a, a ∉ cs -> a <> client -> Server.clients s' !! a = Server.clients s !! a) /\
    (forall a, Server.thread <$> Server.clients s' !! a = Server.thread <$> Server.clients s !! a /\
               Server.cxstr <$> Server.clients s' !! a = Server.cxstr <$> Server.clients s !! a) /\
    Server.server_status s' = Server.server_status s /\
    Server.stopped s' = Server.stopped s /\
    Server.trace s' =
      Server.trace s ++ [Server.MutexLock Server.server_mutex;
                         Server.MutexLock Server.thread_list_mutex;
                         Server.MutexUnlock Server.thread_list_mutex;
                         Server.MutexUnlock Server.server_mutex].
Proof.
  destruct s as [h hd num status stp tr].
  intros (Hhd & Hnd & Hring & Hnum) Hs Hn Hout. sproj. subst hd.
  unfold Server.run_client_register.
  sstep. apply Z.eqb_neq in Hs. rewrite Hs. cbn [negb].
  do 3 sstep. destruct cs as [|c0 rest]; cbn [lookup list_lookup].
  - repeat sstep. eexists. split; [reflexivity|]. unfold Server.registered. sproj.
    split; [|split; [|split; [|split; [|split]]]].
    + split; [reflexivity|]. split; [apply NoDup_singleton|]. split; [|simpl in *; lia].
      cbn. eexists. rewrite lookup_insert_eq. split; [reflexivity|]. cbn. auto.
    + intros a _ Ha. now rewrite !lookup_insert_ne by congruence.
    + intros a. split; fields.
    + reflexivity.
    + reflexivity.
    + now rewrite <- !app_assoc.
  - pose proof Hring as (n0 & H0 & Hp0 & Hn0 & _).
    assert (Hc0 : c0 <> client) by (intros ->; apply Hout; left).
    assert (Hlin : List.last rest c0 ∈ c0 :: rest).
    { destruct (list_split_last c0 rest) as (init & ->). apply elem_of_app. right. left. }
    destruct (dseg_in _ _ _ _ _ Hring Hlin) as (nl & Hl).
    assert (Hlc : List.last rest c0 <> client) by (intros E; apply Hout; now rewrite <- E).
    repeat sstep. rewrite Hp0. repeat sstep. rewrite Hn0.
    destruct (bool_decide (Some (hd c0 rest) = Some c0)) eqn:Hone.
    + assert (rest = []) as ->.
      { apply bool_decide_eq_true_1 in Hone. destruct rest as [|c1 rest']; [reflexivity|].
        cbn in Hone. injection Hone as ->. apply NoDup_cons in Hnd as (Hnd & _).
        exfalso. apply Hnd. left. }
      cbn [List.last] in *. rewrite H0 in Hl. injection Hl as <-.
      repeat sstep. eexists. split; [reflexivity|]. unfold Server.registered. sproj.
      split; [|split; [|split; [|split; [|split]]]].
      * split; [reflexivity|]. split.
        { apply NoDup_app. split; [exact Hnd|]. split; [|apply NoDup_singleton].
          intros x Hx Hx'. apply list_elem_of_singleton in Hx'. subst x. contradiction. }
        split.
        { apply (ring_snoc h c0 [] client n n0 _ Hnd Hout Hring H0).
          cbn [List.last]. apply lookup_insert_eq. }
        rewrite length_app. cbn [length] in *. lia.
      * intros a Ha Hac. rewrite !lookup_insert_ne; [reflexivity| | | |]; try congruence;
          intros <-; apply Ha; left.
      * intros a. split; fields.
      * reflexivity.
      * reflexivity.
      * now rewrite <- !app_assoc.
    + assert (Hl0 : List.last rest c0 <> c0).
      { apply bool_decide_eq_false_1 in Hone. destruct rest as [|c1 rest'].
        - now contradiction Hone.
        - intros E. apply NoDup_cons in Hnd as (Hnd & _). apply Hnd. rewrite <- E at 1.
          destruct (list_split_last c1 rest') as (init & Hinit).
          rewrite last_cons, Hinit. apply elem_of_app. right. left. }
      repeat sstep. rewrite Hp0. repeat sstep.
      eexists. split; [reflexivity|]. unfold Server.registered. sproj.
      split; [|split; [|split; [|split; [|split]]]].
      * split; [reflexivity|]. split.
        { apply NoDup_app. split; [exact Hnd|]. split; [|apply NoDup_singleton].
          intros x Hx Hx'. apply list_elem_of_singleton in Hx'. subst x. contradiction. }
        split.
        { apply (ring_snoc h c0 rest client n nl n0 Hnd Hout Hring Hl).
          now rewrite !lookup_insert_ne by congruence. }
        rewrite length_app. cbn [length] in *. lia.
      * intros a Ha Hac. rewrite !lookup_insert_ne; [reflexivity| | | |]; try congruence;
          intros <-; apply Ha; first [left|exact Hlin].
      * intros a. split; fields.
      * reflexivity.
      * reflexivity.
      * now rewrite <- !app_assoc.
Qed.


(** *** Leaving the list *)

Lemma thread_cleanup_find_at s client post nx pre pv p fuel :
  Server.dseg (Server.clients s) pv (pre ++ client :: post) nx -> client ∉ pre ->
  (length pre < fuel)%nat ->
  Server.thread_cleanup_find fuel (Some client) (Some (List.hd client pre)) p s =
    Some ((Some client, match pre with [] => p | _ => Some (List.last pre client) end), s).
Proof.
  revert pv p fuel. induction pre as [|c pre IH]; intros pv p fuel Hd Hout Hfuel.
  - destruct fuel as [|fuel]; [simpl in Hfuel; lia|]. cbn [Server.thread_cleanup_find List.hd].
    rewrite bool_decide_eq_false_2 by (intros E; now apply E). reflexivity.
  - destruct fuel as [|fuel]; [simpl in Hfuel; lia|]. cbn [Server.thread_cleanup_find List.hd].
    assert (Hc : c <> client) by (intros ->; apply Hout; left).
    rewrite bool_decide_eq_true_2 by congruence.
    cbn [app] in Hd. destruct Hd as (n & Hn & _ & Hnx & Hrest).
    rewrite (server_bind_some _ _ _ _ _ (server_get_next_at _ _ _ Hn)). rewrite Hnx.
    rewrite hd_app_hd. cbn [List.hd].
    rewrite (IH c (Some c) fuel Hrest); [| |simpl in Hfuel; lia].
    + rewrite last_cons. destruct pre; [reflexivity|]. now rewrite !last_cons.
    + intros Hin. apply Hout. now right.
Qed.

(** A segment whose ends are joined is a ring. *)
Lemma dseg_close h x y c l np nq :
  NoDup (c :: l) -> Server.dseg h x (c :: l) y ->
  h !! List.last l c = Some np ->
  (<[List.last l c := Server.upd_next np (Some c)]> h) !! c = Some nq ->
  Server.ring (<[c := Server.upd_prev nq (Some (List.last l c))]>
                 (<[List.last l c := Server.upd_next np (Some c)]> h)) (c :: l).
Proof.
  intros Hnd Hd Hp Hq. unfold Server.ring.
  apply NoDup_cons in Hnd as (Hcl & Hndl).
  apply (dseg_set_prev _ x _ c l c nq Hcl Hq).
  destruct (list_split_last c l) as (init & Hinit).
  assert (Hli : List.last l c ∉ init).
  { intros Hin. assert (Hnd' : NoDup (c :: l)) by (constructor; auto).
    rewrite Hinit in Hnd'. apply NoDup_app in Hnd' as (_ & Hdis & _).
    apply (Hdis _ Hin). left. }
  rewrite Hinit. apply (dseg_set_next h x init _ y c np Hli Hp). now rewrite <- Hinit.
Qed.

(** A segment without one of its inner clients. *)
Lemma dseg_cut h pv l1 client l2 nx np nq :
  NoDup (l1 ++ client :: l2) -> l1 <> [] -> l2 <> [] ->
  Server.dseg h pv (l1 ++ client :: l2) nx ->
  h !! List.last l1 client = Some np ->
  (<[List.last l1 client := Server.upd_next np (Some (List.hd client l2))]> h)
    !! List.hd client l2 = Some nq ->
  Server.dseg (<[List.hd client l2 := Server.upd_prev nq (Some (List.last l1 client))]>
                 (<[List.last l1 client := Server.upd_next np (Some (List.hd client l2))]> h))
              pv (l1 ++ l2) nx.
Proof.
  intros Hnd H1 H2 Hd Hp Hq.
  destruct l2 as [|q l2]; [contradiction|]. cbn [List.hd] in *.
  destruct (list_split_last client l1) as (init & Hinit).
  destruct l1 as [|c1 l1]; [contradiction|]. rewrite last_cons in *.
  assert (Hl1 : exists init', c1 :: l1 = init' ++ [List.last l1 c1]).
  { apply list_split_last. }
  destruct Hl1 as (init' & Hinit'). set (p := List.last l1 c1) in *.
  apply NoDup_app in Hnd as (Hnd1 & Hdis & Hnd2).
  apply NoDup_cons in Hnd2 as (Hc2 & Hnd2). apply NoDup_cons in Hnd2 as (Hq2 & Hnd2).
  assert (Hpin : p ∈ c1 :: l1) by (rewrite Hinit'; apply elem_of_app; right; left).
  assert (Hpq : p <> q).
  { intros E. apply (Hdis p Hpin). right. rewrite E. left. }
  assert (Hpi : p ∉ init').
  { intros Hin. rewrite Hinit' in Hnd1. apply NoDup_app in Hnd1 as (_ & Hd1 & _).
    apply (Hd1 p Hin). left. }
  apply dseg_app in Hd as (Hd1 & Hd2). cbn [List.hd] in Hd1.
  rewrite last_cons in Hd2. fold p in Hd2.
  destruct Hd2 as (nc & Hnc & Hpc & Hnxc & Hd2).
  apply dseg_app. cbn [List.hd]. rewrite last_cons. fold p. split.
  - apply (dseg_frame (<[p := Server.upd_next np (Some q)]> h)).
    + intros x Hx. apply lookup_insert_ne. intros E. apply (Hdis x Hx). right.
      rewrite <- E. left.
    + rewrite Hinit'. apply (dseg_set_next h pv init' p client q np Hpi Hp).
      now rewrite <- Hinit'.
  - apply (dseg_set_prev _ client p q l2 nx nq Hq2 Hq).
    apply (dseg_frame h); [|exact Hd2].
    intros x Hx. apply lookup_insert_ne. intros E.
    apply (Hdis p Hpin). right. rewrite E. exact Hx.
Qed.

Lemma last_app_cons (l : list positive) c post d :
  List.last (l ++ c :: post) d = List.last post c.
Proof.
  revert d. induction l as [|x l IH]; intros d; cbn [app].
  - apply last_cons.
  - rewrite last_cons. apply IH.
Qed.

Lemma ring_split h pre client post :
  Server.ring h (pre ++ client :: post) <->
  Server.dseg h (List.last post client) (pre ++ client :: post) (List.hd client pre).
Proof.
  destruct pre as [|c0 pre]; cbn [app Server.ring List.hd]; [reflexivity|].
  now rewrite last_app_cons.
Qed.

Lemma ring_in h cs c : Server.ring h cs -> c ∈ cs -> is_Some (h !! c).
Proof.
  destruct cs as [|c0 rest]; intros Hring Hin; [inversion Hin|].
  exact (dseg_in _ _ _ _ _ Hring Hin).
Qed.

Lemma ring_frame h h' cs :
  (forall c, c ∈ cs -> h' !! c = h !! c) -> Server.ring h cs -> Server.ring h' cs.
Proof. destruct cs as [|c0 rest]; [auto|]. apply dseg_frame. Qed.

(** The ring without one of its clients: the one before it and the one
    after it are linked, and it is freed. *)
Lemma ring_unlink h pre client post np nq :
  NoDup (pre ++ client :: post) -> pre ++ post <> [] ->
  Server.ring h (pre ++ client :: post) ->
  h !! List.last pre (List.last post client) = Some np ->
  (<[List.last pre (List.last post client) :=
       Server.upd_next np (Some (List.hd (List.hd client pre) post))]> h)
    !! List.hd (List.hd client pre) post = Some nq ->
  Server.ring
    (delete client
       (<[List.hd (List.hd client pre) post :=
            Server.upd_prev nq (Some (List.last pre (List.last post client)))]>
          (<[List.last pre (List.last post client) :=
               Server.upd_next np (Some (List.hd (List.hd client pre) post))]> h)))
    (pre ++ post).
Proof.
  intros Hnd Hne Hring Hp Hq.
  assert (Hout : client ∉ pre ++ post).
  { intros Hin. apply elem_of_app in Hin. apply NoDup_app in Hnd as (_ & Hdis & Hnd).
    apply NoDup_cons in Hnd as (Hpost & _). destruct Hin as [Hin|Hin]; [|contradiction].
    apply (Hdis client Hin). left. }
  apply (ring_frame (<[List.hd (List.hd client pre) post :=
            Server.upd_prev nq (Some (List.last pre (List.last post client)))]>
          (<[List.last pre (List.last post client) :=
               Server.upd_next np (Some (List.hd (List.hd client pre) post))]> h))).
  { intros c Hc. apply lookup_delete_ne. intros ->. contradiction. }
  apply ring_split in Hring.
  destruct pre as [|c0 pre]; [destruct post as [|q post]; [contradiction|]|destruct post as [|q post]].
  - cbn [app List.hd] in *.
    change (List.last [] (List.last (q :: post) client)) with (List.last (q :: post) client) in *.
    rewrite last_cons in *.
    destruct Hring as (nc & _ & _ & _ & Hd). apply NoDup_cons in Hnd as (_ & Hnd).
    exact (dseg_close h client client q post np nq Hnd Hd Hp Hq).
  - rewrite app_nil_r. cbn [List.hd] in *. rewrite last_cons in *.
    apply dseg_app in Hring as (Hd & _).
    apply NoDup_app in Hnd as (Hnd & _).
    exact (dseg_close h client _ c0 pre np nq Hnd Hd Hp Hq).
  - cbn [List.hd] in *. rewrite !last_cons in *.
    apply (proj2 (ring_split _ (c0 :: pre) q post)). cbn [List.hd].
    pose proof (dseg_cut h (List.last post q) (c0 :: pre) client (q :: post) c0 np nq Hnd)
      as Hcut.
    cbn [List.hd] in Hcut. rewrite last_cons in Hcut.
    apply Hcut; auto; discriminate.
Qed.

Lemma relink_fields (h : gmap positive Server.client_t) (p q : positive) x y np nq a :
  h !! p = Some np -> (<[p := Server.upd_next np x]> h) !! q = Some nq ->
  Server.thread <$> (<[q := Server.upd_prev nq y]> (<[p := Server.upd_next np x]> h)) !! a =
    Server.thread <$> h !! a /\
  Server.cxstr <$> (<[q := Server.upd_prev nq y]> (<[p := Server.upd_next np x]> h)) !! a =
    Server.cxstr <$> h !! a.
Proof.
  intros Hp Hq. destruct (decide (a = q)) as [->|Haq].
  - rewrite lookup_insert_eq. destruct (decide (q = p)) as [->|Hqp].
    + rewrite lookup_insert_eq in Hq. injection Hq as <-. rewrite Hp. split; reflexivity.
    + rewrite lookup_insert_ne in Hq by congruence. rewrite Hq. split; reflexivity.
  - rewrite lookup_insert_ne by congruence. destruct (decide (a = p)) as [->|Hap].
    + rewrite lookup_insert_eq, Hp. split; reflexivity.
    + rewrite lookup_insert_ne by congruence. split; reflexivity.
Qed.

Ltac cleanup_end Hun Hnum1 Hnd' Hfields Hclin :=
  specialize (Hun ltac:(discriminate));
  specialize (Hnum1 ltac:(discriminate));
  repeat sstep; rewrite Hnum1; repeat sstep;
  (eexists; split; [reflexivity|]); unfold Server.registered; sproj;
  (split; [split; [reflexivity|split; [exact Hnd'|split; [exact Hun|]]]|]);
  [ cbn [length] in *;
    repeat match goal with
           | H : context [length (_ ++ _)] |- _ => rewrite length_app in H
           end;
    rewrite ?length_app; cbn [length] in *; lia |];
  (split; [apply lookup_delete_eq|]);
  (split;
   [ intros a Ha; rewrite lookup_delete_ne by (intros E; apply Ha; rewrite <- E;
                                                exact Hclin);
     rewrite !lookup_insert_ne; [reflexivity| |]; intros E; apply Ha; rewrite <- E;
     assumption |]);
  (split; [ intros a Ha; rewrite lookup_delete_ne by congruence; apply Hfields |]);
  (split; [reflexivity|]); (split; [reflexivity|]);
  cbn [app]; rewrite ?app_nil_r; cbn [app]; now rewrite <- !app_assoc.

Lemma thread_cleanup_run s pre client post n fuel :
  Server.registered s (pre ++ client :: post) ->
  Server.clients s !! client = Some n ->
  (length pre < fuel)%nat ->
  exists s',
    Server.thread_cleanup fuel (Some client) s = Some (tt, s') /\
    Server.registered s' (pre ++ post) /\
    Server.clients s' !! client = None /\
    (forall a, a ∉ pre ++ client :: post ->
               Server.clients s' !! a = Server.clients s !! a) /\
    (forall a, a <> client ->
               Server.thread <$> Server.clients s' !! a = Server.thread <$> Server.clients s !! a /\
               Server.cxstr <$> Server.clients s' !! a = Server.cxstr <$> Server.clients s !! a) /\
    Server.server_status s' = Server.server_status s /\
    Server.stopped s' = Server.stopped s /\
    Server.trace s' =
      Server.trace s ++
      [Server.MutexLock Server.server_mutex; Server.MutexLock Server.thread_list_mutex;
       Server.CommShutdown (Server.cxstr n)] ++
      match pre ++ post with [] => [Server.CondSignal] | _ => [] end ++
      [Server.MutexUnlock Server.thread_list_mutex; Server.MutexUnlock Server.server_mutex].
Proof.
  destruct s as [h hd num status stp tr].
  intros (Hhd & Hnd & Hring & Hnum) Hn Hfuel. sproj.
  assert (Hhd' : hd = Some (List.hd client pre)) by (subst hd; now destruct pre).
  clear Hhd. subst hd.
  assert (Hnum0 : (num =? 0) = false).
  { apply Z.eqb_neq. rewrite Hnum, length_app. cbn [length]. lia. }
  assert (Hpre : client ∉ pre).
  { intros Hin. apply NoDup_app in Hnd as (_ & Hdis & _). apply (Hdis client Hin). left. }
  assert (Hpost : client ∉ post).
  { apply NoDup_app in Hnd as (_ & _ & Hnd). now apply NoDup_cons in Hnd as (? & _). }
  pose proof (proj1 (ring_split _ _ _ _) Hring) as Hd.
  pose proof Hd as Hd'. apply dseg_app in Hd' as (_ & (n' & Hn' & Hpc & Hnc & _)).
  rewrite Hn in Hn'. injection Hn' as <-. cbn [List.hd] in Hnc.
  unfold Server.thread_cleanup. do 3 sstep. rewrite Hnum0. cbn [negb].
  do 3 sstep.
  match goal with
  | |- context [Server.bind (Server.thread_cleanup_find _ _ _ _) _ ?s] =>
      rewrite (server_bind_some _ _ s _ _
                 (thread_cleanup_find_at s client post _ pre _ None fuel Hd Hpre Hfuel))
  end.
  cbn [fst snd]. do 2 sstep. rewrite Hnc. do 2 sstep. unfold Server.client_destructor.
  assert (Hpin : List.last pre (List.last post client) ∈ pre ++ client :: post).
  { destruct pre as [|c0 pre]; cbn [app].
    - change (List.last post client ∈ client :: post).
      destruct (list_split_last client post) as (init & ->). apply elem_of_app. right. left.
    - destruct (list_split_last c0 pre) as (init & Hinit).
      rewrite last_cons. change (List.last pre c0 ∈ (c0 :: pre) ++ client :: post).
      apply elem_of_app. left. rewrite Hinit.
      apply elem_of_app. right. left. }
  assert (Hqin : List.hd (List.hd client pre) post ∈ pre ++ client :: post).
  { destruct post as [|q post]; cbn [List.hd].
    - destruct pre; cbn [List.hd app]; left.
    - apply elem_of_app. right. right. left. }
  assert (Hclin : client ∈ pre ++ client :: post) by (apply elem_of_app; right; left).
  assert (Hp : exists np, h !! List.last pre (List.last post client) = Some np).
  { exact (ring_in _ _ _ Hring Hpin). }
  destruct Hp as (np & Hp).
  assert (Hq : exists nq,
             (<[List.last pre (List.last post client) :=
                  Server.upd_next np (Some (List.hd (List.hd client pre) post))]> h)
               !! List.hd (List.hd client pre) post = Some nq).
  { apply lookup_insert_is_Some'. right. exact (ring_in _ _ _ Hring Hqin). }
  destruct Hq as (nq & Hq).
  assert (Hnd' : NoDup (pre ++ post)).
  { apply NoDup_app in Hnd as (Hnd1 & Hdis & Hnd2). apply NoDup_cons in Hnd2 as (_ & Hnd2).
    apply NoDup_app. repeat split; auto. intros x Hx Hx'. apply (Hdis x Hx). now right. }
  assert (Hcl : pre ++ post <> [] ->
                List.last pre (List.last post client) <> client /\
                List.hd (List.hd client pre) post <> client).
  { intros Hne. split.
    - destruct pre as [|c0 pre]; [destruct post as [|q post]; [contradiction|]|].
      + change (List.last (q :: post) client <> client). rewrite last_cons.
        intros E. apply Hpost. rewrite <- E.
        destruct (list_split_last q post) as (init & ->). apply elem_of_app. right. left.
      + rewrite last_cons. intros E. apply Hpre. rewrite <- E.
        destruct (list_split_last c0 pre) as (init & ->). apply elem_of_app. right. left.
    - destruct post as [|q post]; [destruct pre as [|c0 pre]; [contradiction|]|];
        cbn [List.hd]; intros E.
      + apply Hpre. rewrite <- E. left.
      + apply Hpost. rewrite <- E. left. }
  assert (Hnum1 : pre ++ post <> [] -> (num - 1 =? 0) = false).
  { intros Hne. apply Z.eqb_neq. rewrite Hnum, length_app. cbn [length].
    destruct pre; [destruct post; [contradiction|]|]; cbn [length]; lia. }
  pose proof (fun H => ring_unlink h pre client post np nq Hnd H Hring Hp Hq) as Hun.
  pose proof (fun a => relink_fields h _ _ _
                (Some (List.last pre (List.last post client))) np nq a Hp Hq) as Hfields.
  destruct pre as [|c0 pre]; [destruct post as [|q post]|destruct post as [|q post]];
    cbn [List.hd app] in *.
  - { clear Hun Hfields Hq Hp Hcl np nq.
       rewrite !bool_decide_eq_true_2 by reflexivity. cbn [andb]. repeat sstep.
       assert (num - 1 = 0) as -> by (cbn [length] in Hnum; lia). cbn [Z.eqb]. repeat sstep.
       eexists. split; [reflexivity|]. unfold Server.registered. sproj.
       split; [split; [reflexivity|split; [constructor|split; [exact I|reflexivity]]]|].
       split; [apply lookup_delete_eq|].
       split; [intros a Ha; apply lookup_delete_ne; intros ->; apply Ha; left|].
       split; [intros a Ha; rewrite lookup_delete_ne by (intros E; apply Ha; now rewrite E);
               split; reflexivity|].
       split; [reflexivity|]. split; [reflexivity|]. cbn [app]. now rewrite <- !app_assoc. }
  - change (List.last [] ?x) with x in *. rewrite ?last_cons in *.
    destruct (Hcl ltac:(discriminate)) as (Hpcl & Hqc).
    rewrite (bool_decide_eq_false_2 (Some q = Some client)) by congruence.
    cbn [andb]. rewrite bool_decide_eq_true_2 by reflexivity.
    repeat sstep. rewrite Hpc, Hnc. repeat sstep.
    cleanup_end Hun Hnum1 Hnd' Hfields Hclin.
  - change (List.last [] ?x) with x in *. rewrite ?last_cons in *.
    destruct (Hcl ltac:(discriminate)) as (Hpcl & Hqc).
    rewrite (bool_decide_eq_false_2 (Some (List.last pre c0) = None)) by discriminate.
    rewrite andb_false_r.
    rewrite (bool_decide_eq_false_2 (Some client = Some c0)) by congruence.
    rewrite bool_decide_eq_true_2 by reflexivity.
    repeat sstep.
    cleanup_end Hun Hnum1 Hnd' Hfields Hclin.
  - rewrite ?last_cons in *.
    destruct (Hcl ltac:(discriminate)) as (Hpcl & Hqc).
    assert (Hqc0 : q <> c0).
    { intros ->. apply NoDup_cons in Hnd as (Hnd & _). apply Hnd.
      apply elem_of_app. right. right. left. }
    assert (Hc0c : c0 <> client) by (intros ->; apply Hpre; left).
    rewrite (bool_decide_eq_false_2 (Some q = Some c0)) by congruence.
    cbn [andb].
    rewrite (bool_decide_eq_false_2 (Some client = Some c0)) by congruence.
    repeat sstep. rewrite Hpc. repeat sstep. rewrite Hnc. repeat sstep.
    rewrite ?Hpc, ?Hnc. repeat sstep.
    cleanup_end Hun Hnum1 Hnd' Hfields Hclin.
Qed.

(** The next client of a client of the ring is a client of the ring. *)
Lemma dseg_next_in h pv cs nx c :
  Server.dseg h pv cs nx -> c ∈ cs ->
  exists n y, h !! c = Some n /\ Server.next n = Some y /\ (y ∈ cs \/ y = nx).
Proof.
  revert pv. induction cs as [|x cs IH]; intros pv Hd Hin; [inversion Hin|].
  destruct Hd as (n & Hn & _ & Hnx & Hrest).
  apply elem_of_cons in Hin as [->|Hin].
  - exists n, (List.hd nx cs). repeat split; auto.
    destruct cs; cbn [List.hd]; [now right|left; right; left].
  - destruct (IH _ Hrest Hin) as (m & y & Hm & Hy & Hor). exists m, y. repeat split; auto.
    destruct Hor; [left; now right|now right].
Qed.

Lemma ring_next_in h cs c :
  Server.ring h cs -> c ∈ cs ->
  exists n y, h !! c = Some n /\ Server.next n = Some y /\ y ∈ cs.
Proof.
  destruct cs as [|c0 rest]; intros Hring Hin; [inversion Hin|].
  destruct (dseg_next_in _ _ _ _ _ Hring Hin) as (n & y & Hn & Hy & [Hor|E]);
    exists n, y; repeat split; auto. rewrite E. left.
Qed.

(** Looking for a client that is not in the list does not end. *)
Lemma thread_cleanup_find_absent s cs client fuel curr p :
  Server.ring (Server.clients s) cs -> client ∉ cs -> curr ∈ cs ->
  Server.thread_cleanup_find fuel (Some client) (Some curr) p s = None.
Proof.
  intros Hring Hout. revert curr p. induction fuel as [|fuel IH]; intros curr p Hin;
    [reflexivity|].
  cbn [Server.thread_cleanup_find].
  assert (Hc : curr <> client) by (intros ->; contradiction).
  rewrite bool_decide_eq_true_2 by congruence.
  destruct (ring_next_in _ _ _ Hring Hin) as (n & y & Hn & Hy & Hyin).
  rewrite (server_bind_some _ _ _ _ _ (server_get_next_at _ _ _ Hn)). rewrite Hy.
  now apply IH.
Qed.

Lemma thread_cleanup_absent s cs client fuel :
  Server.registered s cs -> cs <> [] -> client ∉ cs ->
  Server.thread_cleanup fuel (Some client) s = None.
Proof.
  destruct s as [h hd num status stp tr].
  intros (Hhd & Hnd & Hring & Hnum) Hne Hout. sproj.
  destruct cs as [|c0 rest]; [contradiction|]. cbn [lookup list_lookup] in Hhd. subst hd.
  assert (Hnum0 : (num =? 0) = false).
  { apply Z.eqb_neq. rewrite Hnum. cbn [length]. lia. }
  unfold Server.thread_cleanup. do 3 sstep. rewrite Hnum0. cbn [negb].
  do 3 sstep.
  match goal with
  | |- context [Server.bind (Server.thread_cleanup_find _ _ _ _) _ ?s] =>
      rewrite (server_bind_none _ _ s)
  end; [reflexivity|].
  apply (thread_cleanup_find_absent _ (c0 :: rest)); auto. left.
Qed.

Lemma thread_cleanup_none_counted s fuel client :
  Server.num_client_threads s = 0 ->
  Server.thread_cleanup fuel client s =
    Some (tt, Server.add_trace
                [Server.MutexLock Server.server_mutex;
                 Server.MutexLock Server.thread_list_mutex;
                 Server.MutexUnlock Server.thread_list_mutex;
                 Server.MutexUnlock Server.server_mutex] s).
Proof.
  destruct s as [h hd num status stp tr]. sproj. intros ->.
  unfold Server.thread_cleanup. repeat sstep. cbn [Z.eqb negb]. repeat sstep.
  unfold Server.emit, Server.add_trace. sproj. now rewrite <- !app_assoc.
Qed.

(** *** Cancelling the threads *)

Lemma add_trace_add_trace evs evs' s :
  Server.add_trace evs' (Server.add_trace evs s) = Server.add_trace (evs ++ evs') s.
Proof. unfold Server.add_trace. sproj. now rewrite app_assoc. Qed.

Lemma delete_all_loop_at s hd cs pv fuel :
  Server.thread_list_head s = Some hd ->
  Server.dseg (Server.clients s) pv cs hd -> hd ∉ cs -> (length cs < fuel)%nat ->
  Server.delete_all_loop fuel (Some (List.hd hd cs)) s =
    Some (tt, Server.add_trace (Server.Cancel <$> Server.threads (Server.clients s) cs) s).
Proof.
  revert s pv fuel. induction cs as [|c cs IH]; intros s pv fuel Hhd Hd Hout Hfuel.
  - destruct fuel as [|fuel]; [simpl in Hfuel; lia|].
    cbn [Server.delete_all_loop List.hd]. unfold Server.get_head at 1.
    unfold Server.bind at 1. rewrite Hhd.
    rewrite bool_decide_eq_false_2 by (intros E; now apply E).
    destruct s. unfold Server.add_trace, Server.ret. sproj. cbn. now rewrite app_nil_r.
  - destruct fuel as [|fuel]; [simpl in Hfuel; lia|].
    cbn [Server.delete_all_loop List.hd]. unfold Server.get_head at 1.
    unfold Server.bind at 1. rewrite Hhd.
    assert (Hc : c <> hd) by (intros ->; apply Hout; left).
    rewrite bool_decide_eq_true_2 by congruence.
    destruct Hd as (n & Hn & _ & Hnx & Hrest).
    rewrite (server_bind_some _ _ _ _ _ (server_get_next_at _ _ _ Hn)). rewrite Hnx.
    rewrite (server_bind_some _ _ _ _ _ (server_get_thread_at _ _ _ Hn)).
    unfold Server.bind at 1. unfold Server.emit at 1.
    fold (Server.add_trace [Server.Cancel (Server.thread n)] s).
    rewrite (IH _ c fuel); [| exact Hhd | exact Hrest | | simpl in Hfuel; lia].
    + rewrite add_trace_add_trace. unfold Server.threads. cbn [omap list_omap].
      unfold Server.add_trace at 2. sproj. rewrite Hn. reflexivity.
    + intros Hin. apply Hout. now right.
Qed.

Lemma threads_app h l1 l2 :
  Server.threads h (l1 ++ l2) = Server.threads h l1 ++ Server.threads h l2.
Proof. unfold Server.threads. apply omap_app. Qed.

Lemma threads_Forall2 h cs :
  (forall c, c ∈ cs -> is_Some (h !! c)) ->
  Forall2 (fun c t => Server.thread <$> h !! c = Some t) cs (Server.threads h cs).
Proof.
  induction cs as [|c cs IH]; intros Hall; [constructor|].
  destruct (Hall c) as (n & Hn); [left|].
  unfold Server.threads. cbn [omap list_omap]. rewrite Hn. cbn [fmap option_fmap option_map].
  constructor; [now rewrite Hn|]. apply IH. intros x Hx. apply Hall. now right.
Qed.

Lemma delete_all_run s cs fuel :
  Server.registered s cs -> (length cs <= fuel)%nat ->
  Server.delete_all fuel s =
    Some (tt, Server.add_trace
                ([Server.MutexLock Server.thread_list_mutex] ++
                 (Server.Cancel <$> Server.threads (Server.clients s) (tail cs ++ take 1 cs)) ++
                 [Server.MutexUnlock Server.thread_list_mutex]) s).
Proof.
  intros (Hhd & Hnd & Hring & Hnum) Hfuel. unfold Server.delete_all.
  change (Server.emit (Server.MutexLock Server.thread_list_mutex) s)
    with (Some (tt, Server.add_trace [Server.MutexLock Server.thread_list_mutex] s)).
  destruct cs as [|c0 rest]; cbn [lookup list_lookup] in Hhd.
  - unfold Server.bind, Server.emit, Server.get_head. destruct s. sproj.
    cbn in *. rewrite Hhd. unfold Server.emit, Server.add_trace. sproj.
    now rewrite <- app_assoc.
  - destruct Hring as (n0 & Hn0 & _ & Hnx & Hrest).
    apply NoDup_cons in Hnd as (Hc0 & Hnd).
    unfold Server.emit at 1. unfold Server.bind at 1.
    fold (Server.add_trace [Server.MutexLock Server.thread_list_mutex] s).
    set (s1 := Server.add_trace [Server.MutexLock Server.thread_list_mutex] s).
    assert (Hhd1 : Server.thread_list_head s1 = Some c0) by exact Hhd.
    assert (Hn1 : Server.clients s1 !! c0 = Some n0) by exact Hn0.
    unfold Server.get_head at 1. unfold Server.bind at 1. rewrite Hhd1.
    unfold Server.get_head at 1. unfold Server.bind at 1. rewrite Hhd1.
    rewrite (server_bind_some _ _ _ _ _ (server_get_next_at _ _ _ Hn1)). rewrite Hnx.
    rewrite (server_bind_some _ _ _ _ _
               (delete_all_loop_at s1 c0 rest c0 fuel Hhd1 Hrest Hc0 Hfuel)).
    unfold s1. rewrite add_trace_add_trace.
    unfold Server.get_head at 1. unfold Server.bind at 1.
    change (Server.thread_list_head (Server.add_trace _ s)) with (Server.thread_list_head s).
    rewrite Hhd.
    match goal with
    | |- context [Server.bind (Server.get_thread _) _ ?s2] =>
        rewrite (server_bind_some _ _ _ _ _ (server_get_thread_at s2 c0 n0 Hn0))
    end.
    unfold Server.bind, Server.emit. cbn [tail take]. rewrite threads_app, fmap_app.
    subst s1. clear Hhd1 Hn1. destruct s as [h hd num st stp tr].
    unfold Server.add_trace, Server.threads in *. sproj. cbn [omap list_omap]. rewrite Hn0.
    cbn. rewrite <- !app_assoc. reflexivity.
Qed.

(** *** Joining and leaving *)

(** The links of a segment are fixed by its clients. *)
Lemma dseg_unique h h' pv cs nx c :
  Server.dseg h pv cs nx -> Server.dseg h' pv cs nx -> c ∈ cs ->
  Server.thread <$> h' !! c = Server.thread <$> h !! c ->
  Server.cxstr <$> h' !! c = Server.cxstr <$> h !! c ->
  h' !! c = h !! c.
Proof.
  revert pv. induction cs as [|x cs IH]; intros pv Hd Hd' Hin Ht Hc; [inversion Hin|].
  destruct Hd as (n & Hn & Hp & Hnx & Hrest). destruct Hd' as (n' & Hn' & Hp' & Hnx' & Hrest').
  apply elem_of_cons in Hin as [->|Hin]; [|exact (IH _ Hrest Hrest' Hin Ht Hc)].
  rewrite Hn, Hn' in *. cbn in Ht, Hc. injection Ht as Ht. injection Hc as Hc.
  destruct n, n'. cbn in *. congruence.
Qed.

Lemma ring_unique h h' cs c :
  Server.ring h cs -> Server.ring h' cs -> c ∈ cs ->
  Server.thread <$> h' !! c = Server.thread <$> h !! c ->
  Server.cxstr <$> h' !! c = Server.cxstr <$> h !! c ->
  h' !! c = h !! c.
Proof. destruct cs as [|c0 rest]; [intros _ _ Hin; inversion Hin|]. apply dseg_unique. Qed.

Lemma register_cleanup s cs client n fuel :
  Server.registered s cs -> Server.server_status s <> Server.STOPPED ->
  Server.clients s !! client = Some n -> client ∉ cs -> (length cs < fuel)%nat ->
  exists s1 s2,
    Server.run_client_register (Some client) s = Some (true, s1) /\
    Server.thread_cleanup fuel (Some client) s1 = Some (tt, s2) /\
    Server.clients s2 = delete client (Server.clients s) /\
    Server.thread_list_head s2 = Server.thread_list_head s /\
    Server.num_client_threads s2 = Server.num_client_threads s /\
    Server.server_status s2 = Server.server_status s /\
    Server.stopped s2 = Server.stopped s.
Proof.
  intros Hreg Hs Hn Hout Hfuel.
  destruct (run_client_register_run s cs client n Hreg Hs Hn Hout)
    as (s1 & Hrun & Hreg1 & Hsame1 & Hf1 & Hst1 & Hsp1 & _).
  assert (Hn1 : exists n1, Server.clients s1 !! client = Some n1).
  { destruct (Hf1 client) as (Ht & _). rewrite Hn in Ht.
    destruct (Server.clients s1 !! client) as [n1|]; [eauto|discriminate]. }
  destruct Hn1 as (n1 & Hn1).
  destruct (thread_cleanup_run s1 cs client [] n1 fuel Hreg1 Hn1 Hfuel)
    as (s2 & Hclean & Hreg2 & Hfree & Hsame2 & Hf2 & Hst2 & Hsp2 & _).
  rewrite app_nil_r in Hreg2.
  exists s1, s2. split; [exact Hrun|]. split; [exact Hclean|].
  destruct Hreg as (Hhd & Hnd & Hring & Hnum).
  destruct Hreg2 as (Hhd2 & _ & Hring2 & Hnum2).
  split; [|repeat split; congruence].
  apply map_eq. intros a. destruct (decide (a = client)) as [->|Hac].
  - now rewrite Hfree, lookup_delete_eq.
  - rewrite lookup_delete_ne by congruence.
    assert (Hfa : Server.thread <$> Server.clients s2 !! a = Server.thread <$> Server.clients s !! a /\
                  Server.cxstr <$> Server.clients s2 !! a = Server.cxstr <$> Server.clients s !! a).
    { destruct (Hf2 a Hac) as (-> & ->). apply Hf1. }
    destruct (decide (a ∈ cs)) as [Hin|Hnin].
    + apply (ring_unique _ _ cs); tauto.
    + rewrite Hsame2, Hsame1; auto.
      intros Hin. apply elem_of_app in Hin as [Hin|Hin]; [contradiction|].
      apply list_elem_of_singleton in Hin. contradiction.
Qed.

(** *** Every client leaves *)

Lemma Forall2_cxstr_frame (h h' : gmap positive Server.client_t) l (xs : list positive) :
  (forall c, c ∈ l -> Server.cxstr <$> h' !! c = Server.cxstr <$> h !! c) ->
  Forall2 (fun c x => Server.cxstr <$> h' !! c = Some x) l xs ->
  Forall2 (fun c x => Server.cxstr <$> h !! c = Some x) l xs.
Proof.
  intros Hsame Hall. induction Hall as [|c x l xs Hc Hall IH]; constructor.
  - rewrite <- Hsame; [exact Hc|left].
  - apply IH. intros a Ha. apply Hsame. now right.
Qed.

Lemma thread_cleanup_each_run fuel order : forall s cs,
  Server.registered s cs -> order ≡ₚ cs -> (length cs <= fuel)%nat ->
  exists s' evs streams,
    thread_cleanup_each fuel order s = Some (tt, s') /\
    Server.registered s' [] /\
    (forall c, c ∈ cs -> Server.clients s' !! c = None) /\
    (forall a, a ∉ cs -> Server.clients s' !! a = Server.clients s !! a) /\
    Server.trace s' = Server.trace s ++ evs /\
    filter (fun e => on_mutex e = false) evs =
      (Server.CommShutdown <$> streams) ++
      match order with [] => [] | _ => [Server.CondSignal] end /\
    Forall2 (fun c x => Server.cxstr <$> Server.clients s !! c = Some x) order streams.
Proof.
  induction order as [|c rest IH]; intros s cs Hreg Hperm Hfuel.
  - apply Permutation_nil_l in Hperm. subst cs.
    exists s, [], []. cbn [thread_cleanup_each]. split; [reflexivity|].
    split; [exact Hreg|]. split; [intros c Hc; inversion Hc|]. split; [reflexivity|].
    split; [now rewrite app_nil_r|]. split; [reflexivity|constructor].
  - assert (Hin : c ∈ cs) by (rewrite <- Hperm; left).
    apply list_elem_of_split in Hin as (pre & post & ->).
    pose proof Hreg as (_ & Hnd & Hring & _).
    destruct (ring_in _ _ c Hring) as (n & Hn); [apply elem_of_app; right; left|].
    assert (Hlen : (length pre < fuel)%nat).
    { rewrite length_app in Hfuel. cbn [length] in Hfuel. lia. }
    destruct (thread_cleanup_run s pre c post n fuel Hreg Hn Hlen)
      as (s1 & Hrun & Hreg1 & Hfree & Hsame & Hf & _ & _ & Htr).
    assert (Hperm' : rest ≡ₚ pre ++ post).
    { apply (Permutation_cons_inv (a := c)). rewrite Hperm. symmetry.
      apply Permutation_middle. }
    assert (Hfuel' : (length (pre ++ post) <= fuel)%nat).
    { rewrite length_app in *. cbn [length] in Hfuel. lia. }
    destruct (IH s1 (pre ++ post) Hreg1 Hperm' Hfuel')
      as (s' & evs & streams & Hrun' & Hreg' & Hfree' & Hsame' & Htr' & Hfilter & Hstreams).
    assert (Hout : c ∉ pre ++ post).
    { intros Hin. apply elem_of_app in Hin. apply NoDup_app in Hnd as (_ & Hdis & Hnd).
      apply NoDup_cons in Hnd as (Hpost & _). destruct Hin as [Hin|Hin]; [|contradiction].
      apply (Hdis c Hin). left. }
    exists s', (([Server.MutexLock Server.server_mutex;
                  Server.MutexLock Server.thread_list_mutex;
                  Server.CommShutdown (Server.cxstr n)] ++
                 match pre ++ post with [] => [Server.CondSignal] | _ => [] end ++
                 [Server.MutexUnlock Server.thread_list_mutex;
                  Server.MutexUnlock Server.server_mutex]) ++ evs),
           (Server.cxstr n :: streams).
    split.
    { cbn [thread_cleanup_each]. now rewrite (server_bind_some _ _ _ _ _ Hrun). }
    split; [exact Hreg'|]. split.
    { intros a Ha. destruct (decide (a = c)) as [->|Hac].
      - rewrite Hsame' by exact Hout. exact Hfree.
      - apply Hfree'. apply elem_of_app in Ha as [Ha|Ha]; apply elem_of_app; [now left|].
        apply elem_of_cons in Ha as [Ha|Ha]; [contradiction|now right]. }
    split.
    { intros a Ha. rewrite Hsame', Hsame; auto.
      intros Hin. apply Ha. apply elem_of_app in Hin as [Hin|Hin]; apply elem_of_app;
        [now left|right; now right]. }
    split; [rewrite Htr', Htr; now rewrite <- !app_assoc|].
    split.
    { rewrite filter_app, Hfilter.
      destruct (pre ++ post) as [|x l] eqn:Hpp.
      - apply Permutation_nil_r in Hperm'. subst rest.
        apply Forall2_nil_inv_l in Hstreams. subst streams. reflexivity.
      - destruct rest as [|y rest]; [apply Permutation_nil_l in Hperm'; discriminate|].
        reflexivity. }
    constructor; [now rewrite Hn|].
    apply (Forall2_cxstr_frame _ (Server.clients s1)); [|exact Hstreams].
    intros a Ha. apply Hf. intros ->. apply Hout. now rewrite <- Hperm'.
Qed.

(** *** Hand over hand *)

Lemma chained_app h held e1 e2 :
  chained h held (e1 ++ e2) = chained h held e1 && chained h (replay held e1) e2.
Proof.
  revert held. induction e1 as [|[lt a|a] e1 IH]; intros held; simpl; auto.
  - rewrite IH. now rewrite !andb_assoc.
  - rewrite IH. now rewrite !andb_assoc.
Qed.

(** The descent of [search] takes the lock of a child while it holds that
    of the parent. *)
Lemma tsearch_chained key wp lk h E t :
  t <> Leaf -> tree_at h t -> NoDup (addrs t) ->
  (forall x, x ∈ E -> x ∉ addrs t) ->
  forall a, root t = Some a ->
  chained h (a :: E) (snd (tsearch key wp lk t)) = true.
Proof.
  intros Hne. revert E. pattern t. apply (descent_ind key); auto; clear t Hne.
  - intros t Hne Hc E Ht Hnd HE a Hr. destruct t as [|a' k v l r]; [congruence|].
    injection Hr as ->. rewrite (tsearch_none _ _ _ _ _ _ _ _ Hc).
    destruct wp; simpl; [reflexivity|].
    rewrite bool_decide_eq_true_2 by left. reflexivity.
  - intros t n nk nv nl nr Hne Hc Hk E Ht Hnd HE a Hr.
    pose proof (is_child_of key h t n Ht ltac:(now rewrite Hc) a Hr) as Hch.
    destruct t as [|a' k v l r]; [congruence|]. injection Hr as ->.
    rewrite (tsearch_found _ _ _ _ _ _ _ _ _ _ _ _ _ Hc Hk).
    assert (Hna : n <> a).
    { intros ->. simpl in Hnd. apply NoDup_cons in Hnd as [Hna _]. apply Hna.
      assert (Hin : a ∈ addrs (child_of key (Node a k v l r))) by (rewrite Hc; left).
      simpl in Hin. apply elem_of_app. destruct (strcmp key k <? 0); auto. }
    assert (HnE : n ∉ a :: E).
    { intros Hin. apply elem_of_cons in Hin as [?|Hin]; [congruence|].
      apply (HE n Hin). apply (child_of_addrs key). rewrite Hc. left. }
    destruct wp; cbn [snd chained];
      rewrite (bool_decide_eq_true_2 _ HnE); cbn [existsb]; rewrite Hch; cbn [orb andb];
      [reflexivity|].
    rewrite bool_decide_eq_true_2 by (right; left). reflexivity.
  - intros t n nk nv nl nr Hne Hc Hk IH E Ht Hnd HE a Hr.
    pose proof (is_child_of key h t n Ht ltac:(now rewrite Hc) a Hr) as Hch.
    destruct t as [|a' k v l r]; [congruence|]. injection Hr as ->.
    rewrite (tsearch_step _ _ _ _ _ _ _ _ _ _ _ _ _ Hc Hk).
    assert (Hcin : forall x, x ∈ addrs (Node n nk nv nl nr) -> x ∈ addrs l ++ addrs r).
    { intros x Hx. simpl in Hc. apply elem_of_app. destruct (strcmp key k <? 0); subst; auto. }
    pose proof Hnd as Hnd'. simpl in Hnd'. apply NoDup_cons in Hnd' as [Hna' Hnd'].
    assert (Hna : n <> a) by (intros ->; apply Hna', Hcin; left).
    assert (HnE : n ∉ a :: E).
    { intros Hin. apply elem_of_cons in Hin as [?|Hin]; [congruence|].
      apply (HE n Hin). right. apply Hcin. left. }
    assert (Htc : tree_at h (Node n nk nv nl nr)).
    { destruct Ht as (_ & Hl & Hr). simpl in Hc. destruct (strcmp key k <? 0); subst; auto. }
    assert (Hndc : NoDup (addrs (Node n nk nv nl nr))).
    { apply NoDup_app in Hnd' as (? & _ & ?). simpl in Hc.
      destruct (strcmp key k <? 0); subst; auto. }
    assert (HEc : forall x, x ∈ E -> x ∉ addrs (Node n nk nv nl nr)).
    { intros x Hx Hin. apply (HE x Hx). right. apply Hcin. exact Hin. }
    specialize (IH E Htc Hndc HEc n eq_refl).
    destruct (tsearch key wp lk (Node n nk nv nl nr)) as [[res p] evs].
    cbn [snd chained] in *.
    rewrite (bool_decide_eq_true_2 _ HnE). cbn [existsb]. rewrite Hch. cbn [orb andb].
    rewrite bool_decide_eq_true_2 by (right; left).
    rewrite release_second by congruence. exact IH.
Qed.

(** The walk down the left spine, under the lock of the node to remove. *)
Lemma tmin_chained h t d :
  t <> Leaf -> tree_at h t -> NoDup (addrs t) -> d ∉ addrs t ->
  forall a, root t = Some a ->
  chained h [a; d] (tmin_events t) = true.
Proof.
  induction t as [|a k v l IHl r _]; [congruence|].
  intros _ (Ha & Hl & Hr) Hnd Hd a' [= <-].
  simpl in Hnd. apply NoDup_cons in Hnd as [Hna Hnd]. apply NoDup_app in Hnd as (Hndl & _ & _).
  destruct l as [|n nk nv nl nr]; [reflexivity|].
  assert (Hn_a : n <> a) by (intros ->; apply Hna, elem_of_app; left; left).
  assert (Hn_d : n <> d) by (intros ->; apply Hd; right; apply elem_of_app; left; left).
  assert (Ha_d : a <> d) by (intros ->; apply Hd; left).
  assert (HnE : n ∉ [a; d]).
  { intros Hin. apply elem_of_cons in Hin as [?|Hin]; [congruence|].
    apply list_elem_of_singleton in Hin. congruence. }
  assert (Hdl : d ∉ addrs (Node n nk nv nl nr)).
  { intros Hin. apply Hd. right. apply elem_of_app. auto. }
  pose proof (IHl ltac:(congruence) Hl Hndl Hdl n eq_refl) as IH.
  change (tmin_events (Node a k v (Node n nk nv nl nr) r))
    with (Acquire l_write n :: Release a :: tmin_events (Node n nk nv nl nr)).
  cbn [chained].
  rewrite (bool_decide_eq_true_2 _ HnE). cbn [existsb].
  rewrite (is_child_left _ _ _ _ _ _ n Ha eq_refl). cbn [orb andb].
  rewrite bool_decide_eq_true_2 by (right; left).
  rewrite release_second by congruence. exact IH.
Qed.

Lemma hand_over_hand_first h lk evs :
  chained h [head] evs = true -> hand_over_hand h (Acquire lk head :: evs) = true.
Proof.
  intros Hc. cbn [hand_over_hand]. rewrite bool_decide_eq_true_2 by reflexivity. exact Hc.
Qed.

Lemma db_query_chained key h l r :
  let t := Node head "" "" l r in
  tree_at h t -> NoDup (addrs t) ->
  hand_over_hand h (Acquire l_read head :: snd (tsearch key false l_read t)
                      ++ match root (tfound key t) with
                         | Some target => [Release target]
                         | None => []
                         end) = true.
Proof.
  intros t Ht Hnd.
  assert (Hne : t <> Leaf) by (subst t; congruence).
  pose proof (tsearch_coupled key false l_read h [] t Hne Ht Hnd
                ltac:(intros x Hx; inversion Hx) head eq_refl) as Hs.
  pose proof (tsearch_chained key false l_read h [] t Hne Ht Hnd
                ltac:(intros x Hx; inversion Hx) head eq_refl) as Hc.
  destruct (tfocus_spec key false l_read t Hne) as (p & pk & pv & pl & pr & _ & Hres & _).
  fold (tfound key t) in Hres.
  destruct (tsearch key false l_read t) as [[res p'] sevs]. simpl in Hres. subst res.
  destruct Hs as (_ & _ & Hs3). cbn [snd] in *.
  apply hand_over_hand_first. rewrite chained_app, Hc, Hs3. cbn [andb].
  destruct (root (tfound key t)); [|reflexivity].
  simpl. rewrite bool_decide_eq_true_2 by left. reflexivity.
Qed.

Lemma db_add_chained key h l r p :
  let t := Node head "" "" l r in
  tree_at h t -> NoDup (addrs t) -> root (tfocus key t) = Some p ->
  hand_over_hand h (Acquire l_write head :: snd (tsearch key true l_write t)
                      ++ match root (tfound key t) with
                         | Some target => [Release target; Release p]
                         | None => [Release p]
                         end) = true.
Proof.
  intros t Ht Hnd Hp.
  assert (Hne : t <> Leaf) by (subst t; congruence).
  pose proof (tsearch_coupled key true l_write h [] t Hne Ht Hnd
                ltac:(intros x Hx; inversion Hx) head eq_refl) as Hs.
  pose proof (tsearch_chained key true l_write h [] t Hne Ht Hnd
                ltac:(intros x Hx; inversion Hx) head eq_refl) as Hc.
  destruct (tfocus_spec key true l_write t Hne) as (p' & pk & pv & pl & pr & Hf & Hres & Hp' & _).
  fold (tfound key t) in Hres. rewrite Hf in Hp. injection Hp as ->.
  destruct (tsearch key true l_write t) as [[res p''] sevs]. simpl in Hres, Hp'. subst res p''.
  destruct Hs as (_ & _ & Hs3). cbn [snd] in *.
  apply hand_over_hand_first. rewrite chained_app, Hc, Hs3. cbn [andb].
  destruct (root (tfound key t)); simpl;
    repeat (rewrite decide_True by reflexivity; simpl); simpl;
    rewrite ?bool_decide_eq_true_2 by left; reflexivity.
Qed.

Lemma db_remove_chained key h l r p :
  let t := Node head "" "" l r in
  tree_at h t -> NoDup (addrs t) -> root (tfocus key t) = Some p ->
  hand_over_hand h (Acquire l_write head :: snd (tsearch key true l_write t)
                      ++ tremove_events p (tfound key t)) = true.
Proof.
  intros t Ht Hnd Hp.
  assert (Hne : t <> Leaf) by (subst t; congruence).
  pose proof (tsearch_coupled key true l_write h [] t Hne Ht Hnd
                ltac:(intros x Hx; inversion Hx) head eq_refl) as Hs.
  pose proof (tsearch_chained key true l_write h [] t Hne Ht Hnd
                ltac:(intros x Hx; inversion Hx) head eq_refl) as Hc.
  destruct (tfocus_spec key true l_write t Hne) as (p' & pk & pv & pl & pr & Hf & Hres & Hp' & _).
  fold (tfound key t) in Hres. rewrite Hf in Hp. injection Hp as ->.
  pose proof (tfound_at key h t Hnd Ht) as Hfa.
  pose proof (tfocus_NoDup key t Hnd) as Hfnd. rewrite Hf in Hfnd.
  assert (Hfound : child_of key (Node p pk pv pl pr) = tfound key t)
    by (unfold tfound; now rewrite Hf).
  destruct (tsearch key true l_write t) as [[res p''] sevs]. simpl in Hres, Hp'. subst res p''.
  destruct Hs as (_ & _ & Hs3). cbn [app length snd] in *.
  apply hand_over_hand_first. rewrite chained_app, Hc, Hs3. cbn [andb].
  destruct (tfound key t) as [|a dk dv dl dr] eqn:Ed; cbn [root app].
  - simpl. rewrite bool_decide_eq_true_2 by left. reflexivity.
  - assert (Hap : a <> p).
    { intros ->. apply NoDup_cons in Hfnd as [Hnp _]. apply Hnp.
      apply elem_of_app. simpl in Hfound.
      destruct (strcmp key pk <? 0); subst; [left|right]; left. }
    assert (Hdnd : NoDup (addrs (Node a dk dv dl dr))).
    { simpl in Hfound. apply NoDup_cons in Hfnd as [_ Hfnd].
      apply NoDup_app in Hfnd as (? & _ & ?).
      destruct (strcmp key pk <? 0); subst; auto. }
    destruct Hfa as (Ha & Hdl & Hdr).
    assert (Hsingle : chained h [a; p] [Release a; Release p] = true).
    { simpl. rewrite !decide_True by reflexivity. simpl.
      rewrite !bool_decide_eq_true_2 by left. reflexivity. }
    destruct dr as [|rn rk rv rl rr]; [exact Hsingle|].
    destruct dl as [|ln lk lv ll lr]; [exact Hsingle|].
    set (dl := Node ln lk lv ll lr) in *. set (dr := Node rn rk rv rl rr) in *.
    change (tremove_events p (Node a dk dv dl dr))
      with (Release p :: Acquire l_write rn :: tmin_events dr
              ++ [Release a; Release (default head (root (tmin dr)))]).
    change (NoDup (a :: addrs dl ++ addrs dr)) in Hdnd.
    apply NoDup_cons in Hdnd as [Hna Hdnd]. apply NoDup_app in Hdnd as (_ & _ & Hndr).
    assert (Hadr : a ∉ addrs dr) by (intros Hin; apply Hna, elem_of_app; auto).
    assert (Hdrne : dr <> Leaf) by (subst dr; congruence).
    destruct (tmin_coupled h dr a Hdrne Hdr Hndr Hadr rn eq_refl) as (_ & _ & Hm3).
    pose proof (tmin_chained h dr a Hdrne Hdr Hndr Hadr rn eq_refl) as Hm1.
    destruct (tmin_at h dr Hdrne Hdr) as (s & sk & sv & sr & Hmin & _ & Hsin).
    rewrite Hmin in Hm3 |- *. cbn [root default from_option id] in Hm3 |- *.
    assert (Hsa : s <> a) by (intros ->; contradiction).
    assert (Hrna : rn <> a) by (intros ->; apply Hadr; left).
    cbn [chained].
    rewrite bool_decide_eq_true_2 by (right; left).
    rewrite release_second by congruence.
    rewrite bool_decide_eq_true_2
      by (intros Hin; apply list_elem_of_singleton in Hin; congruence).
    cbn [existsb]. rewrite (is_child_right _ _ _ _ _ _ rn Ha eq_refl). cbn [orb andb].
    rewrite chained_app, Hm1, Hm3. cbn [andb chained].
    rewrite bool_decide_eq_true_2 by (right; left).
    rewrite release_second by congruence.
    rewrite bool_decide_eq_true_2 by left. reflexivity.
Qed.

(** The descent holds two locks at once as soon as the sentinel has a child
    on the right, where every key goes. *)
Lemma descent_peak_exact key wp lk h l r :
  let t := Node head "" "" l r in
  tree_at h t -> NoDup (addrs t) ->
  peak [] (Acquire lk head :: snd (tsearch key wp lk t)) =
    match r with Leaf => 1%nat | Node _ _ _ _ _ => 2%nat end.
Proof.
  intros t Ht Hnd. pose proof (descent_peak key wp lk h l r Ht Hnd) as Hle.
  subst t. cbn [tsearch] in *. rewrite strcmp_empty_r in *.
  destruct r as [|n nk nv nl nr].
  - destruct wp; cbn; rewrite ?decide_True by reflexivity; reflexivity.
  - assert (Hge : forall evs, (2 <= peak [] (Acquire lk head :: Acquire lk n :: evs))%nat).
    { intros evs. cbn [peak length]. pose proof (peak_ge [n; head] evs) as Hp.
      cbn [length] in Hp. lia. }
    destruct (strcmp key nk =? 0).
    + cbn [snd] in *. specialize (Hge (if wp then [] else [Release head])). lia.
    + destruct (tsearch key wp lk (Node n nk nv nl nr)) as [[res p] evs].
      cbn [snd] in *. specialize (Hge (Release head :: evs)). lia.
Qed.

Lemma descent_locks_tree w l r :
  db_tree w l r ->
  descent_locks w = match r with Leaf => 1%nat | Node _ _ _ _ _ => 2%nat end.
Proof.
  intros ((Hh & _) & _). unfold descent_locks. rewrite Hh. cbn [rchild].
  now destruct r.
Qed.

Lemma db_query_peak key h l r :
  let t := Node head "" "" l r in
  tree_at h t -> NoDup (addrs t) ->
  peak [] (Acquire l_read head :: snd (tsearch key false l_read t)
             ++ match root (tfound key t) with
                | Some target => [Release target]
                | None => []
                end) =
    match r with Leaf => 1%nat | Node _ _ _ _ _ => 2%nat end.
Proof.
  intros t Ht Hnd.
  destruct (db_query_coupled key h l r Ht Hnd) as (_ & Hle & _).
  pose proof (descent_peak_exact key false l_read h l r Ht Hnd) as Hex.
  destruct r as [|n nk nv nl nr].
  - subst t. unfold tfound. cbn [tsearch tfocus child_of]. rewrite !strcmp_empty_r.
    cbn [tfocus child_of]. rewrite ?strcmp_empty_r.
    cbn. rewrite ?decide_True by reflexivity. reflexivity.
  - subst t. rewrite app_comm_cons, peak_app in *. lia.
Qed.

Lemma db_add_peak key h l r p :
  let t := Node head "" "" l r in
  tree_at h t -> NoDup (addrs t) -> root (tfocus key t) = Some p ->
  peak [] (Acquire l_write head :: snd (tsearch key true l_write t)
             ++ match root (tfound key t) with
                | Some target => [Release target; Release p]
                | None => [Release p]
                end) =
    match r with Leaf => 1%nat | Node _ _ _ _ _ => 2%nat end.
Proof.
  intros t Ht Hnd Hp.
  destruct (db_add_coupled key h l r p Ht Hnd Hp) as (_ & Hle & _).
  pose proof (descent_peak_exact key true l_write h l r Ht Hnd) as Hex.
  destruct r as [|n nk nv nl nr].
  - subst t. unfold tfound in *. cbn [tsearch tfocus child_of] in *.
    rewrite !strcmp_empty_r in *. cbn [root tfocus child_of] in *.
    rewrite ?strcmp_empty_r in *. injection Hp as <-.
    cbn. rewrite ?decide_True by reflexivity. reflexivity.
  - subst t. rewrite app_comm_cons, peak_app in *. lia.
Qed.

Lemma db_query_hand_over_hand `{Allocator} key buf len w :
  db_inv w ->
  exists res w' evs,
    db_query key buf len w = Some (res, w') /\ locks w' = locks w ++ evs /\
    hand_over_hand (heap w) evs = true /\ replay [] evs = [] /\
    peak [] evs = descent_locks w.
Proof.
  intros (l & r & Hdb). destruct (db_query_run key buf len w l r Hdb) as (w' & Hq & _ & Hl).
  rewrite (descent_locks_tree w l r Hdb).
  destruct Hdb as (Ht & Hnd & _).
  destruct (db_query_coupled key (heap w) l r Ht Hnd) as (_ & _ & Hr).
  eexists _, w', _. split; [exact Hq|]. split; [exact Hl|].
  split; [exact (db_query_chained key (heap w) l r Ht Hnd)|].
  split; [exact Hr|]. exact (db_query_peak key (heap w) l r Ht Hnd).
Qed.

Lemma db_add_hand_over_hand `{Allocator} key val w :
  db_inv w ->
  exists added w' evs,
    db_add key val w = Some (added, w') /\ locks w' = locks w ++ evs /\
    hand_over_hand (heap w) evs = true /\ replay [] evs = [] /\
    peak [] evs = descent_locks w.
Proof.
  intros (l & r & Hdb).
  destruct (db_add_run key val w l r Hdb) as (p & pn & Hp & _ & _ & w' & Hrun).
  rewrite (descent_locks_tree w l r Hdb).
  destruct Hdb as (Ht & Hnd & _).
  destruct (db_add_coupled key (heap w) l r p Ht Hnd Hp) as (_ & _ & Hr).
  pose proof (db_add_chained key (heap w) l r p Ht Hnd Hp) as Hc.
  pose proof (db_add_peak key (heap w) l r p Ht Hnd Hp) as Hpk.
  unfold tfound in *.
  destruct (root (child_of key (tfocus key (Node head "" "" l r)))) as [target|].
  - destruct Hrun as (Hrun & _ & Hl). eexists _, w', _. split; [exact Hrun|]. split; [exact Hl|]. auto.
  - destruct Hrun as (Hrun & _ & Hl). eexists _, w', _. split; [exact Hrun|]. split; [exact Hl|]. auto.
Qed.

Lemma db_remove_hand_over_hand `{Allocator} key w :
  db_inv w ->
  exists removed w' descent rest target parent,
    db_remove key w = Some (removed, w') /\
    locks w' = locks w ++ descent ++ rest /\
    search (S (size (heap w))) key head true l_write (add_events [Acquire l_write head] w)
      = Some ((target, parent), add_events descent w) /\
    hand_over_hand (heap w) (descent ++ rest) = true /\
    replay [] (descent ++ rest) = [] /\
    peak [] descent = descent_locks w /\ (peak [] (descent ++ rest) <= 3)%nat.
Proof.
  intros (l & r & Hdb).
  destruct (db_remove_run key w l r Hdb) as (p & Hp & w' & Hrun & _ & Hl & _).
  destruct (descent_run key true l_write w l r Hdb)
    as (p' & pk & pv & pl & pr & _ & _ & _ & _ & Hs).
  rewrite (descent_locks_tree w l r Hdb).
  destruct Hdb as (Ht & Hnd & _).
  destruct (db_remove_coupled key (heap w) l r p Ht Hnd Hp) as (_ & Hpk & Hr).
  pose proof (db_remove_chained key (heap w) l r p Ht Hnd Hp) as Hc.
  pose proof (descent_peak_exact key true l_write (heap w) l r Ht Hnd) as Hd.
  eexists _, w', (Acquire l_write head :: snd (tsearch key true l_write (Node head "" "" l r))),
    (tremove_events p (tfound key (Node head "" "" l r))), _, _.
  split; [exact Hrun|]. split; [exact Hl|]. split; [exact Hs|]. auto.
Qed.

(** *** Command lines and command files, as they are written *)

Lemma skip_space_blank ws s : blank ws = true -> skip_space (ws +:+ s) = skip_space s.
Proof.
  induction ws as [|c ws IH]; intros Hb; [reflexivity|].
  cbn [blank] in Hb. apply andb_true_iff in Hb as (Hc & Hb).
  rewrite append_cons. cbn [skip_space]. rewrite Hc. auto.
Qed.

Lemma skip_space_all_blank ws : blank ws = true -> skip_space ws = "".
Proof.
  induction ws as [|c ws IH]; intros Hb; [reflexivity|].
  cbn [blank] in Hb. apply andb_true_iff in Hb as (Hc & Hb).
  cbn [skip_space]. rewrite Hc. auto.
Qed.

Lemma scan_s_blank width ws : blank ws = true -> scan_s width ws = None.
Proof.
  intros Hb. unfold scan_s. rewrite (skip_space_all_blank ws Hb).
  now destruct width.
Qed.

(** A token is read whole, whatever white space comes before it. *)
Lemma scan_s_parse ws tok rest :
  blank ws = true -> token tok -> token_end rest ->
  scan_s 255 (ws +:+ tok +:+ rest) = Some (tok, rest).
Proof.
  intros Hb (Hne & Hs & Hlen) Hrest. unfold scan_s.
  rewrite (skip_space_blank ws _ Hb).
  destruct tok as [|c tok]; [congruence|].
  pose proof Hs as Hs'. cbn [has_space] in Hs'. apply orb_false_iff in Hs' as (Hc & _).
  rewrite append_cons. cbn [skip_space]. rewrite Hc. rewrite <- append_cons.
  rewrite (scan_token_append 255 (String c tok) rest Hs Hlen Hrest). reflexivity.
Qed.

Lemma token_append_cons tok s : token tok -> exists c r, tok +:+ s = String c r.
Proof. intros (Hne & _). destruct tok as [|c tok]; [congruence|]. now exists c, (tok +:+ s). Qed.

Lemma request_of_one c rest (op : string -> request) :
  rest <> "" ->
  request_of (String c rest) =
    if Ascii.eqb c "q" then one_token rest Query
    else if Ascii.eqb c "a" then two_tokens rest Add
    else if Ascii.eqb c "d" then one_token rest Delete
    else if Ascii.eqb c "f" then one_token rest File
    else IllFormed.
Proof. destruct rest; [congruence|reflexivity]. Qed.

Lemma one_token_parse ws tok rest op :
  blank ws = true -> token tok -> token_end rest ->
  one_token (ws +:+ tok +:+ rest) op = op tok.
Proof. intros Hb Ht He. unfold one_token. now rewrite (scan_s_parse ws tok rest Hb Ht He). Qed.

Lemma one_token_blank ws op : blank ws = true -> one_token ws op = IllFormed.
Proof. intros Hb. unfold one_token. now rewrite (scan_s_blank 255 ws Hb). Qed.

Lemma blank_token_end ws s : blank ws = true -> ws <> "" -> token_end (ws +:+ s).
Proof.
  destruct ws as [|c ws]; [congruence|]. intros Hb _. cbn [blank] in Hb.
  apply andb_true_iff in Hb as (Hc & _). exact Hc.
Qed.

Lemma two_tokens_parse ws1 k ws2 v rest op :
  blank ws1 = true -> token k -> blank ws2 = true -> ws2 <> "" -> token v ->
  token_end rest ->
  two_tokens (ws1 +:+ k +:+ ws2 +:+ v +:+ rest) op = op k v.
Proof.
  intros Hb1 Hk Hb2 Hne Hv He. unfold two_tokens.
  rewrite (scan_s_parse ws1 k (ws2 +:+ v +:+ rest) Hb1 Hk (blank_token_end _ _ Hb2 Hne)).
  now rewrite (scan_s_parse ws2 v rest Hb2 Hv He).
Qed.

Lemma blank_is_token_end ws : blank ws = true -> token_end ws.
Proof.
  destruct ws as [|c ws]; [exact (fun _ => I)|]. intros Hb. cbn [blank] in Hb.
  apply andb_true_iff in Hb as (Hc & _). exact Hc.
Qed.

Lemma two_tokens_one ws k ws' op :
  blank ws = true -> token k -> blank ws' = true ->
  two_tokens (ws +:+ k +:+ ws') op = IllFormed.
Proof.
  intros Hb Hk Hb'. unfold two_tokens.
  rewrite (scan_s_parse ws k ws' Hb Hk (blank_is_token_end _ Hb')).
  now rewrite (scan_s_blank 255 ws' Hb').
Qed.

Lemma two_tokens_blank ws op : blank ws = true -> two_tokens ws op = IllFormed.
Proof. intros Hb. unfold two_tokens. now rewrite (scan_s_blank 255 ws Hb). Qed.

Lemma append_token_ne ws tok rest : token tok -> ws +:+ tok +:+ rest <> "".
Proof.
  intros (Hne & _) E. destruct ws; [|discriminate]. destruct tok; [congruence|discriminate].
Qed.

(** How a line is read: the byte that selects the operation, white space or
    none, and the tokens. *)
Lemma request_of_parse :
  (forall ws k rest, blank ws = true -> token k -> token_end rest ->
     request_of (String "q" (ws +:+ k +:+ rest)) = Query k /\
     request_of (String "d" (ws +:+ k +:+ rest)) = Delete k /\
     request_of (String "f" (ws +:+ k +:+ rest)) = File k) /\
  (forall ws1 k ws2 v rest,
     blank ws1 = true -> token k -> blank ws2 = true -> ws2 <> "" -> token v ->
     token_end rest ->
     request_of (String "a" (ws1 +:+ k +:+ ws2 +:+ v +:+ rest)) = Add k v) /\
  (forall c ws, blank ws = true -> request_of (String c ws) = IllFormed) /\
  (forall ws k ws', blank ws = true -> token k -> blank ws' = true ->
     request_of (String "a" (ws +:+ k +:+ ws')) = IllFormed) /\
  (forall c rest, command_byte c = false -> request_of (String c rest) = IllFormed) /\
  request_of "" = IllFormed.
Proof.
  split; [|split; [|split; [|split; [|split]]]].
  - intros ws k rest Hb Hk He.
    pose proof (append_token_ne ws k rest Hk) as Hne.
    rewrite !(request_of_one _ _ Query Hne). cbn [Ascii.eqb Bool.eqb].
    now rewrite !one_token_parse.
  - intros ws1 k ws2 v rest Hb1 Hk Hb2 Hne2 Hv He.
    pose proof (append_token_ne ws1 k (ws2 +:+ v +:+ rest) Hk) as Hne.
    rewrite (request_of_one _ _ Query Hne). cbn [Ascii.eqb Bool.eqb].
    now apply two_tokens_parse.
  - intros c ws Hb. destruct ws as [|c' ws']; [reflexivity|].
    rewrite (request_of_one c _ Query) by discriminate.
    rewrite !one_token_blank, two_tokens_blank by exact Hb.
    now repeat destruct (Ascii.eqb c _).
  - intros ws k ws' Hb Hk Hb'.
    pose proof (append_token_ne ws k ws' Hk) as Hne.
    rewrite (request_of_one _ _ Query Hne). cbn [Ascii.eqb Bool.eqb].
    now apply two_tokens_one.
  - intros c rest Hc. unfold command_byte in Hc.
    apply orb_false_iff in Hc as (Hc & Hf). apply orb_false_iff in Hc as (Hc & Hd).
    apply orb_false_iff in Hc as (Hq & Ha).
    destruct rest as [|c' rest']; [reflexivity|].
    rewrite (request_of_one c _ Query) by discriminate. now rewrite Hq, Ha, Hd, Hf.
  - reflexivity.
Qed.

(** [fgets] reads a line that fits the buffer whole, with its newline. *)
Lemma fgets_line room l rest :
  no_newline l = true -> (String.length l < room)%nat ->
  fgets room (l +:+ newline +:+ rest) = (l +:+ newline, rest).
Proof.
  revert room. induction l as [|c l IH]; intros room Hn Hlen.
  - destruct room as [|room]; [simpl in Hlen; lia|]. reflexivity.
  - destruct room as [|room]; [simpl in Hlen; lia|].
    cbn [no_newline] in Hn. apply andb_true_iff in Hn as (Hc & Hn).
    apply negb_true_iff in Hc. rewrite append_cons. cbn [fgets]. rewrite Hc.
    rewrite (IH room Hn); [reflexivity|]. simpl in Hlen. lia.
Qed.

(** A file of lines that fit the buffer is read line by line. *)
Lemma fgets_all_text ls :
  Forall (fun l => no_newline l = true /\ (String.length l < MAXLEN - 1)%nat) ls ->
  forall fuel, (length ls <= fuel)%nat ->
  fgets_all fuel MAXLEN (text ls) = (fun l => l +:+ newline) <$> ls.
Proof.
  induction 1 as [|l ls (Hn & Hlen) Hall IH]; intros fuel Hfuel.
  - now destruct fuel.
  - destruct fuel as [|fuel]; [simpl in Hfuel; lia|].
    cbn [text fmap list_fmap].
    assert (Hs : exists c r, l +:+ newline +:+ text ls = String c r).
    { destruct l as [|c l]; [now exists "010"%char, (text ls)|].
      now exists c, (l +:+ newline +:+ text ls). }
    destruct Hs as (c & r & Hs). rewrite Hs. cbn [fgets_all]. rewrite <- Hs.
    rewrite (fgets_line (MAXLEN - 1) l (text ls) Hn Hlen).
    f_equal. apply IH. simpl in Hfuel. lia.
Qed.

Lemma text_length ls : (length ls <= String.length (text ls))%nat.
Proof.
  induction ls as [|l ls IH]; [simpl; lia|].
  cbn [text length]. rewrite !length_append. simpl. lia.
Qed.

(** The loop over the lines of a file serves the request of each line. *)
Lemma each_line_serve_all `{Allocator} fuel len lines :
  forall response w,
    each_line (fun ibuf response => interpret_command (S fuel) ibuf response len)
              lines response w =
    serve_all fuel (request_of <$> lines) response len w.
Proof.
  induction lines as [|ibuf more IH]; intros response w; [reflexivity|].
  cbn [each_line fmap list_fmap serve_all]. rewrite interpret_command_serve.
  unfold bind. destruct (serve fuel (request_of ibuf) response len w) as [[r w1]|];
    [apply IH|reflexivity].
Qed.

(** *** A dump, read back *)

















(** *** The states a server reaches *)







Lemma sscanf_s_is_token input n t :
  sscanf_s input = (n, t) -> n <? 1 = false -> token t.
Proof.
  unfold sscanf_s. destruct (scan_s 255 input) as [[t' rest]|] eqn:Hs.
  - intros [= <- <-] _. destruct (scan_s_token _ _ _ _ Hs) as (Hne & Hlen).
    repeat split; [exact Hne|exact (scan_s_no_space _ _ _ _ Hs)|exact Hlen].
  - intros [= <- <-]. discriminate.
Qed.




(** ** Claims *)

Lemma db_tree_a1 : db_tree world_a1 Leaf (Node 2 "a" "1" Leaf Leaf).
Proof.
  split; [|split].
  - simpl. repeat split; reflexivity.
  - simpl. repeat constructor; set_solver.
  - simpl. rewrite dom_insert_L, dom_singleton_L. set_solver.
Qed.

Lemma stored_a1 : stored world_a1 "a" "1".
Proof.
  exists 2%positive, (mk_node "a" "1" None None). split; [|split; reflexivity].
  eapply finds_child; reflexivity.
Qed.

Lemma reachable_after_add : reachable world_after_add.
Proof.
  apply (reach_add initial_world "a" "1" 1); [apply (reach_initial [] ∅ ∅ "")|].
  vm_compute. reflexivity.
Qed.


Lemma db_tree_seven : db_tree world_seven Leaf tree_seven.
Proof.
  split; [|split].
  - vm_compute. repeat split.
  - vm_compute. repeat constructor; set_solver.
  - vm_compute. reflexivity.
Qed.


(** *** C1: removing a node with two children *)

(** C1, as the specification states it, fails: after the seven insertions
    and the removal of [d], no run answers ["e"] to the lookup of [d] and
    "not found" to the lookup of [e]. *)
Lemma two_children_removal_as_stated :
  ~ exists w', two_children_scenario initial_world = Some ((1, "e", "not found"), w').
Proof.
  intros [w' Hrun]. vm_compute in Hrun. discriminate.
Qed.

(** C1, amended: after the seven insertions and the removal of [d], the
    lookup of [d] answers "not found" and the lookup of [e] answers [e]: the
    node that held [d] now holds the key and the value of [e].  The heap is a
    search tree that satisfies the ordering invariant, and the dump is the
    preorder listing of that tree. *)
Theorem two_children_removal :
  exists w',
    two_children_scenario initial_world = Some ((1, "not found", "e"), w') /\
    db_tree w' Leaf after_removal /\
    ordered (Node head "" "" Leaf after_removal) /\
    console w' = render_all (tlines 0 (Node head "" "" Leaf after_removal)).
Proof.
  eexists. split; [vm_compute; reflexivity|].
  split; [|split].
  - split; [|split].
    + vm_compute. repeat split.
    + vm_compute. repeat constructor; set_solver.
    + vm_compute. reflexivity.
  - simpl. repeat split; repeat constructor.
  - vm_compute. reflexivity.
Qed.

(** *** C2: an insertion whose node cannot be built *)

(** When [node_constructor] fails, [db_add] leaves the heap as it was, and
    reports the key added all the same when the key was not there. *)
Lemma db_add_not_built `{Allocator} (w : world) (key val : string) :
  db_inv w -> absent w key -> ~ constructible w key val ->
  exists w', db_add key val w = Some (1, w') /\ heap w' = heap w.
Proof.
  intros (l & r & Hdb) Hab Hno.
  apply (absent_tfound _ _ _ _ Hdb) in Hab.
  destruct (db_add_tree key val w l r Hdb) as (ret & w1 & l' & r' & Hadd & Hdb1 & Hcase).
  destruct Hcase as [(Hf & _)|(_ & -> & [(Hok & _)|(_ & Hheap & _)])]; try contradiction.
  eauto.
Qed.

(** C2, at its failing inputs: with a key of 257 bytes, and with an
    allocation that fails, [db_add] returns 1 and [interpret_command]
    answers "added", although the heap is as it was and the key is not
    found afterwards. *)
Theorem db_add_reports_added_on_failure :
  (exists w',
     db_add (long_key 257) "v" initial_world = Some (1, w') /\
     heap w' = heap initial_world /\
     exists w'', db_query (long_key 257) "" 512 w' = Some ("not found", w'')) /\
  (exists w',
     interpret_command 1 "a k v" "" 512 world_out_of_memory = Some ("added", w') /\
     heap w' = heap world_out_of_memory /\
     exists w'', interpret_command 1 "q k" "" 512 w' = Some ("not found", w'')).
Proof.
  split.
  - eexists. split; [vm_compute; reflexivity|]. split; [vm_compute; reflexivity|].
    eexists. vm_compute. reflexivity.
  - eexists. split; [vm_compute; reflexivity|]. split; [vm_compute; reflexivity|].
    eexists. vm_compute. reflexivity.
Qed.

(** *** C3: an insertion, then a lookup *)

(** C3, as stated, fails: after ["a"] is added with ["1"], adding it with
    ["2"] and looking it up does not give ["2"]. *)
Lemma insert_then_lookup_as_stated :
  ~ (forall (w : world) (key val : string),
       reachable w ->
       (String.length key < MAXLEN)%nat -> (String.length val < MAXLEN)%nat ->
       exists added w1 w2,
         db_add key val w = Some (added, w1) /\
         db_query key "" 512 w1 = Some (val, w2)).
Proof.
  intros Hall.
  destruct (db_add "a" "1" initial_world) as [[added w]|] eqn:Hfirst;
    [|vm_compute in Hfirst; discriminate].
  assert (Hreach : reachable w) by exact (reach_add _ _ _ _ _ (reach_initial [] ∅ ∅ "") Hfirst).
  destruct (Hall w "a" "2" Hreach) as (ret & w1 & w2 & Hadd & Hq);
    [unfold MAXLEN; simpl; lia|unfold MAXLEN; simpl; lia|].
  vm_compute in Hfirst. injection Hfirst as _ <-.
  vm_compute in Hadd. injection Hadd as _ <-.
  vm_compute in Hq. discriminate.
Qed.

(** C3, amended: from a reachable state, with a key and a value shorter than
    [MAXLEN] and no failure of allocation, [db_add] and then [db_query] both
    return; when the key was absent, [db_add] returns 1 and the lookup gives
    the value added; when the key was there, [db_add] returns 0, changes
    nothing, and the lookup gives the value that was stored before. *)
Theorem insert_then_lookup `{Allocator} (w : world) (key val buf : string) (len : nat) :
  reachable w ->
  (String.length key < MAXLEN)%nat -> (String.length val < MAXLEN)%nat ->
  hd CtorOk (faults w) = CtorOk ->
  exists added w1 w2 res,
    db_add key val w = Some (added, w1) /\
    db_query key buf len w1 = Some (snprintf buf len res, w2) /\
    ((absent w key /\ added = 1 /\ res = val) \/
     (stored w key res /\ added = 0 /\ heap w1 = heap w)).
Proof.
  intros Hreach Hk Hv Hok. destruct (reachable_inv w Hreach) as (l & r & Hdb).
  destruct (db_add_tree key val w l r Hdb) as (ret & w1 & l' & r' & Hadd & Hdb1 & Hcase).
  destruct (db_query_run key buf len w1 l' r' Hdb1) as (w2 & Hq & _).
  exists ret, w1, w2, (tvalue (tfound key (Node head "" "" l' r'))).
  split; [exact Hadd|]. split; [exact Hq|].
  destruct Hcase as [(Hf & -> & Hheap & -> & ->)|(Hf & -> & [(_ & Htree)|(Hno & _)])].
  - right. split; [|auto]. apply (stored_tfound _ _ _ _ _ Hdb). auto.
  - left. split; [now apply (absent_tfound _ _ _ _ Hdb)|]. split; [reflexivity|].
    rewrite Htree. unfold new_node.
    rewrite tfound_tinsert by (try discriminate; auto using same_path_refl).
    rewrite (snprintf_short "" MAXLEN key Hk), strcmp_refl. simpl.
    apply snprintf_short, Hv.
  - exfalso. apply Hno. unfold constructible. repeat split; [lia|lia|exact Hok].
Qed.

Lemma insert_then_lookup_witness :
  exists added w1 w2 res,
    db_add "b" "2" world_after_add = Some (added, w1) /\
    db_query "b" "" 512 w1 = Some (snprintf "" 512 res, w2) /\
    ((absent world_after_add "b" /\ added = 1 /\ res = "2") \/
     (stored world_after_add "b" res /\ added = 0 /\ heap w1 = heap world_after_add)).
Proof.
  apply (insert_then_lookup world_after_add "b" "2" "" 512).
  - exact reachable_after_add.
  - unfold MAXLEN. simpl. lia.
  - unfold MAXLEN. simpl. lia.
  - reflexivity.
Defined.

(** *** C4: the ordering invariant *)




(** *** C5: the dump *)





(** *** C6: a key that is already there *)

(** C6: when the key is already there with the value [v1], [db_add] returns
    0 (already in the database) and leaves the heap as it was, and a lookup
    of the key still gives [v1]. *)
Theorem db_add_existing `{Allocator} (w : world) (key v1 v2 buf : string) (len : nat) :
  db_inv w -> stored w key v1 ->
  exists w1 w2,
    db_add key v2 w = Some (0, w1) /\
    heap w1 = heap w /\
    db_query key buf len w1 = Some (snprintf buf len v1, w2).
Proof.
  intros (l & r & Hdb) Hst.
  apply (stored_tfound _ _ _ _ _ Hdb) in Hst as (Hne & Hv).
  destruct (db_add_tree key v2 w l r Hdb) as (ret & w1 & l' & r' & Hadd & Hdb1 & Hcase).
  destruct Hcase as [(_ & -> & Hheap & -> & ->)|(Hf & _)]; [|contradiction].
  destruct (db_query_run key buf len w1 l r Hdb1) as (w2 & Hq & _).
  exists w1, w2. rewrite Hv in Hq. auto.
Qed.

Lemma db_add_existing_witness :
  exists w1 w2,
    db_add "a" "2" world_a1 = Some (0, w1) /\
    heap w1 = heap world_a1 /\
    db_query "a" "" 512 w1 = Some ("1", w2).
Proof.
  exact (db_add_existing world_a1 "a" "1" "2" "" 512
           (ex_intro _ _ (ex_intro _ _ db_tree_a1)) stored_a1).
Defined.

(** *** C7: the sentinel *)

(** C7: in a database, [db_query], [db_add] and [db_remove] return and leave
    the sentinel in the heap, at the root of the tree, with its empty key and
    value; [search], entered with the lock of the sentinel held, never
    returns the sentinel as its target; [db_cleanup] frees every node but the
    sentinel and leaves the sentinel as it was. *)
Theorem sentinel_kept `{Allocator} (w : world) (key val buf : string) (len : nat)
    (want_parent : bool) (lk : lock_t) :
  db_inv w ->
  (exists res w', db_query key buf len w = Some (res, w') /\
                  db_inv w' /\ sentinel_intact w') /\
  (exists added w', db_add key val w = Some (added, w') /\
                    db_inv w' /\ sentinel_intact w') /\
  (exists removed w', db_remove key w = Some (removed, w') /\
                      db_inv w' /\ sentinel_intact w') /\
  (exists target parent w',
     search (S (size (heap w))) key head want_parent lk (add_events [Acquire lk head] w)
       = Some ((target, parent), w') /\
     target <> Some head) /\
  (exists w', db_cleanup w = Some (tt, w') /\
              dom (heap w') = {[ head ]} /\
              heap w' !! head = heap w !! head /\ sentinel_intact w').
Proof.
  intros Hinv. pose proof Hinv as (l & r & Hdb).
  split; [|split; [|split; [|split]]].
  - destruct (db_query_run key buf len w l r Hdb) as (w' & Hq & Hh & _).
    assert (db_inv w') by (apply (db_inv_heap w); assumption).
    eauto 6 using db_inv_sentinel.
  - destruct (db_add_tree key val w l r Hdb) as (ret & w' & l' & r' & Hadd & Hdb' & _).
    assert (db_inv w') by (now exists l', r').
    eauto 6 using db_inv_sentinel.
  - destruct (db_remove_tree key w l r Hdb) as (w' & l' & r' & Hrm & Hdb' & _).
    assert (db_inv w') by (now exists l', r').
    eauto 6 using db_inv_sentinel.
  - destruct (descent_run key want_parent lk w l r Hdb) as (p & pk & pv & pl & pr & _ & _ & _ & _ & Hs).
    eexists _, _, _. split; [exact Hs|]. apply (tfound_not_head key w l r Hdb).
  - destruct (db_cleanup_run w l r Hdb) as (w' & Hc & Hdom & Hhead).
    exists w'. split; [exact Hc|]. split; [exact Hdom|]. split; [exact Hhead|].
    destruct (db_inv_sentinel w Hinv) as (lc & rc & Hs). exists lc, rc. now rewrite Hhead.
Qed.

Lemma sentinel_kept_witness :
  (exists res w', db_query "a" "" 512 world_a1 = Some (res, w') /\
                  db_inv w' /\ sentinel_intact w') /\
  (exists added w', db_add "a" "2" world_a1 = Some (added, w') /\
                    db_inv w' /\ sentinel_intact w') /\
  (exists removed w', db_remove "a" world_a1 = Some (removed, w') /\
                      db_inv w' /\ sentinel_intact w') /\
  (exists target parent w',
     search (S (size (heap world_a1))) "a" head true l_write
            (add_events [Acquire l_write head] world_a1)
       = Some ((target, parent), w') /\
     target <> Some head) /\
  (exists w', db_cleanup world_a1 = Some (tt, w') /\
              dom (heap w') = {[ head ]} /\
              heap w' !! head = heap world_a1 !! head /\ sentinel_intact w').
Proof.
  apply (sentinel_kept world_a1 "a" "2" "" 512 true l_write).
  exact (ex_intro _ _ (ex_intro _ _ db_tree_a1)).
Defined.

(** *** C8: lock coupling *)

(** C8, as stated, fails: in the database with the seven keys, the removal
    of [d] holds three locks at once, those of the node of [d], of the node
    of [f] and of the node of [e]. *)
Lemma two_locks_as_stated :
  ~ (forall (w : world) (key : string) (removed : Z) (w' : world) (evs : list lock_event),
       reachable w ->
       db_remove key w = Some (removed, w') -> locks w' = locks w ++ evs ->
       (peak [] evs <= 2)%nat).
Proof.
  intros Hall.
  assert (Hreach : reachable world_seven).
  { apply (insert_all_reachable seven_keys initial_world tt);
      [apply (reach_initial [] ∅ ∅ "")|vm_compute; reflexivity]. }
  destruct (db_remove "d" world_seven) as [[removed w']|] eqn:Hrun;
    [|vm_compute in Hrun; discriminate].
  specialize (Hall world_seven "d" removed w'
                [Acquire l_write 1; Acquire l_write 2; Release 1; Acquire l_write 6;
                 Acquire l_write 7; Release 6; Release 2; Release 7]%positive
                Hreach Hrun).
  vm_compute in Hrun. injection Hrun as _ <-.
  specialize (Hall eq_refl). vm_compute in Hall. lia.
Qed.

(** C8, amended: the first lock [db_query], [db_add] and [db_remove] take is
    that of the sentinel, they take every other lock while they hold that of
    the parent of its node, never while they hold none, and they release
    every lock they took.  [db_query] and [db_add], and the descent of
    [search] in [db_remove], hold two locks at once and no more, or one when
    the sentinel has no child; [db_remove] as a whole holds at most three,
    for it keeps the lock of the node to remove while it walks to the
    successor. *)
Theorem lock_coupling `{Allocator} (w : world) (key val buf : string) (len : nat) :
  db_inv w ->
  (exists res w' evs,
     db_query key buf len w = Some (res, w') /\ locks w' = locks w ++ evs /\
     hand_over_hand (heap w) evs = true /\ replay [] evs = [] /\
     peak [] evs = descent_locks w) /\
  (exists added w' evs,
     db_add key val w = Some (added, w') /\ locks w' = locks w ++ evs /\
     hand_over_hand (heap w) evs = true /\ replay [] evs = [] /\
     peak [] evs = descent_locks w) /\
  (exists removed w' descent rest target parent,
     db_remove key w = Some (removed, w') /\
     locks w' = locks w ++ descent ++ rest /\
     search (S (size (heap w))) key head true l_write (add_events [Acquire l_write head] w)
       = Some ((target, parent), add_events descent w) /\
     hand_over_hand (heap w) (descent ++ rest) = true /\
     replay [] (descent ++ rest) = [] /\
     peak [] descent = descent_locks w /\ (peak [] (descent ++ rest) <= 3)%nat) /\
  (descent_locks w <= 2)%nat.
Proof.
  intros Hinv. split; [|split; [|split]].
  - apply db_query_hand_over_hand, Hinv.
  - apply db_add_hand_over_hand, Hinv.
  - apply db_remove_hand_over_hand, Hinv.
  - unfold descent_locks. destruct (heap w !! head) as [hn|]; [|lia].
    destruct (rchild hn); lia.
Qed.

Lemma lock_coupling_witness :
  (exists res w' evs,
     db_query "d" "" 512 world_seven = Some (res, w') /\
     locks w' = locks world_seven ++ evs /\
     hand_over_hand (heap world_seven) evs = true /\ replay [] evs = [] /\
     peak [] evs = descent_locks world_seven) /\
  (exists added w' evs,
     db_add "d" "2" world_seven = Some (added, w') /\
     locks w' = locks world_seven ++ evs /\
     hand_over_hand (heap world_seven) evs = true /\ replay [] evs = [] /\
     peak [] evs = descent_locks world_seven) /\
  (exists removed w' descent rest target parent,
     db_remove "d" world_seven = Some (removed, w') /\
     locks w' = locks world_seven ++ descent ++ rest /\
     search (S (size (heap world_seven))) "d" head true l_write
            (add_events [Acquire l_write head] world_seven)
       = Some ((target, parent), add_events descent world_seven) /\
     hand_over_hand (heap world_seven) (descent ++ rest) = true /\
     replay [] (descent ++ rest) = [] /\
     peak [] descent = descent_locks world_seven /\
     (peak [] (descent ++ rest) <= 3)%nat) /\
  (descent_locks world_seven <= 2)%nat.
Proof.
  apply (lock_coupling world_seven "d" "2" "" 512).
  exact (ex_intro _ _ (ex_intro _ _ db_tree_seven)).
Defined.

(** *** C9: the dispatch of commands *)

Lemma values_are_tokens_a1 : values_are_tokens world_a1.
Proof.
  intros a n Hn. unfold world_a1 in Hn. simpl in Hn.
  apply lookup_insert_Some in Hn as [[_ <-]|[_ Hn]]; [reflexivity|].
  apply lookup_singleton_Some in Hn as [_ <-]. reflexivity.
Qed.

(** C9, as stated, fails: once [db_add] has stored the text "ill-formed
    command" as the value of [k], the line [q k], which is well formed, is
    answered "ill-formed command". *)
Lemma interpret_command_dispatch_as_stated :
  ~ (forall (w : world) (command reply : string) (w' : world),
       reachable w ->
       interpret_command 1 command "" 512 w = Some (reply, w') ->
       (reply = ill_formed <-> malformed command = true)).
Proof.
  intros Hall.
  destruct (db_add "k" ill_formed initial_world) as [[added w]|] eqn:Hadd;
    [|vm_compute in Hadd; discriminate].
  assert (Hreach : reachable w) by exact (reach_add _ _ _ _ _ (reach_initial [] ∅ ∅ "") Hadd).
  destruct (interpret_command 1 "q k" "" 512 w) as [[reply w']|] eqn:Hrun;
    [|vm_compute in Hadd; injection Hadd as _ <-; vm_compute in Hrun; discriminate].
  destruct (Hall w "q k" reply w' Hreach Hrun) as (Hill & _).
  vm_compute in Hadd. injection Hadd as _ <-.
  vm_compute in Hrun. injection Hrun as <- _.
  specialize (Hill eq_refl). vm_compute in Hill. discriminate.
Qed.

(** C9, amended.  [interpret_command] reads the operation off the first byte
    of a line of two bytes or more and its arguments off the tokens of the
    remainder, whatever follows the first byte, and runs it: a lookup, an
    insertion, a removal, or the lines of a file, each served as a command
    in its turn.  A token is read whether white space comes before it or
    not; a line whose remainder is white space, or that has one token where
    an insertion needs two, or whose first byte is none of [q], [a], [d] and
    [f], asks for nothing.  A file of lines that fit the buffer is read line
    by line.  In a database whose values are tokens, and with room for the
    reply, the reply is "ill-formed command" exactly when the line has at
    most one byte, or its first byte is none of the four, or the tokens
    needed cannot be read; and the command leaves a database whose values
    are tokens. *)
Theorem interpret_command_dispatch `{Allocator} (w : world) (command response : string)
    (len fuel : nat) :
  db_inv w ->
  match request_of command with
  | Query key =>
      exists res w',
        db_query key response len w = Some (res, w') /\
        interpret_command (S fuel) command response len w =
          Some (if (String.length res =? 0)%nat then snprintf res len "not found" else res, w')
  | Add key val =>
      exists added w',
        db_add key val w = Some (added, w') /\
        interpret_command (S fuel) command response len w =
          Some (snprintf response len
                  (if added =? 0 then "already in database" else "added"), w')
  | Delete key =>
      exists removed w',
        db_remove key w = Some (removed, w') /\
        interpret_command (S fuel) command response len w =
          Some (snprintf response len
                  (if removed =? 0 then "not in database" else "removed"), w')
  | File path =>
      match fs w !! path with
      | None =>
          interpret_command (S fuel) command response len w =
            Some (snprintf response len "bad file name", w)
      | Some content =>
          let lines := fgets_all (String.length content) MAXLEN content in
          interpret_command (S (S fuel)) command response len w =
            (let* reply := serve_all fuel (request_of <$> lines) response len in
             ret (snprintf reply len "file processed")) w /\
          (flat lines ->
           exists reply w',
             interpret_command (S (S fuel)) command response len w =
               Some (snprintf reply len "file processed", w'))
      end
  | IllFormed =>
      interpret_command (S fuel) command response len w =
        Some (snprintf response len ill_formed, w)
  end /\
  ((forall ws k rest, blank ws = true -> token k -> token_end rest ->
      request_of (String "q" (ws +:+ k +:+ rest)) = Query k /\
      request_of (String "d" (ws +:+ k +:+ rest)) = Delete k /\
      request_of (String "f" (ws +:+ k +:+ rest)) = File k) /\
   (forall ws1 k ws2 v rest,
      blank ws1 = true -> token k -> blank ws2 = true -> ws2 <> "" -> token v ->
      token_end rest ->
      request_of (String "a" (ws1 +:+ k +:+ ws2 +:+ v +:+ rest)) = Add k v) /\
   (forall c ws, blank ws = true -> request_of (String c ws) = IllFormed) /\
   (forall ws k ws', blank ws = true -> token k -> blank ws' = true ->
      request_of (String "a" (ws +:+ k +:+ ws')) = IllFormed) /\
   (forall c rest, command_byte c = false -> request_of (String c rest) = IllFormed) /\
   request_of "" = IllFormed) /\
  (forall ls,
     Forall (fun l => no_newline l = true /\ (String.length l < MAXLEN - 1)%nat) ls ->
     fgets_all (String.length (text ls)) MAXLEN (text ls) = (fun l => l +:+ newline) <$> ls) /\
  (values_are_tokens w -> (String.length ill_formed < len)%nat ->
   forall reply w',
     interpret_command (S fuel) command response len w = Some (reply, w') ->
     (reply = ill_formed <-> malformed command = true) /\
     db_inv w' /\ values_are_tokens w').
Proof.
  intros Hinv. pose proof Hinv as (l & r & Hdb).
  rewrite malformed_request. split; [|split; [exact request_of_parse|split]].
  - rewrite !interpret_command_serve.
    destruct (request_of command) as [key|key val|key|path|]; unfold serve.
    + destruct (db_query_run key response len w l r Hdb) as (w' & Hq & _).
      eexists _, w'. split; [exact Hq|]. rewrite (bind_some _ _ _ _ _ Hq).
      destruct (String.length _ =? 0)%nat; reflexivity.
    + destruct (db_add_tree key val w l r Hdb) as (ret & w' & l' & r' & Hadd & _).
      exists ret, w'. split; [exact Hadd|]. rewrite (bind_some _ _ _ _ _ Hadd).
      destruct (ret =? 0); reflexivity.
    + destruct (db_remove_tree key w l r Hdb) as (w' & l' & r' & Hrm & _).
      eexists _, w'. split; [exact Hrm|]. rewrite (bind_some _ _ _ _ _ Hrm).
      destruct (_ =? 0); reflexivity.
    + cbv beta iota delta [fopen_r bind].
      destruct (fs w !! path) as [content|]; [|reflexivity].
      cbv zeta. split.
      * rewrite each_line_serve_all. reflexivity.
      * intros Hflat.
        destruct (each_line_flat fuel len _ Hflat response w Hinv) as (reply & w' & Hrun & _).
        exists reply, w'. rewrite Hrun. reflexivity.
    + reflexivity.
  - intros ls Hls. apply fgets_all_text; [exact Hls|apply text_length].
  - intros Htok Hlen reply w' Hrun.
    assert (Hlen' : (18 < len)%nat) by exact Hlen.
    split; [|exact (interpret_command_tokens _ _ _ _ _ _ _ Hinv Htok Hrun)].
    rewrite interpret_command_serve in Hrun.
    destruct (request_of command) as [key|key val|key|path|]; unfold serve in Hrun.
    + apply bind_inv in Hrun as (res & w1 & Hq & Hrun).
      pose proof (db_query_reply key response len w res w1 Hinv Htok Hlen Hq) as Hne.
      destruct (String.length res =? 0)%nat; injection Hrun as <- _;
        (split; [contradiction|discriminate]).
    + apply bind_inv in Hrun as (added & w1 & _ & Hrun).
      destruct (added =? 0); injection Hrun as <- _;
        (split; [intros E; exfalso; revert E; apply snprintf_not_ill_formed; [lia|discriminate]
                |discriminate]).
    + apply bind_inv in Hrun as (removed & w1 & _ & Hrun).
      destruct (removed =? 0); injection Hrun as <- _;
        (split; [intros E; exfalso; revert E; apply snprintf_not_ill_formed; [lia|discriminate]
                |discriminate]).
    + apply bind_inv in Hrun as (finput & w1 & _ & Hrun).
      destruct finput as [content|].
      * apply bind_inv in Hrun as (res & w2 & _ & Hrun). injection Hrun as <- _.
        split; [intros E; exfalso; revert E; apply snprintf_not_ill_formed; [lia|discriminate]
               |discriminate].
      * injection Hrun as <- _.
        split; [intros E; exfalso; revert E; apply snprintf_not_ill_formed; [lia|discriminate]
               |discriminate].
    + injection Hrun as <- _. rewrite snprintf_ill_formed by exact Hlen. tauto.
Qed.

Lemma interpret_command_dispatch_witness :
  ((exists res w',
      db_query "uit" "" 512 world_a1 = Some (res, w') /\
      interpret_command 1 "quit" "" 512 world_a1 =
        Some (if (String.length res =? 0)%nat then snprintf res 512 "not found" else res, w')) /\
   (forall reply w',
      interpret_command 1 "quit" "" 512 world_a1 = Some (reply, w') ->
      (reply = ill_formed <-> malformed "quit" = true) /\
      db_inv w' /\ values_are_tokens w')) /\
  (exists w' w'',
     interpret_command 2 "f cmds" "" 512 world_batch = Some ("file processed", w') /\
     interpret_command 1 "q b" "" 512 w' = Some ("2", w'')).
Proof.
  split.
  - destruct (interpret_command_dispatch world_a1 "quit" "" 512 0) as (Hrun & _ & _ & Hill).
    + exact (ex_intro _ _ (ex_intro _ _ db_tree_a1)).
    + split; [exact Hrun|]. apply Hill; [exact values_are_tokens_a1|simpl; lia].
  - destruct (interpret_command_dispatch world_batch "f cmds" "" 512 0) as (Hrun & _).
    + exact (ex_intro _ _ (ex_intro _ _ db_tree_a1)).
    + change (request_of "f cmds") with (File "cmds") in Hrun. cbv beta iota in Hrun.
      change (fs world_batch !! "cmds") with (Some (text ["a b 2"; "q b"])) in Hrun.
      cbv beta iota zeta in Hrun. destruct Hrun as (Hrun & _).
      rewrite Hrun. eexists _, _. split; vm_compute; reflexivity.
Defined.

(** *** C10: a key of [MAXLEN] bytes *)




(** ** Further properties of the database *)

Lemma db_ordered_a1 : db_ordered world_a1.
Proof.
  exists Leaf, (Node 2 "a" "1" Leaf Leaf). split; [exact db_tree_a1|]. split.
  - simpl. repeat split; repeat constructor.
  - unfold keys_bounded, MAXLEN. simpl. repeat constructor; simpl; lia.
Qed.

Lemma values_short_a1 : values_short world_a1.
Proof.
  intros a n Hn. unfold world_a1 in Hn. simpl in Hn.
  apply lookup_insert_Some in Hn as [[_ <-]|[_ Hn]]; [unfold MAXLEN; simpl; lia|].
  apply lookup_singleton_Some in Hn as [_ <-]. unfold MAXLEN. simpl. lia.
Qed.

(** X1: in an ordered database the entries, read off the heap in order, are
    sorted by key, and [db_query] answers with the value the list of entries
    gives the key, or with "not found" when the list gives none; it leaves the
    heap as it was. *)
Theorem db_query_is_assoc `{Allocator} (w : world) (key buf : string) (len : nat) :
  db_ordered w ->
  strictly_increasing (entries w).*1 /\
  exists w',
    db_query key buf len w =
      Some (snprintf buf len (default "not found" (assoc key (entries w))), w') /\
    heap w' = heap w.
Proof.
  intros Hord. split; [apply db_ordered_sorted, Hord|apply db_query_assoc, Hord].
Qed.

Lemma db_query_is_assoc_witness :
  strictly_increasing (entries world_a1).*1 /\
  exists w',
    db_query "a" "" 512 world_a1 =
      Some (snprintf "" 512 (default "not found" (assoc "a" (entries world_a1))), w') /\
    heap w' = heap world_a1.
Proof. exact (db_query_is_assoc world_a1 "a" "" 512 db_ordered_a1). Defined.

(** X2: in an ordered database, [db_add] of a key that is not empty, with a
    key and a value shorter than [MAXLEN] and no failure of allocation,
    returns 0 and keeps the entries when the key is among them, and otherwise
    returns 1 and puts the entry at its place in the sorted list.  A lookup
    in the entries afterwards gives the new value for that key and, for every
    other key, what it gave before. *)
Theorem db_add_inserts_entry `{Allocator} (w : world) (key val : string) :
  db_ordered w ->
  key <> "" -> (String.length key < MAXLEN)%nat -> (String.length val < MAXLEN)%nat ->
  hd CtorOk (faults w) = CtorOk ->
  exists added w',
    db_add key val w = Some (added, w') /\ db_ordered w' /\
    match assoc key (entries w) with
    | Some _ => added = 0 /\ entries w' = entries w
    | None =>
        added = 1 /\ entries w' = insert_entry key val (entries w) /\
        forall k, assoc k (entries w') =
                    if String.eqb k key then Some val else assoc k (entries w)
    end.
Proof.
  intros Hord Hne Hk Hv Hok.
  destruct (db_add_entries key val w Hord Hne Hk Hv Hok) as (added & w' & Hadd & Hord' & Hcase).
  exists added, w'. split; [exact Hadd|]. split; [exact Hord'|].
  destruct (assoc key (entries w)) eqn:Hassoc; [exact Hcase|].
  destruct Hcase as (-> & Hent). split; [reflexivity|]. split; [exact Hent|].
  intros k. rewrite Hent. now apply assoc_insert_entry.
Qed.

Lemma db_add_inserts_entry_witness :
  exists added w',
    db_add "b" "2" world_a1 = Some (added, w') /\ db_ordered w' /\
    match assoc "b" (entries world_a1) with
    | Some _ => added = 0 /\ entries w' = entries world_a1
    | None =>
        added = 1 /\ entries w' = insert_entry "b" "2" (entries world_a1) /\
        forall k, assoc k (entries w') =
                    if String.eqb k "b" then Some "2" else assoc k (entries world_a1)
    end.
Proof.
  apply (db_add_inserts_entry world_a1 "b" "2").
  - exact db_ordered_a1.
  - discriminate.
  - unfold MAXLEN. simpl. lia.
  - unfold MAXLEN. simpl. lia.
  - reflexivity.
Defined.

(** X3: in an ordered database whose values are shorter than [MAXLEN],
    [db_remove] returns 1 when the key is among the entries and 0 when it is
    not, and leaves an ordered database whose entries are those before
    without the key, in the same order: a lookup in them gives nothing for the
    key and, for every other key, what it gave before. *)
Theorem db_remove_deletes_entry `{Allocator} (w : world) (key : string) :
  db_ordered w -> values_short w ->
  exists removed w',
    db_remove key w = Some (removed, w') /\ db_ordered w' /\ values_short w' /\
    removed = match assoc key (entries w) with Some _ => 1 | None => 0 end /\
    entries w' = filter (fun p => p.1 <> key) (entries w) /\
    forall k, assoc k (entries w') = if String.eqb k key then None else assoc k (entries w).
Proof.
  intros Hord Hvs.
  destruct (db_remove_entries key w Hord Hvs) as (removed & w' & Hrm & Hord' & Hvs' & Hent & Hret).
  exists removed, w'. repeat (split; [assumption|]).
  intros k. rewrite Hent. apply assoc_filter.
Qed.

Lemma db_remove_deletes_entry_witness :
  exists removed w',
    db_remove "a" world_a1 = Some (removed, w') /\ db_ordered w' /\ values_short w' /\
    removed = match assoc "a" (entries world_a1) with Some _ => 1 | None => 0 end /\
    entries w' = filter (fun p => p.1 <> "a") (entries world_a1) /\
    forall k, assoc k (entries w') =
                if String.eqb k "a" then None else assoc k (entries world_a1).
Proof.
  exact (db_remove_deletes_entry world_a1 "a" db_ordered_a1 values_short_a1).
Defined.


Lemma absent_a1_b : absent world_a1 "b".
Proof. apply (absent_tfound _ _ _ _ db_tree_a1). vm_compute. reflexivity. Qed.


(** X5: [db_print] takes the lock of a node while it holds that of its
    parent and releases every lock it took, but it keeps the locks of the
    whole path from the sentinel to the node it prints: when it prints, the
    greatest number of locks it holds at once is the height of the tree, the
    sentinel counted.  When the file cannot be opened it takes no lock. *)
Theorem db_print_locks `{Allocator} w l r filename :
  db_tree w l r ->
  exists printed w' evs,
    db_print filename w = Some (printed, w') /\ locks w' = locks w ++ evs /\
    coupled (heap w) [] evs = true /\ replay [] evs = [] /\
    ((printed = 0 /\ peak [] evs = height (Node head "" "" l r)) \/
     (printed = -1 /\ evs = [])).
Proof.
  intros Hdb. pose proof (db_print_run filename w l r Hdb) as Hp. cbv zeta in Hp.
  assert (Hlog : coupled (heap w) [] (Acquire l_read head :: tprint_events (Node head "" "" l r))
                   = true /\
                 replay [] (Acquire l_read head :: tprint_events (Node head "" "" l r)) = [] /\
                 peak [] (Acquire l_read head :: tprint_events (Node head "" "" l r))
                   = height (Node head "" "" l r)).
  { destruct Hdb as (Ht & Hnd & _).
    destruct (tprint_coupled (heap w) _ [] head Ht Hnd) as (Hc & Hr & Hpk);
      [intros x Hx; inversion Hx|reflexivity|].
    split; [now apply coupled_first|]. split; [exact Hr|].
    cbn [peak length]. rewrite Hpk. simpl. lia. }
  destruct Hlog as (Hc & Hr & Hpk).
  destruct (print_target filename) as [|path].
  - destruct Hp as (w' & Hrun & _ & _ & Hlocks). eexists 0, w', _.
    split; [exact Hrun|]. split; [exact Hlocks|]. auto.
  - destruct (decide (path ∈ unwritable w)).
    + exists (-1), w, []. split; [exact Hp|]. split; [now rewrite app_nil_r|]. auto.
    + destruct Hp as (w' & Hrun & _ & _ & Hlocks). eexists 0, w', _.
      split; [exact Hrun|]. split; [exact Hlocks|]. auto.
Qed.

Lemma db_print_locks_witness :
  exists printed w' evs,
    db_print None world_a1 = Some (printed, w') /\ locks w' = locks world_a1 ++ evs /\
    coupled (heap world_a1) [] evs = true /\ replay [] evs = [] /\
    ((printed = 0 /\ peak [] evs = height (Node head "" "" Leaf (Node 2 "a" "1" Leaf Leaf))) \/
     (printed = -1 /\ evs = [])).
Proof. exact (db_print_locks world_a1 Leaf (Node 2 "a" "1" Leaf Leaf) None db_tree_a1). Defined.

(** X6: [db_cleanup] frees the nodes and leaves the sentinel as it was: when
    the sentinel had a right child, its [rchild] still names the freed node,
    and a later [db_query], [db_add] or [db_remove] reads that freed node at
    the first step of its descent. *)
Theorem db_cleanup_dangling `{Allocator} w l a k v rl rr :
  db_tree w l (Node a k v rl rr) ->
  exists w' n,
    db_cleanup w = Some (tt, w') /\
    heap w' !! head = Some n /\ rchild n = Some a /\ heap w' !! a = None /\
    (forall key buf len, db_query key buf len w' = None) /\
    (forall key val, db_add key val w' = None) /\
    (forall key, db_remove key w' = None).
Proof.
  intros Hdb. destruct (db_cleanup_run w l _ Hdb) as (w' & Hrun & Hdom & Hhead).
  pose proof Hdb as ((Hh & _) & Hnd & _). cbn [root] in Hh. rewrite Hh in Hhead.
  assert (Ha : heap w' !! a = None).
  { apply not_elem_of_dom. rewrite Hdom. intros Hin. apply elem_of_singleton in Hin as ->.
    cbn [addrs] in Hnd. apply NoDup_cons in Hnd as (Hin & _). apply Hin.
    apply elem_of_app. right. left. }
  exists w', (mk_node "" "" (root l) (Some a)).
  split; [exact Hrun|]. split; [exact Hhead|]. split; [reflexivity|]. split; [exact Ha|].
  split; [|split].
  - intros key buf len. unfold db_query.
    rewrite (bind_some _ _ _ _ _ (fuel_of_eq w')).
    rewrite (bind_some _ _ _ _ _ (lock_at l_read _ _ _ Hhead)).
    unfold bind at 1.
    now rewrite (search_freed _ key false l_read (add_events [Acquire l_read head] w')
                   (root l) a Hhead Ha).
  - intros key val. unfold db_add.
    rewrite (bind_some _ _ _ _ _ (fuel_of_eq w')).
    rewrite (bind_some _ _ _ _ _ (lock_at l_write _ _ _ Hhead)).
    unfold bind at 1.
    now rewrite (search_freed _ key true l_write (add_events [Acquire l_write head] w')
                   (root l) a Hhead Ha).
  - intros key. unfold db_remove.
    rewrite (bind_some _ _ _ _ _ (fuel_of_eq w')).
    rewrite (bind_some _ _ _ _ _ (lock_at l_write _ _ _ Hhead)).
    unfold bind at 1.
    now rewrite (search_freed _ key true l_write (add_events [Acquire l_write head] w')
                   (root l) a Hhead Ha).
Qed.

Lemma db_cleanup_dangling_witness :
  exists w' n,
    db_cleanup world_a1 = Some (tt, w') /\
    heap w' !! head = Some n /\ rchild n = Some 2%positive /\ heap w' !! 2%positive = None /\
    (forall key buf len, db_query key buf len w' = None) /\
    (forall key val, db_add key val w' = None) /\
    (forall key, db_remove key w' = None).
Proof. exact (db_cleanup_dangling world_a1 Leaf 2 "a" "1" Leaf Leaf db_tree_a1). Defined.

(** X7: [db_query] and [db_print] take read locks only, [db_add] and
    [db_remove] write locks only. *)
Theorem lock_modes `{Allocator} w key val buf len filename :
  db_inv w ->
  (exists res w' evs, db_query key buf len w = Some (res, w') /\
                      locks w' = locks w ++ evs /\ takes_only l_read evs) /\
  (exists printed w' evs, db_print filename w = Some (printed, w') /\
                          locks w' = locks w ++ evs /\ takes_only l_read evs) /\
  (exists added w' evs, db_add key val w = Some (added, w') /\
                        locks w' = locks w ++ evs /\ takes_only l_write evs) /\
  (exists removed w' evs, db_remove key w = Some (removed, w') /\
                          locks w' = locks w ++ evs /\ takes_only l_write evs).
Proof.
  intros (l & r & Hdb). split; [|split; [|split]].
  - destruct (db_query_run key buf len w l r Hdb) as (w' & Hq & _ & Hl).
    eexists _, w', _. split; [exact Hq|]. split; [exact Hl|].
    apply Forall_cons. split; [reflexivity|]. apply takes_only_app.
    split; [apply tsearch_takes_only|]. destruct (root _); repeat constructor.
  - pose proof (db_print_run filename w l r Hdb) as Hp. cbv zeta in Hp.
    destruct (print_target filename) as [|path].
    + destruct Hp as (w' & Hrun & _ & _ & Hl). eexists _, w', _.
      split; [exact Hrun|]. split; [exact Hl|].
      apply Forall_cons. split; [reflexivity|apply tprint_takes_only].
    + destruct (decide (path ∈ unwritable w)).
      * exists (-1), w, []. split; [exact Hp|]. split; [now rewrite app_nil_r|constructor].
      * destruct Hp as (w' & Hrun & _ & _ & Hl). eexists _, w', _.
        split; [exact Hrun|]. split; [exact Hl|].
        apply Forall_cons. split; [reflexivity|apply tprint_takes_only].
  - destruct (db_add_run key val w l r Hdb) as (p & pn & _ & _ & _ & w' & Hrun).
    destruct (root (child_of key (tfocus key (Node head "" "" l r)))) as [target|].
    + destruct Hrun as (Hrun & _ & Hl). eexists _, w', _.
      split; [exact Hrun|]. split; [exact Hl|].
      apply Forall_cons. split; [reflexivity|]. apply takes_only_app.
      split; [apply tsearch_takes_only|repeat constructor].
    + destruct Hrun as (Hrun & _ & Hl). eexists _, w', _.
      split; [exact Hrun|]. split; [exact Hl|].
      apply Forall_cons. split; [reflexivity|]. apply takes_only_app.
      split; [apply tsearch_takes_only|repeat constructor].
  - destruct (db_remove_run key w l r Hdb) as (p & _ & w' & Hrun & _ & Hl & _).
    eexists _, w', _. split; [exact Hrun|]. split; [exact Hl|].
    apply Forall_cons. split; [reflexivity|]. apply takes_only_app.
    split; [apply tsearch_takes_only|apply tremove_takes_only].
Qed.

Lemma lock_modes_witness :
  (exists res w' evs, db_query "a" "" 512 world_a1 = Some (res, w') /\
                      locks w' = locks world_a1 ++ evs /\ takes_only l_read evs) /\
  (exists printed w' evs, db_print None world_a1 = Some (printed, w') /\
                          locks w' = locks world_a1 ++ evs /\ takes_only l_read evs) /\
  (exists added w' evs, db_add "a" "2" world_a1 = Some (added, w') /\
                        locks w' = locks world_a1 ++ evs /\ takes_only l_write evs) /\
  (exists removed w' evs, db_remove "a" world_a1 = Some (removed, w') /\
                          locks w' = locks world_a1 ++ evs /\ takes_only l_write evs).
Proof.
  exact (lock_modes world_a1 "a" "2" "" 512 None (ex_intro _ _ (ex_intro _ _ db_tree_a1))).
Defined.


Lemma token_short s : token s -> (String.length s < MAXLEN)%nat.
Proof. intros (_ & _ & Hlen). unfold MAXLEN. lia. Qed.

(** X8: the commands written with tokens are read back as written, and they
    compose: in a database where the key is absent and no allocation fails,
    [a k v] answers "added", then [q k] answers [v], then [d k] answers
    "removed", then [q k] answers "not found", and the heap is as it was
    before the four commands. *)
Theorem command_round_trip `{Allocator} (w : world) (k v response : string) (len : nat) :
  db_inv w -> token k -> token v -> absent w k ->
  hd CtorOk (faults w) = CtorOk ->
  (String.length v < len)%nat -> (9 < len)%nat ->
  exists w1 w2 w3 w4,
    interpret_command 1 ("a " +:+ k +:+ " " +:+ v) response len w = Some ("added", w1) /\
    interpret_command 1 ("q " +:+ k) "added" len w1 = Some (v, w2) /\
    interpret_command 1 ("d " +:+ k) v len w2 = Some ("removed", w3) /\
    interpret_command 1 ("q " +:+ k) "removed" len w3 = Some ("not found", w4) /\
    heap w4 = heap w.
Proof.
  intros (l & r & Hdb) Hk Hv Hab Hok Hlen Hlen9.
  pose proof (token_short k Hk) as Hks. pose proof (token_short v Hv) as Hvs.
  apply (absent_tfound _ _ _ _ Hdb) in Hab.
  rewrite !interpret_command_serve.
  rewrite (request_of_add k v Hk Hv), (request_of_query k Hk), (request_of_delete k Hk).
  unfold serve.
  (* the insertion *)
  destruct (db_add_tree k v w l r Hdb) as (ret & w1 & l1 & r1 & Hadd & Hdb1 & Hcase).
  destruct Hcase as [(Hf & _)|(_ & -> & [(_ & Htree)|(Hno & _)])]; [congruence| |].
  2: { exfalso. apply Hno. unfold constructible. repeat split; [lia|lia|exact Hok]. }
  unfold new_node in Htree.
  rewrite (snprintf_short "" MAXLEN k Hks), (snprintf_short "" MAXLEN v Hvs) in Htree.
  (* the lookup that finds the value *)
  destruct (db_query_run k "added" len w1 l1 r1 Hdb1) as (w2 & Hq & Hh2 & _).
  rewrite Htree in Hq.
  rewrite tfound_tinsert in Hq by (try discriminate; auto using same_path_refl).
  rewrite strcmp_refl in Hq. cbn [Z.eqb tvalue] in Hq.
  rewrite (snprintf_short "added" len v Hlen) in Hq.
  assert (Hdb2 : db_tree w2 l1 r1) by (unfold db_tree in *; now rewrite Hh2).
  (* the removal *)
  destruct (db_remove_tree k w2 l1 r1 Hdb2) as (w3 & l3 & r3 & Hrm & Hdb3 & Htree3).
  rewrite Htree in Htree3, Hrm.
  rewrite tremove_tinsert in Htree3 by (auto; discriminate).
  rewrite tfound_tinsert in Hrm by (try discriminate; auto using same_path_refl).
  rewrite strcmp_refl in Hrm. change (db_remove k w2 = Some (1, w3)) in Hrm.
  injection Htree3 as -> ->.
  (* the lookup that finds nothing *)
  destruct (db_query_run k "removed" len w3 l r Hdb3) as (w4 & Hq4 & Hh4 & _).
  rewrite Hab in Hq4. cbn [tvalue] in Hq4.
  rewrite (snprintf_short "removed" len "not found") in Hq4 by (simpl; lia).
  exists w1, w2, w3, w4.
  rewrite (bind_some _ _ _ _ _ Hadd), (bind_some _ _ _ _ _ Hq),
    (bind_some _ _ _ _ _ Hrm), (bind_some _ _ _ _ _ Hq4).
  cbn [Z.eqb].
  rewrite (snprintf_short response len "added") by (simpl; lia).
  rewrite (snprintf_short v len "removed") by (simpl; lia).
  destruct Hk as (_ & _ & _). destruct Hv as (Hvne & _ & _).
  destruct v as [|c v']; [congruence|]. cbn [String.length Nat.eqb].
  repeat split; try reflexivity.
  rewrite Hh4. exact (represents_unique _ _ _ Hdb3 Hdb).
Qed.

Lemma token_b : token "b".
Proof. repeat split; [discriminate|simpl; lia]. Qed.

Lemma token_2 : token "2".
Proof. repeat split; [discriminate|simpl; lia]. Qed.

Lemma command_round_trip_witness :
  exists w1 w2 w3 w4,
    interpret_command 1 ("a " +:+ "b" +:+ " " +:+ "2") "" 512 world_a1 = Some ("added", w1) /\
    interpret_command 1 ("q " +:+ "b") "added" 512 w1 = Some ("2", w2) /\
    interpret_command 1 ("d " +:+ "b") "2" 512 w2 = Some ("removed", w3) /\
    interpret_command 1 ("q " +:+ "b") "removed" 512 w3 = Some ("not found", w4) /\
    heap w4 = heap world_a1.
Proof.
  apply (command_round_trip world_a1 "b" "2" "" 512).
  - exact (ex_intro _ _ (ex_intro _ _ db_tree_a1)).
  - exact token_b.
  - exact token_2.
  - exact absent_a1_b.
  - reflexivity.
  - simpl. lia.
  - lia.
Defined.


Lemma addrs_items_length t : length (addrs t) = length (items t).
Proof.
  induction t as [|a k v l IHl r IHr]; [reflexivity|].
  cbn [addrs items length]. rewrite !length_app. cbn [length]. lia.
Qed.

(** X9: whatever operations were run, the heap holds the sentinel and one
    node for each entry of the database, and nothing else: no node is lost
    and none is kept after its entry is removed. *)
Theorem one_node_per_entry `{Allocator} (w : world) :
  reachable w -> size (heap w) = S (length (entries w)).
Proof.
  intros Hreach. destruct (reachable_inv w Hreach) as (l & r & Hdb).
  rewrite (entries_tree w l r Hdb). destruct Hdb as (_ & Hnd & Hdom).
  rewrite <- size_dom, Hdom, size_list_to_set by exact Hnd.
  cbn [addrs length]. now rewrite !length_app, !addrs_items_length.
Qed.

Lemma one_node_per_entry_witness :
  size (heap world_after_add) = S (length (entries world_after_add)).
Proof. exact (one_node_per_entry world_after_add reachable_after_add). Defined.

(** ** Further properties of the server *)

Lemma registered_two_clients : Server.registered server_two_clients [1%positive; 2%positive].
Proof.
  split; [reflexivity|]. split.
  - apply (bool_decide_unpack _). vm_compute. reflexivity.
  - split; [|reflexivity]. cbn.
    eexists. split; [vm_compute; reflexivity|]. split; [reflexivity|]. split; [reflexivity|].
    eexists. split; [vm_compute; reflexivity|]. split; [reflexivity|]. split; [reflexivity|].
    exact I.
Qed.

Lemma third_client_out : (3%positive : positive) ∉ [1%positive; 2%positive].
Proof. apply (bool_decide_unpack _). vm_compute. reflexivity. Qed.

(** X10: how [run_client] starts.  When the server is stopped the client
    is not added and nothing changes.  Otherwise, under the two mutexes, the
    client is added at the end of the list, which stays a ring (the client
    is its head when it was empty), and is counted; no client changes its
    thread or its stream, the
    clients outside the list are untouched, and the two mutexes are taken
    and released in opposite order. *)
Theorem run_client_joins (s : Server.state) (cs : list positive) (client : positive)
    (n : Server.client_t) :
  Server.registered s cs -> Server.clients s !! client = Some n -> client ∉ cs ->
  if Server.server_status s =? Server.STOPPED then
    Server.run_client_register (Some client) s = Some (false, s)
  else
    exists s',
      Server.run_client_register (Some client) s = Some (true, s') /\
      Server.registered s' (cs ++ [client]) /\
      (forall a, a ∉ cs -> a <> client -> Server.clients s' !! a = Server.clients s !! a) /\
      (forall a, Server.thread <$> Server.clients s' !! a =
                   Server.thread <$> Server.clients s !! a /\
                 Server.cxstr <$> Server.clients s' !! a =
                   Server.cxstr <$> Server.clients s !! a) /\
      Server.trace s' =
        Server.trace s ++ [Server.MutexLock Server.server_mutex;
                           Server.MutexLock Server.thread_list_mutex;
                           Server.MutexUnlock Server.thread_list_mutex;
                           Server.MutexUnlock Server.server_mutex].
Proof.
  intros Hreg Hn Hout. destruct (Server.server_status s =? Server.STOPPED) eqn:Hs.
  - apply run_client_register_stopped. now apply Z.eqb_eq.
  - apply Z.eqb_neq in Hs.
    destruct (run_client_register_run s cs client n Hreg Hs Hn Hout)
      as (s' & Hrun & Hreg' & Hsame & Hf & _ & _ & Htr).
    exists s'. auto.
Qed.

Lemma run_client_joins_witness :
  exists s',
    Server.run_client_register (Some 3%positive) server_two_clients = Some (true, s') /\
    Server.registered s' [1%positive; 2%positive; 3%positive].
Proof.
  pose proof (run_client_joins server_two_clients [1%positive; 2%positive] 3%positive
                (Server.mk_client 13 23 None None)
                registered_two_clients eq_refl third_client_out) as H.
  cbn [Server.server_status server_two_clients Z.eqb Server.CONTINUE Server.STOPPED] in H.
  destruct H as (s' & Hrun & Hreg & _). exists s'. split; [exact Hrun|exact Hreg].
Defined.

(** X11: [thread_cleanup] of a client of the list, when its loop is given
    as many turns as there are clients before it and one more.  The client
    is taken out of the list, which stays a ring of the other clients in
    their order (its head is the next client when the head left, and null
    when the list is empty), its stream is shut down and it is freed, and
    the count goes down by one.  The other clients keep their thread and
    stream, those outside the list are untouched, and the main thread is
    signalled exactly when the list has become empty. *)
Theorem thread_cleanup_leaves (s : Server.state) (pre : list positive) (client : positive)
    (post : list positive) (n : Server.client_t) (fuel : nat) :
  Server.registered s (pre ++ client :: post) ->
  Server.clients s !! client = Some n ->
  (length pre < fuel)%nat ->
  exists s',
    Server.thread_cleanup fuel (Some client) s = Some (tt, s') /\
    Server.registered s' (pre ++ post) /\
    Server.clients s' !! client = None /\
    (forall a, a ∉ pre ++ client :: post ->
               Server.clients s' !! a = Server.clients s !! a) /\
    (forall a, a <> client ->
               Server.thread <$> Server.clients s' !! a =
                 Server.thread <$> Server.clients s !! a /\
               Server.cxstr <$> Server.clients s' !! a =
                 Server.cxstr <$> Server.clients s !! a) /\
    Server.trace s' =
      Server.trace s ++
      [Server.MutexLock Server.server_mutex; Server.MutexLock Server.thread_list_mutex;
       Server.CommShutdown (Server.cxstr n)] ++
      match pre ++ post with [] => [Server.CondSignal] | _ => [] end ++
      [Server.MutexUnlock Server.thread_list_mutex; Server.MutexUnlock Server.server_mutex].
Proof.
  intros Hreg Hn Hfuel.
  destruct (thread_cleanup_run s pre client post n fuel Hreg Hn Hfuel)
    as (s' & Hrun & Hreg' & Hfree & Hsame & Hf & _ & _ & Htr).
  exists s'. auto 10.
Qed.

Lemma thread_cleanup_leaves_witness :
  exists s',
    Server.thread_cleanup 1 (Some 1%positive) server_two_clients = Some (tt, s') /\
    Server.registered s' [2%positive].
Proof.
  destruct (thread_cleanup_leaves server_two_clients [] 1%positive [2%positive]
              (Server.mk_client 11 21 (Some 2%positive) (Some 2%positive)) 1
              registered_two_clients eq_refl ltac:(simpl; lia))
    as (s' & Hrun & Hreg & _).
  exists s'. split; [exact Hrun|exact Hreg].
Defined.

(** X12: [thread_cleanup] of a client that is not in the list, as
    [run_client] calls it when the server was stopped before the client was
    added.  When the list is empty the client is neither shut down nor
    freed: only the mutexes are taken and released.  When it is not,
    [thread_cleanup] does not return, however many turns its loop is given:
    the loop goes from client to client of the ring and the client it looks
    for is none of them. *)
Theorem thread_cleanup_unregistered (s : Server.state) (cs : list positive)
    (client : positive) (fuel : nat) :
  Server.registered s cs -> client ∉ cs ->
  Server.thread_cleanup fuel (Some client) s =
    match cs with
    | [] => Some (tt, Server.add_trace
                        [Server.MutexLock Server.server_mutex;
                         Server.MutexLock Server.thread_list_mutex;
                         Server.MutexUnlock Server.thread_list_mutex;
                         Server.MutexUnlock Server.server_mutex] s)
    | _ :: _ => None
    end.
Proof.
  intros Hreg Hout. destruct cs as [|c0 rest].
  - apply thread_cleanup_none_counted. now destruct Hreg as (_ & _ & _ & ->).
  - now apply (thread_cleanup_absent s (c0 :: rest)).
Qed.

Lemma thread_cleanup_unregistered_witness :
  Server.thread_cleanup 1000 (Some 3%positive) server_two_clients = None.
Proof.
  exact (thread_cleanup_unregistered server_two_clients [1%positive; 2%positive] 3%positive
           1000 registered_two_clients third_client_out).
Defined.

(** X13: [delete_all], when its loop is given as many turns as there are
    clients.  Under [thread_list_mutex] it cancels the thread of each client
    of the list exactly once, those after the head in their order and then
    the head; the list and the clients are as they were. *)
Theorem delete_all_cancels (s : Server.state) (cs : list positive) (fuel : nat) :
  Server.registered s cs -> (length cs <= fuel)%nat ->
  exists ts,
    Server.delete_all fuel s =
      Some (tt, Server.add_trace
                  ([Server.MutexLock Server.thread_list_mutex] ++
                   (Server.Cancel <$> ts) ++
                   [Server.MutexUnlock Server.thread_list_mutex]) s) /\
    Forall2 (fun c t => Server.thread <$> Server.clients s !! c = Some t)
            (tail cs ++ take 1 cs) ts.
Proof.
  intros Hreg Hfuel. exists (Server.threads (Server.clients s) (tail cs ++ take 1 cs)).
  split; [exact (delete_all_run s cs fuel Hreg Hfuel)|].
  apply threads_Forall2. intros c Hc. destruct Hreg as (_ & _ & Hring & _).
  apply (ring_in _ cs); [exact Hring|].
  destruct cs as [|c0 rest]; [inversion Hc|]. cbn [tail take] in Hc.
  apply elem_of_app in Hc as [Hc|Hc]; [now right|].
  apply list_elem_of_singleton in Hc. subst c. left.
Qed.

Lemma delete_all_cancels_witness :
  exists ts,
    Server.delete_all 2 server_two_clients =
      Some (tt, Server.add_trace
                  ([Server.MutexLock Server.thread_list_mutex] ++
                   (Server.Cancel <$> ts) ++
                   [Server.MutexUnlock Server.thread_list_mutex]) server_two_clients) /\
    Forall2 (fun c t => Server.thread <$> Server.clients server_two_clients !! c = Some t)
            [2%positive; 1%positive] ts.
Proof.
  exact (delete_all_cancels server_two_clients [1%positive; 2%positive] 2
           registered_two_clients ltac:(simpl; lia)).
Defined.

(** X14: a client that joins the list and then leaves it.  After
    [run_client] has added the client and [thread_cleanup] has removed it,
    the list, its head, the links of its clients and the count are exactly
    what they were, and the client is freed. *)
Theorem join_then_leave (s : Server.state) (cs : list positive) (client : positive)
    (n : Server.client_t) (fuel : nat) :
  Server.registered s cs -> Server.server_status s <> Server.STOPPED ->
  Server.clients s !! client = Some n -> client ∉ cs -> (length cs < fuel)%nat ->
  exists s1 s2,
    Server.run_client_register (Some client) s = Some (true, s1) /\
    Server.thread_cleanup fuel (Some client) s1 = Some (tt, s2) /\
    Server.clients s2 = delete client (Server.clients s) /\
    Server.thread_list_head s2 = Server.thread_list_head s /\
    Server.num_client_threads s2 = Server.num_client_threads s /\
    Server.server_status s2 = Server.server_status s /\
    Server.stopped s2 = Server.stopped s.
Proof. apply register_cleanup. Qed.

Lemma join_then_leave_witness :
  exists s1 s2,
    Server.run_client_register (Some 3%positive) server_two_clients = Some (true, s1) /\
    Server.thread_cleanup 3 (Some 3%positive) s1 = Some (tt, s2) /\
    Server.clients s2 = delete 3%positive (Server.clients server_two_clients).
Proof.
  destruct (join_then_leave server_two_clients [1%positive; 2%positive] 3%positive
              (Server.mk_client 13 23 None None) 3
              registered_two_clients ltac:(discriminate) eq_refl third_client_out
              ltac:(simpl; lia))
    as (s1 & s2 & H1 & H2 & H3 & _).
  exists s1, s2. auto.
Defined.

(** X15: the end of the clients.  When the clients of the list run
    [thread_cleanup], each once and in whatever order, every one of them
    returns, the list ends empty with a count of zero, every client is freed,
    the streams are shut down one by one in that order, and the main thread
    is signalled once, after the last stream is shut down.  Clients outside
    the list are untouched. *)
Theorem every_client_leaves (s : Server.state) (cs order : list positive) (fuel : nat) :
  Server.registered s cs -> order ≡ₚ cs -> (length cs <= fuel)%nat ->
  exists s' evs streams,
    thread_cleanup_each fuel order s = Some (tt, s') /\
    Server.registered s' [] /\
    (forall c, c ∈ cs -> Server.clients s' !! c = None) /\
    (forall a, a ∉ cs -> Server.clients s' !! a = Server.clients s !! a) /\
    Server.trace s' = Server.trace s ++ evs /\
    filter (fun e => on_mutex e = false) evs =
      (Server.CommShutdown <$> streams) ++
      match order with [] => [] | _ => [Server.CondSignal] end /\
    Forall2 (fun c x => Server.cxstr <$> Server.clients s !! c = Some x) order streams.
Proof. apply thread_cleanup_each_run. Qed.

Lemma every_client_leaves_witness :
  exists s',
    thread_cleanup_each 2 [2%positive; 1%positive] server_two_clients = Some (tt, s') /\
    Server.registered s' [].
Proof.
  destruct (every_client_leaves server_two_clients [1%positive; 2%positive]
              [2%positive; 1%positive] 2 registered_two_clients
              (perm_swap 1%positive 2%positive []) ltac:(simpl; lia))
    as (s' & evs & streams & Hrun & Hreg & _).
  exists s'. split; [exact Hrun|exact Hreg].
Defined.
